(** * XMSS: a shallow embedding of the Merkle state engine of CryBtoS/xmss

    The development follows the Go sources:
    - [xmss.go]: key pair, [Sign], [Verify], [Export]/[Import], [randHash],
      [ltree], the signature (de)serialisation and [rootFromSig];
    - the Merkle file (stack engine, [initMerkle], [refreshAuth], [build],
      [traverse]).

    Conventions.
    - A [uint32] is a [Z] in [0, 2^32); every operation that can overflow is
      followed by [u32].  A [uint64] is treated alike with [u64].
    - A [[]byte] is a [list byte].  Writing into a slice of fixed length
      ([copy], [PutUint32], a digest written into [out]) keeps its length.
    - A Go panic (index out of range, nil dereference) is [Panic]; a returned
      [error] is [Error].
    - The hash primitives (SHA-256, HMAC) are outside the repository: they
      are variables of the section. *)

From Stdlib Require Import ZArith List Lia Bool Strings.Byte String.
From stdpp Require Import base list.
Import ListNotations.
Local Open Scope Z_scope.

(** ** Results of fallible code *)

Inductive result (A : Type) : Type :=
| Ok (a : A)
| Error (e : string)
| Panic.
Arguments Ok {A} a.
Arguments Error {A} e.
Arguments Panic {A}.

Definition rbind {A B} (r : result A) (f : A -> result B) : result B :=
  match r with
  | Ok a => f a
  | Error e => Error e
  | Panic => Panic
  end.

Notation "'do' x <- r ; k" := (rbind r (fun x => k))
  (at level 10, x name, r at level 100, k at level 200).
Notation "'do' ' p <- r ; k" := (rbind r (fun p => k))
  (at level 10, p pattern, r at level 100, k at level 200).

Definition of_option {A} (o : option A) : result A :=
  match o with Some a => Ok a | None => Panic end.

Definition is_ok {A} (r : result A) : bool :=
  match r with Ok _ => true | _ => false end.

(** ** Machine integers *)

Definition u32 (z : Z) : Z := z mod 2 ^ 32.
Definition u64 (z : Z) : Z := z mod 2 ^ 64.
Definition MaxUint32 : Z := 2 ^ 32 - 1.

(** [1 << h] on a [uint32]: the bits shifted past bit 31 are lost. *)
Definition shl32 (x h : Z) : Z := u32 (Z.shiftl x h).
(** [1 << h] on a [uint64]. *)
Definition shl64 (x h : Z) : Z := u64 (Z.shiftl x h).

(** ** Bytes *)

Definition bytes := list byte.

#[global] Instance byte_eq_dec : EqDecision byte := Byte.byte_eq_dec.

Definition byte_of_Z (z : Z) : byte :=
  match Byte.of_N (Z.to_N (z mod 256)) with
  | Some b => b
  | None => x00
  end.

Definition Z_of_byte (b : byte) : Z := Z.of_N (Byte.to_N b).

Definition zeros (k : nat) : bytes := replicate k x00.

(** [binary.BigEndian.PutUint32] produces these four bytes. *)
Definition be32 (v : Z) : bytes :=
  [byte_of_Z (Z.shiftr v 24); byte_of_Z (Z.shiftr v 16);
   byte_of_Z (Z.shiftr v 8); byte_of_Z v].

(** [binary.BigEndian.Uint32(b)]: panics when [b] is shorter than 4. *)
Definition Uint32 (b : bytes) : result Z :=
  match b with
  | b0 :: b1 :: b2 :: b3 :: _ =>
      Ok (Z.lor (Z.shiftl (Z_of_byte b0) 24)
           (Z.lor (Z.shiftl (Z_of_byte b1) 16)
              (Z.lor (Z.shiftl (Z_of_byte b2) 8) (Z_of_byte b3))))
  | _ => Panic
  end.

(** [copy(dst[off:], src)] for [off <= len(dst)]: the bytes of [src] that fit
    replace those of [dst] from [off] on; [dst] keeps its length. *)
Definition copy_at (off : nat) (src dst : bytes) : bytes :=
  take off dst ++ take (length dst - off) src ++ drop (off + length src) dst.

(** [copy(dst[off:], src)] with the bound check of the slice expression. *)
Definition copy_to (off : Z) (src dst : bytes) : result bytes :=
  if (0 <=? off) && (off <=? Z.of_nat (length dst))
  then Ok (copy_at (Z.to_nat off) src dst)
  else Panic.

(** [b[lo:hi]], checked against the length of [b] (Go checks against the
    capacity, which is at least the length). *)
Definition slice (b : bytes) (lo hi : Z) : result bytes :=
  if (0 <=? lo) && (lo <=? hi) && (hi <=? Z.of_nat (length b))
  then Ok (take (Z.to_nat (hi - lo)) (drop (Z.to_nat lo) b))
  else Panic.

(** [b[lo:]] *)
Definition slice_from (b : bytes) (lo : Z) : result bytes :=
  slice b lo (Z.of_nat (length b)).

(** A digest written into a 32-byte buffer [out]. *)
Definition fit32 (d : bytes) : bytes := copy_at 0 d (zeros 32).

(** [xorWords(dst, a, b)] on 32-byte words. *)
Definition xor_byte (a b : byte) : byte :=
  byte_of_Z (Z.lxor (Z_of_byte a) (Z_of_byte b)).

Fixpoint xor_bytes (a b : bytes) : bytes :=
  match a, b with
  | x :: a', y :: b' => xor_byte x y :: xor_bytes a' b'
  | _, _ => []
  end.

Definition xorWords (a b : bytes) : bytes := fit32 (xor_bytes a b).

(** ** Constants of the parameter set *)

Definition n : Z := 32.
Definition wlen : Z := 67.
Definition wots_w : Z := 16.

(** ** Addresses (ADRS) *)

(** Modelled from the spec: the address type, its setters and the field
    constants live in a file that is not under src/.  An address is eight
    big-endian 32-bit words: layer, tree (two words), type, and three
    type-dependent words; the last word selects key or mask. *)
Record addr : Type := mkAddr {
  a_layer : Z; a_tree_hi : Z; a_tree_lo : Z; a_type : Z;
  a_w4 : Z; a_w5 : Z; a_w6 : Z; a_km : Z }.

Inductive adrField : Type :=
| adrLayer | adrType | adrOTS | adrLtree | adrChain | adrHash
| adrHeight | adrIndex | adrKM.

(** [make(addr, 32)] *)
Definition make_addr : addr := mkAddr 0 0 0 0 0 0 0 0.

(** [addrs.set(field, v)] for a [uint32] value [v]. *)
Definition set (f : adrField) (v : Z) (a : addr) : addr :=
  match f with
  | adrLayer => mkAddr v (a_tree_hi a) (a_tree_lo a) (a_type a) (a_w4 a) (a_w5 a) (a_w6 a) (a_km a)
  | adrType => mkAddr (a_layer a) (a_tree_hi a) (a_tree_lo a) v (a_w4 a) (a_w5 a) (a_w6 a) (a_km a)
  | adrOTS | adrLtree =>
      mkAddr (a_layer a) (a_tree_hi a) (a_tree_lo a) (a_type a) v (a_w5 a) (a_w6 a) (a_km a)
  | adrChain | adrHeight =>
      mkAddr (a_layer a) (a_tree_hi a) (a_tree_lo a) (a_type a) (a_w4 a) v (a_w6 a) (a_km a)
  | adrHash | adrIndex =>
      mkAddr (a_layer a) (a_tree_hi a) (a_tree_lo a) (a_type a) (a_w4 a) (a_w5 a) v (a_km a)
  | adrKM => mkAddr (a_layer a) (a_tree_hi a) (a_tree_lo a) (a_type a) (a_w4 a) (a_w5 a) (a_w6 a) v
  end.

(** [addrs.setTree(tree)] for a [uint64] value. *)
Definition setTree (tree : Z) (a : addr) : addr :=
  mkAddr (a_layer a) (u32 (Z.shiftr tree 32)) (u32 tree) (a_type a)
         (a_w4 a) (a_w5 a) (a_w6 a) (a_km a).

(** The 32 bytes handed to the PRF. *)
Definition addr_bytes (a : addr) : bytes :=
  be32 (a_layer a) ++ be32 (a_tree_hi a) ++ be32 (a_tree_lo a) ++ be32 (a_type a)
  ++ be32 (a_w4 a) ++ be32 (a_w5 a) ++ be32 (a_w6 a) ++ be32 (a_km a).

(** ** Data of the Merkle state engine *)

(** [nh]: a node of the tree. *)
Record nh : Type := mkNh { nh_node : bytes; nh_height : Z; nh_index : Z }.

(** [stack]: the slice [stack] is kept with its top first. *)
Record stack : Type := mkStack {
  st_stack : list nh; st_height : Z; st_leaf : Z; st_layer : Z; st_tree : Z }.

(** [merkle] *)
Record merkle : Type := mkMerkle {
  m_leaf : Z; m_height : Z; m_stacks : list stack; m_auth : list bytes;
  m_layer : Z; m_tree : Z }.

(** [prf]: the object made by [newPRF(seed)]. *)
Record prf : Type := newPRF { prf_seed : bytes }.

Record XMSSParameters : Type := mkParams { Height : Z }.

Record PublicKey : Type := mkPublicKey {
  pub_params : XMSSParameters; publicSeed : bytes; root : bytes }.

(** [PrivateKey]; the field [m] is a pointer and is nil in [new(PrivateKey)]. *)
Record PrivateKey : Type := mkPrivateKey {
  priv_pub : PublicKey; msgPRF : prf; wotsPRF : prf; priv_m : option merkle }.

Record PublicKeyExport : Type := mkPublicKeyExport {
  e_params : XMSSParameters; PublicSeed : bytes; Root : bytes }.

Record PrivateKeyExport : Type := mkPrivateKeyExport {
  e_pub : PublicKeyExport; Index : Z; SecretKeyPRF : bytes; SecretKeySeed : bytes }.

(** [xmssSig] with its embedded [xmssSigBody]. *)
Record xmssSigBody : Type := mkSigBody { body_sig : list bytes; body_auth : list bytes }.
Record xmssSig : Type := mkSig { sig_index : Z; sig_r : bytes; sig_body : xmssSigBody }.

(** ** Hash primitives, WOTS+, L-tree and the stack engine *)

Section XMSS.

(** SHA-256 based primitives, external to the repository: the PRF, the keyed
    hashes F and H, the message hash, and HMAC-SHA256. *)
Variable PRF : bytes -> bytes -> bytes.
Variable hashF_raw : bytes -> bytes -> bytes.
Variable hashH_raw : bytes -> bytes -> bytes -> bytes.
Variable hashMsg_raw : bytes -> bytes -> bytes.
Variable hmac_sha256 : bytes -> bytes -> bytes.

(** [p.sum(m, out)]: the digest lands in the 32-byte buffer [out]. *)
Definition sum (p : prf) (msg : bytes) : bytes := fit32 (PRF (prf_seed p) msg).

(** [p.sumInt(a, out)]: the integer is zero-extended to 32 bytes. *)
Definition sumInt (p : prf) (a : Z) : bytes := sum p (zeros 28 ++ be32 a).

Definition hashF (key x : bytes) : bytes := fit32 (hashF_raw key x).
Definition hashH (key l rt : bytes) : bytes := fit32 (hashH_raw key l rt).
Definition hashMsg (rr msg : bytes) : bytes := fit32 (hashMsg_raw rr msg).

(** *** WOTS+ *)

(** Modelled from the spec: the WOTS+ file is not under src/.  The digest is
    read as 64 base-16 digits; the checksum of the digits, shifted left by
    four bits and held in two bytes, gives three more digits from its low
    twelve bits. *)
Definition msg_digits (hmsg : bytes) : list Z :=
  flat_map (fun b => [Z.shiftr (Z_of_byte b) 4; Z.land (Z_of_byte b) 15]) (fit32 hmsg).

Definition checksum (ds : list Z) : Z :=
  fold_right (fun d acc => (wots_w - 1 - d) + acc) 0 ds.

Definition checksum_digits (c : Z) : list Z :=
  let v := Z.shiftl c 4 mod 2 ^ 16 in
  [Z.land (Z.shiftr v 8) 15; Z.land (Z.shiftr v 4) 15; Z.land v 15].

Definition wots_digits (hmsg : bytes) : list Z :=
  let ds := msg_digits hmsg in ds ++ checksum_digits (checksum ds).

(** Modelled from the spec: the chain function.  Step [j] sets the hash
    index to [j], draws a key with selector 0 and a mask with selector 1, and
    applies F to the masked value. *)
Fixpoint chain (x : bytes) (start : Z) (steps : nat) (p : prf) (a : addr) : bytes :=
  match steps with
  | O => x
  | S k =>
      let a := set adrHash start a in
      let a := set adrKM 0 a in
      let key := sum p (addr_bytes a) in
      let a := set adrKM 1 a in
      let bm := sum p (addr_bytes a) in
      chain (hashF key (xorWords x bm)) (start + 1) k p a
  end.

(** Modelled from the spec: chain [i] of a key runs under chain index [i]. *)
Fixpoint chains_from (i : Z) (xs : list bytes) (f : Z -> bytes -> addr -> bytes)
    (a : addr) : list bytes :=
  match xs with
  | [] => []
  | x :: xs' => f i x (set adrChain i a) :: chains_from (i + 1) xs' f a
  end.

(** Modelled from the spec: [sk.newWotsPubKey(pubPRF, addrs, pk)]. *)
Definition newWotsPubKey (sk : list bytes) (p : prf) (a : addr) : list bytes :=
  chains_from 0 sk (fun _ x a' => chain x 0 (Z.to_nat (wots_w - 1)) p a') a.

(** Modelled from the spec: [sk.goNewWotsPubKey], the same key computed by
    several goroutines. *)
Definition goNewWotsPubKey (sk : list bytes) (p : prf) (a : addr) : list bytes :=
  newWotsPubKey sk p a.

(** Modelled from the spec: [wsk.sign(hmsg, pubPRF, addrs)]. *)
Definition wots_sign (sk : list bytes) (hmsg : bytes) (p : prf) (a : addr) : list bytes :=
  let ds := wots_digits hmsg in
  chains_from 0 sk (fun i x a' => chain x 0 (Z.to_nat (nth (Z.to_nat i) ds 0)) p a') a.

(** Modelled from the spec: [sig.pubkey(hmsg, prf, addrs)]. *)
Definition wots_pubkey (sg : list bytes) (hmsg : bytes) (p : prf) (a : addr) : list bytes :=
  let ds := wots_digits hmsg in
  chains_from 0 sg
    (fun i x a' =>
       let d := nth (Z.to_nat i) ds 0 in
       chain x d (Z.to_nat (wots_w - 1 - d)) p a') a.

(** [priv.newWotsPrivKey(addrs, sk)] for [sk] of [wlen] buffers. *)
Definition newWotsPrivKey (wprf : prf) (addrs : addr) : list bytes :=
  let s := sum wprf (addr_bytes addrs) in
  let p := newPRF s in
  map (fun i => sumInt p (Z.of_nat i)) (seq 0 (Z.to_nat wlen)).

(** *** randHash and the L-tree *)

(** [randHash(left, right, p, addrs, out)]: returns the digest written to
    [out] and the address as the call leaves it. *)
Definition randHash (left right : bytes) (p : prf) (addrs : addr) : bytes * addr :=
  let addrs := set adrKM 0 addrs in
  let key := sum p (addr_bytes addrs) in
  let addrs := set adrKM 1 addrs in
  let bm0 := sum p (addr_bytes addrs) in
  let addrs := set adrKM 2 addrs in
  let bm1 := sum p (addr_bytes addrs) in
  let lxor := xorWords left bm0 in
  let rxor := xorWords right bm1 in
  (hashH key lxor rxor, addrs).

(** The inner loop of [ltree]: [for i = i; i < l>>1; i++]. *)
Fixpoint ltree_row (fuel : nat) (i half : Z) (p : prf) (pk : list bytes) (addrs : addr)
    : result (list bytes * addr) :=
  match fuel with
  | O => Ok (pk, addrs)
  | S fuel' =>
      if i <? half then
        let addrs := set adrIndex i addrs in
        do lft <- of_option (pk !! Z.to_nat (2 * i));
        do rgt <- of_option (pk !! Z.to_nat (2 * i + 1));
        do _ <- of_option (pk !! Z.to_nat i);
        let '(out, addrs) := randHash lft rgt p addrs in
        ltree_row fuel' (i + 1) half p (<[Z.to_nat i := out]> pk) addrs
      else Ok (pk, addrs)
  end.

(** The outer loop of [ltree]: [for l = l; l > 1; l = (l>>1) + (l&1)]. *)
Fixpoint ltree_loop (fuel : nat) (l height : Z) (p : prf) (pk : list bytes) (addrs : addr)
    : result (list bytes * addr) :=
  match fuel with
  | O => Ok (pk, addrs)
  | S fuel' =>
      if 1 <? l then
        do '(pk, addrs) <- ltree_row (Z.to_nat (Z.shiftr l 1)) 0 (Z.shiftr l 1) p pk addrs;
        do pk <- (if Z.land l 1 =? 1 then
                    do src <- of_option (pk !! Z.to_nat (l - 1));
                    do dst <- of_option (pk !! Z.to_nat (Z.shiftr l 1));
                    Ok (<[Z.to_nat (Z.shiftr l 1) := copy_at 0 src dst]> pk)
                  else Ok pk);
        let height := u32 (height + 1) in
        let addrs := set adrHeight height addrs in
        ltree_loop fuel' (Z.shiftr l 1 + Z.land l 1) height p pk addrs
      else Ok (pk, addrs)
  end.

(** [pk.ltree(p, addrs)] *)
Definition ltree (pk : list bytes) (p : prf) (addrs : addr) : result (bytes * addr) :=
  let addrs := set adrHeight 0 addrs in
  do '(pk, addrs) <- ltree_loop (Z.to_nat wlen) wlen 0 p pk addrs;
  do r0 <- of_option (pk !! 0%nat);
  Ok (r0, addrs).

(** *** Signature (de)serialisation *)

(** [for i, s := range blocks { copy(dst[off+i*n:], s) }] *)
Fixpoint copy_blocks (off : Z) (blocks : list bytes) (dst : bytes) : result bytes :=
  match blocks with
  | [] => Ok dst
  | s :: rest => do dst <- copy_to off s dst; copy_blocks (off + n) rest dst
  end.

(** [xmssSigBody.bytes()] *)
Definition sigBody_bytes (x : xmssSigBody) : result bytes :=
  let sigSize := wlen * n + Z.of_nat (length (body_auth x)) * n in
  let sg := zeros (Z.to_nat sigSize) in
  do sg <- copy_blocks 0 (body_sig x) sg;
  copy_blocks (wlen * n) (body_auth x) sg.

(** [xmssSig.bytes()] *)
Definition sig_bytes (x : xmssSig) : result bytes :=
  let sigSize := 4 + n + wlen * n + Z.of_nat (length (body_auth (sig_body x))) * n in
  let sg := zeros (Z.to_nat sigSize) in
  let sg := copy_at 0 (be32 (sig_index x)) sg in
  do sg <- copy_to 4 (sig_r x) sg;
  do sigBody <- sigBody_bytes (sig_body x);
  copy_to (4 + n) sigBody sg.

(** [for i := i; i < i + count; i++ { out[i] = b[base+n*i : base+n*(i+1)] }] *)
Fixpoint slice_blocks (b : bytes) (base i : Z) (count : nat) : result (list bytes) :=
  match count with
  | O => Ok []
  | S c =>
      do x <- slice b (base + n * i) (base + n * (i + 1));
      do xs <- slice_blocks b base (i + 1) c;
      Ok (x :: xs)
  end.

(** [bytes2sigBody(b, height)]; [make] panics on a negative length. *)
Definition bytes2sigBody (b : bytes) (height : Z) : result xmssSigBody :=
  if height <? 0 then Panic else
  do sg <- slice_blocks b 0 0 (Z.to_nat wlen);
  do au <- slice_blocks b (n * wlen) 0 (Z.to_nat height);
  Ok (mkSigBody sg au).

(** [bytes2sig(b, h)] with [h] a byte. *)
Definition bytes2sig (b : bytes) (h : Z) : result xmssSig :=
  let height := Z.shiftr (Z.of_nat (length b) - (4 + n + wlen * n)) 5 in
  if negb (height =? h) then Error "invalid length of bytes" else
  do rest <- slice_from b (4 + n);
  do bd <- bytes2sigBody rest height;
  do idx <- Uint32 b;
  do rr <- slice b 4 (4 + n);
  Ok (mkSig idx rr bd).

(** *** Root from a signature *)

(** The loop of [rootFromSig] over the authentication path. *)
Fixpoint rootFromSig_loop (k idx : Z) (node0 : bytes) (au : list bytes) (p : prf)
    (addrs : addr) : bytes :=
  match au with
  | [] => node0
  | a :: rest =>
      let addrs := set adrHeight k addrs in
      let addrs := set adrIndex (Z.shiftr idx 1) addrs in
      let '(node0, addrs) :=
        if Z.land idx 1 =? 0 then randHash node0 a p addrs
        else randHash a node0 p addrs in
      rootFromSig_loop (u32 (k + 1)) (Z.shiftr idx 1) node0 rest p addrs
  end.

(** [rootFromSig(idx, hmsg, body, prf, layer, tree)] *)
Definition rootFromSig (idx : Z) (hmsg : bytes) (bd : xmssSigBody) (p : prf)
    (layer tree : Z) : result bytes :=
  let addrs := make_addr in
  let addrs := set adrLayer layer addrs in
  let addrs := setTree tree addrs in
  let addrs := set adrOTS idx addrs in
  let pkOTS := wots_pubkey (body_sig bd) hmsg p addrs in
  let addrs := set adrType 1 addrs in
  let addrs := set adrLtree idx addrs in
  do '(node0, addrs) <- ltree pkOTS p addrs;
  let addrs := set adrType 2 addrs in
  let addrs := set adrLtree 0 addrs in
  Ok (rootFromSig_loop 0 idx node0 (body_auth bd) p addrs).

(** [bytes.Equal] *)
Definition bytes_eqb (a b : bytes) : bool := bool_decide (a = b).

(** [pub.Verify(bsig, msg)] *)
Definition Verify (pub : PublicKey) (bsig msg : bytes) : result bool :=
  match bytes2sig bsig (Height (pub_params pub) mod 256) with
  | Error _ => Ok false
  | Panic => Panic
  | Ok sg =>
      let p := newPRF (publicSeed pub) in
      let rr := zeros (32 * 3) in
      let rr := copy_at 0 (sig_r sg) rr in
      let rr := copy_at 32 (root pub) rr in
      let rr := copy_at (64 + 28) (be32 (sig_index sg)) rr in
      let hmsg := hashMsg rr msg in
      do rt <- rootFromSig (sig_index sg) hmsg (sig_body sg) p 0 0;
      Ok (bytes_eqb rt (root pub))
  end.

(** *** The stack engine *)

Definition set_stack (s : stack) (l : list nh) : stack :=
  mkStack l (st_height s) (st_leaf s) (st_layer s) (st_tree s).

(** [s.top()]: panics on an empty stack. *)
Definition top (s : stack) : result nh :=
  match st_stack s with
  | t :: _ => Ok t
  | [] => Panic
  end.

(** [s.push(n)] *)
Definition push (nd : nh) (s : stack) : stack := set_stack s (nd :: st_stack s).

(** [s.low()]; the range loop visits the slice from the bottom. *)
Definition low (s : stack) : Z :=
  match st_stack s with
  | [] => st_height s
  | t :: _ =>
      if nh_height t =? st_height s then MaxUint32
      else fold_right (fun nd mn => if nh_height nd <? mn then nh_height nd else mn)
             MaxUint32 (st_stack s)
  end.

(** [s.initialize(start, height)] *)
Definition initialize (start height : Z) (s : stack) : stack :=
  mkStack [] height start (st_layer s) (st_tree s).

(** [s.newleaf(priv, isGo)] *)
Definition newleaf (priv : PrivateKey) (isGo : bool) (s : stack) : result stack :=
  let addrs := make_addr in
  let addrs := set adrLayer (st_layer s) addrs in
  let addrs := setTree (st_tree s) addrs in
  let addrs := set adrOTS (st_leaf s) addrs in
  let sk := newWotsPrivKey (wotsPRF priv) addrs in
  let pubPRF := newPRF (publicSeed (priv_pub priv)) in
  let pk := if isGo then goNewWotsPubKey sk pubPRF addrs
            else newWotsPubKey sk pubPRF addrs in
  let addrs := set adrType 1 addrs in
  let addrs := set adrLtree (st_leaf s) addrs in
  do '(nn, _) <- ltree pk pubPRF addrs;
  let node := mkNh (copy_at 0 nn (zeros 32)) 0 (st_leaf s) in
  let s := push node s in
  Ok (mkStack (st_stack s) (st_height s) (u32 (st_leaf s + 1)) (st_layer s) (st_tree s)).

(** The test at the head of [updateSub]: the top node has the height the
    stack is built for. *)
Definition done (s : stack) : bool :=
  match st_stack s with
  | t :: _ => nh_height t =? st_height s
  | [] => false
  end.

(** The number of rounds that the loop of [updateSub] runs in a call with
    budget [nn]. *)
Definition updateSub_rounds (nn : Z) (s : stack) : Z := if done s then 0 else nn.

Section UpdateSub.

(** The closure [newleaf func()] of [updateSub] may own state of its caller
    (the slice [ntop] in [initMerkle]); [X] is that state. *)
Context {X : Type}.
Variable leafmaker : stack -> X -> result (stack * X).

(** One round of the loop of [updateSub]; the address is carried from round
    to round as the code does. *)
Definition updateSub_step (pubPRF : prf) (st : stack * addr * X)
    : result (stack * addr * X) :=
  let '(s, addrs, x) := st in
  match st_stack s with
  | rgt :: lft :: rest =>
      if nh_height lft =? nh_height rgt then
        let idx := Z.shiftr (nh_index rgt) 1 in
        let hgt := u32 (nh_height rgt + 1) in
        let addrs := set adrHeight (nh_height rgt) addrs in
        let addrs := set adrIndex idx addrs in
        let '(out, addrs) := randHash (nh_node lft) (nh_node rgt) pubPRF addrs in
        Ok (set_stack s (mkNh out hgt idx :: rest), addrs, x)
      else
        do '(s, x) <- leafmaker s x; Ok (s, addrs, x)
  | _ => do '(s, x) <- leafmaker s x; Ok (s, addrs, x)
  end.

Fixpoint updateSub_loop (fuel : nat) (pubPRF : prf) (st : stack * addr * X)
    : result (stack * addr * X) :=
  match fuel with
  | O => Ok st
  | S fuel' => do st <- updateSub_step pubPRF st; updateSub_loop fuel' pubPRF st
  end.

(** [s.updateSub(nn, priv, newleaf)] *)
Definition updateSub (nn : Z) (priv : PrivateKey) (s : stack) (x : X)
    : result (stack * X) :=
  if done s then Ok (s, x) else
  let addrs := make_addr in
  let addrs := set adrType 2 addrs in
  let addrs := set adrLayer (st_layer s) addrs in
  let addrs := setTree (st_tree s) addrs in
  let pubPRF := newPRF (publicSeed (priv_pub priv)) in
  do '(s, _, x) <- updateSub_loop (Z.to_nat nn) pubPRF (s, addrs, x);
  Ok (s, x).

End UpdateSub.

(** [s.update(nn, priv)] *)
Definition update (nn : Z) (priv : PrivateKey) (s : stack) : result stack :=
  do '(s, _) <- updateSub (fun s (_ : unit) => do s <- newleaf priv false s; Ok (s, tt))
                  nn priv s tt;
  Ok s.

(** [s.goUpdate(nn, priv)] *)
Definition goUpdate (nn : Z) (priv : PrivateKey) (s : stack) : result stack :=
  do '(s, _) <- updateSub (fun s (_ : unit) => do s <- newleaf priv true s; Ok (s, tt))
                  nn priv s tt;
  Ok s.

(** *** The Merkle state *)

(** [nproc] as [initMerkle] derives it from [ncpu = runtime.GOMAXPROCS(-1)]:
    the integer part of the binary logarithm, rounded up when [ncpu] is not
    a power of two, and 0 when the tree is not higher than that. *)
Definition nproc_of (ncpu h : Z) : Z :=
  let nproc := u32 (Z.log2 ncpu) in
  let nproc := if negb (ncpu =? Z.shiftl 1 nproc) then u32 (nproc + 1) else nproc in
  if h <=? nproc then 0 else nproc.

(** The goroutine of [initMerkle] for subtree [i]: the value stored in
    [ntop[i-1]]. *)
Definition worker (priv : PrivateKey) (layer tree h nproc i : Z) : result nh :=
  let s := mkStack [] (u32 (h - nproc)) (u32 (shl32 1 (u32 (h - nproc)) * i)) layer tree in
  do s <- update (u64 (shl64 1 (u32 (u32 (h - nproc) + 1)) - 1)) priv s;
  top s.

(** The results of the goroutines, in the order of [ntop], once [wg.Wait()]
    has returned. *)
Fixpoint workers (priv : PrivateKey) (layer tree h nproc : Z) (i : Z) (count : nat)
    : result (list nh) :=
  match count with
  | O => Ok []
  | S c =>
      do t <- worker priv layer tree h nproc i;
      do ts <- workers priv layer tree h nproc (i + 1) c;
      Ok (t :: ts)
  end.

(** The closure handed to [updateSub] by [initMerkle]: it pushes the next
    subtree root instead of a leaf. *)
Definition pop_ntop (s : stack) (ntop : list nh) : result (stack * list nh) :=
  match ntop with
  | nd :: rest => Ok (push nd s, rest)
  | [] => Panic
  end.

(** The main loop of [initMerkle]; [stacks] and [au] hold the entries
    [m.stacks[0..i)] and [m.auth[0..i)] assigned so far. *)
Fixpoint initMerkle_loop (fuel : nat) (i h nproc : Z) (priv : PrivateKey) (layer tree : Z)
    (s : stack) (ntop : list nh) (stacks : list stack) (au : list bytes)
    : result (stack * list stack * list bytes) :=
  match fuel with
  | O => Ok (s, stacks, au)
  | S fuel' =>
      do s <- update 1 priv s;
      do t <- top s;
      let si := push t (mkStack [] i (shl32 1 i) layer tree) in
      do '(s, ntop) <-
        (if i <? u32 (h - nproc) then
           do s <- update (u64 (shl64 1 (u32 (i + 1)) - 1)) priv s; Ok (s, ntop)
         else
           updateSub pop_ntop (u64 (shl64 1 (u32 (u32 (i - u32 (h - nproc)) + 1)) - 1))
             priv s ntop);
      do t <- top s;
      initMerkle_loop fuel' (i + 1) h nproc priv layer tree s ntop
        (stacks ++ [si]) (au ++ [copy_at 0 (nh_node t) (zeros 32)])
  end.

Definition set_root (pub : PublicKey) (rt : bytes) : PublicKey :=
  mkPublicKey (pub_params pub) (publicSeed pub) rt.

(** [priv.initMerkle(h, layer, tree)] when [GOMAXPROCS] is [ncpu]. *)
Definition initMerkle (ncpu : Z) (h layer tree : Z) (priv : PrivateKey)
    : result PrivateKey :=
  let nproc := nproc_of ncpu h in
  do ntop <- workers priv layer tree h nproc 1 (Z.to_nat (shl32 1 nproc - 1));
  let s := mkStack [] h 0 layer tree in
  do '(s, stacks, au) <-
    initMerkle_loop (Z.to_nat h) 0 h nproc priv layer tree s ntop [] [];
  do s <- update 1 priv s;
  do t <- top s;
  let mk := mkMerkle 0 h stacks au layer tree in
  Ok (mkPrivateKey (set_root (priv_pub priv) (copy_at 0 (nh_node t) (root (priv_pub priv))))
        (msgPRF priv) (wotsPRF priv) (Some mk)).

(** The loop of [m.refreshAuth()]. *)
Fixpoint refreshAuth_loop (fuel : nat) (h : Z) (mk : merkle) : result merkle :=
  match fuel with
  | O => Ok mk
  | S fuel' =>
      let pow := shl32 1 h in
      if Z.land (u32 (m_leaf mk + 1)) (u32 (pow - 1)) =? 0 then
        do s <- of_option (m_stacks mk !! Z.to_nat h);
        do t <- top s;
        do _ <- of_option (m_auth mk !! Z.to_nat h);
        let startnode := Z.lxor (u32 (u32 (m_leaf mk + 1) + pow)) pow in
        let mk := mkMerkle (m_leaf mk) (m_height mk)
                    (<[Z.to_nat h := initialize startnode h s]> (m_stacks mk))
                    (<[Z.to_nat h := nh_node t]> (m_auth mk))
                    (m_layer mk) (m_tree mk) in
        refreshAuth_loop fuel' (h + 1) mk
      else refreshAuth_loop fuel' (h + 1) mk
  end.

(** [m.refreshAuth()] *)
Definition refreshAuth (mk : merkle) : result merkle :=
  refreshAuth_loop (Z.to_nat (m_height mk)) 0 mk.

(** The inner loop of [build]: the stack of least [low()], the lowest one
    among equals. *)
Fixpoint find_focus (fuel : nat) (h : Z) (stacks : list stack) (mn focus : Z)
    : result (Z * Z) :=
  match fuel with
  | O => Ok (mn, focus)
  | S fuel' =>
      do s <- of_option (stacks !! Z.to_nat h);
      let lw := low s in
      if lw <? mn then find_focus fuel' (h + 1) stacks lw h
      else find_focus fuel' (h + 1) stacks mn focus
  end.

Definition set_stacks (mk : merkle) (stacks : list stack) : merkle :=
  mkMerkle (m_leaf mk) (m_height mk) stacks (m_auth mk) (m_layer mk) (m_tree mk).

(** One round of the outer loop of [build]. *)
Definition build_round (priv : PrivateKey) (mk : merkle) : result merkle :=
  do '(_, focus) <- find_focus (Z.to_nat (m_height mk)) 0 (m_stacks mk) MaxUint32 0;
  do s <- of_option (m_stacks mk !! Z.to_nat focus);
  do s <- goUpdate 1 priv s;
  Ok (set_stacks mk (<[Z.to_nat focus := s]> (m_stacks mk))).

Fixpoint build_loop (fuel : nat) (priv : PrivateKey) (mk : merkle) : result merkle :=
  match fuel with
  | O => Ok mk
  | S fuel' => do mk <- build_round priv mk; build_loop fuel' priv mk
  end.

(** [priv.build()] on the state [mk = priv.m]. *)
Definition build (priv : PrivateKey) (mk : merkle) : result merkle :=
  build_loop (Z.to_nat (u32 (u32 (2 * m_height mk) - 1))) priv mk.

(** [build] with a counter of the rounds run by the loop of [updateSub],
    that is, of the elementary steps made on the stacks. *)
Definition build_round_count (priv : PrivateKey) (mk : merkle) : result (merkle * Z) :=
  do '(_, focus) <- find_focus (Z.to_nat (m_height mk)) 0 (m_stacks mk) MaxUint32 0;
  do s <- of_option (m_stacks mk !! Z.to_nat focus);
  do s' <- goUpdate 1 priv s;
  Ok (set_stacks mk (<[Z.to_nat focus := s']> (m_stacks mk)), updateSub_rounds 1 s).

Fixpoint build_loop_count (fuel : nat) (priv : PrivateKey) (mk : merkle)
    : result (merkle * Z) :=
  match fuel with
  | O => Ok (mk, 0)
  | S fuel' =>
      do '(mk, c) <- build_round_count priv mk;
      do '(mk, c') <- build_loop_count fuel' priv mk;
      Ok (mk, c + c')
  end.

Definition build_count (priv : PrivateKey) (mk : merkle) : result (merkle * Z) :=
  build_loop_count (Z.to_nat (u32 (u32 (2 * m_height mk) - 1))) priv mk.

Definition set_m (priv : PrivateKey) (mk : merkle) : PrivateKey :=
  mkPrivateKey (priv_pub priv) (msgPRF priv) (wotsPRF priv) (Some mk).

(** [priv.traverse()] *)
Definition traverse (priv : PrivateKey) : result PrivateKey :=
  do mk <- of_option (priv_m priv);
  do mk <- refreshAuth mk;
  do mk <- build priv mk;
  Ok (set_m priv (mkMerkle (u32 (m_leaf mk + 1)) (m_height mk) (m_stacks mk) (m_auth mk)
                    (m_layer mk) (m_tree mk))).

(** *** Keys, signing, export and import *)

(** [NewXMSSKeyPairWithParams]; the two keys share the array of [root]. *)
Definition NewXMSSKeyPairWithParams (ncpu : Z) (height : Z)
    (secretKeySeed secretKeyPRF pubSeed : bytes) (layer tree : Z)
    : result (PrivateKey * PublicKey) :=
  let publicKey := mkPublicKey (mkParams height) pubSeed (zeros 32) in
  let privateKey := mkPrivateKey publicKey (newPRF secretKeyPRF) (newPRF secretKeySeed) None in
  do privateKey <- initMerkle ncpu height layer tree privateKey;
  Ok (privateKey, set_root publicKey (root (priv_pub privateKey))).

(** [NewXMSSKeyPair(height, privateSeed)] *)
Definition NewXMSSKeyPair (ncpu : Z) (height : Z) (privateSeed : bytes)
    : result (PrivateKey * PublicKey) :=
  let secretKeySeed := hmac_sha256 privateSeed [x01] in
  let secretKeyPRF := hmac_sha256 privateSeed [x02] in
  let pubSeed := hmac_sha256 privateSeed [x03] in
  NewXMSSKeyPairWithParams ncpu height secretKeySeed secretKeyPRF pubSeed 0 0.

(** [priv.createSignatureBody(hmsg)] *)
Definition createSignatureBody (priv : PrivateKey) (mk : merkle) (hmsg : bytes)
    : xmssSigBody :=
  let addrs := make_addr in
  let addrs := set adrLayer (m_layer mk) addrs in
  let addrs := setTree (m_tree mk) addrs in
  let addrs := set adrOTS (m_leaf mk) addrs in
  let wsk := newWotsPrivKey (wotsPRF priv) addrs in
  let pubPRF := newPRF (publicSeed (priv_pub priv)) in
  let sg := wots_sign wsk hmsg pubPRF addrs in
  mkSigBody sg (m_auth mk).

(** [priv.Sign(msg)]: the signature and the key as the call leaves it. *)
Definition Sign (priv : PrivateKey) (msg : bytes) : result (bytes * PrivateKey) :=
  do mk <- of_option (priv_m priv);
  let idx := copy_at 28 (be32 (m_leaf mk)) (zeros 32) in
  let rr := zeros (32 * 3) in
  let rr := copy_at 0 (sum (msgPRF priv) idx) rr in
  let rr := copy_at 32 (root (priv_pub priv)) rr in
  let rr := copy_at 64 idx rr in
  let hmsg := hashMsg rr msg in
  let sigBody := createSignatureBody priv mk hmsg in
  let sg := mkSig (m_leaf mk) (take 32 rr) sigBody in
  do result <- sig_bytes sg;
  do priv <- traverse priv;
  Ok (result, priv).

(** The signatures of the messages [msgs], signed one after the other with
    the same key. *)
Fixpoint sign_all (priv : PrivateKey) (msgs : list bytes)
    : result (list bytes * PrivateKey) :=
  match msgs with
  | [] => Ok ([], priv)
  | m :: rest =>
      do '(sg, priv) <- Sign priv m;
      do '(sgs, priv) <- sign_all priv rest;
      Ok (sg :: sgs, priv)
  end.

(** [priv.Export()] *)
Definition Export (priv : PrivateKey) : result PrivateKeyExport :=
  do mk <- of_option (priv_m priv);
  Ok (mkPrivateKeyExport
        (mkPublicKeyExport (pub_params (priv_pub priv)) (publicSeed (priv_pub priv))
           (root (priv_pub priv)))
        (m_leaf mk) (prf_seed (msgPRF priv)) (prf_seed (wotsPRF priv))).

(** [priv.Import(key)]: the assignment [priv.m.leaf = key.Index] needs a
    state to write to; [initMerkle] then installs a new one. *)
Definition Import (ncpu : Z) (priv : PrivateKey) (key : PrivateKeyExport)
    : result PrivateKey :=
  let pub := mkPublicKey (e_params (e_pub key)) (PublicSeed (e_pub key)) (Root (e_pub key)) in
  do mk <- of_option (priv_m priv);
  let mk := mkMerkle (Index key) (m_height mk) (m_stacks mk) (m_auth mk)
              (m_layer mk) (m_tree mk) in
  let priv := mkPrivateKey pub (newPRF (SecretKeyPRF key)) (newPRF (SecretKeySeed key))
                (Some mk) in
  initMerkle ncpu (Height (pub_params pub)) 0 0 priv.

End XMSS.

(** * Properties of the byte-level helpers *)

Lemma length_zeros (k : nat) : length (zeros k) = k.
Proof. apply length_replicate. Qed.

Lemma length_copy_at (off : nat) (src dst : bytes) :
  length (copy_at off src dst) = length dst.
Proof.
  unfold copy_at. rewrite !length_app, !length_take, length_drop. lia.
Qed.

Lemma copy_at_0_full (src dst : bytes) :
  length src = length dst -> copy_at 0 src dst = src.
Proof.
  intros E. unfold copy_at. simpl.
  rewrite Nat.sub_0_r, <- E, firstn_all, E, drop_all. apply app_nil_r.
Qed.

Lemma length_fit32 (d : bytes) : length (fit32 d) = 32%nat.
Proof. unfold fit32. rewrite length_copy_at. apply length_zeros. Qed.

Lemma fit32_id (d : bytes) : length d = 32%nat -> fit32 d = d.
Proof. intros E. apply copy_at_0_full. now rewrite length_zeros. Qed.

Lemma fit32_fit32 (d : bytes) : fit32 (fit32 d) = fit32 d.
Proof. apply fit32_id, length_fit32. Qed.

Lemma length_be32 (v : Z) : length (be32 v) = 4%nat.
Proof. reflexivity. Qed.

Lemma Z_of_byte_range (b : byte) : 0 <= Z_of_byte b < 256.
Proof.
  unfold Z_of_byte. pose proof (Byte.to_N_bounded b). lia.
Qed.

Lemma Z_of_byte_of_Z (z : Z) : Z_of_byte (byte_of_Z z) = z mod 256.
Proof.
  unfold Z_of_byte, byte_of_Z.
  assert (B : 0 <= z mod 256 < 256) by (apply Z.mod_pos_bound; lia).
  destruct (Byte.of_N (Z.to_N (z mod 256))) as [b|] eqn:E.
  - apply Byte.to_of_N in E. rewrite E. lia.
  - apply Byte.of_N_None_iff in E. lia.
Qed.

Lemma byte_of_Z_of_byte (b : byte) : byte_of_Z (Z_of_byte b) = b.
Proof.
  unfold byte_of_Z. pose proof (Z_of_byte_range b) as B.
  rewrite Z.mod_small by lia. unfold Z_of_byte. rewrite N2Z.id.
  now rewrite Byte.of_to_N.
Qed.

Lemma u32_range (z : Z) : 0 <= u32 z < 2 ^ 32.
Proof. apply Z.mod_pos_bound. lia. Qed.

Lemma u32_small (z : Z) : 0 <= z < 2 ^ 32 -> u32 z = z.
Proof. apply Z.mod_small. Qed.

Lemma byte_bit (v s k : Z) :
  0 <= s -> 0 <= k ->
  Z.testbit (Z.shiftl (Z.shiftr v s mod 2 ^ 8) s) k
  = (s <=? k) && (k <? s + 8) && Z.testbit v k.
Proof.
  intros Hs Hk. destruct (Z.leb_spec s k); simpl.
  - rewrite Z.shiftl_spec by lia. rewrite Z.testbit_mod_pow2 by lia.
    rewrite Z.shiftr_spec by lia. replace (k - s + s) with k by lia.
    f_equal. destruct (Z.ltb_spec (k - s) 8), (Z.ltb_spec k (s + 8)); auto; lia.
  - apply Z.shiftl_spec_low. lia.
Qed.

(** Reading back the bytes of [PutUint32] gives the value as a [uint32]. *)
Lemma Uint32_be32 (v : Z) (rest : bytes) : Uint32 (be32 v ++ rest) = Ok (u32 v).
Proof.
  unfold be32, Uint32. simpl. f_equal. rewrite !Z_of_byte_of_Z.
  unfold u32. change 256 with (2 ^ 8).
  apply Z.bits_inj'. intros k Hk.
  rewrite !Z.lor_spec.
  rewrite !byte_bit by lia.
  replace (v mod 2 ^ 8) with (Z.shiftl (Z.shiftr v 0 mod 2 ^ 8) 0)
    by (now rewrite Z.shiftl_0_r, Z.shiftr_0_r).
  rewrite byte_bit by lia.
  rewrite Z.testbit_mod_pow2 by lia.
  destruct (Z.testbit v k); rewrite ?andb_false_r, ?andb_true_r; [|reflexivity].
  destruct (Z.leb_spec 24 k), (Z.ltb_spec k (24 + 8)), (Z.leb_spec 16 k),
    (Z.ltb_spec k (16 + 8)), (Z.leb_spec 8 k), (Z.ltb_spec k (8 + 8)),
    (Z.leb_spec 0 k), (Z.ltb_spec k (0 + 8)), (Z.ltb_spec k 32);
    simpl; try reflexivity; lia.
Qed.

(** Two values with the same four bytes agree as [uint32]. *)
Lemma be32_inj (v v' : Z) : be32 v = be32 v' -> u32 v = u32 v'.
Proof.
  intros E.
  assert (H : Uint32 (be32 v ++ []) = Uint32 (be32 v' ++ [])) by now rewrite E.
  rewrite !Uint32_be32 in H. now inversion H.
Qed.

Lemma be32_u32 (v : Z) : be32 (u32 v) = be32 v.
Proof.
  unfold be32, u32.
  assert (B : forall s, 0 <= s <= 24 -> byte_of_Z (Z.shiftr (v mod 2 ^ 32) s) = byte_of_Z (Z.shiftr v s)).
  { intros s Hs. unfold byte_of_Z.
    replace (Z.shiftr (v mod 2 ^ 32) s mod 256) with (Z.shiftr v s mod 256); [reflexivity|].
    change 256 with (2 ^ 8). apply Z.bits_inj'. intros k Hk.
    rewrite !Z.testbit_mod_pow2 by lia. rewrite !Z.shiftr_spec by lia.
    destruct (Z.ltb_spec k 8); [|reflexivity]. simpl.
    rewrite Z.testbit_mod_pow2 by lia.
    replace (k + s <? 32) with true by (symmetry; apply Z.ltb_lt; lia).
    reflexivity. }
  rewrite (B 24), (B 16), (B 8) by lia.
  f_equal. f_equal. f_equal. f_equal. apply (B 0). lia.
Qed.

(** * The signature layout and its parser *)

Definition block32 (b : bytes) : Prop := length b = 32%nat.

Lemma zeros_add (a b : nat) : zeros (a + b) = zeros a ++ zeros b.
Proof. apply replicate_add. Qed.

Lemma length_concat_blocks (bl : list bytes) :
  Forall block32 bl -> length (concat bl) = (32 * length bl)%nat.
Proof.
  induction 1 as [|x l Hx _ IH]; simpl; [reflexivity|].
  rewrite length_app, IH, Hx. lia.
Qed.

Lemma copy_to_app (off : Z) (src pre mid post : bytes) :
  Z.of_nat (length pre) = off -> length mid = length src ->
  copy_to off src (pre ++ mid ++ post) = Ok (pre ++ src ++ post).
Proof.
  intros Hp Hm. unfold copy_to.
  rewrite !length_app.
  replace ((0 <=? off) && (off <=? Z.of_nat (length pre + (length mid + length post))))
    with true by (symmetry; apply andb_true_iff; split; [apply Z.leb_le|apply Z.leb_le]; lia).
  f_equal. unfold copy_at.
  replace (Z.to_nat off) with (length pre) by lia.
  rewrite take_app_length. f_equal.
  rewrite !length_app.
  rewrite take_ge by lia. f_equal.
  rewrite drop_app_add. rewrite <- Hm. apply drop_app_length.
Qed.

Lemma copy_blocks_concat (blocks : list bytes) :
  forall (off : Z) (pre mid post : bytes),
    Forall block32 blocks ->
    Z.of_nat (length pre) = off ->
    length mid = (32 * length blocks)%nat ->
    copy_blocks off blocks (pre ++ mid ++ post) = Ok (pre ++ concat blocks ++ post).
Proof.
  induction blocks as [|b bl IH]; intros off pre mid post HF Hp Hm; simpl.
  - destruct mid; [reflexivity|discriminate].
  - inversion HF as [|? ? Hb HF']; subst.
    rewrite <- (take_drop 32 mid). rewrite <- (app_assoc (take 32 mid)).
    rewrite copy_to_app; [simpl| reflexivity |].
    2:{ rewrite length_take, Hb. simpl in Hm. lia. }
    rewrite (app_assoc pre b). rewrite IH; auto.
    + now rewrite <- !app_assoc.
    + rewrite length_app, Hb. unfold n. lia.
    + rewrite length_drop. simpl in Hm. lia.
Qed.

(** The bytes of a signature whose parts have their nominal sizes. *)
Lemma sig_bytes_layout (idx : Z) (rr : bytes) (sg au : list bytes) :
  block32 rr -> length sg = 67%nat -> Forall block32 sg -> Forall block32 au ->
  sig_bytes (mkSig idx rr (mkSigBody sg au))
  = Ok (be32 idx ++ rr ++ concat sg ++ concat au).
Proof.
  intros Hr Hl Hs Ha. unfold sig_bytes, sigBody_bytes.
  cbn [sig_body body_auth body_sig sig_index sig_r].
  pose proof (length_concat_blocks sg Hs) as Ls.
  pose proof (length_concat_blocks au Ha) as La.
  remember (32 * length sg)%nat as ls eqn:Els.
  remember (32 * length au)%nat as la eqn:Ela.
  unfold n, wlen.
  replace (Z.to_nat (67 * 32 + Z.of_nat (length au) * 32))
    with (ls + (la + 0))%nat by lia.
  rewrite !zeros_add.
  assert (E0 : copy_blocks 0 sg (zeros ls ++ zeros la ++ zeros 0)
               = Ok (concat sg ++ zeros la ++ zeros 0)).
  { apply (copy_blocks_concat sg 0 [] (zeros ls) (zeros la ++ zeros 0)); auto.
    rewrite length_zeros; lia. }
  rewrite E0. cbn [rbind].
  rewrite (copy_blocks_concat au (67 * 32) (concat sg) (zeros la) (zeros 0)); auto;
    [|lia|rewrite length_zeros; lia].
  cbn [rbind].
  replace (Z.to_nat (4 + 32 + 67 * 32 + Z.of_nat (length au) * 32))
    with (4 + (32 + ((ls + la) + 0)))%nat by lia.
  rewrite !zeros_add.
  assert (E1 : copy_at 0 (be32 idx) (zeros 4 ++ zeros 32 ++ (zeros ls ++ zeros la) ++ zeros 0)
               = be32 idx ++ zeros 32 ++ (zeros ls ++ zeros la) ++ zeros 0).
  { reflexivity. }
  rewrite E1.
  rewrite (copy_to_app 4 rr (be32 idx) (zeros 32)); [| reflexivity | now rewrite length_zeros, Hr].
  cbn [rbind].
  rewrite (app_assoc (be32 idx) rr).
  rewrite (copy_to_app (4 + 32) _ (be32 idx ++ rr) (zeros ls ++ zeros la) (zeros 0)).
  - rewrite <- !app_assoc. cbn [zeros replicate]. now rewrite !app_nil_r.
  - rewrite length_app, Hr. reflexivity.
  - rewrite !length_app, !length_zeros. cbn [zeros replicate length]. lia.
Qed.

Lemma slice_app (pre x post : bytes) (lo hi : Z) :
  lo = Z.of_nat (length pre) -> hi = lo + Z.of_nat (length x) ->
  slice (pre ++ x ++ post) lo hi = Ok x.
Proof.
  intros -> ->. unfold slice. rewrite !length_app.
  replace ((0 <=? Z.of_nat (length pre)) &&
           (Z.of_nat (length pre) <=? Z.of_nat (length pre) + Z.of_nat (length x)) &&
           (Z.of_nat (length pre) + Z.of_nat (length x) <=?
              Z.of_nat (length pre + (length x + length post)))) with true.
  2:{ symmetry. rewrite !andb_true_iff, !Z.leb_le. lia. }
  f_equal. rewrite Nat2Z.id, drop_app_length.
  replace (Z.to_nat (Z.of_nat (length pre) + Z.of_nat (length x) - Z.of_nat (length pre)))
    with (length x) by lia.
  apply take_app_length.
Qed.

Lemma slice_blocks_concat (blocks : list bytes) :
  forall (pre post : bytes) (base i : Z),
    Forall block32 blocks ->
    Z.of_nat (length pre) = base + n * i ->
    slice_blocks (pre ++ concat blocks ++ post) base i (length blocks) = Ok blocks.
Proof.
  induction blocks as [|b bl IH]; intros pre post base i HF Hp; simpl; [reflexivity|].
  inversion HF as [|? ? Hb HF']; subst.
  rewrite <- (app_assoc b). rewrite slice_app; [simpl | lia | rewrite Hb; unfold n in *; lia].
  rewrite (app_assoc pre b). rewrite IH; auto.
  rewrite length_app, Hb. unfold n in *. lia.
Qed.

(** Parsing the layout gives the parts back; up to 31 trailing bytes are
    accepted by the length test of [bytes2sig]. *)
Lemma bytes2sig_layout (idx h : Z) (rr : bytes) (sg au : list bytes) (extra : bytes) :
  block32 rr -> length sg = 67%nat -> Forall block32 sg -> Forall block32 au ->
  (length extra < 32)%nat -> h = Z.of_nat (length au) ->
  bytes2sig (be32 idx ++ rr ++ concat sg ++ concat au ++ extra) h
  = Ok (mkSig (u32 idx) rr (mkSigBody sg au)).
Proof.
  intros Hr Hl Hs Ha He ->. unfold bytes2sig.
  remember (be32 idx ++ rr ++ concat sg ++ concat au ++ extra) as b eqn:Eb.
  assert (Lb : Z.of_nat (length b)
               = 4 + n + wlen * n + 32 * Z.of_nat (length au) + Z.of_nat (length extra)).
  { subst b. rewrite !length_app, !length_concat_blocks, Hr, Hl by auto.
    unfold n, wlen. rewrite length_be32. lia. }
  assert (Eh : Z.shiftr (Z.of_nat (length b) - (4 + n + wlen * n)) 5 = Z.of_nat (length au)).
  { rewrite Lb.
    replace (4 + n + wlen * n + 32 * Z.of_nat (length au) + Z.of_nat (length extra)
             - (4 + n + wlen * n))
      with (Z.of_nat (length extra) + Z.of_nat (length au) * 2 ^ 5) by lia.
    rewrite Z.shiftr_div_pow2 by lia.
    rewrite Z.div_add by lia. rewrite Z.div_small by lia. lia. }
  rewrite Eh, Z.eqb_refl. cbn [negb].
  unfold slice_from.
  assert (Es : slice b (4 + n) (Z.of_nat (length b))
               = Ok (concat sg ++ concat au ++ extra)).
  { subst b. rewrite (app_assoc (be32 idx) rr).
    replace (concat sg ++ concat au ++ extra)
      with ((concat sg ++ concat au ++ extra) ++ []) at 1 by apply app_nil_r.
    apply slice_app.
    - rewrite length_app, Hr. reflexivity.
    - rewrite !length_app, Hr, length_be32. unfold n. lia. }
  rewrite Es. cbn [rbind].
  assert (Ebd : bytes2sigBody (concat sg ++ concat au ++ extra) (Z.of_nat (length au))
                = Ok (mkSigBody sg au)).
  { unfold bytes2sigBody.
    replace (Z.of_nat (length au) <? 0) with false by (symmetry; apply Z.ltb_ge; lia).
    replace (Z.to_nat wlen) with (length sg) by (rewrite Hl; reflexivity).
    pose proof (slice_blocks_concat sg [] (concat au ++ extra) 0 0 Hs eq_refl) as E0.
    cbn [app] in E0. rewrite E0. cbn [rbind].
    rewrite Nat2Z.id.
    rewrite (slice_blocks_concat au (concat sg) extra (n * wlen) 0); auto.
    rewrite length_concat_blocks, Hl by auto. unfold n, wlen. lia. }
  rewrite Ebd. cbn [rbind].
  assert (EU : Uint32 b = Ok (u32 idx)) by (subst b; apply Uint32_be32).
  rewrite EU. cbn [rbind].
  assert (Er : slice b 4 (4 + n) = Ok rr).
  { subst b. apply slice_app; [reflexivity|]. rewrite Hr. reflexivity. }
  rewrite Er. reflexivity.
Qed.

(** * Totality of the parser, the L-tree and the verifier *)

Arguments randHash : simpl never.
Arguments set : simpl never.
Arguments setTree : simpl never.
Arguments copy_at : simpl never.
Arguments fit32 : simpl never.
Arguments sum : simpl never.
Arguments u32 : simpl never.
Arguments u64 : simpl never.
Arguments shl32 : simpl never.
Arguments shl64 : simpl never.
Arguments zeros : simpl never.
Arguments be32 : simpl never.

Lemma slice_ok (b : bytes) (lo hi : Z) :
  0 <= lo -> lo <= hi -> hi <= Z.of_nat (length b) ->
  exists x, slice b lo hi = Ok x /\ Z.of_nat (length x) = hi - lo.
Proof.
  intros H0 H1 H2. unfold slice.
  replace ((0 <=? lo) && (lo <=? hi) && (hi <=? Z.of_nat (length b))) with true.
  2:{ symmetry. rewrite !andb_true_iff, !Z.leb_le. lia. }
  eexists. split; [reflexivity|]. rewrite length_take, length_drop. lia.
Qed.

Lemma slice_blocks_ok (b : bytes) (base : Z) (count : nat) :
  forall i : Z,
    0 <= base -> 0 <= i -> base + n * (i + Z.of_nat count) <= Z.of_nat (length b) ->
    exists bl, slice_blocks b base i count = Ok bl /\ length bl = count /\ Forall block32 bl.
Proof.
  induction count as [|c IH]; intros i Hb Hi Hl; simpl.
  - exists []. auto.
  - unfold n in *.
    destruct (slice_ok b (base + 32 * i) (base + 32 * (i + 1))) as (x & Ex & Lx); try lia.
    rewrite Ex. cbn [rbind].
    destruct (IH (i + 1)) as (bl & Ebl & Lbl & Fbl); try lia.
    rewrite Ebl. cbn [rbind]. exists (x :: bl). repeat split; simpl; auto.
    constructor; auto. unfold block32. lia.
Qed.

(** A parsed signature has 67 WOTS+ blocks and [h] path blocks of 32 bytes. *)
Definition wf_sig (h : Z) (sg : xmssSig) : Prop :=
  block32 (sig_r sg) /\ length (body_sig (sig_body sg)) = 67%nat /\
  Forall block32 (body_sig (sig_body sg)) /\ Forall block32 (body_auth (sig_body sg)) /\
  Z.of_nat (length (body_auth (sig_body sg))) = h.

Definition sig_height (b : bytes) : Z :=
  Z.shiftr (Z.of_nat (length b) - (4 + n + wlen * n)) 5.

(** [bytes2sig] never panics: it reports an error exactly when the length
    test fails, and returns a well-sized signature otherwise. *)
Lemma bytes2sig_cases (b : bytes) (h : Z) :
  0 <= h ->
  (sig_height b <> h /\ bytes2sig b h = Error "invalid length of bytes") \/
  (sig_height b = h /\ exists sg, bytes2sig b h = Ok sg /\ wf_sig h sg).
Proof.
  intros Hh. unfold bytes2sig. fold (sig_height b).
  destruct (Z.eqb_spec (sig_height b) h) as [E|E]; cbn [negb]; [right|left; auto].
  split; [exact E|].
  assert (Lb : 4 + n + wlen * n + 32 * h <= Z.of_nat (length b)).
  { unfold sig_height in E. rewrite Z.shiftr_div_pow2 in E by lia.
    change (2 ^ 5) with 32 in E.
    pose proof (Z.mul_div_le (Z.of_nat (length b) - (4 + n + wlen * n)) 32). lia. }
  unfold n, wlen in *. unfold slice_from.
  destruct (slice_ok b (4 + 32) (Z.of_nat (length b))) as (rest & Er & Lr); try lia.
  rewrite Er. cbn [rbind]. unfold bytes2sigBody.
  rewrite E. replace (h <? 0) with false by (symmetry; apply Z.ltb_ge; lia).
  destruct (slice_blocks_ok rest 0 (Z.to_nat wlen) 0) as (sg & Es & Ls & Fs);
    try (unfold n, wlen; lia).
  rewrite Es. cbn [rbind].
  destruct (slice_blocks_ok rest (n * wlen) (Z.to_nat h) 0) as (au & Ea & La & Fa);
    try (unfold n, wlen; lia).
  rewrite Ea. cbn [rbind].
  destruct b as [|b0 [|b1 [|b2 [|b3 b']]]]; simpl in Lb; try lia.
  cbn [Uint32 rbind].
  destruct (slice_ok (b0 :: b1 :: b2 :: b3 :: b') 4 (4 + 32)) as (rr & Err & Lrr);
    try (simpl length; lia).
  rewrite Err. cbn [rbind]. eexists. split; [reflexivity|].
  unfold wf_sig, block32. cbn. repeat split; auto; lia.
Qed.

Section VerifyTotal.
Context {PRF hashF_raw : bytes -> bytes -> bytes}
        {hashH_raw : bytes -> bytes -> bytes -> bytes}
        {hashMsg_raw hmac_sha256 : bytes -> bytes -> bytes}.

Local Abbreviation sum := (sum PRF).
Local Abbreviation wots_pubkey := (wots_pubkey PRF hashF_raw).
Local Abbreviation randHash := (randHash PRF hashH_raw).
Local Abbreviation ltree_row := (ltree_row PRF hashH_raw).
Local Abbreviation ltree_loop := (ltree_loop PRF hashH_raw).
Local Abbreviation ltree := (ltree PRF hashH_raw).
Local Abbreviation rootFromSig := (rootFromSig PRF hashF_raw hashH_raw).
Local Abbreviation Verify := (Verify PRF hashF_raw hashH_raw hashMsg_raw).

Lemma Z_land_1 (l : Z) : Z.land l 1 = l mod 2.
Proof. change 1 with (Z.ones 1). apply Z.land_ones. lia. Qed.

Lemma ltree_row_ok (p : prf) (half : Z) (fuel : nat) :
  forall (i : Z) (pk : list bytes) (addrs : addr),
    0 <= i -> 2 * half <= Z.of_nat (length pk) ->
    exists pk' addrs',
      ltree_row fuel i half p pk addrs = Ok (pk', addrs') /\ length pk' = length pk.
Proof.
  induction fuel as [|f IH]; intros i pk addrs Hi Hl; simpl.
  - eauto.
  - destruct (Z.ltb_spec i half); [|eauto].
    destruct (lookup_lt_is_Some_2 pk (Z.to_nat (2 * i))) as [x0 E0]; [lia|].
    destruct (lookup_lt_is_Some_2 pk (Z.to_nat (2 * i + 1))) as [x1 E1]; [lia|].
    destruct (lookup_lt_is_Some_2 pk (Z.to_nat i)) as [x2 E2]; [lia|].
    rewrite E0, E1, E2. cbn [of_option rbind].
    edestruct (IH (i + 1)) as (pk' & a' & E & L); cycle 2.
    + exists pk', a'. split; [exact E|]. now rewrite L, length_insert.
    + lia.
    + rewrite length_insert. lia.
Qed.

Lemma ltree_loop_ok (p : prf) (fuel : nat) :
  forall (l height : Z) (pk : list bytes) (addrs : addr),
    0 <= l <= Z.of_nat (length pk) ->
    exists pk' addrs',
      ltree_loop fuel l height p pk addrs = Ok (pk', addrs') /\ length pk' = length pk.
Proof.
  induction fuel as [|f IH]; intros l height pk addrs Hl; simpl.
  - eauto.
  - destruct (Z.ltb_spec 1 l); [|eauto].
    assert (Hh : Z.shiftr l 1 = l / 2) by (rewrite Z.shiftr_div_pow2 by lia; reflexivity).
    pose proof (Z.mul_div_le l 2 ltac:(lia)) as Hd.
    pose proof (Z.mod_pos_bound l 2 ltac:(lia)) as Hm.
    pose proof (Z.div_mod l 2 ltac:(lia)) as Hdm.
    destruct (ltree_row_ok p (Z.shiftr l 1) (Z.to_nat (Z.shiftr l 1)) 0 pk addrs)
      as (pk1 & a1 & E1 & L1); [lia|lia|].
    rewrite E1. cbn [rbind]. rewrite Z_land_1.
    destruct (Z.eqb_spec (l mod 2) 1) as [Eo|Eo].
    + destruct (lookup_lt_is_Some_2 pk1 (Z.to_nat (l - 1))) as [x0 E0]; [lia|].
      destruct (lookup_lt_is_Some_2 pk1 (Z.to_nat (Z.shiftr l 1))) as [x1 E1']; [lia|].
      rewrite E0, E1'. cbn [of_option rbind].
      destruct (IH (Z.shiftr l 1 + l mod 2) (u32 (height + 1))
                  (<[Z.to_nat (Z.shiftr l 1) := copy_at 0 x0 x1]> pk1)
                  (set adrHeight (u32 (height + 1)) a1)) as (pk' & a' & E & L).
      * rewrite length_insert. lia.
      * rewrite E. exists pk', a'. split; [reflexivity|].
        now rewrite L, length_insert.
    + cbn [rbind].
      destruct (IH (Z.shiftr l 1 + l mod 2) (u32 (height + 1)) pk1
                  (set adrHeight (u32 (height + 1)) a1)) as (pk' & a' & E & L).
      * lia.
      * rewrite E. exists pk', a'. split; [reflexivity|]. lia.
Qed.

(** [ltree] does not panic on a key of 67 chains. *)
Lemma ltree_ok (p : prf) (pk : list bytes) (addrs : addr) :
  length pk = 67%nat -> exists r0 addrs', ltree pk p addrs = Ok (r0, addrs').
Proof.
  intros L. unfold ltree.
  destruct (ltree_loop_ok p (Z.to_nat wlen) wlen 0 pk (set adrHeight 0 addrs))
    as (pk' & a' & E & L'); [unfold wlen; lia|].
  rewrite E. cbn [rbind].
  destruct (lookup_lt_is_Some_2 pk' 0%nat) as [x0 E0]; [lia|].
  rewrite E0. cbn [of_option rbind]. eauto.
Qed.

Lemma length_chains_from (f : Z -> bytes -> addr -> bytes) (a : addr) (xs : list bytes) :
  forall i, length (chains_from i xs f a) = length xs.
Proof. induction xs as [|x xs IH]; intros i; simpl; [reflexivity|]. now rewrite IH. Qed.

Lemma rootFromSig_ok (idx : Z) (hmsg : bytes) (bd : xmssSigBody) (p : prf) (layer tree : Z) :
  length (body_sig bd) = 67%nat ->
  exists rt, rootFromSig idx hmsg bd p layer tree = Ok rt.
Proof.
  intros L. unfold rootFromSig.
  match goal with |- context [ltree ?pk p ?a] =>
    destruct (ltree_ok p pk a) as (r0 & a' & E) end.
  - unfold wots_pubkey. now rewrite length_chains_from.
  - rewrite E. cbn [rbind]. eauto.
Qed.

(** [Verify] returns a boolean for every input; it returns [false] as soon
    as the length test of the parser fails. *)
Lemma Verify_total (pub : PublicKey) (bsig msg : bytes) :
  exists ok : bool, Verify pub bsig msg = Ok ok.
Proof.
  unfold Verify.
  destruct (bytes2sig_cases bsig (Height (pub_params pub) mod 256)) as [[_ E]|[_ (sg & E & W)]].
  - apply Z.mod_pos_bound. lia.
  - rewrite E. eauto.
  - rewrite E. destruct W as (_ & L & _).
    match goal with |- context [rootFromSig ?i ?h ?b ?p ?l ?t] =>
      destruct (rootFromSig_ok i h b p l t L) as (rt & Er) end.
    rewrite Er. cbn [rbind]. eauto.
Qed.

Lemma Verify_bad_length (pub : PublicKey) (bsig msg : bytes) :
  sig_height bsig <> Height (pub_params pub) mod 256 ->
  Verify pub bsig msg = Ok false.
Proof.
  intros Hne. unfold Verify.
  destruct (bytes2sig_cases bsig (Height (pub_params pub) mod 256)) as [[_ E]|[E' _]].
  - apply Z.mod_pos_bound. lia.
  - now rewrite E.
  - contradiction.
Qed.

End VerifyTotal.

(** * The Merkle tree computed by the stack engine *)

Section Tree.
Context {PRF hashF_raw : bytes -> bytes -> bytes}
        {hashH_raw : bytes -> bytes -> bytes -> bytes}
        {hashMsg_raw hmac_sha256 : bytes -> bytes -> bytes}.

Local Abbreviation newWotsPubKey := (newWotsPubKey PRF hashF_raw).
Local Abbreviation goNewWotsPubKey := (goNewWotsPubKey PRF hashF_raw).
Local Abbreviation newWotsPrivKey := (newWotsPrivKey PRF).
Local Abbreviation randHash := (randHash PRF hashH_raw).
Local Abbreviation ltree := (ltree PRF hashH_raw).
Local Abbreviation newleaf := (newleaf PRF hashF_raw hashH_raw).
Local Abbreviation updateSub_step := (updateSub_step PRF hashH_raw).
Local Abbreviation updateSub_loop := (updateSub_loop PRF hashH_raw).
Local Abbreviation updateSub := (updateSub PRF hashH_raw).
Local Abbreviation update := (update PRF hashF_raw hashH_raw).
Local Abbreviation goUpdate := (goUpdate PRF hashF_raw hashH_raw).

Context {priv : PrivateKey} {layer tree : Z}.

Local Abbreviation pubPRF := (newPRF (publicSeed (priv_pub priv))).

(** The value of leaf [i]: the WOTS+ public key at [i], folded by the L-tree. *)
Definition leafOf (i : Z) : bytes :=
  let addrs := set adrOTS i (setTree tree (set adrLayer layer make_addr)) in
  let sk := newWotsPrivKey (wotsPRF priv) addrs in
  let pk := newWotsPubKey sk pubPRF addrs in
  match ltree pk pubPRF (set adrLtree i (set adrType 1 addrs)) with
  | Ok (nn, _) => copy_at 0 nn (zeros 32)
  | _ => zeros 32
  end.

(** The address of an inner node, before height, index and selector are set. *)
Definition hash_addr : addr := setTree tree (set adrLayer layer (set adrType 2 make_addr)).

(** The parent of two nodes of height [hgt]; [idx] is the parent's index. *)
Definition node_hash (l rt : bytes) (hgt idx : Z) : bytes :=
  fst (randHash l rt pubPRF (set adrIndex idx (set adrHeight hgt hash_addr))).

(** Node [j] at height [h] of the tree over all leaves. *)
Fixpoint tree_node (h : nat) (j : Z) : bytes :=
  match h with
  | O => leafOf j
  | S h' => node_hash (tree_node h' (2 * j)) (tree_node h' (2 * j + 1)) (Z.of_nat h') j
  end.

Lemma tree_node_S (h : nat) (j : Z) :
  tree_node (S h) j
  = node_hash (tree_node h (2 * j)) (tree_node h (2 * j + 1)) (Z.of_nat h) j.
Proof. reflexivity. Qed.

(** Two addresses that agree on layer, tree, type and the fourth word. *)
Definition base_eq (a b : addr) : Prop :=
  a_layer a = a_layer b /\ a_tree_hi a = a_tree_hi b /\ a_tree_lo a = a_tree_lo b /\
  a_type a = a_type b /\ a_w4 a = a_w4 b.

Lemma base_eq_refl (a : addr) : base_eq a a.
Proof. repeat split. Qed.

Lemma randHash_base (l rt : bytes) (p : prf) (hgt idx : Z) (a b : addr) :
  base_eq a b ->
  fst (randHash l rt p (set adrIndex idx (set adrHeight hgt a)))
  = fst (randHash l rt p (set adrIndex idx (set adrHeight hgt b)))
  /\ base_eq (snd (randHash l rt p (set adrIndex idx (set adrHeight hgt a)))) b.
Proof.
  destruct a, b. unfold base_eq. cbn. intros (-> & -> & -> & -> & ->).
  unfold randHash, set. cbn. repeat split.
Qed.

Lemma length_newWotsPrivKey (p : prf) (a : addr) : length (newWotsPrivKey p a) = 67%nat.
Proof. unfold newWotsPrivKey. now rewrite length_map, length_seq. Qed.

Lemma length_newWotsPubKey (sk : list bytes) (p : prf) (a : addr) :
  length (newWotsPubKey sk p a) = length sk.
Proof. apply length_chains_from. Qed.

(** What [newleaf] does to a stack. *)
Definition leaf_push (s : stack) : stack :=
  mkStack (mkNh (leafOf (st_leaf s)) 0 (st_leaf s) :: st_stack s)
    (st_height s) (u32 (st_leaf s + 1)) (st_layer s) (st_tree s).

Lemma newleaf_spec (isGo : bool) (s : stack) :
  st_layer s = layer -> st_tree s = tree ->
  newleaf priv isGo s = Ok (leaf_push s).
Proof.
  intros El Et. unfold newleaf, leaf_push, leafOf, goNewWotsPubKey.
  rewrite El, Et.
  assert (Epk : (if isGo
                 then newWotsPubKey (newWotsPrivKey (wotsPRF priv)
                        (set adrOTS (st_leaf s) (setTree tree (set adrLayer layer make_addr))))
                        pubPRF (set adrOTS (st_leaf s) (setTree tree (set adrLayer layer make_addr)))
                 else newWotsPubKey (newWotsPrivKey (wotsPRF priv)
                        (set adrOTS (st_leaf s) (setTree tree (set adrLayer layer make_addr))))
                        pubPRF (set adrOTS (st_leaf s) (setTree tree (set adrLayer layer make_addr))))
                = newWotsPubKey (newWotsPrivKey (wotsPRF priv)
                        (set adrOTS (st_leaf s) (setTree tree (set adrLayer layer make_addr))))
                        pubPRF (set adrOTS (st_leaf s) (setTree tree (set adrLayer layer make_addr))))
    by (destruct isGo; reflexivity).
  rewrite Epk.
  match goal with |- context [ltree ?pk ?p ?a] =>
    destruct (ltree_ok (PRF:=PRF) (hashH_raw:=hashH_raw) p pk a) as (r0 & a' & E) end.
  { now rewrite length_newWotsPubKey, length_newWotsPrivKey. }
  rewrite E. cbn [rbind]. unfold push, set_stack. cbn. now rewrite El, Et.
Qed.

(** The parent made by the combine branch of [updateSub]. *)
Definition combine (lft rgt : nh) : nh :=
  mkNh (node_hash (nh_node lft) (nh_node rgt) (nh_height rgt) (Z.shiftr (nh_index rgt) 1))
    (u32 (nh_height rgt + 1)) (Z.shiftr (nh_index rgt) 1).

(** One elementary step of a stack: combine the two top nodes when they have
    the same height, push the next leaf otherwise. *)
Definition step (s : stack) : stack :=
  match st_stack s with
  | rgt :: lft :: rest =>
      if nh_height lft =? nh_height rgt then set_stack s (combine lft rgt :: rest)
      else leaf_push s
  | _ => leaf_push s
  end.

Fixpoint steps (k : nat) (s : stack) : stack :=
  match k with
  | O => s
  | S k' => steps k' (step s)
  end.

Lemma steps_1 (s : stack) : steps 1 s = step s.
Proof. reflexivity. Qed.

Lemma steps_S (k : nat) (s : stack) : steps (S k) s = steps k (step s).
Proof. reflexivity. Qed.

Lemma steps_add (a b : nat) (s : stack) : steps (a + b) s = steps b (steps a s).
Proof. revert s. induction a as [|a IH]; intros s; simpl; [reflexivity|]. apply IH. Qed.

Lemma step_layer (s : stack) : st_layer (step s) = st_layer s.
Proof.
  unfold step. destruct (st_stack s) as [|rgt [|lft rest]]; try reflexivity.
  destruct (nh_height lft =? nh_height rgt); reflexivity.
Qed.

Lemma step_tree (s : stack) : st_tree (step s) = st_tree s.
Proof.
  unfold step. destruct (st_stack s) as [|rgt [|lft rest]]; try reflexivity.
  destruct (nh_height lft =? nh_height rgt); reflexivity.
Qed.

Lemma step_height (s : stack) : st_height (step s) = st_height s.
Proof.
  unfold step. destruct (st_stack s) as [|rgt [|lft rest]]; try reflexivity.
  destruct (nh_height lft =? nh_height rgt); reflexivity.
Qed.

Definition std_leaf (isGo : bool) (s : stack) (_ : unit) : result (stack * unit) :=
  do s <- newleaf priv isGo s; Ok (s, tt).

Lemma updateSub_step_std (isGo : bool) (s : stack) (a : addr) :
  st_layer s = layer -> st_tree s = tree -> base_eq a hash_addr ->
  exists a', updateSub_step (std_leaf isGo) pubPRF (s, a, tt) = Ok (step s, a', tt)
             /\ base_eq a' hash_addr.
Proof.
  intros El Et Ha. unfold updateSub_step, step, std_leaf.
  destruct (st_stack s) as [|rgt [|lft rest]] eqn:Es.
  - rewrite (newleaf_spec isGo s El Et). cbn [rbind]. eauto.
  - rewrite (newleaf_spec isGo s El Et). cbn [rbind]. eauto.
  - destruct (nh_height lft =? nh_height rgt).
    + destruct (randHash_base (nh_node lft) (nh_node rgt) pubPRF (nh_height rgt)
                  (Z.shiftr (nh_index rgt) 1) a hash_addr Ha) as [E1 E2].
      destruct (randHash (nh_node lft) (nh_node rgt) pubPRF
                  (set adrIndex (Z.shiftr (nh_index rgt) 1) (set adrHeight (nh_height rgt) a)))
        as [out a'] eqn:Er.
      exists a'. split; [|exact E2].
      unfold combine, node_hash. rewrite <- E1. reflexivity.
    + rewrite (newleaf_spec isGo s El Et). cbn [rbind]. eauto.
Qed.

Lemma updateSub_loop_std (isGo : bool) (fuel : nat) :
  forall (s : stack) (a : addr),
    st_layer s = layer -> st_tree s = tree -> base_eq a hash_addr ->
    exists a', updateSub_loop (std_leaf isGo) fuel pubPRF (s, a, tt) = Ok (steps fuel s, a', tt).
Proof.
  induction fuel as [|f IH]; intros s a El Et Ha; cbn [updateSub_loop steps].
  - eauto.
  - destruct (updateSub_step_std isGo s a El Et Ha) as (a' & E & Ha').
    rewrite E. cbn [rbind]. apply IH; auto.
    + now rewrite step_layer.
    + now rewrite step_tree.
Qed.

Lemma updateSub_std (isGo : bool) (nn : Z) (s : stack) :
  st_layer s = layer -> st_tree s = tree ->
  updateSub (std_leaf isGo) nn priv s tt
  = Ok (if done s then s else steps (Z.to_nat nn) s, tt).
Proof.
  intros El Et. unfold updateSub. fold (done s).
  destruct (done s); [reflexivity|].
  destruct (updateSub_loop_std isGo (Z.to_nat nn) s
              (setTree (st_tree s) (set adrLayer (st_layer s) (set adrType 2 make_addr))))
    as (a' & E); auto.
  { rewrite El, Et. apply base_eq_refl. }
  rewrite E. reflexivity.
Qed.

(** [update] and [goUpdate] run [nn] elementary steps unless the stack is
    done on entry. *)
Lemma update_spec (nn : Z) (s : stack) :
  st_layer s = layer -> st_tree s = tree ->
  update nn priv s = Ok (if done s then s else steps (Z.to_nat nn) s).
Proof.
  intros El Et. unfold update. fold (std_leaf false).
  rewrite (updateSub_std false nn s El Et). reflexivity.
Qed.

Lemma goUpdate_spec (nn : Z) (s : stack) :
  st_layer s = layer -> st_tree s = tree ->
  goUpdate nn priv s = Ok (if done s then s else steps (Z.to_nat nn) s).
Proof.
  intros El Et. unfold goUpdate. fold (std_leaf true).
  rewrite (updateSub_std true nn s El Et). reflexivity.
Qed.

End Tree.

(** * The invariant of a stack under construction *)

Lemma even_of_aligned (h k j : Z) :
  0 <= h < k -> (2 ^ k | j * 2 ^ h) -> Z.even j = true.
Proof.
  intros Hh [q Hq].
  replace (2 ^ k) with (2 ^ (k - h) * 2 ^ h) in Hq
    by (rewrite <- Z.pow_add_r by lia; f_equal; lia).
  rewrite Z.mul_assoc in Hq. apply Z.mul_reg_r in Hq; [|apply Z.pow_nonzero; lia].
  subst j. replace (k - h) with (Z.succ (k - h - 1)) by lia.
  rewrite Z.pow_succ_r by lia.
  rewrite Z.even_mul. rewrite (Z.even_mul 2). simpl. apply orb_true_r.
Qed.

Lemma shiftr1_odd (j : Z) : Z.shiftr (2 * j + 1) 1 = j.
Proof.
  rewrite Z.shiftr_div_pow2 by lia. change (2 ^ 1) with 2.
  replace (2 * j + 1) with (1 + j * 2) by lia. rewrite Z.div_add by lia. reflexivity.
Qed.

Lemma even_half (a : Z) : Z.even a = true -> a = 2 * (a / 2).
Proof.
  intros He. apply Z.even_spec in He. destruct He as [q ->].
  rewrite Z.mul_comm, Z.div_mul by lia. lia.
Qed.

Section StackInvariant.
Context {PRF hashF_raw : bytes -> bytes -> bytes}
        {hashH_raw : bytes -> bytes -> bytes -> bytes}
        {hashMsg_raw hmac_sha256 : bytes -> bytes -> bytes}.


Context {priv : PrivateKey} {layer tree : Z}.

Local Abbreviation tree_node := (@tree_node PRF hashF_raw hashH_raw priv layer tree).
Local Abbreviation leaf_push := (@leaf_push PRF hashF_raw hashH_raw priv layer tree).
Local Abbreviation combine := (@combine PRF hashH_raw priv layer tree).
Local Abbreviation step := (@step PRF hashF_raw hashH_raw priv layer tree).

(** A stack node holds the tree node named by its height and index. *)
Definition node_ok (nd : nh) : Prop :=
  0 <= nh_height nd /\ 0 <= nh_index nd /\
  nh_node nd = tree_node (Z.to_nat (nh_height nd)) (nh_index nd).

(** The nodes of a stack (top first) cover the leaves [start, cur). *)
Fixpoint covers (start : Z) (l : list nh) (cur : Z) : Prop :=
  match l with
  | [] => cur = start
  | nd :: rest =>
      node_ok nd /\ (nh_index nd + 1) * 2 ^ nh_height nd = cur /\
      covers start rest (nh_index nd * 2 ^ nh_height nd)
  end.

(** Left children waiting for their siblings: heights grow strictly towards
    the bottom, stay below [k] and start at [m] or above. *)
Fixpoint lefts (k m : Z) (l : list nh) : Prop :=
  match l with
  | [] => True
  | nd :: rest =>
      m <= nh_height nd < k /\ Z.even (nh_index nd) = true /\
      lefts k (nh_height nd + 1) rest
  end.

(** The three shapes of a stack with target height [k]. *)
Inductive shape (k : Z) : list nh -> Prop :=
| shape_pending l : lefts k 0 l -> shape k l
| shape_pair a b rest :
    0 <= nh_height b ->
    nh_height a = nh_height b -> nh_index a = nh_index b + 1 ->
    lefts k (nh_height b) (b :: rest) -> shape k (a :: b :: rest)
| shape_done nd : nh_height nd = k -> shape k [nd].

(** A stack that builds node [start / 2^k] of height [k]. *)
Definition TS (k start : Z) (s : stack) : Prop :=
  st_height s = k /\ st_layer s = layer /\ st_tree s = tree /\
  0 <= k <= 32 /\ 0 <= start /\ (2 ^ k | start) /\ start + 2 ^ k <= 2 ^ 32 /\
  exists cur, st_leaf s = u32 cur /\ covers start (st_stack s) cur /\ shape k (st_stack s).

Lemma lefts_weaken (k m m' : Z) (l : list nh) :
  m' <= m -> lefts k m l -> lefts k m' l.
Proof. destruct l; simpl; [auto|]. intros ? (? & ? & ?). repeat split; auto; lia. Qed.

Lemma covers_bound (k start : Z) (l : list nh) :
  forall m cur, 0 <= m <= k -> lefts k m l -> covers start l cur ->
                start <= cur /\ cur - start <= 2 ^ k - 2 ^ m.
Proof.
  induction l as [|nd rest IH]; intros m cur Hm Hl Hc; simpl in *.
  - subst. pose proof (Z.pow_le_mono_r 2 m k). lia.
  - destruct Hl as (Hh & He & Hl). destruct Hc as ((H0 & H1 & _) & Hcur & Hc).
    destruct (IH (nh_height nd + 1) _ ltac:(lia) Hl Hc) as [B1 B2].
    rewrite Z.pow_add_r in B2 by lia. change (2 ^ 1) with 2 in B2.
    pose proof (Z.pow_le_mono_r 2 m (nh_height nd)).
    assert (0 < 2 ^ nh_height nd) by (apply Z.pow_pos_nonneg; lia).
    lia.
Qed.

Lemma not_done_pending (k : Z) (s : stack) :
  st_height s = k -> lefts k 0 (st_stack s) -> done s = false.
Proof.
  intros Ek Hl. unfold done. destruct (st_stack s) as [|t rest]; [reflexivity|].
  simpl in Hl. apply Z.eqb_neq. lia.
Qed.

(** An elementary step keeps the invariant of a stack that is not done. *)
Lemma step_TS (k start : Z) (s : stack) :
  TS k start s -> done s = false -> TS k start (step s).
Proof.
  intros (Ek & El & Et & Hk & Hs0 & Hal & Hend & cur & Ecur & Hc & Hsh) Hd.
  unfold TS. rewrite step_height, step_layer, step_tree.
  repeat (split; [assumption|]).
  unfold step, done in *.
  inversion Hsh as [l Hl El' | a b rest Hb0' Hab Hidx Hl El' | nd Hnd El'].
  - (* pending: a leaf is pushed *)
    assert (Hcan : match st_stack s with
                   | rgt :: lft :: _ => nh_height lft =? nh_height rgt
                   | _ => false end = false).
    { destruct (st_stack s) as [|c [|c' r']]; auto. simpl in Hl.
      apply Z.eqb_neq. lia. }
    assert (Estep : match st_stack s with
                    | rgt :: lft :: rest =>
                        if nh_height lft =? nh_height rgt
                        then set_stack s (combine lft rgt :: rest) else leaf_push s
                    | _ => leaf_push s end = leaf_push s).
    { destruct (st_stack s) as [|c [|c' r']]; auto. now rewrite Hcan. }
    rewrite Estep. clear Estep Hcan.
    destruct (covers_bound k start _ 0 cur ltac:(lia) Hl Hc) as [B1 B2].
    change (2 ^ 0) with 1 in B2.
    assert (Ecur' : st_leaf s = cur) by (rewrite Ecur; apply u32_small; lia).
    exists (cur + 1). unfold leaf_push. cbn [st_leaf st_stack].
    split; [now rewrite Ecur'|].
    split.
    + cbn [covers]. unfold node_ok. cbn [nh_height nh_index nh_node].
      rewrite Ecur'. change (2 ^ 0) with 1. rewrite !Z.mul_1_r.
      repeat split; try lia; auto.
    + destruct (st_stack s) as [|c rest] eqn:Es.
      * simpl in Hc. subst cur.
        destruct (Z.eq_dec k 0) as [->|Hk0].
        -- apply shape_done. reflexivity.
        -- apply shape_pending. cbn [lefts nh_height nh_index]. rewrite Ecur'.
           repeat split; try lia.
           apply (even_of_aligned 0 k); [lia|]. now rewrite Z.mul_1_r.
      * cbn [lefts] in Hl. destruct Hl as (Hh & He & Hl).
        cbn [covers] in Hc. destruct Hc as (Hok & Hcur & Hc).
        destruct (Z.eq_dec (nh_height c) 0) as [E0|E0].
        -- apply shape_pair; cbn [nh_height nh_index].
           ++ lia.
           ++ now rewrite E0.
           ++ rewrite Ecur', <- Hcur, E0. change (2 ^ 0) with 1. lia.
           ++ cbn [lefts]. repeat split; auto; lia.
        -- apply shape_pending. cbn [lefts nh_height nh_index]. rewrite Ecur'.
           repeat split; try lia; auto.
           apply (even_of_aligned 0 (nh_height c)); [lia|].
           rewrite Z.mul_1_r, <- Hcur. now exists (nh_index c + 1).
  - (* pair: the two top nodes are combined *)
    rewrite <- El' in *. rewrite Hab, Z.eqb_refl in *.
    cbn [lefts] in Hl. destruct Hl as (Hh & He & Hl).
    cbn [covers] in Hc.
    destruct Hc as ((Ha0 & Ha1 & Hav) & Hcur & (Hb0 & Hb1 & Hbv) & Hadj & Hc).
    set (h := nh_height b) in *. set (j := nh_index b / 2).
    assert (Ej : nh_index b = 2 * j) by (apply even_half; exact He).
    assert (Esh : Z.shiftr (nh_index a) 1 = j) by (rewrite Hidx, Ej; apply shiftr1_odd).
    assert (Eu : u32 (nh_height a + 1) = h + 1) by (rewrite Hab; apply u32_small; lia).
    assert (P2 : 2 ^ (h + 1) = 2 * 2 ^ h) by (rewrite Z.pow_add_r by lia; change (2 ^ 1) with 2; lia).
    exists cur. cbn [set_stack st_leaf st_stack].
    split; [exact Ecur|].
    assert (Hj0 : 0 <= j) by lia.
    assert (Hpok : node_ok (combine b a)).
    { unfold node_ok, combine. cbn [nh_height nh_index nh_node].
      rewrite Esh, Eu. repeat split; try lia.
      replace (Z.to_nat (h + 1)) with (S (Z.to_nat h)) by lia.
      rewrite tree_node_S. rewrite Z2Nat.id by lia.
      rewrite Hav, Hbv, Hab, Hidx, Ej. reflexivity. }
    split.
    + cbn [covers]. split; [exact Hpok|].
      unfold combine. cbn [nh_height nh_index]. rewrite Esh, Eu, P2.
      split.
      * rewrite <- Hcur, Hab, Hidx, Ej. fold h. lia.
      * replace (j * (2 * 2 ^ h)) with (nh_index b * 2 ^ h) by (rewrite Ej; lia).
        exact Hc.
    + assert (Hph : nh_height (combine b a) = h + 1) by (unfold combine; cbn; exact Eu).
      assert (Hpi : nh_index (combine b a) = j) by (unfold combine; cbn; exact Esh).
      destruct rest as [|c rest'].
      * simpl in Hc.
        destruct (Z.eq_dec (h + 1) k) as [E|E].
        -- apply shape_done. now rewrite Hph.
        -- apply shape_pending. cbn [lefts]. rewrite Hph, Hpi.
           repeat split; try lia.
           apply (even_of_aligned (h + 1) k); [lia|].
           rewrite P2. replace (j * (2 * 2 ^ h)) with (nh_index b * 2 ^ h) by (rewrite Ej; lia).
           now rewrite Hc.
      * cbn [lefts] in Hl. destruct Hl as (Hch & Hce & Hl).
        cbn [covers] in Hc. destruct Hc as (Hcok & Hcadj & Hc).
        destruct (Z.eq_dec (nh_height c) (h + 1)) as [E|E].
        -- apply shape_pair.
           ++ lia.
           ++ now rewrite Hph.
           ++ rewrite Hpi. rewrite E, P2 in Hcadj.
              assert (0 < 2 ^ h) by (apply Z.pow_pos_nonneg; lia). nia.
           ++ cbn [lefts]. repeat split; auto; lia.
        -- apply shape_pending. cbn [lefts]. rewrite Hph, Hpi.
           fold h in Hch.
           repeat split; try lia; auto.
           apply (even_of_aligned (h + 1) (nh_height c)); [lia|].
           rewrite P2. replace (j * (2 * 2 ^ h)) with (nh_index b * 2 ^ h) by (rewrite Ej; lia).
           rewrite <- Hcadj. now exists (nh_index c + 1).
  - rewrite <- El' in Hd. rewrite Hnd, Ek, Z.eqb_refl in Hd. discriminate.
Qed.

End StackInvariant.

(** * Work counters of a stack *)

(** The number of elementary steps that build a node of height [h]. *)
Definition Nn (h : Z) : Z := 2 ^ (h + 1) - 1.

(** Steps spent on the nodes of a stack. *)
Fixpoint wsum (l : list nh) : Z :=
  match l with
  | [] => 0
  | nd :: rest => Nn (nh_height nd) + wsum rest
  end.

(** Steps spent on the nodes of height below [j]. *)
Fixpoint wlow (j : Z) (l : list nh) : Z :=
  match l with
  | [] => 0
  | nd :: rest => (if nh_height nd <? j then Nn (nh_height nd) else 0) + wlow j rest
  end.

(** Steps a stack still needs to reach its target. *)
Definition rem (s : stack) : Z := Nn (st_height s) - wsum (st_stack s).

(** Steps a stack needs until no node of it is lower than [j]. *)
Definition tail (j : Z) (s : stack) : Z :=
  if wlow j (st_stack s) =? 0 then 0 else Nn j - wlow j (st_stack s).

Lemma Nn_pos (h : Z) : 0 <= h -> 1 <= Nn h.
Proof.
  intros Hh. unfold Nn. assert (2 ^ 1 <= 2 ^ (h + 1)) by (apply Z.pow_le_mono_r; lia).
  change (2 ^ 1) with 2 in *. lia.
Qed.

Lemma Nn_succ (h : Z) : 0 <= h -> Nn (h + 1) = 2 * Nn h + 1.
Proof.
  intros Hh. unfold Nn. rewrite (Z.pow_add_r 2 (h + 1) 1) by lia.
  change (2 ^ 1) with 2. lia.
Qed.

Lemma Nn_0 : Nn 0 = 1.
Proof. reflexivity. Qed.

Lemma Nn_mono (a b : Z) : 0 <= a <= b -> Nn a <= Nn b.
Proof.
  intros Hab. unfold Nn. assert (2 ^ (a + 1) <= 2 ^ (b + 1)) by (apply Z.pow_le_mono_r; lia).
  lia.
Qed.

Lemma wlow_nonneg (j : Z) (l : list nh) :
  Forall (fun nd => 0 <= nh_height nd) l -> 0 <= wlow j l.
Proof.
  induction 1 as [|nd rest Hn _ IH]; simpl; [lia|].
  destruct (nh_height nd <? j); [pose proof (Nn_pos _ Hn)|]; lia.
Qed.

Section Counters.
Context {PRF hashF_raw : bytes -> bytes -> bytes}
        {hashH_raw : bytes -> bytes -> bytes -> bytes}
        {hashMsg_raw hmac_sha256 : bytes -> bytes -> bytes}.

Local Abbreviation build := (build PRF hashF_raw hashH_raw).

Context {priv : PrivateKey} {layer tree : Z}.

Local Abbreviation leaf_push := (@leaf_push PRF hashF_raw hashH_raw priv layer tree).
Local Abbreviation combine := (@combine PRF hashH_raw priv layer tree).
Local Abbreviation step := (@step PRF hashF_raw hashH_raw priv layer tree).
Local Abbreviation steps := (@steps PRF hashF_raw hashH_raw priv layer tree).

Lemma lefts_heights (k m : Z) (l : list nh) :
  0 <= m -> lefts k m l -> Forall (fun nd => 0 <= nh_height nd) l.
Proof.
  revert m. induction l as [|nd rest IH]; intros m Hm Hl; [constructor|].
  destruct Hl as (Hh & _ & Hl). constructor; [lia|]. apply (IH (nh_height nd + 1)); [lia|auto].
Qed.

Lemma lefts_wsum (k : Z) (l : list nh) :
  forall m, 0 <= m <= k -> lefts k m l ->
            0 <= wsum l <= 2 ^ (k + 1) - 2 ^ (m + 1) - (if l is [] then 0 else 1).
Proof.
  induction l as [|nd rest IH]; intros m Hm Hl; cbn [wsum].
  - assert (2 ^ (m + 1) <= 2 ^ (k + 1)) by (apply Z.pow_le_mono_r; lia). lia.
  - destruct Hl as (Hh & _ & Hl).
    specialize (IH (nh_height nd + 1) ltac:(lia) Hl).
    assert (2 ^ (m + 1) <= 2 ^ (nh_height nd + 1)) by (apply Z.pow_le_mono_r; lia).
    rewrite (Z.pow_add_r 2 (nh_height nd + 1) 1) in IH by lia. change (2 ^ 1) with 2 in IH.
    pose proof (Nn_pos (nh_height nd) ltac:(lia)).
    unfold Nn in *. destruct rest; lia.
Qed.

Lemma lefts_wlow_zero (k j : Z) (l : list nh) :
  forall m, j <= m -> lefts k m l -> wlow j l = 0.
Proof.
  induction l as [|nd rest IH]; intros m Hm Hl; cbn [wlow]; [reflexivity|].
  destruct Hl as (Hh & _ & Hl).
  replace (nh_height nd <? j) with false by (symmetry; apply Z.ltb_ge; lia).
  rewrite (IH (nh_height nd + 1)); auto; lia.
Qed.

Lemma lefts_wlow (k j : Z) (l : list nh) :
  forall m, 0 <= m -> 0 <= j -> lefts k m l ->
            0 <= wlow j l <= 2 ^ (j + 1) - 2 ^ (m + 1) - (if wlow j l =? 0 then 0 else 1)
            \/ wlow j l = 0.
Proof.
  induction l as [|nd rest IH]; intros m Hm Hj Hl; cbn [wlow]; [right; reflexivity|].
  destruct Hl as (Hh & He & Hl).
  destruct (Z.ltb_spec (nh_height nd) j) as [Hlt|Hge].
  - left.
    destruct (IH (nh_height nd + 1) ltac:(lia) Hj Hl) as [B|B].
    + assert (2 ^ (m + 1) <= 2 ^ (nh_height nd + 1)) by (apply Z.pow_le_mono_r; lia).
      rewrite (Z.pow_add_r 2 (nh_height nd + 1) 1) in B by lia. change (2 ^ 1) with 2 in B.
      pose proof (Nn_pos (nh_height nd) ltac:(lia)).
      destruct (Z.eqb_spec (Nn (nh_height nd) + wlow j rest) 0); [lia|].
      unfold Nn in *. destruct (wlow j rest =? 0); lia.
    + rewrite B.
      assert (2 ^ (m + 1) <= 2 ^ (nh_height nd + 1)) by (apply Z.pow_le_mono_r; lia).
      assert (2 ^ (nh_height nd + 1 + 1) <= 2 ^ (j + 1)) by (apply Z.pow_le_mono_r; lia).
      rewrite (Z.pow_add_r 2 (nh_height nd + 1) 1) in * by lia. change (2 ^ 1) with 2 in *.
      pose proof (Nn_pos (nh_height nd) ltac:(lia)).
      destruct (Z.eqb_spec (Nn (nh_height nd) + 0) 0); [lia|].
      unfold Nn in *. lia.
  - right. rewrite (lefts_wlow_zero k j rest (nh_height nd + 1)); auto; lia.
Qed.

Lemma step_pending (k : Z) (s : stack) :
  lefts k 0 (st_stack s) -> step s = leaf_push s.
Proof.
  intros Hl. unfold step. destruct (st_stack s) as [|c [|c' r']]; auto.
  simpl in Hl. replace (nh_height c' =? nh_height c) with false; [reflexivity|].
  symmetry. apply Z.eqb_neq. lia.
Qed.

Lemma step_pair (s : stack) (a b : nh) (rest : list nh) :
  st_stack s = a :: b :: rest -> nh_height a = nh_height b ->
  step s = set_stack s (combine b a :: rest).
Proof.
  intros Es Hab. unfold step. rewrite Es, Hab, Z.eqb_refl. reflexivity.
Qed.

Lemma done_iff (k : Z) (s : stack) :
  st_height s = k -> shape k (st_stack s) ->
  done s = true <-> exists nd, st_stack s = [nd] /\ nh_height nd = k.
Proof.
  intros Ek Hsh. unfold done. inversion Hsh as [l Hl El | a b rest Hb0 Hab Hidx Hl El | nd Hnd El].
  - destruct (st_stack s) as [|t r']; [split; [discriminate|intros (? & ? & _); discriminate]|].
    simpl in Hl. split.
    + intros E. apply Z.eqb_eq in E. lia.
    + intros (nd & E & Hnd). inversion E; subst. lia.
  - simpl in Hl. split.
    + intros E. apply Z.eqb_eq in E. lia.
    + intros (nd & E & Hnd). discriminate.
  - split; [eauto|]. intros _. apply Z.eqb_eq. lia.
Qed.

(** A stack that is done needs no step; any other needs at least one. *)
Lemma rem_done (k : Z) (s : stack) :
  st_height s = k -> shape k (st_stack s) -> done s = true -> rem s = 0.
Proof.
  intros Ek Hsh Hd. apply (done_iff k s Ek Hsh) in Hd. destruct Hd as (nd & E & Hnd).
  unfold rem. rewrite E, Ek. cbn [wsum]. rewrite Hnd. lia.
Qed.

Lemma rem_not_done (k : Z) (s : stack) :
  0 <= k -> st_height s = k -> shape k (st_stack s) -> done s = false -> 1 <= rem s.
Proof.
  intros Hk Ek Hsh Hd. unfold rem. rewrite Ek.
  inversion Hsh as [l Hl El | a b rest Hb0 Hab Hidx Hl El | nd Hnd El].
  - pose proof (lefts_wsum k _ 0 ltac:(lia) Hl) as B. change (2 ^ (0 + 1)) with 2 in B.
    unfold Nn. destruct (st_stack s); lia.
  - pose proof (lefts_wsum k _ (nh_height b) ltac:(simpl in Hl; lia) Hl) as B.
    cbn [wsum] in *. rewrite Hab. simpl in Hl. unfold Nn in *. lia.
  - exfalso. assert (done s = true); [|congruence].
    apply (done_iff k s Ek Hsh). rewrite <- El. eauto.
Qed.

Lemma rem_step (k : Z) (s : stack) :
  0 <= k <= 32 -> st_height s = k -> shape k (st_stack s) -> done s = false ->
  rem (step s) = rem s - 1.
Proof.
  intros Hk Ek Hsh Hd. unfold rem. rewrite step_height.
  inversion Hsh as [l Hl El | a b rest Hb0 Hab Hidx Hl El | nd Hnd El].
  - rewrite (step_pending k s Hl). unfold leaf_push. cbn [st_stack wsum nh_height].
    rewrite Nn_0. lia.
  - rewrite (step_pair s a b rest (eq_sym El) Hab). cbn [set_stack st_stack wsum].
    unfold combine. cbn [nh_height]. simpl in Hl.
    rewrite u32_small by lia. rewrite Hab, Nn_succ by lia. lia.
  - exfalso. assert (done s = true); [|congruence].
    apply (done_iff k s Ek Hsh). rewrite <- El. eauto.
Qed.

(** *** The value of [low] *)

Local Abbreviation minh :=
  (fun (nd : nh) (mn : Z) => if nh_height nd <? mn then nh_height nd else mn).

Lemma fold_min_lefts (k : Z) (l : list nh) :
  forall m, k <= MaxUint32 -> lefts k m l ->
            fold_right minh MaxUint32 l
            = match l with [] => MaxUint32 | t :: _ => nh_height t end.
Proof.
  induction l as [|nd rest IH]; intros m Hk Hl; cbn [fold_right]; [reflexivity|].
  destruct Hl as (Hh & _ & Hl). rewrite (IH _ Hk Hl).
  destruct rest as [|t rest'].
  - replace (nh_height nd <? MaxUint32) with true; [reflexivity|].
    symmetry. apply Z.ltb_lt. lia.
  - simpl in Hl. replace (nh_height nd <? nh_height t) with true; [reflexivity|].
    symmetry. apply Z.ltb_lt. lia.
Qed.

Lemma low_done (s : stack) : done s = true -> low s = MaxUint32.
Proof.
  unfold done, low. destruct (st_stack s); [discriminate|]. now intros ->.
Qed.

Lemma low_empty (s : stack) : st_stack s = [] -> low s = st_height s.
Proof. unfold low. now intros ->. Qed.

Lemma low_top (k : Z) (s : stack) (t : nh) (rest : list nh) :
  0 <= k <= 32 -> st_height s = k -> shape k (st_stack s) -> done s = false ->
  st_stack s = t :: rest -> low s = nh_height t /\ 0 <= nh_height t < k.
Proof.
  intros Hk Ek Hsh Hd Es. unfold low, done in *. rewrite Es in *. rewrite Hd.
  assert (HM : k <= MaxUint32) by (unfold MaxUint32; lia).
  inversion Hsh as [l Hl El | a b rest' Hb0 Hab Hidx Hl El | nd Hnd El].
  - rewrite (fold_min_lefts k _ 0 HM Hl). simpl in Hl. split; [reflexivity|lia].
  - change (fold_right minh MaxUint32 (t :: b :: rest'))
      with (minh t (fold_right minh MaxUint32 (b :: rest'))).
    rewrite (fold_min_lefts k _ _ HM Hl). simpl in Hl.
    replace (nh_height t <? nh_height b) with false by (symmetry; apply Z.ltb_ge; lia).
    split; lia.
  - apply Z.eqb_neq in Hd. congruence.
Qed.

Lemma low_le (k : Z) (s : stack) :
  0 <= k <= 32 -> st_height s = k -> shape k (st_stack s) -> done s = false ->
  0 <= low s <= k.
Proof.
  intros Hk Ek Hsh Hd. destruct (st_stack s) as [|t rest] eqn:Es.
  - rewrite (low_empty s Es). lia.
  - rewrite <- Es in Hsh. destruct (low_top k s t rest Hk Ek Hsh Hd Es). lia.
Qed.

(** *** The tail of a stack below a level *)

Lemma tail_bound (k j : Z) (s : stack) :
  0 <= k -> 0 <= j -> st_height s = k -> shape k (st_stack s) ->
  0 <= tail j s <= Nn j - 1.
Proof.
  intros Hk Hj Ek Hsh. unfold tail.
  pose proof (Nn_pos j Hj) as HN.
  destruct (Z.eqb_spec (wlow j (st_stack s)) 0) as [E|E]; [lia|].
  inversion Hsh as [l Hl El | a b rest Hb0 Hab Hidx Hl El | nd Hnd El].
  - destruct (lefts_wlow k j _ 0 ltac:(lia) Hj Hl) as [B|B]; [|contradiction].
    change (2 ^ (0 + 1)) with 2 in B. unfold Nn in *.
    destruct (wlow j (st_stack s) =? 0); lia.
  - rewrite <- El in E. cbn [wlow] in *. simpl in Hl.
    destruct (lefts_wlow k j (b :: rest) (nh_height b) ltac:(lia) Hj Hl) as [B|B].
    + cbn [wlow] in B. rewrite Hab in *.
      destruct (Z.ltb_spec (nh_height b) j).
      * pose proof (Nn_pos (nh_height b) ltac:(lia)).
        destruct (Z.eqb_spec (Nn (nh_height b) + wlow j rest) 0); unfold Nn in *; lia.
      * rewrite (lefts_wlow_zero k j rest (nh_height b + 1)) in E by (try tauto; lia). lia.
    + cbn [wlow] in B. rewrite Hab in *.
      assert (0 <= wlow j rest).
      { apply wlow_nonneg. apply (lefts_heights k (nh_height b + 1)); [lia|tauto]. }
      destruct (Z.ltb_spec (nh_height b) j); [pose proof (Nn_pos (nh_height b)); lia | lia].
  - rewrite <- El in E. cbn [wlow] in *.
    destruct (Z.ltb_spec (nh_height nd) j); [|lia].
    pose proof (Nn_pos (nh_height nd) ltac:(lia)). unfold Nn in *.
    assert (2 ^ (nh_height nd + 1) <= 2 ^ j) by (apply Z.pow_le_mono_r; lia).
    rewrite (Z.pow_add_r 2 j 1) by lia. change (2 ^ 1) with 2. lia.
Qed.

Lemma tail_empty (j : Z) (s : stack) : st_stack s = [] -> tail j s = 0.
Proof. unfold tail. now intros ->. Qed.

(** A step on a stack whose top is lower than [j] shortens its tail by one. *)
Lemma tail_step (k j : Z) (s : stack) (t : nh) (rest : list nh) :
  0 <= k <= 32 -> 0 <= j -> st_height s = k -> shape k (st_stack s) -> done s = false ->
  st_stack s = t :: rest -> nh_height t < j ->
  tail j (step s) = tail j s - 1.
Proof.
  intros Hk Hj Ek Hsh Hd Es Ht. unfold tail.
  inversion Hsh as [l Hl El | a b rest' Hb0 Hab Hidx Hl El | nd Hnd El].
  - rewrite (step_pending k s Hl). unfold leaf_push. cbn [st_stack wlow nh_height].
    pose proof (wlow_nonneg j _ (lefts_heights k 0 _ ltac:(lia) Hl)) as Hnn.
    rewrite Es in *. cbn [wlow] in *. simpl in Hl.
    replace (nh_height t <? j) with true in * by (symmetry; apply Z.ltb_lt; lia).
    replace (0 <? j) with true by (symmetry; apply Z.ltb_lt; lia).
    pose proof (Nn_pos (nh_height t) ltac:(lia)).
    assert (0 <= wlow j rest).
    { apply wlow_nonneg. apply (lefts_heights k (nh_height t + 1)); [lia|tauto]. }
    rewrite Nn_0.
    destruct (Z.eqb_spec (1 + (Nn (nh_height t) + wlow j rest)) 0); [lia|].
    destruct (Z.eqb_spec (Nn (nh_height t) + wlow j rest) 0); lia.
  - rewrite (step_pair s a b rest' (eq_sym El) Hab). cbn [set_stack st_stack].
    rewrite Es in El. inversion El; subst a rest. clear El.
    unfold combine. cbn [wlow nh_height]. simpl in Hl.
    destruct Hl as (Hbh & Hbe & Hl).
    rewrite u32_small by lia. rewrite <- Hab.
    replace (nh_height t <? j) with true by (symmetry; apply Z.ltb_lt; lia).
    pose proof (Nn_pos (nh_height t) ltac:(lia)).
    assert (0 <= wlow j rest').
    { apply wlow_nonneg. apply (lefts_heights k (nh_height b + 1)); [lia|tauto]. }
    destruct (Z.ltb_spec (nh_height t + 1) j).
    + rewrite Nn_succ by lia.
      destruct (Z.eqb_spec (2 * Nn (nh_height t) + 1 + wlow j rest') 0); [lia|].
      destruct (Z.eqb_spec (Nn (nh_height t) + (Nn (nh_height t) + wlow j rest')) 0); lia.
    + rewrite (lefts_wlow_zero k j rest' (nh_height b + 1)) by (auto; lia).
      assert (Ej : j = nh_height t + 1) by lia.
      rewrite Ej. rewrite Nn_succ by lia.
      destruct (Z.eqb_spec (Nn (nh_height t) + (Nn (nh_height t) + 0)) 0); [lia|].
      simpl. lia.
  - exfalso. assert (done s = true); [|congruence].
    apply (done_iff k s Ek Hsh). rewrite <- El. eauto.
Qed.

End Counters.

(** * refreshAuth *)

(** The test of [refreshAuth] at height [h] for the leaf counter [lf]. *)
Definition refresh_due (lf h : Z) : bool :=
  Z.land (u32 (lf + 1)) (u32 (shl32 1 h - 1)) =? 0.

(** The start index handed to [initialize]. *)
Definition startnode (lf h : Z) : Z :=
  Z.lxor (u32 (u32 (lf + 1) + shl32 1 h)) (shl32 1 h).

(** Entry [i] was refreshed between [mk] and [mk']. *)
Definition refreshed (mk mk' : merkle) (i : nat) : Prop :=
  exists s t,
    m_stacks mk !! i = Some s /\ top s = Ok t /\
    m_auth mk' !! i = Some (nh_node t) /\
    m_stacks mk' !! i = Some (initialize (startnode (m_leaf mk) (Z.of_nat i)) (Z.of_nat i) s).

(** Entry [i] is the same in [mk] and [mk']. *)
Definition kept (mk mk' : merkle) (i : nat) : Prop :=
  m_auth mk' !! i = m_auth mk !! i /\ m_stacks mk' !! i = m_stacks mk !! i.

Definition same_frame (mk mk' : merkle) : Prop :=
  m_leaf mk' = m_leaf mk /\ m_height mk' = m_height mk /\
  m_layer mk' = m_layer mk /\ m_tree mk' = m_tree mk /\
  length (m_stacks mk') = length (m_stacks mk) /\
  length (m_auth mk') = length (m_auth mk).

Lemma shl32_small (h : Z) : 0 <= h < 32 -> shl32 1 h = 2 ^ h.
Proof.
  intros Hh. unfold shl32. rewrite Z.shiftl_1_l. apply u32_small.
  split; [apply Z.pow_nonneg; lia|apply Z.pow_lt_mono_r; lia].
Qed.

Lemma shl32_big (h : Z) : 32 <= h -> shl32 1 h = 0.
Proof.
  intros Hh. unfold shl32, u32. rewrite Z.shiftl_1_l.
  replace h with ((h - 32) + 32) by lia. rewrite Z.pow_add_r by lia.
  apply Z.mod_mul. lia.
Qed.

(** The test is the divisibility of the next leaf index, as a [uint32], by
    [2^h]. *)
Lemma refresh_due_spec (lf h : Z) :
  0 <= h -> (refresh_due lf h = true <-> u32 (lf + 1) mod 2 ^ h = 0).
Proof.
  intros Hh. unfold refresh_due. rewrite Z.eqb_eq.
  pose proof (u32_range (lf + 1)) as Hr.
  destruct (Z.lt_ge_cases h 32) as [Hlt|Hge].
  - rewrite shl32_small by lia.
    assert (0 < 2 ^ h < 2 ^ 32) by (split; [apply Z.pow_pos_nonneg; lia|apply Z.pow_lt_mono_r; lia]).
    rewrite (u32_small (2 ^ h - 1)) by lia.
    replace (2 ^ h - 1) with (Z.ones h) by (rewrite Z.ones_equiv; lia).
    rewrite Z.land_ones by lia. reflexivity.
  - rewrite shl32_big by lia.
    change (u32 (0 - 1)) with (Z.ones 32). rewrite Z.land_ones by lia.
    assert (2 ^ 32 <= 2 ^ h) by (apply Z.pow_le_mono_r; lia).
    rewrite (Z.mod_small (u32 (lf + 1)) (2 ^ 32)) by lia.
    rewrite (Z.mod_small (u32 (lf + 1)) (2 ^ h)) by lia. reflexivity.
Qed.

Lemma u32_mod_pow2 (x h : Z) : 0 <= h <= 32 -> u32 x mod 2 ^ h = x mod 2 ^ h.
Proof.
  intros Hh. unfold u32.
  replace (2 ^ 32) with (2 ^ h * 2 ^ (32 - h))
    by (rewrite <- Z.pow_add_r by lia; f_equal; lia).
  rewrite Z.rem_mul_r.
  - rewrite Z.mul_comm, Z.mod_add; [apply Z.mod_mod|]; apply Z.pow_nonzero; lia.
  - apply Z.pow_nonzero; lia.
  - apply Z.pow_pos_nonneg; lia.
Qed.

(** For heights below 32 the test reads as in the specification. *)
Lemma refresh_due_small (lf h : Z) :
  0 <= h < 32 -> (refresh_due lf h = true <-> (lf + 1) mod 2 ^ h = 0).
Proof.
  intros Hh. rewrite refresh_due_spec by lia. rewrite u32_mod_pow2 by lia. reflexivity.
Qed.

Lemma refreshAuth_loop_spec (fuel : nat) :
  forall (h : nat) (mk mk' : merkle),
    refreshAuth_loop fuel (Z.of_nat h) mk = Ok mk' ->
    same_frame mk mk' /\
    forall i : nat,
      if bool_decide (h <= i < h + fuel)%nat && refresh_due (m_leaf mk) (Z.of_nat i)
      then refreshed mk mk' i else kept mk mk' i.
Proof.
  induction fuel as [|f IH]; intros h mk mk' E; cbn [refreshAuth_loop] in E.
  - inversion E; subst mk'. split; [repeat split|].
    intros i. rewrite bool_decide_eq_false_2 by lia. split; reflexivity.
  - fold (refresh_due (m_leaf mk) (Z.of_nat h)) in E.
    destruct (refresh_due (m_leaf mk) (Z.of_nat h)) eqn:Hdue.
    + rewrite Nat2Z.id in E.
      destruct (m_stacks mk !! h) as [s|] eqn:Es; [|discriminate E].
      cbn [of_option rbind] in E.
      destruct (top s) as [t| |] eqn:Et; try discriminate E.
      cbn [rbind] in E.
      destruct (m_auth mk !! h) as [a0|] eqn:Ea; [|discriminate E].
      cbn [of_option rbind] in E.
      fold (startnode (m_leaf mk) (Z.of_nat h)) in E.
      replace (Z.of_nat h + 1) with (Z.of_nat (S h)) in E by lia.
      apply IH in E. destruct E as [(F1 & F2 & F3 & F4 & F5 & F6) HI].
      cbn [m_leaf m_height m_layer m_tree m_stacks m_auth] in *.
      rewrite length_insert in F5. rewrite length_insert in F6.
      split; [repeat split; assumption|].
      intros i. specialize (HI i).
      destruct (Nat.eq_dec i h) as [->|Hne].
      * rewrite bool_decide_eq_true_2 by lia. rewrite Hdue. cbn [andb].
        rewrite bool_decide_eq_false_2 in HI by lia. cbn [andb] in HI.
        destruct HI as [K1 K2]. cbn [m_auth m_stacks] in K1, K2.
        exists s, t. repeat split; auto.
        -- rewrite K1. apply list_lookup_insert_eq. now apply lookup_lt_Some in Ea.
        -- rewrite K2. apply list_lookup_insert_eq. now apply lookup_lt_Some in Es.
      * destruct (bool_decide (S h <= i < S h + f)%nat) eqn:Hin.
        -- apply bool_decide_eq_true_1 in Hin.
           rewrite bool_decide_eq_true_2 by lia. cbn [andb] in *.
           destruct (refresh_due (m_leaf mk) (Z.of_nat i)).
           ++ destruct HI as (s' & t' & H1 & H2 & H3 & H4).
              cbn [m_auth m_stacks m_leaf] in *.
              rewrite list_lookup_insert_ne in H1 by lia.
              exists s', t'. repeat split; auto.
           ++ destruct HI as [K1 K2]. cbn [m_auth m_stacks] in *.
              rewrite list_lookup_insert_ne in K1 by lia.
              rewrite list_lookup_insert_ne in K2 by lia. split; auto.
        -- apply bool_decide_eq_false_1 in Hin.
           rewrite bool_decide_eq_false_2 by lia. cbn [andb] in *.
           destruct HI as [K1 K2]. cbn [m_auth m_stacks] in *.
           rewrite list_lookup_insert_ne in K1 by lia.
              rewrite list_lookup_insert_ne in K2 by lia. split; auto.
    + replace (Z.of_nat h + 1) with (Z.of_nat (S h)) in E by lia.
      apply IH in E. destruct E as [F HI]. split; [exact F|].
      intros i. specialize (HI i).
      destruct (Nat.eq_dec i h) as [->|Hne].
      * rewrite Hdue, andb_false_r.
        rewrite bool_decide_eq_false_2 in HI by lia. exact HI.
      * destruct (bool_decide (S h <= i < S h + f)%nat) eqn:Hin.
        -- apply bool_decide_eq_true_1 in Hin.
           rewrite bool_decide_eq_true_2 by lia. exact HI.
        -- apply bool_decide_eq_false_1 in Hin.
           rewrite bool_decide_eq_false_2 by lia. exact HI.
Qed.

(** [refreshAuth] succeeds when every stack that is due has a top node. *)
Lemma refreshAuth_loop_ok (fuel : nat) :
  forall (h : nat) (mk : merkle),
    (forall i, (h <= i < h + fuel)%nat -> refresh_due (m_leaf mk) (Z.of_nat i) = true ->
               exists s t, m_stacks mk !! i = Some s /\ top s = Ok t /\
                           (i < length (m_auth mk))%nat) ->
    exists mk', refreshAuth_loop fuel (Z.of_nat h) mk = Ok mk'.
Proof.
  induction fuel as [|f IH]; intros h mk Hall; cbn [refreshAuth_loop].
  - eauto.
  - fold (refresh_due (m_leaf mk) (Z.of_nat h)).
    replace (Z.of_nat h + 1) with (Z.of_nat (S h)) by lia.
    destruct (refresh_due (m_leaf mk) (Z.of_nat h)) eqn:Hdue.
    + destruct (Hall h ltac:(lia) Hdue) as (s & t & Es & Et & Ha).
      rewrite Nat2Z.id, Es. cbn [of_option rbind]. rewrite Et. cbn [rbind].
      destruct (lookup_lt_is_Some_2 _ _ Ha) as [a0 Ea]. rewrite Ea.
      cbn [of_option rbind]. apply IH. cbn [m_leaf m_stacks m_auth].
      intros i Hi Hd. destruct (Hall i ltac:(lia) Hd) as (s' & t' & Es' & Et' & Ha').
      exists s', t'. rewrite list_lookup_insert_ne by lia. rewrite length_insert. auto.
    + apply IH. intros i Hi Hd. apply Hall; auto. lia.
Qed.

(** * The scheduler of build *)

(** [i] is the stack chosen among [stacks]: none has a smaller [low], and
    those before it have a larger one. *)
Definition is_focus (stacks : list stack) (mn : Z) (f : nat) : Prop :=
  exists s, stacks !! f = Some s /\ low s = mn /\ mn < MaxUint32 /\
            (forall i s', stacks !! i = Some s' -> mn <= low s') /\
            (forall i s', (i < f)%nat -> stacks !! i = Some s' -> mn < low s').

Lemma find_focus_spec (stacks : list stack) (fuel : nat) :
  forall (h : nat) (mn : Z) (focus : Z),
    (h + fuel <= length stacks)%nat ->
    exists mn' focus',
      find_focus fuel (Z.of_nat h) stacks mn focus = Ok (mn', focus') /\
      ((mn' = mn /\ focus' = focus /\
        forall i s', (h <= i < h + fuel)%nat -> stacks !! i = Some s' -> mn <= low s')
       \/
       (mn' < mn /\ exists f s, focus' = Z.of_nat f /\ (h <= f < h + fuel)%nat /\
          stacks !! f = Some s /\ low s = mn' /\
          (forall i s', (h <= i < h + fuel)%nat -> stacks !! i = Some s' -> mn' <= low s') /\
          (forall i s', (h <= i < f)%nat -> stacks !! i = Some s' -> mn' < low s'))).
Proof.
  induction fuel as [|fu IH]; intros h mn focus Hlen; cbn [find_focus].
  - exists mn, focus. split; [reflexivity|]. left.
    split; [reflexivity|]. split; [reflexivity|]. intros; lia.
  - rewrite Nat2Z.id.
    destruct (lookup_lt_is_Some_2 stacks h ltac:(lia)) as [s Es].
    rewrite Es. cbn [of_option rbind].
    replace (Z.of_nat h + 1) with (Z.of_nat (S h)) by lia.
    destruct (Z.ltb_spec (low s) mn) as [Hlt|Hge].
    + destruct (IH (S h) (low s) (Z.of_nat h) ltac:(lia)) as (mn' & focus' & E & Hcase).
      exists mn', focus'. split; [exact E|]. right.
      destruct Hcase as [(-> & -> & Hall)|(Hlt' & f & s' & -> & Hf & Esf & Hlow & Hall & Hbefore)].
      * split; [exact Hlt|]. exists h, s.
        split; [reflexivity|]. split; [lia|]. split; [exact Es|]. split; [reflexivity|].
        split.
        -- intros i s' Hi Ei. destruct (Nat.eq_dec i h) as [->|Hne].
           ++ rewrite Es in Ei. inversion Ei; subst. lia.
           ++ apply (Hall i); auto. lia.
        -- intros i s' Hi Ei. lia.
      * split; [lia|]. exists f, s'.
        split; [reflexivity|]. split; [lia|]. split; [exact Esf|]. split; [exact Hlow|].
        split.
        -- intros i s'' Hi Ei. destruct (Nat.eq_dec i h) as [->|Hne].
           ++ rewrite Es in Ei. inversion Ei; subst. lia.
           ++ apply (Hall i); auto. lia.
        -- intros i s'' Hi Ei. destruct (Nat.eq_dec i h) as [->|Hne].
           ++ rewrite Es in Ei. inversion Ei; subst. lia.
           ++ apply (Hbefore i s''); auto; lia.
    + destruct (IH (S h) mn focus ltac:(lia)) as (mn' & focus' & E & Hcase).
      exists mn', focus'. split; [exact E|].
      destruct Hcase as [(-> & -> & Hall)|(Hlt' & f & s' & -> & Hf & Esf & Hlow & Hall & Hbefore)].
      * left. split; [reflexivity|]. split; [reflexivity|].
        intros i s' Hi Ei. destruct (Nat.eq_dec i h) as [->|Hne].
        -- rewrite Es in Ei. inversion Ei; subst. lia.
        -- apply (Hall i); auto. lia.
      * right. split; [exact Hlt'|]. exists f, s'.
        split; [reflexivity|]. split; [lia|]. split; [exact Esf|]. split; [exact Hlow|].
        split.
        -- intros i s'' Hi Ei. destruct (Nat.eq_dec i h) as [->|Hne].
           ++ rewrite Es in Ei. inversion Ei; subst. lia.
           ++ apply (Hall i); auto. lia.
        -- intros i s'' Hi Ei. destruct (Nat.eq_dec i h) as [->|Hne].
           ++ rewrite Es in Ei. inversion Ei; subst. lia.
           ++ apply (Hbefore i s''); auto; lia.
Qed.

(** The choice made by a round of [build] over all stacks. *)
Lemma find_focus_all (stacks : list stack) :
  exists mn focus,
    find_focus (length stacks) 0 stacks MaxUint32 0 = Ok (mn, focus) /\
    ((mn = MaxUint32 /\ focus = 0 /\ forall i s, stacks !! i = Some s -> MaxUint32 <= low s)
     \/ exists f, focus = Z.of_nat f /\ is_focus stacks mn f).
Proof.
  destruct (find_focus_spec stacks (length stacks) 0%nat MaxUint32 0 ltac:(lia))
    as (mn & focus & E & Hcase).
  exists mn, focus. split; [exact E|].
  destruct Hcase as [(-> & -> & Hall)|(Hlt & f & s & -> & Hf & Es & Hlow & Hall & Hbefore)].
  - left. split; [reflexivity|]. split; [reflexivity|].
    intros i s Ei. apply (Hall i); auto. apply lookup_lt_Some in Ei. lia.
  - right. exists f. split; [reflexivity|]. exists s.
    split; [exact Es|]. split; [exact Hlow|]. split; [exact Hlt|]. split.
    + intros i s' Ei. apply (Hall i); auto. apply lookup_lt_Some in Ei. lia.
    + intros i s' Hi Ei. apply (Hbefore i); auto. lia.
Qed.

(** * Arithmetic of the refresh rounds *)

(** The next round at which level [j] is refreshed, seen from round [L]. *)
Definition Lb (j L : Z) : Z := (L / 2 ^ j + 1) * 2 ^ j.

(** The refreshes of level [i] after round [L] and before [Lb j L]. *)
Definition fut (i j L : Z) : Z := Lb j L / 2 ^ i - (L / 2 ^ i + 1).

Fixpoint sumZ (l : list Z) : Z :=
  match l with
  | [] => 0
  | x :: rest => x + sumZ rest
  end.

Lemma pow2_pos (i : Z) : 0 <= i -> 0 < 2 ^ i.
Proof. intros. apply Z.pow_pos_nonneg; lia. Qed.

Lemma pow2_split (i j : Z) : 0 <= i <= j -> 2 ^ j = 2 ^ (j - i) * 2 ^ i.
Proof. intros. rewrite <- Z.pow_add_r by lia. f_equal. lia. Qed.

Lemma div_succ_pow2 (L i : Z) :
  0 <= L -> 0 <= i ->
  (L + 1) / 2 ^ i = L / 2 ^ i + (if (L + 1) mod 2 ^ i =? 0 then 1 else 0).
Proof.
  intros HL Hi. pose proof (pow2_pos i Hi) as Hp.
  pose proof (Z.div_mod L (2 ^ i) ltac:(lia)) as E1.
  pose proof (Z.mod_pos_bound L (2 ^ i) Hp) as B1.
  pose proof (Z.div_mod (L + 1) (2 ^ i) ltac:(lia)) as E2.
  pose proof (Z.mod_pos_bound (L + 1) (2 ^ i) Hp) as B2.
  destruct (Z.eqb_spec ((L + 1) mod 2 ^ i) 0) as [E|E]; nia.
Qed.

Lemma Lb_gt (j L : Z) : 0 <= L -> 0 <= j -> L < Lb j L <= L + 2 ^ j.
Proof.
  intros HL Hj. unfold Lb. pose proof (pow2_pos j Hj) as Hp.
  pose proof (Z.div_mod L (2 ^ j) ltac:(lia)) as E1.
  pose proof (Z.mod_pos_bound L (2 ^ j) Hp) as B1. nia.
Qed.

Lemma Lb_due (j L : Z) :
  0 <= L -> 0 <= j -> (L + 1) mod 2 ^ j = 0 ->
  Lb j L = L + 1 /\ Lb j (L + 1) = L + 1 + 2 ^ j.
Proof.
  intros HL Hj Hd. unfold Lb. rewrite (div_succ_pow2 L j HL Hj), Hd. simpl.
  pose proof (pow2_pos j Hj) as Hp.
  pose proof (Z.div_mod (L + 1) (2 ^ j) ltac:(lia)) as E2.
  rewrite Hd, (div_succ_pow2 L j HL Hj), Hd in E2. simpl in E2. nia.
Qed.

Lemma Lb_not_due (j L : Z) :
  0 <= L -> 0 <= j -> (L + 1) mod 2 ^ j <> 0 -> Lb j (L + 1) = Lb j L.
Proof.
  intros HL Hj Hd. unfold Lb. rewrite (div_succ_pow2 L j HL Hj).
  destruct (Z.eqb_spec ((L + 1) mod 2 ^ j) 0); [contradiction|]. f_equal. lia.
Qed.

Lemma due_mono (i j x : Z) : 0 <= i <= j -> x mod 2 ^ j = 0 -> x mod 2 ^ i = 0.
Proof.
  intros Hij Hd. apply Z.mod_divide in Hd; [|apply Z.pow_nonzero; lia].
  apply Z.mod_divide; [apply Z.pow_nonzero; lia|].
  destruct Hd as [q ->]. rewrite (pow2_split i j Hij).
  exists (q * 2 ^ (j - i)). lia.
Qed.

Lemma Lb_div (i j L : Z) :
  0 <= i <= j -> Lb j L / 2 ^ i = (L / 2 ^ j + 1) * 2 ^ (j - i).
Proof.
  intros Hij. unfold Lb. rewrite (pow2_split i j Hij).
  rewrite Z.mul_assoc. apply Z.div_mul. apply Z.pow_nonzero; lia.
Qed.

Lemma fut_nonneg (i j L : Z) : 0 <= L -> 0 <= i <= j -> 0 <= fut i j L.
Proof.
  intros HL Hij. unfold fut. rewrite Lb_div by lia.
  pose proof (pow2_pos i ltac:(lia)) as Hpi.
  pose proof (pow2_pos (j - i) ltac:(lia)) as Hpd.
  pose proof (Z.div_mod L (2 ^ j) ltac:(pose proof (pow2_pos j); lia)) as E1.
  pose proof (Z.mod_pos_bound L (2 ^ j) ltac:(apply pow2_pos; lia)) as B1.
  rewrite (pow2_split i j Hij) in E1, B1.
  assert (L / 2 ^ i < (L / (2 ^ (j - i) * 2 ^ i) + 1) * 2 ^ (j - i)).
  { apply Z.div_lt_upper_bound; [lia|]. nia. }
  rewrite (pow2_split i j Hij). lia.
Qed.

(** A level that is refreshed starts a window with [2^(j-i) - 1] refreshes of
    a lower level [i] ahead. *)
Lemma fut_due (i j L : Z) :
  0 <= L -> 0 <= i <= j -> (L + 1) mod 2 ^ j = 0 ->
  fut i j (L + 1) = 2 ^ (j - i) - 1.
Proof.
  intros HL Hij Hd. unfold fut. rewrite Lb_div by lia.
  pose proof (due_mono i j (L + 1) Hij Hd) as Hdi.
  apply Z.mod_divide in Hd; [|apply Z.pow_nonzero; lia].
  destruct Hd as [q Hq]. rewrite Hq. rewrite Z.div_mul by (apply Z.pow_nonzero; lia).
  rewrite (pow2_split i j Hij), Z.mul_assoc, Z.div_mul by (apply Z.pow_nonzero; lia).
  lia.
Qed.

Lemma fut_not_due (i j L : Z) :
  0 <= L -> 0 <= i <= j -> (L + 1) mod 2 ^ j <> 0 ->
  fut i j (L + 1) = fut i j L - (if (L + 1) mod 2 ^ i =? 0 then 1 else 0).
Proof.
  intros HL Hij Hd. unfold fut. rewrite (Lb_not_due j L) by (auto; lia).
  rewrite (div_succ_pow2 L i) by lia. lia.
Qed.

(** *** Sums over lists *)

Lemma sumZ_app (l1 l2 : list Z) : sumZ (l1 ++ l2) = sumZ l1 + sumZ l2.
Proof. induction l1 as [|x l1 IH]; simpl; [reflexivity|]. rewrite IH. lia. Qed.

Lemma sumZ_insert {A} (F : A -> Z) (l : list A) (i : nat) (x y : A) :
  l !! i = Some x -> sumZ (map F (<[i := y]> l)) = sumZ (map F l) - F x + F y.
Proof.
  revert i. induction l as [|a l IH]; intros [|i] E; simpl in *; try discriminate.
  - inversion E; subst. lia.
  - rewrite (IH i E). lia.
Qed.

Lemma sumZ_nonneg (l : list Z) : Forall (fun x => 0 <= x) l -> 0 <= sumZ l.
Proof. induction 1; simpl; lia. Qed.

Lemma sumZ_le (c : Z) (l : list Z) :
  Forall (fun x => x <= c) l -> sumZ l <= Z.of_nat (length l) * c.
Proof. induction 1; simpl length; simpl sumZ; lia. Qed.

Lemma sumZ_map_ext {A} (F G : A -> Z) (l l' : list A) :
  length l = length l' ->
  (forall i x y, l !! i = Some x -> l' !! i = Some y -> F x = G y) ->
  sumZ (map F l) = sumZ (map G l').
Proof.
  revert l'. induction l as [|a l IH]; intros [|b l'] Hlen Hext; simpl in *; try discriminate.
  - reflexivity.
  - rewrite (Hext 0%nat a b eq_refl eq_refl). f_equal. apply IH; [lia|].
    intros i x y Ex Ey. apply (Hext (S i)); auto.
Qed.

(** * The budget invariant of the traversal *)

Section Schedule.
Context {PRF hashF_raw : bytes -> bytes -> bytes}
        {hashH_raw : bytes -> bytes -> bytes -> bytes}
        {hashMsg_raw hmac_sha256 : bytes -> bytes -> bytes}.

Local Abbreviation build := (build PRF hashF_raw hashH_raw).

Context {priv : PrivateKey} {layer tree : Z}.

Local Abbreviation step := (@step PRF hashF_raw hashH_raw priv layer tree).
Local Abbreviation TS := (@TS PRF hashF_raw hashH_raw priv layer tree).

(** The number of levels of the tree. *)
Variable H : nat.

(** Stack [i] builds a node of height [i]. *)
Definition valid_stacks (stacks : list stack) : Prop :=
  length stacks = H /\
  forall i s, stacks !! i = Some s -> exists start, TS (Z.of_nat i) start s.

(** The work a lower stack will ask for before the deadline of level [j]. *)
Definition lowterm (j L : Z) (s : stack) : Z :=
  rem s + Nn (st_height s) * fut (st_height s) j L.

Definition lows (j : nat) (L : Z) (stacks : list stack) : Z :=
  sumZ (map (lowterm (Z.of_nat j) L) (take j stacks)).

(** The work the higher stacks can take before level [j] is served. *)
Definition highs (j : nat) (stacks : list stack) : Z :=
  sumZ (map (tail (Z.of_nat j)) (drop (S j) stacks)).

(** In round [L], after [u] scheduling rounds of [build]: every stack that is
    not done has enough budget left before its deadline. *)
Definition Pot (L u : Z) (stacks : list stack) : Prop :=
  forall j sj, stacks !! j = Some sj -> done sj = false ->
    rem sj + lows j L stacks + highs j stacks + u
    <= (Lb (Z.of_nat j) L - L) * (2 * Z.of_nat H - 1).

Lemma TS_facts (k start : Z) (s : stack) :
  TS k start s ->
  st_height s = k /\ shape k (st_stack s) /\ 0 <= k <= 32 /\
  st_layer s = layer /\ st_tree s = tree.
Proof. intros (Ek & El & Et & Hk & _ & _ & _ & cur & _ & _ & Hsh). auto. Qed.

Lemma valid_step (stacks : list stack) (f : nat) (sf : stack) :
  valid_stacks stacks -> stacks !! f = Some sf -> done sf = false ->
  valid_stacks (<[f := step sf]> stacks).
Proof.
  intros [Hlen Hv] Ef Hd. split; [now rewrite length_insert|].
  intros i s Ei. destruct (Nat.eq_dec i f) as [->|Hne].
  - rewrite list_lookup_insert_eq in Ei by (now apply lookup_lt_Some in Ef).
    inversion Ei; subst s. destruct (Hv f sf Ef) as [start HT].
    exists start. now apply step_TS.
  - rewrite list_lookup_insert_ne in Ei by lia. eauto.
Qed.

Lemma lowterm_step (k j L : Z) (s : stack) :
  0 <= k <= 32 -> st_height s = k -> shape k (st_stack s) -> done s = false ->
  lowterm j L (step s) = lowterm j L s - 1.
Proof.
  intros Hk Ek Hsh Hd. unfold lowterm. rewrite step_height.
  rewrite (rem_step k s Hk Ek Hsh Hd). lia.
Qed.

(** A step of the chosen stack uses one unit of the budget of every stack
    that is not done. *)
Lemma Pot_step (L u mn : Z) (stacks : list stack) (f : nat) (sf : stack) :
  valid_stacks stacks -> is_focus stacks mn f -> stacks !! f = Some sf ->
  Pot L u stacks -> Pot L (u + 1) (<[f := step sf]> stacks).
Proof.
  intros [Hlen Hv] (sf' & Ef' & Hlow & Hmn & Hall & Hbefore) Ef HP.
  rewrite Ef in Ef'. inversion Ef'; subst sf'. clear Ef'.
  assert (Hf : (f < length stacks)%nat) by (now apply lookup_lt_Some in Ef).
  destruct (Hv f sf Ef) as [startf HTf].
  destruct (TS_facts _ _ _ HTf) as (Ekf & Hshf & Hkf & _ & _).
  assert (Hdf : done sf = false).
  { destruct (done sf) eqn:E; [|reflexivity]. rewrite (low_done sf E) in Hlow. lia. }
  intros j sj Ej Hdj.
  destruct (Nat.eq_dec j f) as [->|Hne].
  - (* the stack itself *)
    rewrite list_lookup_insert_eq in Ej by lia. inversion Ej; subst sj.
    specialize (HP f sf Ef Hdf).
    unfold lows, highs in *.
    rewrite take_insert_ge by lia. rewrite drop_insert_lt by lia.
    rewrite (rem_step _ sf Hkf Ekf Hshf Hdf). lia.
  - rewrite list_lookup_insert_ne in Ej by lia.
    specialize (HP j sj Ej Hdj).
    destruct (Hv j sj Ej) as [startj HTj].
    destruct (TS_facts _ _ _ HTj) as (Ekj & Hshj & Hkj & _ & _).
    pose proof (low_le _ sj Hkj Ekj Hshj Hdj) as Hlj.
    unfold lows, highs in *.
    destruct (Nat.lt_ge_cases f j) as [Hlt|Hge].
    + (* a lower stack was served *)
      rewrite take_insert_lt by lia. rewrite drop_insert_lt by lia.
      rewrite (sumZ_insert _ _ f sf) by (rewrite lookup_take_lt by lia; exact Ef).
      rewrite (lowterm_step _ _ _ sf Hkf Ekf Hshf Hdf). lia.
    + (* a higher stack was served: its top is below level [j] *)
      assert (Hfj : (j < f)%nat) by lia.
      pose proof (Hbefore j sj Hfj Ej) as Hlt.
      rewrite take_insert_ge by lia.
      rewrite drop_insert_ge by lia.
      rewrite (sumZ_insert _ _ (f - S j) sf) by (rewrite lookup_drop; rewrite <- Ef; f_equal; lia).
      destruct (st_stack sf) as [|t rest] eqn:Es.
      * rewrite (low_empty sf Es) in Hlow. lia.
      * rewrite <- Es in Hshf.
        destruct (low_top _ sf t rest Hkf Ekf Hshf Hdf Es) as [Hlt' Ht].
        rewrite (tail_step _ (Z.of_nat j) sf t rest Hkf ltac:(lia) Ekf Hshf Hdf Es) by lia.
        lia.
Qed.

(** When no stack can be chosen, all are done. *)
Lemma Pot_idle (L u u' : Z) (stacks : list stack) :
  valid_stacks stacks ->
  (forall i s, stacks !! i = Some s -> MaxUint32 <= low s) ->
  Pot L u' stacks.
Proof.
  intros [Hlen Hv] Hall j sj Ej Hdj. exfalso.
  destruct (Hv j sj Ej) as [startj HTj].
  destruct (TS_facts _ _ _ HTj) as (Ekj & Hshj & Hkj & _ & _).
  pose proof (low_le _ sj Hkj Ekj Hshj Hdj) as Hlj.
  specialize (Hall j sj Ej). unfold MaxUint32 in Hall. lia.
Qed.

End Schedule.

(** * The budget invariant across a refresh *)

Lemma lxor_1_even (c : Z) : Z.even c = true -> Z.lxor c 1 = c + 1.
Proof.
  intros He. symmetry. apply Z.add_nocarry_lxor.
  apply Z.bits_inj'. intros k Hk. rewrite Z.land_spec, Z.bits_0.
  destruct (Z.eq_dec k 0) as [->|Hne].
  - rewrite Z.bit0_odd. rewrite <- Z.negb_even, He. reflexivity.
  - replace (Z.testbit 1 k) with false; [apply andb_false_r|].
    symmetry. change 1 with (2 ^ 0). apply Z.pow2_bits_false. lia.
Qed.

Lemma lxor_1_odd (c : Z) : Z.even c = false -> Z.lxor c 1 = c - 1.
Proof.
  intros Ho.
  assert (He : Z.even (c - 1) = true).
  { replace (c - 1) with (Z.pred c) by lia. rewrite Z.even_pred. 
    rewrite <- Z.negb_even, Ho. reflexivity. }
  assert (Ec : c = Z.lxor (c - 1) 1) by (rewrite (lxor_1_even _ He); lia).
  rewrite Ec at 1. rewrite Z.lxor_assoc, Z.lxor_nilpotent, Z.lxor_0_r. reflexivity.
Qed.

Lemma lxor_pow2_aligned (c i : Z) :
  0 <= i -> Z.lxor (c * 2 ^ i) (2 ^ i) = Z.lxor c 1 * 2 ^ i.
Proof.
  intros Hi. rewrite <- !Z.shiftl_mul_pow2 by lia.
  rewrite <- (Z.shiftl_1_l i). now rewrite <- Z.shiftl_lxor.
Qed.

(** The start index chosen by [refreshAuth] is a multiple of [2^i] that
    leaves room for a subtree of height [i] below [2^32]. *)
Lemma startnode_ok (lf i : Z) :
  0 <= i < 32 -> u32 (lf + 1) mod 2 ^ i = 0 ->
  0 <= startnode lf i /\ (2 ^ i | startnode lf i) /\ startnode lf i + 2 ^ i <= 2 ^ 32.
Proof.
  intros Hi Hd. unfold startnode. rewrite shl32_small by lia.
  pose proof (pow2_pos i ltac:(lia)) as Hp.
  set (y := u32 (u32 (lf + 1) + 2 ^ i)).
  assert (Hy : 0 <= y < 2 ^ 32) by apply u32_range.
  assert (Hym : y mod 2 ^ i = 0).
  { unfold y. rewrite u32_mod_pow2 by lia.
    rewrite Z.add_mod by lia. rewrite Hd, Z.mod_same by lia. reflexivity. }
  apply Z.mod_divide in Hym; [|lia]. destruct Hym as [c Hc].
  rewrite Hc, lxor_pow2_aligned by lia.
  assert (Hc0 : 0 <= c) by nia.
  assert (H32 : 2 ^ 32 = 2 ^ (32 - i) * 2 ^ i) by (apply pow2_split; lia).
  assert (Hc1 : c < 2 ^ (32 - i)) by nia.
  destruct (Z.even c) eqn:He.
  - rewrite (lxor_1_even c He).
    assert (Hev : Z.even (2 ^ (32 - i)) = true).
    { replace (32 - i) with (Z.succ (32 - i - 1)) by lia. rewrite Z.pow_succ_r by lia.
      rewrite Z.even_mul. reflexivity. }
    apply Z.even_spec in He, Hev. destruct He as [q Hq]. destruct Hev as [q' Hq'].
    split; [nia|]. split; [exists (c + 1); reflexivity|].
    assert (c + 2 <= 2 ^ (32 - i)) by lia. nia.
  - rewrite (lxor_1_odd c He).
    assert (c <> 0) by (intros ->; discriminate He).
    split; [nia|]. split; [exists (c - 1); reflexivity|]. nia.
Qed.

Section Refresh.
Context {PRF hashF_raw : bytes -> bytes -> bytes}
        {hashH_raw : bytes -> bytes -> bytes -> bytes}
        {hashMsg_raw hmac_sha256 : bytes -> bytes -> bytes}.


Context {priv : PrivateKey} {layer tree : Z}.

Local Abbreviation TS := (@TS PRF hashF_raw hashH_raw priv layer tree).
Variable H : nat.
Local Abbreviation valid_stacks := (@valid_stacks PRF hashF_raw hashH_raw priv layer tree H).
Local Abbreviation Pot := (Pot H).

(** A stack just initialised at an admissible start index is valid. *)
Lemma TS_initialize (i start : Z) (s : stack) :
  0 <= i <= 32 -> 0 <= start -> (2 ^ i | start) -> start + 2 ^ i <= 2 ^ 32 ->
  st_layer s = layer -> st_tree s = tree ->
  TS i start (initialize start i s).
Proof.
  intros Hi Hs Hal Hend El Et. unfold TS, initialize. cbn [st_height st_layer st_tree st_leaf st_stack].
  repeat (split; [assumption || reflexivity|]).
  exists start. split.
  - symmetry. apply u32_small. pose proof (pow2_pos i ltac:(lia)). lia.
  - split; [reflexivity|]. apply shape_pending. exact I.
Qed.

Lemma rem_nonneg (k start : Z) (s : stack) : TS k start s -> 0 <= rem s.
Proof.
  intros HT. destruct (TS_facts _ _ _ HT) as (Ek & Hsh & Hk & _ & _).
  destruct (done s) eqn:Hd.
  - rewrite (rem_done k s Ek Hsh Hd). lia.
  - pose proof (rem_not_done k s ltac:(lia) Ek Hsh Hd). lia.
Qed.

Lemma lows_nonneg (j : nat) (L : Z) (stacks : list stack) :
  0 <= L -> valid_stacks stacks -> 0 <= lows j L stacks.
Proof.
  intros HL [Hlen Hv]. unfold lows. apply sumZ_nonneg.
  apply Forall_map. apply Forall_lookup. intros i s Ei.
  apply lookup_take_Some in Ei. destruct Ei as [Ei Hij].
  destruct (Hv i s Ei) as [start HT].
  destruct (TS_facts _ _ _ HT) as (Ek & Hsh & Hk & _ & _).
  unfold lowterm. rewrite Ek.
  pose proof (rem_nonneg _ _ _ HT).
  pose proof (Nn_pos (Z.of_nat i) ltac:(lia)).
  pose proof (fut_nonneg (Z.of_nat i) (Z.of_nat j) L HL ltac:(lia)). nia.
Qed.

Lemma highs_bounds (j : nat) (stacks : list stack) :
  valid_stacks stacks -> (j < H)%nat ->
  0 <= highs j stacks <= (Z.of_nat H - 1 - Z.of_nat j) * (Nn (Z.of_nat j) - 1).
Proof.
  intros [Hlen Hv] Hj. unfold highs.
  assert (HF : Forall (fun x => 0 <= x <= Nn (Z.of_nat j) - 1)
                 (map (tail (Z.of_nat j)) (drop (S j) stacks))).
  { apply Forall_map. apply Forall_lookup. intros i s Ei.
    rewrite lookup_drop in Ei. destruct (Hv _ s Ei) as [start HT].
    destruct (TS_facts _ _ _ HT) as (Ek & Hsh & Hk & _ & _).
    apply (tail_bound (Z.of_nat (S j + i))); auto; lia. }
  split.
  - apply sumZ_nonneg. eapply Forall_impl; [exact HF|]. simpl. lia.
  - replace (Z.of_nat H - 1 - Z.of_nat j)
      with (Z.of_nat (length (map (tail (Z.of_nat j)) (drop (S j) stacks)))).
    + apply sumZ_le. eapply Forall_impl; [exact HF|]. simpl. lia.
    + rewrite length_map, length_drop. lia.
Qed.

(** A stack whose deadline is the next round is done. *)
Lemma due_done (L : Z) (stacks : list stack) (j : nat) (sj : stack) :
  0 <= L -> (1 <= H)%nat -> valid_stacks stacks ->
  Pot L (2 * Z.of_nat H - 1) stacks ->
  stacks !! j = Some sj -> (L + 1) mod 2 ^ Z.of_nat j = 0 ->
  done sj = true.
Proof.
  intros HL HH Hval HP Ej Hd.
  destruct (done sj) eqn:Hdone; [reflexivity|exfalso].
  specialize (HP j sj Ej Hdone).
  destruct (Lb_due (Z.of_nat j) L HL ltac:(lia) Hd) as [E1 _]. rewrite E1 in HP.
  pose proof (lows_nonneg j L stacks HL Hval).
  assert (Hj : (j < H)%nat) by (destruct Hval as [<- _]; now apply lookup_lt_Some in Ej).
  pose proof (highs_bounds j stacks Hval Hj).
  destruct Hval as [Hlen Hv]. destruct (Hv j sj Ej) as [start HT].
  destruct (TS_facts _ _ _ HT) as (Ek & Hsh & Hk & _ & _).
  pose proof (rem_not_done (Z.of_nat j) sj ltac:(lia) Ek Hsh Hdone). lia.
Qed.

Lemma rem_initialize (start k : Z) (s : stack) : rem (initialize start k s) = Nn k.
Proof. unfold rem, initialize. cbn. lia. Qed.

(** The demand of freshly initialised lower stacks over a whole window. *)
Lemma lows_fresh (j : nat) (L' : Z) (l : list stack) (j' : nat) :
  (j' <= j)%nat -> (j' <= length l)%nat ->
  (forall i s, (i < j')%nat -> l !! i = Some s ->
               lowterm (Z.of_nat j) L' s = Nn (Z.of_nat i) * 2 ^ (Z.of_nat j - Z.of_nat i)) ->
  sumZ (map (lowterm (Z.of_nat j) L') (take j' l))
  = Z.of_nat j' * 2 ^ (Z.of_nat j + 1) - 2 ^ (Z.of_nat j + 1)
    + 2 ^ (Z.of_nat j + 1 - Z.of_nat j').
Proof.
  induction j' as [|j' IH]; intros Hj Hl Hall.
  - simpl. rewrite Z.sub_0_r. lia.
  - destruct (lookup_lt_is_Some_2 l j' ltac:(lia)) as [x Ex].
    rewrite (take_S_r l j' x Ex), map_app, sumZ_app. cbn [map sumZ].
    rewrite IH by (try lia; intros i s Hi Ei; apply Hall; auto; lia).
    rewrite (Hall j' x ltac:(lia) Ex).
    unfold Nn.
    replace (Z.of_nat j + 1 - Z.of_nat j') with ((Z.of_nat j - Z.of_nat j') + 1) by lia.
    replace (Z.of_nat j + 1 - Z.of_nat (S j')) with (Z.of_nat j - Z.of_nat j') by lia.
    replace (Z.of_nat j + 1) with ((Z.of_nat j' + 1) + (Z.of_nat j - Z.of_nat j')) at 2 3 by lia.
    rewrite (Z.pow_add_r 2 (Z.of_nat j' + 1)) by lia.
    rewrite (Z.pow_add_r 2 (Z.of_nat j - Z.of_nat j') 1) by lia. change (2 ^ 1) with 2.
    replace (Z.of_nat (S j')) with (Z.of_nat j' + 1) by lia.
    replace (Z.of_nat j + 1) with ((Z.of_nat j' + 1) + (Z.of_nat j - Z.of_nat j')) by lia.
    rewrite (Z.pow_add_r 2 (Z.of_nat j' + 1)) by lia.
    lia.
Qed.

(** The invariant survives the refresh that opens round [L + 1]. *)
Lemma Pot_refresh (L : Z) (stacks stacks' : list stack) (sn : nat -> Z) :
  0 <= L -> (1 <= H)%nat -> valid_stacks stacks -> valid_stacks stacks' ->
  Pot L (2 * Z.of_nat H - 1) stacks ->
  (forall i s, stacks !! i = Some s ->
               stacks' !! i = Some (if (L + 1) mod 2 ^ Z.of_nat i =? 0
                                    then initialize (sn i) (Z.of_nat i) s else s)) ->
  Pot (L + 1) 0 stacks'.
Proof.
  intros HL HH Hval Hval' HP Hnew j sj' Ej' Hd'.
  assert (Hj : (j < H)%nat) by (destruct Hval' as [<- _]; now apply lookup_lt_Some in Ej').
  assert (Hlen : length stacks = H) by apply Hval.
  assert (Hlen' : length stacks' = H) by apply Hval'.
  destruct (lookup_lt_is_Some_2 stacks j ltac:(lia)) as [sj Ej].
  pose proof (Hnew j sj Ej) as Enew. rewrite Ej' in Enew. inversion Enew as [Esj']. clear Enew.
  pose proof (pow2_pos (Z.of_nat j) ltac:(lia)) as Hpj.
  destruct (Z.eqb_spec ((L + 1) mod 2 ^ Z.of_nat j) 0) as [Hdue|Hndue].
  - (* level [j] starts a new window *)
    rewrite rem_initialize.
    destruct (Lb_due (Z.of_nat j) L HL ltac:(lia) Hdue) as [_ E2]. rewrite E2.
    pose proof (highs_bounds j stacks' Hval' Hj) as Hh.
    assert (El : lows j (L + 1) stacks'
                 = Z.of_nat j * 2 ^ (Z.of_nat j + 1) - 2 ^ (Z.of_nat j + 1)
                   + 2 ^ (Z.of_nat j + 1 - Z.of_nat j)).
    { apply lows_fresh; [lia|lia|].
      intros i s Hi Ei.
      destruct (lookup_lt_is_Some_2 stacks i ltac:(lia)) as [x Ex].
      pose proof (Hnew i x Ex) as Ei'. rewrite Ei in Ei'. inversion Ei' as [Es]. clear Ei'.
      pose proof (due_mono (Z.of_nat i) (Z.of_nat j) (L + 1) ltac:(lia) Hdue) as Hdi.
      rewrite Hdi. cbn [Z.eqb].
      unfold lowterm. rewrite rem_initialize. cbn [initialize st_height].
      rewrite (fut_due (Z.of_nat i) (Z.of_nat j) L HL ltac:(lia) Hdue). lia. }
    rewrite El. replace (Z.of_nat j + 1 - Z.of_nat j) with 1 by lia. change (2 ^ 1) with 2.
    unfold Nn in *. rewrite (Z.pow_add_r 2 (Z.of_nat j) 1) in * by lia.
    change (2 ^ 1) with 2 in *. nia.
  - (* level [j] is inside its window *)
    subst sj'. pose proof (HP j sj Ej Hd') as HPj.
    rewrite (Lb_not_due (Z.of_nat j) L HL ltac:(lia) Hndue).
    assert (El : lows j (L + 1) stacks' = lows j L stacks).
    { unfold lows. apply sumZ_map_ext; [rewrite !length_take; lia|].
      intros i y x Ey Ex.
      apply lookup_take_Some in Ey, Ex. destruct Ey as [Ey Hi]. destruct Ex as [Ex _].
      pose proof (Hnew i x Ex) as Ey'. rewrite Ey in Ey'. inversion Ey' as [Es]. clear Ey'.
      destruct (proj2 Hval i x Ex) as [start HT].
      destruct (TS_facts _ _ _ HT) as (Ek & Hsh & Hk & _ & _).
      unfold lowterm.
      pose proof (fut_not_due (Z.of_nat i) (Z.of_nat j) L HL ltac:(lia) Hndue) as Ef.
      destruct (Z.eqb_spec ((L + 1) mod 2 ^ Z.of_nat i) 0) as [Hdi|Hndi].
      + rewrite rem_initialize. cbn [initialize st_height].
        assert (Hdone : done x = true).
        { apply (due_done L stacks i x); auto. }
        rewrite (rem_done _ x Ek Hsh Hdone). rewrite Ek, Ef. lia.
      + rewrite Ek, Ef. lia. }
    assert (Eh : highs j stacks' = highs j stacks).
    { unfold highs. apply sumZ_map_ext; [rewrite !length_drop; lia|].
      intros i y x Ey Ex. rewrite lookup_drop in Ey, Ex.
      pose proof (Hnew _ x Ex) as Ey'. rewrite Ey in Ey'. inversion Ey' as [Es]. clear Ey'.
      match goal with |- context [?a =? 0] => destruct (Z.eqb_spec a 0) as [Hdi|Hndi] end;
        [|reflexivity].
      exfalso. apply Hndue. eapply due_mono; [|exact Hdi]. lia. }
    rewrite El, Eh. lia.
Qed.

End Refresh.

(** * build and traverse keep the invariant *)

Section Traverse.
Context {PRF hashF_raw : bytes -> bytes -> bytes}
        {hashH_raw : bytes -> bytes -> bytes -> bytes}
        {hashMsg_raw hmac_sha256 : bytes -> bytes -> bytes}.

Local Abbreviation goUpdate := (goUpdate PRF hashF_raw hashH_raw).
Local Abbreviation build_round := (build_round PRF hashF_raw hashH_raw).
Local Abbreviation build_loop := (build_loop PRF hashF_raw hashH_raw).
Local Abbreviation build := (build PRF hashF_raw hashH_raw).
Local Abbreviation traverse := (traverse PRF hashF_raw hashH_raw).

Context {priv : PrivateKey} {layer tree : Z}.

Local Abbreviation step := (@step PRF hashF_raw hashH_raw priv layer tree).
Local Abbreviation TS := (@TS PRF hashF_raw hashH_raw priv layer tree).
Variable H : nat.
Local Abbreviation valid_stacks := (@valid_stacks PRF hashF_raw hashH_raw priv layer tree H).
Local Abbreviation Pot := (Pot H).

(** The private key with the seeds of [priv], root [rt] and state [mk]. *)
Definition key_with (rt : bytes) (mk : merkle) : PrivateKey :=
  mkPrivateKey (set_root (priv_pub priv) rt) (msgPRF priv) (wotsPRF priv) (Some mk).

Lemma goUpdate_key (rt : bytes) (mk : merkle) (nn : Z) (s : stack) :
  goUpdate nn (key_with rt mk) s = goUpdate nn priv s.
Proof. reflexivity. Qed.

(** The node stack [i] has to deliver at its next refresh, as long as that
    refresh falls inside the tree. *)
Definition target_ok (L : Z) (i : nat) (start : Z) : Prop :=
  Lb (Z.of_nat i) L < 2 ^ Z.of_nat H ->
  start = Z.lxor (L / 2 ^ Z.of_nat i + 1) 1 * 2 ^ Z.of_nat i.

Definition valid_at (L : Z) (stacks : list stack) : Prop :=
  length stacks = H /\
  forall i s, stacks !! i = Some s ->
              exists start, TS (Z.of_nat i) start s /\ target_ok L i start.

Lemma valid_at_stacks (L : Z) (stacks : list stack) :
  valid_at L stacks -> valid_stacks stacks.
Proof.
  intros [Hlen Hv]. split; [exact Hlen|]. intros i s Ei.
  destruct (Hv i s Ei) as (start & HT & _). eauto.
Qed.

Lemma valid_at_step (L : Z) (stacks : list stack) (f : nat) (sf : stack) :
  valid_at L stacks -> stacks !! f = Some sf -> done sf = false ->
  valid_at L (<[f := step sf]> stacks).
Proof.
  intros [Hlen Hv] Ef Hd. split; [now rewrite length_insert|].
  intros i s Ei. destruct (Nat.eq_dec i f) as [->|Hne].
  - rewrite list_lookup_insert_eq in Ei by (now apply lookup_lt_Some in Ef).
    inversion Ei; subst s. destruct (Hv f sf Ef) as (start & HT & Htg).
    exists start. split; [now apply step_TS|exact Htg].
  - rewrite list_lookup_insert_ne in Ei by lia. eauto.
Qed.

(** One round of [build] on a valid state. *)
Lemma build_round_ok (L u : Z) (rt : bytes) (mk0 mk : merkle) :
  (1 <= H)%nat -> m_height mk = Z.of_nat H ->
  valid_at L (m_stacks mk) -> Pot L u (m_stacks mk) ->
  exists stacks',
    build_round (key_with rt mk0) mk = Ok (set_stacks mk stacks') /\
    valid_at L stacks' /\ Pot L (u + 1) stacks'.
Proof.
  intros HH Eh Hval HP. unfold build_round.
  pose proof (valid_at_stacks _ _ Hval) as Hvs.
  assert (Hlen : length (m_stacks mk) = H) by apply Hval.
  destruct (find_focus_all (m_stacks mk)) as (mn & focus & E & Hcase).
  rewrite Hlen in E. rewrite Eh, Nat2Z.id, E. cbn [rbind].
  destruct Hcase as [(-> & -> & Hall)|(f & -> & Hfoc)].
  - (* every stack is done: the round changes nothing *)
    destruct (lookup_lt_is_Some_2 (m_stacks mk) 0%nat ltac:(lia)) as [s0 E0].
    change (Z.to_nat 0) with 0%nat. rewrite E0. cbn [of_option rbind].
    destruct (proj2 Hvs 0%nat s0 E0) as [start HT].
    destruct (TS_facts _ _ _ HT) as (Ek & Hsh & Hk & El & Et).
    rewrite goUpdate_key, (goUpdate_spec 1 s0 El Et).
    assert (Hd : done s0 = true).
    { destruct (done s0) eqn:Hd; [reflexivity|exfalso].
      pose proof (low_le _ s0 Hk Ek Hsh Hd). specialize (Hall 0%nat s0 E0).
      unfold MaxUint32 in Hall. lia. }
    rewrite Hd. cbn [rbind]. rewrite (list_insert_id _ _ _ E0).
    exists (m_stacks mk). split; [reflexivity|]. split; [exact Hval|].
    eapply (Pot_idle H L u); [exact Hvs|exact Hall].
  - (* the chosen stack makes one step *)
    destruct Hfoc as (sf & Ef & Hlow & Hmn & Hall & Hbefore).
    rewrite Nat2Z.id, Ef. cbn [of_option rbind].
    destruct (proj2 Hvs f sf Ef) as [start HT].
    destruct (TS_facts _ _ _ HT) as (Ek & Hsh & Hk & El & Et).
    rewrite goUpdate_key, (goUpdate_spec 1 sf El Et).
    assert (Hd : done sf = false).
    { destruct (done sf) eqn:Hd; [|reflexivity]. rewrite (low_done sf Hd) in Hlow. lia. }
    rewrite Hd. cbn [rbind]. change (Z.to_nat 1) with 1%nat. rewrite steps_1.
    exists (<[f := step sf]> (m_stacks mk)). split; [reflexivity|].
    split; [now apply valid_at_step|].
    eapply (Pot_step H L u mn); [exact Hvs| |exact Ef|exact HP].
    exists sf. repeat split; auto.
Qed.

Lemma build_loop_ok (L : Z) (rt : bytes) (mk0 : merkle) (fuel : nat) :
  forall (u : Z) (mk : merkle),
    (1 <= H)%nat -> m_height mk = Z.of_nat H ->
    valid_at L (m_stacks mk) -> Pot L u (m_stacks mk) ->
    exists stacks',
      build_loop fuel (key_with rt mk0) mk = Ok (set_stacks mk stacks') /\
      valid_at L stacks' /\ Pot L (u + Z.of_nat fuel) stacks'.
Proof.
  induction fuel as [|fu IH]; intros u mk HH Eh Hval HP; cbn [build_loop].
  - exists (m_stacks mk). split; [destruct mk; reflexivity|].
    split; [exact Hval|]. now rewrite Z.add_0_r.
  - destruct (build_round_ok L u rt mk0 mk HH Eh Hval HP) as (st1 & E1 & Hv1 & HP1).
    rewrite E1. cbn [rbind].
    destruct (IH (u + 1) (set_stacks mk st1) HH Eh Hv1 HP1) as (st2 & E2 & Hv2 & HP2).
    rewrite E2. exists st2. split; [reflexivity|]. split; [exact Hv2|].
    replace (u + Z.of_nat (S fu)) with (u + 1 + Z.of_nat fu) by lia. exact HP2.
Qed.

(** [build] runs [2H - 1] rounds. *)
Lemma build_ok (L : Z) (rt : bytes) (mk0 mk : merkle) :
  (1 <= H <= 32)%nat -> m_height mk = Z.of_nat H ->
  valid_at L (m_stacks mk) -> Pot L 0 (m_stacks mk) ->
  exists stacks',
    build (key_with rt mk0) mk = Ok (set_stacks mk stacks') /\
    valid_at L stacks' /\ Pot L (2 * Z.of_nat H - 1) stacks'.
Proof.
  intros HH Eh Hval HP. unfold build. rewrite Eh.
  rewrite (u32_small (2 * Z.of_nat H)) by lia.
  rewrite (u32_small (2 * Z.of_nat H - 1)) by lia.
  destruct (build_loop_ok L rt mk0 (Z.to_nat (2 * Z.of_nat H - 1)) 0 mk ltac:(lia) Eh Hval HP)
    as (st & E & Hv & HP').
  exists st. split; [exact E|]. split; [exact Hv|].
  rewrite Z2Nat.id in HP' by lia. exact HP'.
Qed.

End Traverse.

(** * The invariant of the traversal state *)

Lemma u32_add_l (a b : Z) : u32 (u32 a + b) = u32 (a + b).
Proof. unfold u32. apply Zplus_mod_idemp_l. Qed.

Lemma due_iff (L : Z) (i : nat) :
  (i < 32)%nat ->
  refresh_due (u32 L) (Z.of_nat i) = true <-> (L + 1) mod 2 ^ Z.of_nat i = 0.
Proof.
  intros Hi. rewrite refresh_due_spec by lia. rewrite u32_add_l.
  rewrite u32_mod_pow2 by lia. reflexivity.
Qed.

Lemma startnode_target (L : Z) (i H : nat) :
  0 <= L -> (i < 32)%nat -> (H <= 32)%nat ->
  (L + 1) mod 2 ^ Z.of_nat i = 0 ->
  Lb (Z.of_nat i) (L + 1) < 2 ^ Z.of_nat H ->
  startnode (u32 L) (Z.of_nat i)
  = Z.lxor ((L + 1) / 2 ^ Z.of_nat i + 1) 1 * 2 ^ Z.of_nat i.
Proof.
  intros HL Hi HH Hd Hb.
  destruct (Lb_due (Z.of_nat i) L HL ltac:(lia) Hd) as [_ E2]. rewrite E2 in Hb.
  pose proof (pow2_pos (Z.of_nat i) ltac:(lia)) as Hp.
  assert (2 ^ Z.of_nat H <= 2 ^ 32) by (apply Z.pow_le_mono_r; lia).
  unfold startnode. rewrite shl32_small by lia.
  rewrite (u32_small L), (u32_small (L + 1)), (u32_small (L + 1 + 2 ^ Z.of_nat i)) by lia.
  apply Z.mod_divide in Hd; [|lia]. destruct Hd as [c Hc].
  rewrite Hc. rewrite Z.div_mul by lia.
  replace (c * 2 ^ Z.of_nat i + 2 ^ Z.of_nat i) with ((c + 1) * 2 ^ Z.of_nat i) by lia.
  apply lxor_pow2_aligned. lia.
Qed.

Section Invariant.
Context {PRF hashF_raw : bytes -> bytes -> bytes}
        {hashH_raw : bytes -> bytes -> bytes -> bytes}
        {hashMsg_raw hmac_sha256 : bytes -> bytes -> bytes}.

Local Abbreviation randHash := (randHash PRF hashH_raw).
Local Abbreviation ltree := (ltree PRF hashH_raw).
Local Abbreviation traverse := (traverse PRF hashF_raw hashH_raw).

Context {priv : PrivateKey} {layer tree : Z}.

Local Abbreviation leafOf := (@leafOf PRF hashF_raw hashH_raw priv layer tree).
Local Abbreviation node_hash := (@node_hash PRF hashH_raw priv layer tree).
Local Abbreviation tree_node := (@tree_node PRF hashF_raw hashH_raw priv layer tree).
Local Abbreviation TS := (@TS PRF hashF_raw hashH_raw priv layer tree).
Variable H : nat.
Local Abbreviation Pot := (Pot H).
Local Abbreviation key_with := (@key_with priv).
Local Abbreviation valid_at := (@valid_at PRF hashF_raw hashH_raw priv layer tree H).

Lemma length_tree_node (h : nat) (j : Z) : length (tree_node h j) = 32%nat.
Proof.
  destruct h as [|h]; cbn.
  - unfold leafOf.
    match goal with |- context [ltree ?pk ?p ?a] => destruct (ltree pk p a) as [[nn a']| |] end;
      rewrite ?length_copy_at; apply length_zeros.
  - unfold node_hash, randHash. cbn [fst]. apply length_fit32.
Qed.

(** The top of a stack that is done is the node it was started for. *)
Lemma TS_done_top (k start : Z) (s : stack) :
  TS k start s -> done s = true ->
  exists t, top s = Ok t /\ nh_node t = tree_node (Z.to_nat k) (start / 2 ^ k).
Proof.
  intros HT Hd. destruct (TS_facts _ _ _ HT) as (Ek & Hsh & Hk & _ & _).
  apply (done_iff k s Ek Hsh) in Hd. destruct Hd as (nd & Es & Hnd).
  destruct HT as (_ & _ & _ & _ & _ & _ & _ & cur & _ & Hc & _).
  rewrite Es in Hc. cbn in Hc. destruct Hc as ((H0 & H1 & Hv) & _ & Hst).
  exists nd. unfold top. rewrite Es. split; [reflexivity|].
  rewrite Hv, Hnd, <- Hst, Hnd. rewrite Z.div_mul by (apply Z.pow_nonzero; lia). reflexivity.
Qed.

(** The authentication path of leaf [L]. *)
Definition auth_ok (L : Z) (au : list bytes) : Prop :=
  L < 2 ^ Z.of_nat H ->
  forall i, (i < H)%nat ->
            au !! i = Some (tree_node i (Z.lxor (L / 2 ^ Z.of_nat i) 1)).

(** The invariant between two signatures, [L] signatures after key
    generation. *)
Definition Inv (L : Z) (mk : merkle) : Prop :=
  0 <= L /\ m_leaf mk = u32 L /\ m_height mk = Z.of_nat H /\
  m_layer mk = layer /\ m_tree mk = tree /\
  length (m_auth mk) = H /\ Forall block32 (m_auth mk) /\
  valid_at L (m_stacks mk) /\ Pot L (2 * Z.of_nat H - 1) (m_stacks mk) /\
  auth_ok L (m_auth mk).

(** What [refreshAuth] does to a state that satisfies the invariant. *)
Lemma refreshAuth_inv (L : Z) (mk : merkle) :
  (1 <= H <= 32)%nat -> Inv L mk ->
  exists mk1,
    refreshAuth mk = Ok mk1 /\ same_frame mk mk1 /\
    valid_at (L + 1) (m_stacks mk1) /\ Pot (L + 1) 0 (m_stacks mk1) /\
    forall i, (i < H)%nat ->
      m_auth mk1 !! i
      = if (L + 1) mod 2 ^ Z.of_nat i =? 0
        then match m_stacks mk !! i with
             | Some s => match top s with Ok t => Some (nh_node t) | _ => None end
             | None => None
             end
        else m_auth mk !! i.
Proof.
  intros HH (HL & Elf & Eh & Ely & Etr & Hla & Hba & Hval & HP & Hau).
  pose proof (valid_at_stacks H _ _ Hval) as Hvs.
  assert (Hlen : length (m_stacks mk) = H) by apply Hval.
  (* refreshAuth does not panic *)
  destruct (refreshAuth_loop_ok H 0 mk) as [mk1 E1].
  { intros i Hi Hd. rewrite Elf in Hd. apply due_iff in Hd; [|lia].
    destruct (lookup_lt_is_Some_2 (m_stacks mk) i ltac:(lia)) as [s Es].
    assert (Hdone : done s = true) by (eapply (due_done H L); eauto; lia).
    destruct (proj2 Hvs i s Es) as [start HT].
    destruct (TS_done_top _ _ _ HT Hdone) as (t & Et & _).
    exists s, t. repeat split; auto. lia. }
  unfold refreshAuth. rewrite Eh, Nat2Z.id. change (Z.of_nat 0) with 0 in E1.
  rewrite E1. exists mk1. split; [reflexivity|].
  destruct (refreshAuth_loop_spec H 0 mk mk1 E1) as [(F1 & F2 & F3 & F4 & F5 & F6) Hpt].
  split; [repeat split; assumption|].
  (* the stacks after the refresh *)
  set (dueb := fun i : nat => (L + 1) mod 2 ^ Z.of_nat i =? 0).
  assert (Hdue : forall i, (i < H)%nat -> refresh_due (m_leaf mk) (Z.of_nat i) = dueb i).
  { intros i Hi. unfold dueb. rewrite Elf.
    destruct (Z.eqb_spec ((L + 1) mod 2 ^ Z.of_nat i) 0) as [E|E].
    - apply due_iff; [lia|exact E].
    - destruct (refresh_due (u32 L) (Z.of_nat i)) eqn:Ed; [|reflexivity].
      apply due_iff in Ed; [contradiction|lia]. }
  assert (Hnew : forall i s, m_stacks mk !! i = Some s ->
            m_stacks mk1 !! i
            = Some (if dueb i
                    then initialize (startnode (m_leaf mk) (Z.of_nat i)) (Z.of_nat i) s
                    else s)).
  { intros i s Es. assert (Hi : (i < H)%nat) by (rewrite <- Hlen; now apply lookup_lt_Some in Es).
    specialize (Hpt i). rewrite bool_decide_eq_true_2 in Hpt by lia. cbn [andb] in Hpt.
    rewrite (Hdue i Hi) in Hpt. destruct (dueb i).
    - destruct Hpt as (s' & t & Es' & _ & _ & E). rewrite Es in Es'. inversion Es'; subst s'.
      exact E.
    - destruct Hpt as [_ E]. now rewrite E. }
  assert (Hval1 : valid_at (L + 1) (m_stacks mk1)).
  { split; [lia|]. intros i s1 Es1.
    assert (Hi : (i < H)%nat) by (rewrite <- Hlen, <- F5; now apply lookup_lt_Some in Es1).
    destruct (lookup_lt_is_Some_2 (m_stacks mk) i ltac:(lia)) as [s Es].
    pose proof (Hnew i s Es) as E. rewrite Es1 in E. inversion E as [Es1']. clear E.
    destruct (proj2 Hval i s Es) as (start & HT & Htg).
    destruct (TS_facts _ _ _ HT) as (Ek & Hsh & Hk & El & Et).
    unfold dueb. destruct (Z.eqb_spec ((L + 1) mod 2 ^ Z.of_nat i) 0) as [Ed|Ed].
    - destruct (startnode_ok (m_leaf mk) (Z.of_nat i)) as (S0 & S1 & S2); [lia| |].
      { rewrite Elf, u32_add_l, u32_mod_pow2 by lia. exact Ed. }
      exists (startnode (m_leaf mk) (Z.of_nat i)). split.
      + apply TS_initialize; auto; lia.
      + intros Hb. rewrite Elf. apply (startnode_target L i H); auto; lia.
    - exists start. split; [exact HT|].
      intros Hb. rewrite (Lb_not_due (Z.of_nat i) L HL ltac:(lia) Ed) in Hb.
      rewrite (Htg Hb). rewrite (div_succ_pow2 L (Z.of_nat i)) by lia.
      destruct (Z.eqb_spec ((L + 1) mod 2 ^ Z.of_nat i) 0); [contradiction|].
      now rewrite Z.add_0_r. }
  split; [exact Hval1|]. split.
  { eapply (Pot_refresh H L (m_stacks mk) (m_stacks mk1)
              (fun i => startnode (m_leaf mk) (Z.of_nat i))); eauto; try lia.
    - exact (valid_at_stacks H _ _ Hval1). }
  intros i Hi. specialize (Hpt i). rewrite bool_decide_eq_true_2 in Hpt by lia.
  cbn [andb] in Hpt. rewrite (Hdue i Hi) in Hpt. fold (dueb i). destruct (dueb i).
  - destruct Hpt as (s' & t & Es' & Et & Ea & _). now rewrite Es', Et.
  - apply Hpt.
Qed.

Lemma traverse_ok (L : Z) (rt : bytes) (mk : merkle) :
  (1 <= H <= 32)%nat -> Inv L mk ->
  exists mk', traverse (key_with rt mk) = Ok (key_with rt mk') /\ Inv (L + 1) mk'.
Proof.
  intros HH HI.
  destruct (refreshAuth_inv L mk HH HI)
    as (mk1 & E1 & (F1 & F2 & F3 & F4 & F5 & F6) & Hval1 & HP1 & Hau1).
  destruct HI as (HL & Elf & Eh & Ely & Etr & Hla & Hba & Hval & HP & Hau).
  pose proof (valid_at_stacks H _ _ Hval) as Hvs.
  assert (Hlen : length (m_stacks mk) = H) by apply Hval.
  unfold traverse. cbn [key_with priv_m of_option rbind]. rewrite E1. cbn [rbind].
  destruct (build_ok H (L + 1) rt mk mk1 HH ltac:(lia) Hval1 HP1) as (st2 & E2 & Hv2 & HP2).
  fold (key_with rt mk). rewrite E2. cbn [rbind].
  eexists. split; [reflexivity|].
  unfold Inv. cbn [set_stacks m_leaf m_height m_stacks m_auth m_layer m_tree].
  split; [lia|]. split; [rewrite F1, Elf; apply u32_add_l|].
  split; [lia|]. split; [congruence|]. split; [congruence|].
  split; [lia|].
  split.
  { apply Forall_lookup. intros i x Ex.
    assert (Hi : (i < H)%nat) by (rewrite <- Hla, <- F6; now apply lookup_lt_Some in Ex).
    rewrite (Hau1 i Hi) in Ex.
    destruct (Z.eqb_spec ((L + 1) mod 2 ^ Z.of_nat i) 0) as [Ed|Ed].
    - destruct (m_stacks mk !! i) as [s|] eqn:Es; [|discriminate].
      assert (Hdone : done s = true) by (eapply (due_done H L); eauto; lia).
      destruct (proj2 Hvs i s Es) as [start HT].
      destruct (TS_done_top _ _ _ HT Hdone) as (t & Et & Hn).
      rewrite Et in Ex. inversion Ex; subst x. unfold block32. rewrite Hn.
      apply length_tree_node.
    - eapply Forall_lookup_1; eauto. }
  split; [exact Hv2|]. split; [exact HP2|].
  intros Hb i Hi. rewrite (Hau1 i Hi).
  assert (HLH : L < 2 ^ Z.of_nat H) by lia.
  rewrite (div_succ_pow2 L (Z.of_nat i)) by lia.
  destruct (Z.eqb_spec ((L + 1) mod 2 ^ Z.of_nat i) 0) as [Ed|Ed].
  - destruct (lookup_lt_is_Some_2 (m_stacks mk) i ltac:(lia)) as [s Es]. rewrite Es.
    assert (Hdone : done s = true) by (eapply (due_done H L); eauto; lia).
    destruct (proj2 Hval i s Es) as (start & HT & Htg).
    destruct (TS_done_top _ _ _ HT Hdone) as (t & Et & Hn).
    rewrite Et, Hn. rewrite Nat2Z.id.
    destruct (Lb_due (Z.of_nat i) L HL ltac:(lia) Ed) as [Eb _].
    rewrite (Htg ltac:(lia)). rewrite Z.div_mul by (apply Z.pow_nonzero; lia).
    reflexivity.
  - rewrite Z.add_0_r. apply (Hau HLH i Hi).
Qed.

End Invariant.

(** * Treehash: what a run of [updateSub] puts on a stack *)

Section Treehash.
Context {PRF hashF_raw : bytes -> bytes -> bytes}
        {hashH_raw : bytes -> bytes -> bytes -> bytes}
        {hashMsg_raw hmac_sha256 : bytes -> bytes -> bytes}.

Local Abbreviation randHash := (randHash PRF hashH_raw).
Local Abbreviation updateSub_step := (updateSub_step PRF hashH_raw).
Local Abbreviation updateSub_loop := (updateSub_loop PRF hashH_raw).
Local Abbreviation updateSub := (updateSub PRF hashH_raw).
Local Abbreviation update := (update PRF hashF_raw hashH_raw).
Local Abbreviation workers := (workers PRF hashF_raw hashH_raw).
Local Abbreviation initMerkle := (initMerkle PRF hashF_raw hashH_raw).

Context {priv : PrivateKey} {layer tree : Z}.

Local Abbreviation pubPRF := (newPRF (publicSeed (priv_pub priv))).
Local Abbreviation hash_addr := (@hash_addr layer tree).
Local Abbreviation node_hash := (@node_hash PRF hashH_raw priv layer tree).
Local Abbreviation tree_node := (@tree_node PRF hashF_raw hashH_raw priv layer tree).
Local Abbreviation leaf_push := (@leaf_push PRF hashF_raw hashH_raw priv layer tree).
Local Abbreviation combine := (@combine PRF hashH_raw priv layer tree).
Local Abbreviation step := (@step PRF hashF_raw hashH_raw priv layer tree).

(** The stack entry for node [j] at height [h]. *)
Definition node_at (h : nat) (j : Z) : nh := mkNh (tree_node h j) (Z.of_nat h) j.

(** The two top nodes are not about to be combined. *)
Definition stable (l : list nh) : Prop :=
  match l with
  | rgt :: lft :: _ => nh_height lft <> nh_height rgt
  | _ => True
  end.

(** The top node, when there is one, is at height [m] or above. *)
Definition above (m : Z) (l : list nh) : Prop :=
  match l with
  | t :: _ => m <= nh_height t
  | [] => True
  end.

Lemma combine_node_at (h : nat) (j : Z) :
  (h < 32)%nat -> combine (node_at h (2 * j)) (node_at h (2 * j + 1)) = node_at (S h) j.
Proof.
  intros Hh. unfold combine, node_at. cbn [nh_node nh_height nh_index].
  assert (E : Z.shiftr (2 * j + 1) 1 = j).
  { rewrite Z.shiftr_div_pow2 by lia. change (2 ^ 1) with 2.
    rewrite Z.mul_comm, Z.div_add_l by lia. change (1 / 2) with 0. lia. }
  rewrite E, tree_node_S. f_equal. rewrite u32_small by lia. lia.
Qed.

Section Leafmaker.
Context {X : Type}.
Variable lm : stack -> X -> result (stack * X).

Lemma updateSub_loop_add (a b : nat) (st : stack * addr * X) :
  updateSub_loop lm (a + b) pubPRF st
  = (do st' <- updateSub_loop lm a pubPRF st; updateSub_loop lm b pubPRF st').
Proof.
  revert st. induction a as [|a IH]; intros st; cbn [Nat.add updateSub_loop rbind].
  - reflexivity.
  - destruct (updateSub_step lm pubPRF st) as [st1| |]; cbn [rbind]; auto.
Qed.

Lemma updateSub_step_combine (s : stack) (a : addr) (x : X) (rgt lft : nh) (rest : list nh) :
  st_stack s = rgt :: lft :: rest -> nh_height lft = nh_height rgt ->
  base_eq a hash_addr ->
  exists a', updateSub_step lm pubPRF (s, a, x)
             = Ok (set_stack s (combine lft rgt :: rest), a', x)
             /\ base_eq a' hash_addr.
Proof.
  intros Es Eh Ha. unfold updateSub_step. rewrite Es.
  rewrite (proj2 (Z.eqb_eq _ _) Eh).
  destruct (randHash_base (PRF:=PRF) (hashH_raw:=hashH_raw) (nh_node lft) (nh_node rgt) pubPRF
              (nh_height rgt) (Z.shiftr (nh_index rgt) 1) a hash_addr Ha) as [E1 E2].
  destruct (randHash (nh_node lft) (nh_node rgt) pubPRF
              (set adrIndex (Z.shiftr (nh_index rgt) 1) (set adrHeight (nh_height rgt) a)))
    as [out a'] eqn:Er.
  exists a'. split; [|exact E2].
  unfold combine, node_hash. rewrite <- E1. reflexivity.
Qed.

Lemma updateSub_step_leaf (s : stack) (a : addr) (x : X) :
  stable (st_stack s) ->
  updateSub_step lm pubPRF (s, a, x) = (do '(s, x) <- lm s x; Ok (s, a, x)).
Proof.
  intros Hs. unfold updateSub_step, stable in *.
  destruct (st_stack s) as [|rgt [|lft rest]]; try reflexivity.
  destruct (Z.eqb_spec (nh_height lft) (nh_height rgt)); [contradiction|reflexivity].
Qed.

(** The leaf maker pushes the nodes of height [b] in order; [at_leaf s x c]
    says that node [c] is the next one. *)
Variable b : nat.
Variable at_leaf : stack -> X -> Z -> Prop.
Variable N : Z.

Hypothesis lm_ok : forall s x c,
  0 <= c < N -> at_leaf s x c ->
  exists s' x', lm s x = Ok (s', x') /\
                st_stack s' = node_at b c :: st_stack s /\
                st_height s' = st_height s /\ st_layer s' = st_layer s /\
                st_tree s' = st_tree s /\ at_leaf s' x' (c + 1).
Hypothesis at_leaf_stack : forall s l x c, at_leaf s x c -> at_leaf (set_stack s l) x c.

Lemma pow2_fuel (k : nat) :
  Z.to_nat (2 ^ (Z.of_nat (S k) + 1) - 1)
  = (Z.to_nat (2 ^ (Z.of_nat k + 1) - 1) + Z.to_nat (2 ^ (Z.of_nat k + 1) - 1) + 1)%nat.
Proof.
  pose proof (pow2_pos (Z.of_nat k + 1) ltac:(lia)).
  replace (Z.of_nat (S k) + 1) with (Z.of_nat k + 1 + 1) by lia.
  rewrite (Z.pow_add_r 2 (Z.of_nat k + 1) 1) by lia. change (2 ^ 1) with 2. lia.
Qed.

(** From a stable stack, [2^(k+1) - 1] rounds put node [j] of height
    [b + k] on top and nothing else. *)
Lemma treehash (k : nat) :
  forall s a x j,
    (b + k <= 32)%nat -> 0 <= j -> (j + 1) * 2 ^ Z.of_nat k <= N ->
    at_leaf s x (j * 2 ^ Z.of_nat k) ->
    stable (st_stack s) -> above (Z.of_nat (b + k)) (st_stack s) ->
    base_eq a hash_addr ->
    exists s' a' x',
      updateSub_loop lm (Z.to_nat (2 ^ (Z.of_nat k + 1) - 1)) pubPRF (s, a, x)
      = Ok (s', a', x') /\
      st_stack s' = node_at (b + k) j :: st_stack s /\
      st_height s' = st_height s /\ st_layer s' = st_layer s /\
      st_tree s' = st_tree s /\ at_leaf s' x' ((j + 1) * 2 ^ Z.of_nat k) /\
      base_eq a' hash_addr.
Proof.
  induction k as [|k IH]; intros s a x j Hb Hj HN Hat Hst Hab Ha.
  - change (Z.to_nat (2 ^ (Z.of_nat 0 + 1) - 1)) with 1%nat.
    change (2 ^ Z.of_nat 0) with 1 in *. rewrite Z.mul_1_r in *.
    cbn [updateSub_loop]. rewrite (updateSub_step_leaf s a x Hst).
    destruct (lm_ok s x j ltac:(lia) Hat) as (s' & x' & E & E1 & E2 & E3 & E4 & E5).
    rewrite E. cbn [rbind]. exists s', a, x'. rewrite Nat.add_0_r.
    split; [reflexivity|]. tauto.
  - rewrite pow2_fuel, !updateSub_loop_add.
    assert (Hp : 2 ^ Z.of_nat (S k) = 2 * 2 ^ Z.of_nat k).
    { rewrite Nat2Z.inj_succ, Z.pow_succ_r by lia. reflexivity. }
    pose proof (pow2_pos (Z.of_nat k) ltac:(lia)) as Hpk.
    rewrite Hp in *.
    (* the left child *)
    destruct (IH s a x (2 * j)) as (s1 & a1 & x1 & E1 & S1 & F1 & F2 & F3 & At1 & Ha1);
      auto; try lia.
    { now replace (2 * j * 2 ^ Z.of_nat k) with (j * (2 * 2 ^ Z.of_nat k)) by lia. }
    { destruct (st_stack s); cbn in *; [auto|lia]. }
    rewrite E1. cbn [rbind].
    (* the right child *)
    destruct (IH s1 a1 x1 (2 * j + 1)) as (s2 & a2 & x2 & E2 & S2 & G1 & G2 & G3 & At2 & Ha2);
      auto; try lia.
    { rewrite S1. destruct (st_stack s) as [|t rest]; cbn in *; [auto|]. lia. }
    { rewrite S1. cbn. lia. }
    rewrite E2. cbn [rbind].
    (* their parent *)
    cbn [updateSub_loop].
    destruct (updateSub_step_combine s2 a2 x2 (node_at (b + k) (2 * j + 1))
                (node_at (b + k) (2 * j)) (st_stack s)) as (a3 & E3 & Ha3); auto.
    { rewrite S2, S1. reflexivity. }
    rewrite E3. cbn [rbind]. eexists _, a3, x2. split; [reflexivity|].
    cbn [set_stack st_stack st_height st_layer st_tree].
    split; [|split; [congruence|split; [congruence|split; [congruence|split; [|exact Ha3]]]]].
    + rewrite combine_node_at by lia. now rewrite Nat.add_succ_r.
    + apply at_leaf_stack.
      now replace ((j + 1) * (2 * 2 ^ Z.of_nat k)) with ((2 * j + 1 + 1) * 2 ^ Z.of_nat k) by lia.
Qed.

(** The same for a call of [updateSub]. *)
Lemma updateSub_treehash (k : nat) (nn : Z) (s : stack) (x : X) (j : Z) :
  nn = 2 ^ (Z.of_nat k + 1) - 1 ->
  (b + k <= 32)%nat -> 0 <= j -> (j + 1) * 2 ^ Z.of_nat k <= N ->
  at_leaf s x (j * 2 ^ Z.of_nat k) ->
  stable (st_stack s) -> above (Z.of_nat (b + k)) (st_stack s) ->
  done s = false -> st_layer s = layer -> st_tree s = tree ->
  exists s' x',
    updateSub lm nn priv s x = Ok (s', x') /\
    st_stack s' = node_at (b + k) j :: st_stack s /\
    st_height s' = st_height s /\ st_layer s' = st_layer s /\
    st_tree s' = st_tree s /\ at_leaf s' x' ((j + 1) * 2 ^ Z.of_nat k).
Proof.
  intros -> Hb Hj HN Hat Hst Hab Hd El Et. unfold updateSub. fold (done s). rewrite Hd.
  destruct (treehash k s (setTree (st_tree s) (set adrLayer (st_layer s) (set adrType 2 make_addr)))
              x j Hb Hj HN Hat Hst Hab) as (s' & a' & x' & E & R).
  { rewrite El, Et. apply base_eq_refl. }
  rewrite E. cbn [rbind]. exists s', x'. split; [reflexivity|]. tauto.
Qed.

End Leafmaker.

(** ** The leaf maker of [update] *)

Definition at_std (s : stack) (_ : unit) (c : Z) : Prop :=
  st_leaf s = u32 c /\ st_layer s = layer /\ st_tree s = tree.

Lemma std_leaf_ok (isGo : bool) (s : stack) (x : unit) (c : Z) :
  0 <= c < 2 ^ 32 -> at_std s x c ->
  exists s' x', std_leaf (PRF:=PRF) (hashF_raw:=hashF_raw) (hashH_raw:=hashH_raw) (priv:=priv)
                  isGo s x = Ok (s', x') /\
                st_stack s' = node_at 0 c :: st_stack s /\
                st_height s' = st_height s /\ st_layer s' = st_layer s /\
                st_tree s' = st_tree s /\ at_std s' x' (c + 1).
Proof.
  intros Hc (El & Ely & Etr). unfold std_leaf.
  rewrite (newleaf_spec (layer:=layer) (tree:=tree) isGo s Ely Etr). cbn [rbind].
  exists (leaf_push s), tt. split; [reflexivity|].
  unfold leaf_push, at_std. cbn [st_stack st_height st_layer st_tree st_leaf].
  rewrite El, (u32_small c) by lia. repeat split; auto.
Qed.

Lemma update_treehash (k : nat) (nn : Z) (s : stack) (j : Z) :
  nn = 2 ^ (Z.of_nat k + 1) - 1 ->
  (k <= 32)%nat -> 0 <= j -> (j + 1) * 2 ^ Z.of_nat k <= 2 ^ 32 ->
  st_leaf s = u32 (j * 2 ^ Z.of_nat k) ->
  stable (st_stack s) -> above (Z.of_nat k) (st_stack s) ->
  done s = false -> st_layer s = layer -> st_tree s = tree ->
  exists s',
    update nn priv s = Ok s' /\
    st_stack s' = node_at k j :: st_stack s /\
    st_height s' = st_height s /\ st_layer s' = layer /\
    st_tree s' = tree /\ st_leaf s' = u32 ((j + 1) * 2 ^ Z.of_nat k).
Proof.
  intros Hn Hk Hj HN El Hst Hab Hd Ely Etr. unfold update.
  destruct (updateSub_treehash (std_leaf (PRF:=PRF) (hashF_raw:=hashF_raw) (hashH_raw:=hashH_raw)
                                  (priv:=priv) false)
              0 at_std (2 ^ 32) (std_leaf_ok false)
              ltac:(intros ? ? ? ? A; exact A) k nn s tt j)
    as (s' & x' & E & E1 & E2 & E3 & E4 & (E5 & E6 & E7)); auto.
  { repeat split; auto. }
  unfold std_leaf in E. rewrite E. cbn [rbind]. exists s'. repeat split; auto.
Qed.

(** One call [update(1)] on two nodes of the same height. *)
Lemma update_combine (s : stack) (rgt lft : nh) (rest : list nh) :
  st_stack s = rgt :: lft :: rest -> nh_height lft = nh_height rgt ->
  done s = false -> st_layer s = layer -> st_tree s = tree ->
  update 1 priv s = Ok (set_stack s (combine lft rgt :: rest)).
Proof.
  intros Es Eh Hd El Et.
  rewrite (update_spec (layer:=layer) (tree:=tree) 1 s El Et), Hd.
  change (Z.to_nat 1) with 1%nat. rewrite steps_1. unfold step.
  rewrite Es, (proj2 (Z.eqb_eq _ _) Eh). reflexivity.
Qed.

(** ** The leaf maker of [initMerkle]: the roots computed by the workers *)

Definition subroots (k0 : nat) (c e : Z) : list nh := map (node_at k0) (seqZ c (e - c)).

Lemma pop_ntop_ok (k0 : nat) (e : Z) (s : stack) (x : list nh) (c : Z) :
  0 <= c < e -> x = subroots k0 c e ->
  exists s' x', pop_ntop s x = Ok (s', x') /\
                st_stack s' = node_at k0 c :: st_stack s /\
                st_height s' = st_height s /\ st_layer s' = st_layer s /\
                st_tree s' = st_tree s /\ x' = subroots k0 (c + 1) e.
Proof.
  intros Hc ->. unfold subroots. rewrite seqZ_cons by lia. cbn [map pop_ntop].
  eexists _, _. split; [reflexivity|]. cbn. repeat split.
  do 2 f_equal; lia.
Qed.

Lemma pop_treehash (k0 k : nat) (e nn : Z) (s : stack) (x : list nh) (j : Z) :
  nn = 2 ^ (Z.of_nat k + 1) - 1 ->
  (k0 + k <= 32)%nat -> 0 <= j -> (j + 1) * 2 ^ Z.of_nat k <= e ->
  x = subroots k0 (j * 2 ^ Z.of_nat k) e ->
  stable (st_stack s) -> above (Z.of_nat (k0 + k)) (st_stack s) ->
  done s = false -> st_layer s = layer -> st_tree s = tree ->
  exists s',
    updateSub pop_ntop nn priv s x = Ok (s', subroots k0 ((j + 1) * 2 ^ Z.of_nat k) e) /\
    st_stack s' = node_at (k0 + k) j :: st_stack s /\
    st_height s' = st_height s /\ st_layer s' = layer /\ st_tree s' = tree /\
    st_leaf s' = st_leaf s.
Proof.
  intros Hn Hk Hj HN Ex Hst Hab Hd Ely Etr.
  destruct (updateSub_treehash pop_ntop k0
              (fun s' x' c => x' = subroots k0 c e /\ st_leaf s' = st_leaf s) e) with
    (k := k) (nn := nn) (s := s) (x := x) (j := j)
    as (s' & x' & E & E1 & E2 & E3 & E4 & (E5 & E6)); auto.
  - intros s0 x0 c Hc [Hx Hl].
    destruct (pop_ntop_ok k0 e s0 x0 c Hc Hx) as (s1 & x1 & P & P1 & P2 & P3 & P4 & P5).
    exists s1, x1. repeat split; auto.
    unfold pop_ntop in P. destruct x0; [discriminate|]. inversion P; subst. exact Hl.
  - subst x'. exists s'. repeat split; auto; congruence.
Qed.

End Treehash.

(** * Key generation: the state that [initMerkle] builds *)

Lemma shl64_small (h : Z) : 0 <= h < 64 -> shl64 1 h = 2 ^ h.
Proof.
  intros Hh. unfold shl64, u64. rewrite Z.shiftl_1_l. apply Z.mod_small.
  split; [apply Z.pow_nonneg; lia|apply Z.pow_lt_mono_r; lia].
Qed.

Lemma fuel64 (i : Z) : 0 <= i <= 32 -> u64 (shl64 1 (u32 (i + 1)) - 1) = 2 ^ (i + 1) - 1.
Proof.
  intros Hi. rewrite u32_small by lia. rewrite shl64_small by lia.
  pose proof (pow2_pos (i + 1) ltac:(lia)).
  assert (2 ^ (i + 1) < 2 ^ 64) by (apply Z.pow_lt_mono_r; lia).
  unfold u64. apply Z.mod_small. lia.
Qed.

Lemma nproc_of_range (ncpu h : Z) : 1 <= h -> 0 <= nproc_of ncpu h < h.
Proof.
  intros Hh. unfold nproc_of.
  set (p := if negb (ncpu =? Z.shiftl 1 (u32 (Z.log2 ncpu)))
            then u32 (u32 (Z.log2 ncpu) + 1) else u32 (Z.log2 ncpu)).
  assert (0 <= p) by (subst p; destruct (negb _); apply u32_range).
  destruct (Z.leb_spec h p); lia.
Qed.

Section Init.
Context {PRF hashF_raw : bytes -> bytes -> bytes}
        {hashH_raw : bytes -> bytes -> bytes -> bytes}
        {hashMsg_raw hmac_sha256 : bytes -> bytes -> bytes}.

Local Abbreviation update := (update PRF hashF_raw hashH_raw).
Local Abbreviation worker := (worker PRF hashF_raw hashH_raw).
Local Abbreviation workers := (workers PRF hashF_raw hashH_raw).
Local Abbreviation initMerkle_loop := (initMerkle_loop PRF hashF_raw hashH_raw).
Local Abbreviation initMerkle := (initMerkle PRF hashF_raw hashH_raw).

Context {priv : PrivateKey} {layer tree : Z}.

Local Abbreviation tree_node := (@tree_node PRF hashF_raw hashH_raw priv layer tree).
Local Abbreviation node_at := (@node_at PRF hashF_raw hashH_raw priv layer tree).
Local Abbreviation subroots := (@subroots PRF hashF_raw hashH_raw priv layer tree).
Local Abbreviation tree_len := (@length_tree_node PRF hashF_raw hashH_raw priv layer tree).

(** Stack [i] as key generation leaves it: done, holding node 0 of height
    [i]. *)
Definition stack0 (i : nat) : stack :=
  mkStack [node_at i 0] (Z.of_nat i) (2 ^ Z.of_nat i) layer tree.

(** The traversal state of a new key. *)
Definition merkle0 (h : nat) : merkle :=
  mkMerkle 0 (Z.of_nat h) (map stack0 (seq 0 h)) (map (fun i => tree_node i 1) (seq 0 h))
    layer tree.

Section Workers.
Variables hn pn : nat.
Hypothesis Hp : (pn < hn <= 32)%nat.

Lemma worker_ok (i : Z) :
  (1 <= pn)%nat -> 0 <= i -> i + 1 <= 2 ^ Z.of_nat pn ->
  worker priv layer tree (Z.of_nat hn) (Z.of_nat pn) i = Ok (node_at (hn - pn) i).
Proof.
  intros Hp1 Hi Hi2. unfold worker.
  assert (Ek : Z.of_nat hn - Z.of_nat pn = Z.of_nat (hn - pn)) by lia.
  rewrite Ek. rewrite (u32_small (Z.of_nat (hn - pn))) by lia.
  rewrite shl32_small by lia. rewrite fuel64 by lia.
  assert (Hb : (i + 1) * 2 ^ Z.of_nat (hn - pn) <= 2 ^ 32).
  { pose proof (pow2_pos (Z.of_nat (hn - pn)) ltac:(lia)).
    assert (2 ^ Z.of_nat pn * 2 ^ Z.of_nat (hn - pn) <= 2 ^ 32).
    { rewrite <- Z.pow_add_r by lia. apply Z.pow_le_mono_r; lia. }
    nia. }
  edestruct (update_treehash (PRF:=PRF) (hashF_raw:=hashF_raw) (hashH_raw:=hashH_raw)
               (priv:=priv) (layer:=layer) (tree:=tree) (hn - pn)
               (2 ^ (Z.of_nat (hn - pn) + 1) - 1)
               (mkStack [] (Z.of_nat (hn - pn)) (u32 (2 ^ Z.of_nat (hn - pn) * i)) layer tree) i)
    as (s' & E & E1 & _); try reflexivity; try exact I; try lia.
  { cbn [st_leaf]. f_equal. lia. }
  rewrite E. cbn [rbind]. unfold top. rewrite E1. reflexivity.
Qed.

Lemma workers_ok (count : nat) :
  forall i, 1 <= i -> i + Z.of_nat count <= 2 ^ Z.of_nat pn ->
            workers priv layer tree (Z.of_nat hn) (Z.of_nat pn) i count
            = Ok (map (node_at (hn - pn)) (seqZ i (Z.of_nat count))).
Proof.
  induction count as [|c IH]; intros i Hi Hb; cbn [workers].
  - reflexivity.
  - assert (1 <= pn)%nat.
    { destruct pn; [|lia]. change (2 ^ Z.of_nat 0) with 1 in Hb. lia. }
    rewrite worker_ok by lia. cbn [rbind]. rewrite IH by lia. cbn [rbind].
    rewrite (seqZ_cons i) by lia. cbn [map]. do 3 f_equal. f_equal; lia.
Qed.

(** The main stack of [initMerkle] on entry to round [i] of its loop. *)
Definition main_pre (i : nat) (s : stack) : Prop :=
  st_height s = Z.of_nat hn /\ st_layer s = layer /\ st_tree s = tree /\
  match i with
  | O => st_stack s = [] /\ st_leaf s = 0
  | S i' => st_stack s = [node_at i' 1; node_at i' 0] /\
            ((i <= hn - pn)%nat -> st_leaf s = u32 (2 ^ Z.of_nat i))
  end.

Lemma main_update1 (i : nat) (s : stack) :
  (i <= hn)%nat -> main_pre i s ->
  exists s1, update 1 priv s = Ok s1 /\ st_stack s1 = [node_at i 0] /\
             st_height s1 = Z.of_nat hn /\ st_layer s1 = layer /\ st_tree s1 = tree /\
             ((i <= hn - pn)%nat -> st_leaf s1 = u32 (2 ^ Z.of_nat i)).
Proof.
  intros Hi (Eh & El & Et & Hs). destruct i as [|i'].
  - destruct Hs as [Es E0].
    edestruct (update_treehash (PRF:=PRF) (hashF_raw:=hashF_raw) (hashH_raw:=hashH_raw)
                 (priv:=priv) (layer:=layer) (tree:=tree) 0 1 s 0)
      as (s' & E & E1 & E2 & E3 & E4 & E5); try reflexivity; try lia; auto.
    + now rewrite Es.
    + now rewrite Es.
    + unfold done. now rewrite Es.
    + exists s'. rewrite Es in E1. repeat split; auto; try congruence.
  - destruct Hs as [Es E0].
    rewrite (update_combine (PRF:=PRF) (hashF_raw:=hashF_raw) (hashH_raw:=hashH_raw)
               (layer:=layer) (tree:=tree) s (node_at i' 1) (node_at i' 0) [] Es); auto.
    + eexists. split; [reflexivity|]. cbn [set_stack st_stack st_height st_layer st_tree st_leaf].
      split; [|auto].
      change 1 with (2 * 0 + 1) at 1. change 0 with (2 * 0) at 1.
      rewrite combine_node_at by lia. reflexivity.
    + unfold done. rewrite Es, Eh. cbn [nh_height node_at]. apply Z.eqb_neq. lia.
Qed.

Lemma initMerkle_loop_ok (fuel : nat) :
  forall (i : nat) s ntop stacks au,
    (i + fuel = hn)%nat -> main_pre i s ->
    ntop = subroots (hn - pn) (2 ^ Z.of_nat (i - (hn - pn))) (2 ^ Z.of_nat pn) ->
    exists s',
      initMerkle_loop fuel (Z.of_nat i) (Z.of_nat hn) (Z.of_nat pn) priv layer tree
        s ntop stacks au
      = Ok (s', stacks ++ map stack0 (seq i fuel),
            au ++ map (fun i => tree_node i 1) (seq i fuel))
      /\ main_pre hn s'.
Proof.
  induction fuel as [|f IH]; intros i s ntop stacks au Hf Hpre Hnt; cbn [initMerkle_loop].
  - cbn [seq map]. rewrite !app_nil_r. exists s. split; [reflexivity|].
    now replace hn with i by lia.
  - destruct (main_update1 i s ltac:(lia) Hpre) as (s1 & E1 & S1 & Eh & El & Et & Elf).
    rewrite E1. cbn [rbind]. unfold top at 1. rewrite S1. cbn [rbind].
    assert (Ek : Z.of_nat hn - Z.of_nat pn = Z.of_nat (hn - pn)) by lia.
    rewrite Ek. rewrite (u32_small (Z.of_nat (hn - pn))) by lia.
    rewrite shl32_small by lia.
    assert (Hnd : done s1 = false).
    { unfold done. rewrite S1, Eh. cbn [nh_height node_at]. apply Z.eqb_neq. lia. }
    assert (Esi : push (node_at i 0) (mkStack [] (Z.of_nat i) (2 ^ Z.of_nat i) layer tree)
                  = stack0 i) by reflexivity.
    rewrite Esi.
    assert (Hau : forall j, copy_at 0 (tree_node i j) (zeros 32) = tree_node i j).
    { intros j. apply copy_at_0_full. now rewrite tree_len, length_zeros. }
    destruct (Z.ltb_spec (Z.of_nat i) (Z.of_nat (hn - pn))) as [Hlt|Hge].
    + (* the main stack makes its own leaves *)
      rewrite fuel64 by lia.
      edestruct (update_treehash (PRF:=PRF) (hashF_raw:=hashF_raw) (hashH_raw:=hashH_raw)
                   (priv:=priv) (layer:=layer) (tree:=tree) i
                   (2 ^ (Z.of_nat i + 1) - 1) s1 1)
        as (s2 & E2 & S2 & Eh2 & El2 & Et2 & Elf2); try reflexivity; try lia; auto.
      { change (1 + 1) with 2. rewrite <- (Z.pow_succ_r 2) by lia.
        apply Z.pow_le_mono_r; lia. }
      { rewrite Z.mul_1_l. apply Elf. lia. }
      { now rewrite S1. }
      { rewrite S1. cbn. lia. }
      rewrite E2. cbn [rbind]. unfold top. rewrite S2. cbn [rbind nh_node node_at].
      rewrite Hau.
      destruct (IH (S i) s2 ntop (stacks ++ [stack0 i]) (au ++ [tree_node i 1]))
        as (s' & E & Hs'); try lia.
      { split; [congruence|]. split; [auto|]. split; [auto|]. split; [now rewrite S2, S1|].
        intros _. rewrite Elf2. f_equal. rewrite Nat2Z.inj_succ, Z.pow_succ_r by lia. lia. }
      { rewrite Hnt. do 2 f_equal. lia. }
      replace (Z.of_nat i + 1) with (Z.of_nat (S i)) by lia.
      rewrite E, <- !app_assoc. exists s'. split; [reflexivity|exact Hs'].
    + (* the leaves are the roots of the workers *)
      assert (Ei : Z.of_nat i - Z.of_nat (hn - pn) = Z.of_nat (i - (hn - pn))) by lia.
      rewrite Ei. rewrite (u32_small (Z.of_nat (i - (hn - pn)))) by lia.
      rewrite fuel64 by lia.
      edestruct (pop_treehash (PRF:=PRF) (hashF_raw:=hashF_raw) (hashH_raw:=hashH_raw)
                   (priv:=priv) (layer:=layer) (tree:=tree) (hn - pn) (i - (hn - pn))
                   (2 ^ Z.of_nat pn) (2 ^ (Z.of_nat (i - (hn - pn)) + 1) - 1) s1 ntop 1)
        as (s2 & E2 & S2 & Eh2 & El2 & Et2 & Elf2); try reflexivity; try lia; auto.
      { change (1 + 1) with 2. rewrite <- (Z.pow_succ_r 2) by lia.
        apply Z.pow_le_mono_r; lia. }
      { now rewrite Z.mul_1_l. }
      { now rewrite S1. }
      { rewrite S1. cbn. lia. }
      rewrite E2. cbn [rbind]. unfold top. rewrite S2. cbn [rbind nh_node node_at].
      replace (hn - pn + (i - (hn - pn)))%nat with i by lia.
      rewrite Hau.
      destruct (IH (S i) s2
                  (subroots (hn - pn) ((1 + 1) * 2 ^ Z.of_nat (i - (hn - pn))) (2 ^ Z.of_nat pn))
                  (stacks ++ [stack0 i]) (au ++ [tree_node i 1]))
        as (s' & E & Hs'); try lia.
      { split; [congruence|]. split; [auto|]. split; [auto|]. split.
        - rewrite S2, S1. now replace (hn - pn + (i - (hn - pn)))%nat with i by lia.
        - intros Hle. lia. }
      { f_equal. change (1 + 1) with 2. rewrite <- Z.pow_succ_r by lia. f_equal. lia. }
      replace (Z.of_nat i + 1) with (Z.of_nat (S i)) by lia.
      rewrite E, <- !app_assoc. exists s'. split; [reflexivity|exact Hs'].
Qed.

End Workers.

(** [initMerkle] for any number of processors: the root of the tree over
    all leaves, copied into the root of the key, and the traversal state
    [merkle0]. *)
Lemma initMerkle_any (ncpu : Z) (h : nat) :
  (1 <= h <= 32)%nat ->
  initMerkle ncpu (Z.of_nat h) layer tree priv
  = Ok (mkPrivateKey
          (set_root (priv_pub priv) (copy_at 0 (tree_node h 0) (root (priv_pub priv))))
          (msgPRF priv) (wotsPRF priv) (Some (merkle0 h))).
Proof.
  intros Hh. unfold initMerkle.
  pose proof (nproc_of_range ncpu (Z.of_nat h) ltac:(lia)) as Hp.
  set (p := nproc_of ncpu (Z.of_nat h)) in *.
  assert (Ep : p = Z.of_nat (Z.to_nat p)) by lia.
  set (pn := Z.to_nat p) in *. rewrite Ep.
  assert (Hpn : (pn < h <= 32)%nat) by lia.
  rewrite shl32_small by lia.
  pose proof (pow2_pos (Z.of_nat pn) ltac:(lia)) as Hpp.
  rewrite (workers_ok h pn Hpn (Z.to_nat (2 ^ Z.of_nat pn - 1)) 1) by lia.
  cbn [rbind].
  destruct (initMerkle_loop_ok h pn Hpn h 0%nat (mkStack [] (Z.of_nat h) 0 layer tree)
              (map (node_at (h - pn)) (seqZ 1 (Z.of_nat (Z.to_nat (2 ^ Z.of_nat pn - 1)))))
              [] []) as (s' & E & Hs'); try lia.
  { repeat split. }
  { unfold subroots. rewrite Nat.sub_0_l. change (2 ^ Z.of_nat 0) with 1.
    do 2 f_equal. lia. }
  change (Z.of_nat 0) with 0 in E. rewrite Nat2Z.id, E. cbn [rbind app].
  destruct (main_update1 h pn Hpn h s' ltac:(lia) Hs') as (s1 & E1 & S1 & _).
  rewrite E1. cbn [rbind]. unfold top. rewrite S1. cbn [rbind nh_node node_at].
  reflexivity.
Qed.

Lemma initMerkle_ok (ncpu : Z) (h : nat) :
  (1 <= h <= 32)%nat -> length (root (priv_pub priv)) = 32%nat ->
  initMerkle ncpu (Z.of_nat h) layer tree priv
  = Ok (mkPrivateKey (set_root (priv_pub priv) (tree_node h 0))
          (msgPRF priv) (wotsPRF priv) (Some (merkle0 h))).
Proof.
  intros Hh Hr. rewrite (initMerkle_any ncpu h Hh).
  now rewrite copy_at_0_full by (now rewrite tree_len).
Qed.

End Init.

(** * The invariant holds for a new key *)

Section InitInv.
Context {PRF hashF_raw : bytes -> bytes -> bytes}
        {hashH_raw : bytes -> bytes -> bytes -> bytes}
        {hashMsg_raw hmac_sha256 : bytes -> bytes -> bytes}.


Context {priv : PrivateKey} {layer tree : Z}.

Local Abbreviation node_ok := (@node_ok PRF hashF_raw hashH_raw priv layer tree).
Local Abbreviation covers := (@covers PRF hashF_raw hashH_raw priv layer tree).
Local Abbreviation TS := (@TS PRF hashF_raw hashH_raw priv layer tree).
Variable H : nat.
Local Abbreviation node_at := (@node_at PRF hashF_raw hashH_raw priv layer tree).
Local Abbreviation stack0 := (@stack0 PRF hashF_raw hashH_raw priv layer tree).
Local Abbreviation merkle0 := (@merkle0 PRF hashF_raw hashH_raw priv layer tree).
Local Abbreviation Inv := (@Inv PRF hashF_raw hashH_raw priv layer tree H).
Local Abbreviation tree_len := (@length_tree_node PRF hashF_raw hashH_raw priv layer tree).

Lemma lookup_map_seq0 {A} (g : nat -> A) (k i : nat) (x : A) :
  map g (seq 0 k) !! i = Some x -> (i < k)%nat /\ x = g i.
Proof.
  intros E. rewrite list_lookup_fmap in E.
  destruct (seq 0 k !! i) as [j|] eqn:Ej; [|discriminate].
  apply lookup_seq in Ej. destruct Ej as [-> ?]. inversion E. auto.
Qed.

Lemma stack0_done (i : nat) : done (stack0 i) = true.
Proof. unfold done, stack0. cbn. apply Z.eqb_refl. Qed.

Lemma TS_stack0 (i : nat) : (i < 32)%nat -> TS (Z.of_nat i) 0 (stack0 i).
Proof.
  intros Hi. unfold TS, stack0. cbn [st_height st_layer st_tree st_leaf st_stack].
  pose proof (pow2_pos (Z.of_nat i) ltac:(lia)) as Hp.
  assert (2 ^ Z.of_nat i < 2 ^ 32) by (apply Z.pow_lt_mono_r; lia).
  repeat (split; [reflexivity || lia || (try apply Z.divide_0_r)|]).
  exists (2 ^ Z.of_nat i). split; [symmetry; apply u32_small; lia|]. split.
  - cbn [covers node_at nh_index nh_height]. unfold node_ok. cbn [node_at nh_index nh_height nh_node].
    rewrite Nat2Z.id. repeat split; lia.
  - apply shape_done. reflexivity.
Qed.

Lemma Inv_merkle0 : (1 <= H <= 32)%nat -> Inv 0 (merkle0 H).
Proof.
  intros HH. unfold Inv, merkle0. cbn [m_leaf m_height m_stacks m_auth m_layer m_tree].
  split; [lia|]. split; [reflexivity|]. split; [reflexivity|].
  split; [reflexivity|]. split; [reflexivity|].
  split; [now rewrite length_map, length_seq|].
  split.
  { apply Forall_lookup. intros i x Ex. apply lookup_map_seq0 in Ex. destruct Ex as [_ ->].
    apply tree_len. }
  split.
  { split; [now rewrite length_map, length_seq|]. intros i s Es.
    apply lookup_map_seq0 in Es. destruct Es as [Hi ->].
    exists 0. split; [apply TS_stack0; lia|].
    intros _. rewrite Z.div_0_l by (apply Z.pow_nonzero; lia). reflexivity. }
  split.
  { intros j sj Ej Hd. apply lookup_map_seq0 in Ej. destruct Ej as [_ ->].
    now rewrite stack0_done in Hd. }
  intros _ i Hi. rewrite list_lookup_fmap, lookup_seq_lt by lia. cbn.
  rewrite Z.div_0_l by (apply Z.pow_nonzero; lia). reflexivity.
Qed.

End InitInv.

(** * WOTS+: a signature leads back to the public key *)

Section Wots.
Context {PRF hashF_raw : bytes -> bytes -> bytes}
        {hashH_raw : bytes -> bytes -> bytes -> bytes}
        {hashMsg_raw hmac_sha256 : bytes -> bytes -> bytes}.

Local Abbreviation sum := (sum PRF).
Local Abbreviation sumInt := (sumInt PRF).
Local Abbreviation chain := (chain PRF hashF_raw).
Local Abbreviation newWotsPubKey := (newWotsPubKey PRF hashF_raw).
Local Abbreviation wots_sign := (wots_sign PRF hashF_raw).
Local Abbreviation wots_pubkey := (wots_pubkey PRF hashF_raw).
Local Abbreviation newWotsPrivKey := (newWotsPrivKey PRF).
Local Abbreviation randHash := (randHash PRF hashH_raw).
Local Abbreviation ltree_row := (ltree_row PRF hashH_raw).
Local Abbreviation ltree_loop := (ltree_loop PRF hashH_raw).
Local Abbreviation ltree := (ltree PRF hashH_raw).

Lemma chain_ext (p : prf) (k : nat) (x : bytes) (s : Z) (a b : addr) :
  a_layer a = a_layer b -> a_tree_hi a = a_tree_hi b -> a_tree_lo a = a_tree_lo b ->
  a_type a = a_type b -> a_w4 a = a_w4 b -> a_w5 a = a_w5 b ->
  chain x s k p a = chain x s k p b.
Proof.
  intros E1 E2 E3 E4 E5 E6. destruct k as [|k]; [reflexivity|].
  cbn [chain].
  destruct a, b. cbn in *. subst. unfold set. cbn. reflexivity.
Qed.

Lemma chain_add (p : prf) (k1 k2 : nat) :
  forall (x : bytes) (s : Z) (a : addr),
    chain x s (k1 + k2) p a = chain (chain x s k1 p a) (s + Z.of_nat k1) k2 p a.
Proof.
  induction k1 as [|k1 IH]; intros x s a.
  - cbn [Nat.add chain]. now rewrite Z.add_0_r.
  - cbn [Nat.add chain]. rewrite IH.
    replace (s + 1 + Z.of_nat k1) with (s + Z.of_nat (S k1)) by lia.
    apply chain_ext; unfold set; reflexivity.
Qed.

Lemma length_chain (p : prf) (k : nat) :
  forall (x : bytes) (s : Z) (a : addr),
    length x = 32%nat -> length (chain x s k p a) = 32%nat.
Proof.
  induction k as [|k IH]; intros x s a Hx; cbn [chain]; [exact Hx|].
  apply IH. unfold hashF. apply length_fit32.
Qed.

Lemma chains_from_ext (f g : Z -> bytes -> addr -> bytes) (a : addr) (xs : list bytes) :
  forall i, (forall j x a', f j x a' = g j x a') ->
            chains_from i xs f a = chains_from i xs g a.
Proof.
  induction xs as [|x xs IH]; intros i Hfg; cbn [chains_from]; [reflexivity|].
  now rewrite Hfg, IH.
Qed.

Lemma chains_from_comp (f g : Z -> bytes -> addr -> bytes) (a : addr) (xs : list bytes) :
  forall i, chains_from i (chains_from i xs f a) g a
            = chains_from i xs (fun j x a' => g j (f j x a') a') a.
Proof.
  induction xs as [|x xs IH]; intros i; cbn [chains_from]; [reflexivity|].
  now rewrite IH.
Qed.

Lemma Forall_chains_from (f : Z -> bytes -> addr -> bytes) (a : addr) (xs : list bytes) :
  (forall j x a', length x = 32%nat -> length (f j x a') = 32%nat) ->
  forall i, Forall block32 xs -> Forall block32 (chains_from i xs f a).
Proof.
  intros Hf. induction xs as [|x xs IH]; intros i Hx; cbn [chains_from]; [constructor|].
  inversion Hx; subst. constructor; [apply Hf; assumption|apply IH; assumption].
Qed.

(** Every base-16 digit of the message and of its checksum is below 16. *)
Lemma land15_range (z : Z) : 0 <= Z.land z 15 <= 15.
Proof.
  change 15 with (Z.ones 4). rewrite Z.land_ones by lia.
  pose proof (Z.mod_pos_bound z (2 ^ 4) ltac:(lia)). change (Z.ones 4) with 15. lia.
Qed.

Lemma wots_digits_range (hmsg : bytes) (i : nat) :
  0 <= nth i (wots_digits hmsg) 0 <= 15.
Proof.
  assert (HF : Forall (fun d => 0 <= d <= 15) (wots_digits hmsg)).
  { unfold wots_digits. apply Forall_app. split.
    - unfold msg_digits. induction (fit32 hmsg) as [|b l IH]; cbn [flat_map]; [constructor|].
      constructor; [|constructor; [apply land15_range|exact IH]].
      pose proof (Z_of_byte_range b). rewrite Z.shiftr_div_pow2 by lia.
      change (2 ^ 4) with 16. split; [apply Z.div_pos; lia|].
      apply Z.lt_succ_r. apply Z.div_lt_upper_bound; lia.
    - unfold checksum_digits. repeat constructor; apply land15_range. }
  destruct (nth_in_or_default i (wots_digits hmsg) 0) as [Hin|E].
  - rewrite Forall_forall in HF. apply HF. now apply list_elem_of_In.
  - rewrite E. lia.
Qed.

(** The key recovered from a signature is the signer's public key. *)
Lemma wots_roundtrip (sk : list bytes) (hmsg : bytes) (p : prf) (a : addr) :
  wots_pubkey (wots_sign sk hmsg p a) hmsg p a = newWotsPubKey sk p a.
Proof.
  unfold wots_pubkey, wots_sign, newWotsPubKey. rewrite chains_from_comp.
  apply chains_from_ext. intros j x a'.
  pose proof (wots_digits_range hmsg (Z.to_nat j)) as Hd.
  set (d := nth (Z.to_nat j) (wots_digits hmsg) 0) in *.
  replace (Z.to_nat (wots_w - 1)) with (Z.to_nat d + Z.to_nat (wots_w - 1 - d))%nat
    by (unfold wots_w; lia).
  rewrite chain_add. f_equal. lia.
Qed.

Lemma Forall_newWotsPrivKey (p : prf) (a : addr) : Forall block32 (newWotsPrivKey p a).
Proof.
  unfold newWotsPrivKey. apply Forall_forall. intros x Hx.
  apply list_elem_of_In, in_map_iff in Hx. destruct Hx as (i & <- & _).
  unfold sumInt, sum. apply length_fit32.
Qed.

Lemma Forall_wots_sign (sk : list bytes) (hmsg : bytes) (p : prf) (a : addr) :
  Forall block32 sk -> Forall block32 (wots_sign sk hmsg p a).
Proof.
  intros Hsk. unfold wots_sign. apply Forall_chains_from; [|exact Hsk].
  intros j x a' Hx. now apply length_chain.
Qed.

Lemma Forall_newWotsPubKey (sk : list bytes) (p : prf) (a : addr) :
  Forall block32 sk -> Forall block32 (newWotsPubKey sk p a).
Proof.
  intros Hsk. unfold newWotsPubKey. apply Forall_chains_from; [|exact Hsk].
  intros j x a' Hx. now apply length_chain.
Qed.

Lemma length_wots_sign (sk : list bytes) (hmsg : bytes) (p : prf) (a : addr) :
  length (wots_sign sk hmsg p a) = length sk.
Proof. apply length_chains_from. Qed.

(** ** What the L-tree keeps *)

Lemma base_eq_sym (a b : addr) : base_eq a b -> base_eq b a.
Proof. unfold base_eq. intuition congruence. Qed.

Lemma base_eq_trans (a b c : addr) : base_eq a b -> base_eq b c -> base_eq a c.
Proof. unfold base_eq. intuition congruence. Qed.

Lemma randHash_frame (l rt : bytes) (p : prf) (a : addr) :
  length (fst (randHash l rt p a)) = 32%nat /\ base_eq (snd (randHash l rt p a)) a.
Proof.
  unfold randHash. cbn [fst snd]. split; [apply length_fit32|].
  destruct a. unfold base_eq, set. cbn. auto.
Qed.

Lemma ltree_row_frame (p : prf) (half : Z) (fuel : nat) :
  forall (i : Z) (pk pk' : list bytes) (a a' : addr),
    ltree_row fuel i half p pk a = Ok (pk', a') ->
    Forall block32 pk -> Forall block32 pk' /\ base_eq a' a.
Proof.
  induction fuel as [|f IH]; intros i pk pk' a a' E Hpk; cbn [ltree_row] in E.
  - inversion E; subst. split; [exact Hpk|apply base_eq_refl].
  - destruct (i <? half); [|inversion E; subst; split; [exact Hpk|apply base_eq_refl]].
    destruct (pk !! Z.to_nat (2 * i)) as [x0|]; [|discriminate].
    destruct (pk !! Z.to_nat (2 * i + 1)) as [x1|]; [|discriminate].
    destruct (pk !! Z.to_nat i) as [x2|]; [|discriminate].
    cbn [of_option rbind] in E.
    pose proof (randHash_frame x0 x1 p (set adrIndex i a)) as [F1 F2].
    destruct (randHash x0 x1 p (set adrIndex i a)) as [out a1]. cbn [fst snd] in F1, F2.
    apply IH in E.
    + destruct E as [E1 E2]. split; [exact E1|].
      eapply base_eq_trans; [exact E2|]. eapply base_eq_trans; [exact F2|].
      destruct a. unfold base_eq, set. cbn. auto.
    + apply Forall_insert; assumption.
Qed.

Lemma ltree_loop_frame (p : prf) (fuel : nat) :
  forall (l height : Z) (pk pk' : list bytes) (a a' : addr),
    ltree_loop fuel l height p pk a = Ok (pk', a') ->
    Forall block32 pk -> Forall block32 pk' /\ base_eq a' a.
Proof.
  induction fuel as [|f IH]; intros l height pk pk' a a' E Hpk; cbn [ltree_loop] in E.
  - inversion E; subst. split; [exact Hpk|apply base_eq_refl].
  - destruct (1 <? l); [|inversion E; subst; split; [exact Hpk|apply base_eq_refl]].
    destruct (ltree_row (Z.to_nat (Z.shiftr l 1)) 0 (Z.shiftr l 1) p pk a)
      as [[pk1 a1]| |] eqn:E1; try discriminate.
    cbn [rbind] in E. apply ltree_row_frame in E1; [|exact Hpk]. destruct E1 as [B1 A1].
    assert (Hset : forall v, base_eq (set adrHeight v a1) a).
    { intros v. eapply base_eq_trans; [|exact A1]. destruct a1. unfold base_eq, set. cbn. auto. }
    destruct (Z.land l 1 =? 1).
    + destruct (pk1 !! Z.to_nat (l - 1)) as [x0|] eqn:E0; [|discriminate].
      destruct (pk1 !! Z.to_nat (Z.shiftr l 1)) as [x1|] eqn:E1'; [|discriminate].
      cbn [of_option rbind] in E. apply IH in E.
      * destruct E as [E2 E3]. split; [exact E2|]. eapply base_eq_trans; [exact E3|apply Hset].
      * apply Forall_insert; [exact B1|]. unfold block32. rewrite length_copy_at.
        eapply Forall_lookup_1 in E1'; [|exact B1]. exact E1'.
    + cbn [rbind] in E. apply IH in E; [|exact B1].
      destruct E as [E2 E3]. split; [exact E2|]. eapply base_eq_trans; [exact E3|apply Hset].
Qed.

Lemma ltree_frame (pk : list bytes) (p : prf) (a : addr) (nn : bytes) (a' : addr) :
  ltree pk p a = Ok (nn, a') -> Forall block32 pk ->
  length nn = 32%nat /\ base_eq a' a.
Proof.
  unfold ltree. intros E Hpk.
  destruct (ltree_loop (Z.to_nat wlen) wlen 0 p pk (set adrHeight 0 a))
    as [[pk1 a1]| |] eqn:E1; try discriminate.
  cbn [rbind] in E. apply ltree_loop_frame in E1; [|exact Hpk]. destruct E1 as [B1 A1].
  destruct (pk1 !! 0%nat) as [x0|] eqn:E0; [|discriminate].
  cbn [of_option rbind] in E. inversion E; subst. split.
  - eapply Forall_lookup_1 in E0; [|exact B1]. exact E0.
  - eapply base_eq_trans; [exact A1|]. destruct a. unfold base_eq, set. cbn. auto.
Qed.

End Wots.

(** * Signing and verifying *)

Lemma copy_at_mid (off : nat) (src pre mid post : bytes) :
  length pre = off -> length mid = length src ->
  copy_at off src (pre ++ mid ++ post) = pre ++ src ++ post.
Proof.
  intros Hp Hm.
  pose proof (copy_to_app (Z.of_nat off) src pre mid post ltac:(lia) Hm) as E.
  unfold copy_to in E. rewrite Nat2Z.id in E.
  destruct ((0 <=? Z.of_nat off) && (Z.of_nat off <=? Z.of_nat (length (pre ++ mid ++ post))));
    [now inversion E|discriminate].
Qed.

Lemma copy_at_head (src mid post : bytes) :
  length mid = length src -> copy_at 0 src (mid ++ post) = src ++ post.
Proof. intros Hm. exact (copy_at_mid 0 src [] mid post eq_refl Hm). Qed.

(** The 96 bytes hashed with the message, as [Sign] and [Verify] build them. *)
Lemma sign_rr (a rt : bytes) (v : Z) :
  length a = 32%nat -> length rt = 32%nat ->
  copy_at 64 (copy_at 28 (be32 v) (zeros 32)) (copy_at 32 rt (copy_at 0 a (zeros (32 * 3))))
  = a ++ rt ++ zeros 28 ++ be32 v.
Proof.
  intros Ha Hr.
  change (zeros (32 * 3)) with (zeros (32 + (32 + 32))). rewrite !zeros_add.
  rewrite (copy_at_head a (zeros 32) (zeros 32 ++ zeros 32)) by (rewrite ?length_zeros; auto).
  rewrite (copy_at_mid 32 rt a (zeros 32) (zeros 32)) by (rewrite ?length_zeros; auto).
  change (zeros 32) with (zeros (28 + 4)) at 1. rewrite zeros_add.
  rewrite <- (app_nil_r (zeros 4)) at 1.
  rewrite (copy_at_mid 28 (be32 v) (zeros 28) (zeros 4) []) by (rewrite ?length_zeros; auto).
  rewrite app_nil_r.
  rewrite (app_assoc a rt), <- (app_nil_r (zeros 32)).
  rewrite (copy_at_mid 64 (zeros 28 ++ be32 v) (a ++ rt) (zeros 32) []).
  - now rewrite app_nil_r, <- app_assoc.
  - rewrite length_app. lia.
  - rewrite length_app, !length_zeros, length_be32. reflexivity.
Qed.

Lemma verify_rr (a rt : bytes) (v : Z) :
  length a = 32%nat -> length rt = 32%nat ->
  copy_at (64 + 28) (be32 v) (copy_at 32 rt (copy_at 0 a (zeros (32 * 3))))
  = a ++ rt ++ zeros 28 ++ be32 v.
Proof.
  intros Ha Hr.
  change (zeros (32 * 3)) with (zeros (32 + (32 + (28 + 4)))). rewrite !zeros_add.
  rewrite (copy_at_head a (zeros 32) (zeros 32 ++ zeros 28 ++ zeros 4))
    by (rewrite ?length_zeros; auto).
  rewrite (copy_at_mid 32 rt a (zeros 32) (zeros 28 ++ zeros 4)) by (rewrite ?length_zeros; auto).
  rewrite (app_assoc a rt), (app_assoc (a ++ rt)), <- (app_nil_r (zeros 4)).
  rewrite (copy_at_mid (64 + 28) (be32 v) ((a ++ rt) ++ zeros 28) (zeros 4) []).
  - now rewrite app_nil_r, <- !app_assoc.
  - rewrite !length_app, length_zeros. lia.
  - reflexivity.
Qed.

Section SignVerify.
Context {PRF hashF_raw : bytes -> bytes -> bytes}
        {hashH_raw : bytes -> bytes -> bytes -> bytes}
        {hashMsg_raw hmac_sha256 : bytes -> bytes -> bytes}.

Local Abbreviation sum := (sum PRF).
Local Abbreviation hashMsg := (hashMsg hashMsg_raw).
Local Abbreviation newWotsPubKey := (newWotsPubKey PRF hashF_raw).
Local Abbreviation wots_sign := (wots_sign PRF hashF_raw).
Local Abbreviation newWotsPrivKey := (newWotsPrivKey PRF).
Local Abbreviation randHash := (randHash PRF hashH_raw).
Local Abbreviation ltree := (ltree PRF hashH_raw).
Local Abbreviation rootFromSig_loop := (rootFromSig_loop PRF hashH_raw).
Local Abbreviation rootFromSig := (rootFromSig PRF hashF_raw hashH_raw).
Local Abbreviation Verify := (Verify PRF hashF_raw hashH_raw hashMsg_raw).
Local Abbreviation build := (build PRF hashF_raw hashH_raw).
Local Abbreviation createSignatureBody := (createSignatureBody PRF hashF_raw).
Local Abbreviation Sign := (Sign PRF hashF_raw hashH_raw hashMsg_raw).

Context {priv : PrivateKey} {layer tree : Z}.

Local Abbreviation pubPRF := (newPRF (publicSeed (priv_pub priv))).
Local Abbreviation leafOf := (@leafOf PRF hashF_raw hashH_raw priv layer tree).
Local Abbreviation hash_addr := (@hash_addr layer tree).
Local Abbreviation node_hash := (@node_hash PRF hashH_raw priv layer tree).
Local Abbreviation tree_node := (@tree_node PRF hashF_raw hashH_raw priv layer tree).
Variable H : nat.
Local Abbreviation sign_all := (sign_all PRF hashF_raw hashH_raw hashMsg_raw).
Local Abbreviation key_with := (@key_with priv).
Local Abbreviation Inv := (@Inv PRF hashF_raw hashH_raw priv layer tree H).
Local Abbreviation auth_ok := (@auth_ok PRF hashF_raw hashH_raw priv layer tree H).
Local Abbreviation tree_len := (@length_tree_node PRF hashF_raw hashH_raw priv layer tree).

(** The loop of [rootFromSig] climbs from node [idx] of height [k] along its
    authentication path. *)
Lemma rootFromSig_loop_path (au : list bytes) :
  forall (k : nat) (idx : Z) (node0 : bytes) (a : addr),
    0 <= idx -> (k + length au <= 32)%nat -> base_eq a hash_addr ->
    node0 = tree_node k idx ->
    (forall j, (j < length au)%nat ->
               au !! j = Some (tree_node (k + j) (Z.lxor (idx / 2 ^ Z.of_nat j) 1))) ->
    rootFromSig_loop (Z.of_nat k) idx node0 au pubPRF a
    = tree_node (k + length au) (idx / 2 ^ Z.of_nat (length au)).
Proof.
  induction au as [|a0 rest IH]; intros k idx node0 a Hidx Hk Ha Hn Hau.
  - cbn [rootFromSig_loop length]. rewrite Nat.add_0_r. change (2 ^ Z.of_nat 0) with 1.
    now rewrite Z.div_1_r.
  - cbn [rootFromSig_loop length] in *.
    assert (Ea0 : a0 = tree_node k (Z.lxor idx 1)).
    { pose proof (Hau 0%nat ltac:(lia)) as E0. cbn in E0.
      rewrite Z.div_1_r, Nat.add_0_r in E0. congruence. }
    assert (Hsh : Z.shiftr idx 1 = idx / 2) by (rewrite Z.shiftr_div_pow2 by lia; reflexivity).
    rewrite Hsh, Z_land_1.
    pose proof (Z.div_mod idx 2 ltac:(lia)) as Hdm.
    pose proof (Z.mod_pos_bound idx 2 ltac:(lia)) as Hmb.
    assert (Hpar : (if idx mod 2 =? 0
                    then randHash node0 a0 pubPRF (set adrIndex (idx / 2) (set adrHeight (Z.of_nat k) a))
                    else randHash a0 node0 pubPRF (set adrIndex (idx / 2) (set adrHeight (Z.of_nat k) a)))
                   = (tree_node (S k) (idx / 2),
                      snd (if idx mod 2 =? 0
                           then randHash node0 a0 pubPRF (set adrIndex (idx / 2) (set adrHeight (Z.of_nat k) a))
                           else randHash a0 node0 pubPRF (set adrIndex (idx / 2) (set adrHeight (Z.of_nat k) a))))
                   /\ base_eq (snd (if idx mod 2 =? 0
                           then randHash node0 a0 pubPRF (set adrIndex (idx / 2) (set adrHeight (Z.of_nat k) a))
                           else randHash a0 node0 pubPRF (set adrIndex (idx / 2) (set adrHeight (Z.of_nat k) a))))
                        hash_addr).
    { rewrite tree_node_S. unfold node_hash.
      destruct (Z.eqb_spec (idx mod 2) 0) as [Ev|Ev].
      - assert (Z.even idx = true) by (rewrite Zeven_mod, Ev; reflexivity).
        rewrite lxor_1_even in Ea0 by assumption.
        destruct (randHash_base (PRF:=PRF) (hashH_raw:=hashH_raw) node0 a0 pubPRF (Z.of_nat k)
                    (idx / 2) a hash_addr Ha) as [F1 F2].
        split; [|exact F2].
        rewrite (surjective_pairing (randHash node0 a0 pubPRF _)) at 1. f_equal.
        rewrite F1, Hn, Ea0. do 2 f_equal; f_equal; lia.
      - assert (Z.even idx = false) by (rewrite Zeven_mod; destruct (Z.eqb_spec (idx mod 2) 0); [lia|reflexivity]).
        rewrite lxor_1_odd in Ea0 by assumption.
        destruct (randHash_base (PRF:=PRF) (hashH_raw:=hashH_raw) a0 node0 pubPRF (Z.of_nat k)
                    (idx / 2) a hash_addr Ha) as [F1 F2].
        split; [|exact F2].
        rewrite (surjective_pairing (randHash a0 node0 pubPRF _)) at 1. f_equal.
        rewrite F1, Hn, Ea0. do 2 f_equal; f_equal; lia. }
    destruct Hpar as [Ep Hb]. rewrite Ep.
    rewrite (u32_small (Z.of_nat k + 1)) by lia.
    replace (Z.of_nat k + 1) with (Z.of_nat (S k)) by lia.
    rewrite IH; [|apply Z.div_pos; lia|lia|exact Hb|reflexivity|].
    + rewrite Nat.add_succ_r. cbn [Nat.add]. f_equal.
      rewrite Nat2Z.inj_succ, Z.pow_succ_r by lia. rewrite Z.div_div by lia. reflexivity.
    + intros j Hj. pose proof (Hau (S j) ltac:(lia)) as E.
      change ((a0 :: rest) !! S j) with (rest !! j) in E. rewrite E.
      rewrite Nat.add_succ_r. cbn [Nat.add]. do 3 f_equal.
      rewrite Nat2Z.inj_succ, Z.pow_succ_r by lia. rewrite Z.div_div by lia. reflexivity.
Qed.

(** The address of the one-time key of leaf [i]. *)
Definition ots_addr (i : Z) : addr := set adrOTS i (setTree tree (set adrLayer layer make_addr)).

Lemma leafOf_ltree (i : Z) :
  exists a', ltree (newWotsPubKey (newWotsPrivKey (wotsPRF priv) (ots_addr i)) pubPRF (ots_addr i))
               pubPRF (set adrLtree i (set adrType 1 (ots_addr i)))
             = Ok (leafOf i, a')
             /\ base_eq a' (set adrLtree i (set adrType 1 (ots_addr i))).
Proof.
  unfold leafOf. fold (ots_addr i).
  set (pk := newWotsPubKey (newWotsPrivKey (wotsPRF priv) (ots_addr i)) pubPRF (ots_addr i)).
  set (a := set adrLtree i (set adrType 1 (ots_addr i))).
  destruct (ltree_ok (PRF:=PRF) (hashH_raw:=hashH_raw) pubPRF pk a) as (nn & a' & E).
  { subst pk. now rewrite length_newWotsPubKey, length_newWotsPrivKey. }
  rewrite E. destruct (ltree_frame pk pubPRF a nn a' E) as [Ln Hb].
  { subst pk. apply Forall_newWotsPubKey, Forall_newWotsPrivKey. }
  exists a'. split; [|exact Hb]. do 2 f_equal. symmetry. apply (fit32_id nn Ln).
Qed.

(** The signature body of leaf [L] leads to the root of the tree. *)
Lemma rootFromSig_honest (L : Z) (hmsg : bytes) (au : list bytes) :
  (H <= 32)%nat -> 0 <= L < 2 ^ Z.of_nat H -> length au = H -> auth_ok L au ->
  rootFromSig L hmsg
    (mkSigBody (wots_sign (newWotsPrivKey (wotsPRF priv) (ots_addr L)) hmsg pubPRF (ots_addr L)) au)
    pubPRF layer tree
  = Ok (tree_node H 0).
Proof.
  intros HH HL Hlen Hau. unfold rootFromSig. cbn [body_sig body_auth].
  fold (ots_addr L). rewrite wots_roundtrip.
  destruct (leafOf_ltree L) as (a' & E & Hb). rewrite E. cbn [rbind]. f_equal.
  change (rootFromSig_loop 0) with (rootFromSig_loop (Z.of_nat 0)).
  rewrite (rootFromSig_loop_path au 0 L (leafOf L) (set adrLtree 0 (set adrType 2 a'))).
  - rewrite Hlen. cbn [Nat.add]. f_equal. apply Z.div_small. lia.
  - lia.
  - lia.
  - destruct Hb as (B1 & B2 & B3 & B4 & B5). destruct a'. unfold base_eq, hash_addr, ots_addr, set, setTree in *.
    cbn in *. subst. auto.
  - reflexivity.
  - intros j Hj. cbn [Nat.add]. apply Hau; lia.
Qed.

(** The bytes of the signature of leaf [L] on [msg], for a key whose root is
    [rt]. *)
Definition sig_rr (L : Z) (rt : bytes) : bytes :=
  sum (msgPRF priv) (zeros 28 ++ be32 L) ++ rt ++ zeros 28 ++ be32 L.

Definition sig_of (L : Z) (rt : bytes) (au : list bytes) (msg : bytes) : bytes :=
  be32 L ++ sum (msgPRF priv) (zeros 28 ++ be32 L)
  ++ concat (wots_sign (newWotsPrivKey (wotsPRF priv) (ots_addr (u32 L)))
               (hashMsg (sig_rr L rt) msg) pubPRF (ots_addr (u32 L)))
  ++ concat au.

Lemma idx32 (v : Z) : copy_at 28 (be32 v) (zeros 32) = zeros 28 ++ be32 v.
Proof.
  change (zeros 32) with (zeros (28 + 4)). rewrite zeros_add.
  rewrite <- (app_nil_r (zeros 4)).
  rewrite (copy_at_mid 28 (be32 v) (zeros 28) (zeros 4) []) by reflexivity.
  now rewrite app_nil_r.
Qed.

Lemma Sign_ok (L : Z) (rt : bytes) (mk : merkle) (msg : bytes) :
  (1 <= H <= 32)%nat -> length rt = 32%nat -> Inv L mk ->
  exists mk',
    Sign (key_with rt mk) msg = Ok (sig_of L rt (m_auth mk) msg, key_with rt mk')
    /\ Inv (L + 1) mk'.
Proof.
  intros HH Hrt HI.
  destruct (traverse_ok (PRF:=PRF) (hashF_raw:=hashF_raw) (hashH_raw:=hashH_raw) H L rt mk HH HI)
    as (mk' & Etr & HI').
  destruct HI as (HL & Elf & Eh & Ely & Etree & Hla & Hba & _).
  exists mk'. split; [|exact HI'].
  unfold Sign. cbn [key_with priv_m of_option rbind priv_pub msgPRF wotsPRF set_root root].
  rewrite Elf. rewrite (sign_rr _ rt (u32 L)) by (unfold sum; rewrite ?length_fit32; auto).
  rewrite idx32, !be32_u32. fold (sig_rr L rt).
  unfold createSignatureBody. cbn [priv_pub set_root publicSeed wotsPRF].
  rewrite Ely, Etree, Elf. fold (ots_addr (u32 L)).
  rewrite sig_bytes_layout.
  - cbn [rbind]. fold (key_with rt mk). rewrite Etr. cbn [rbind].
    unfold sig_of, sig_rr. rewrite be32_u32.
    rewrite take_app_length' by (unfold sum; now rewrite length_fit32). reflexivity.
  - unfold block32. rewrite length_take. unfold sig_rr. rewrite !length_app.
    unfold sum. rewrite length_fit32. lia.
  - now rewrite length_wots_sign, length_newWotsPrivKey.
  - apply Forall_wots_sign, Forall_newWotsPrivKey.
  - exact Hba.
Qed.

Lemma length_sig_of (L : Z) (rt : bytes) (au : list bytes) (msg : bytes) :
  Forall block32 au ->
  Z.of_nat (length (sig_of L rt au msg)) = 4 + 32 * (68 + Z.of_nat (length au)).
Proof.
  intros Hau. unfold sig_of. rewrite !length_app, !length_concat_blocks; auto.
  - rewrite length_wots_sign, length_newWotsPrivKey, length_be32. unfold sum.
    rewrite length_fit32. unfold wlen. lia.
  - apply Forall_wots_sign, Forall_newWotsPrivKey.
Qed.

(** A signature made in a state that satisfies the invariant verifies, as
    long as its leaf is in the tree; so it does with up to 31 more bytes
    behind it. *)
Lemma Verify_sig_of_extra (L : Z) (au : list bytes) (msg extra : bytes) :
  layer = 0 -> tree = 0 -> (1 <= H <= 32)%nat -> 0 <= L < 2 ^ Z.of_nat H ->
  length au = H -> Forall block32 au -> auth_ok L au -> (length extra < 32)%nat ->
  Verify (mkPublicKey (mkParams (Z.of_nat H)) (publicSeed (priv_pub priv)) (tree_node H 0))
    (sig_of L (tree_node H 0) au msg ++ extra) msg
  = Ok true.
Proof.
  intros El Et HH HL Hlen Hb Hau Hex. unfold Verify. cbn [pub_params Height publicSeed root].
  assert (HLs : 0 <= L < 2 ^ 32).
  { assert (2 ^ Z.of_nat H <= 2 ^ 32) by (apply Z.pow_le_mono_r; lia). lia. }
  unfold sig_of. rewrite (u32_small L HLs).
  rewrite (Z.mod_small (Z.of_nat H) 256) by lia.
  rewrite <- !app_assoc.
  rewrite bytes2sig_layout;
    [|unfold block32, sum; apply length_fit32
     |now rewrite length_wots_sign, length_newWotsPrivKey
     |apply Forall_wots_sign, Forall_newWotsPrivKey
     |exact Hb|exact Hex|lia].
  cbn [sig_r sig_index sig_body].
  rewrite (verify_rr _ (tree_node H 0) (u32 L)) by (unfold sum; rewrite ?length_fit32, ?tree_len; auto).
  rewrite (u32_small L HLs). fold (sig_rr L (tree_node H 0)).
  pose proof (rootFromSig_honest L (hashMsg (sig_rr L (tree_node H 0)) msg) au
                ltac:(lia) HL Hlen Hau) as E.
  match goal with |- context [rootFromSig ?i ?hm ?bd ?p 0 0] =>
    replace (rootFromSig i hm bd p 0 0) with (rootFromSig i hm bd p layer tree)
      by (f_equal; assumption) end.
  rewrite E. cbn [rbind]. f_equal.
  unfold bytes_eqb. now apply bool_decide_eq_true_2.
Qed.

Lemma Verify_sig_of (L : Z) (au : list bytes) (msg : bytes) :
  layer = 0 -> tree = 0 -> (1 <= H <= 32)%nat -> 0 <= L < 2 ^ Z.of_nat H ->
  length au = H -> Forall block32 au -> auth_ok L au ->
  Verify (mkPublicKey (mkParams (Z.of_nat H)) (publicSeed (priv_pub priv)) (tree_node H 0))
    (sig_of L (tree_node H 0) au msg) msg
  = Ok true.
Proof.
  intros El Et HH HL Hlen Hb Hau.
  rewrite <- (app_nil_r (sig_of L (tree_node H 0) au msg)).
  apply Verify_sig_of_extra; auto. cbn. lia.
Qed.

(** What the signatures of a list of messages are. *)
Lemma sign_all_ok (rt : bytes) (msgs : list bytes) :
  (1 <= H <= 32)%nat -> length rt = 32%nat ->
  forall (L : Z) (mk : merkle),
    Inv L mk ->
    exists sigs mk',
      sign_all (key_with rt mk) msgs = Ok (sigs, key_with rt mk') /\
      Inv (L + Z.of_nat (length msgs)) mk' /\
      length sigs = length msgs /\
      forall j m, msgs !! j = Some m ->
                  exists au, sigs !! j = Some (sig_of (L + Z.of_nat j) rt au m) /\
                             length au = H /\ Forall block32 au /\
                             auth_ok (L + Z.of_nat j) au.
Proof.
  intros HH Hrt. induction msgs as [|m rest IH]; intros L mk HI; cbn [sign_all length].
  - exists [], mk. split; [reflexivity|]. rewrite Z.add_0_r. split; [exact HI|].
    split; [reflexivity|]. intros j m0 E. discriminate.
  - destruct (Sign_ok L rt mk m HH Hrt HI) as (mk1 & E1 & HI1).
    rewrite E1. cbn [rbind].
    destruct (IH (L + 1) mk1 HI1) as (sigs & mk' & E & HI' & Hlen & Hsig).
    rewrite E. cbn [rbind]. exists (sig_of L rt (m_auth mk) m :: sigs), mk'.
    split; [reflexivity|].
    split; [now replace (L + Z.of_nat (S (length rest))) with (L + 1 + Z.of_nat (length rest)) by lia|].
    split; [cbn; now rewrite Hlen|].
    intros [|j] m0 Ej.
    + cbn in Ej. inversion Ej; subst m0. exists (m_auth mk).
      change (Z.of_nat 0) with 0. rewrite Z.add_0_r. split; [reflexivity|].
      destruct HI as (_ & _ & _ & _ & _ & Hla & Hba & _ & _ & Hau). auto.
    + destruct (Hsig j m0 Ej) as (au & Es & R). exists au.
      replace (L + Z.of_nat (S j)) with (L + 1 + Z.of_nat j) by lia. split; [exact Es|exact R].
Qed.

End SignVerify.

(** * Key generation, then signatures *)

Section KeyGen.
Context {PRF hashF_raw : bytes -> bytes -> bytes}
        {hashH_raw : bytes -> bytes -> bytes -> bytes}
        {hashMsg_raw hmac_sha256 : bytes -> bytes -> bytes}.

Local Abbreviation Verify := (Verify PRF hashF_raw hashH_raw hashMsg_raw).
Local Abbreviation initMerkle := (initMerkle PRF hashF_raw hashH_raw).
Local Abbreviation NewXMSSKeyPairWithParams := (NewXMSSKeyPairWithParams PRF hashF_raw hashH_raw).
Local Abbreviation NewXMSSKeyPair := (NewXMSSKeyPair PRF hashF_raw hashH_raw hmac_sha256).
Local Abbreviation sign_all := (sign_all PRF hashF_raw hashH_raw hashMsg_raw).

(** The private key that [NewXMSSKeyPair] hands to [initMerkle]. *)
Definition base_key (H : nat) (seed : bytes) : PrivateKey :=
  mkPrivateKey
    (mkPublicKey (mkParams (Z.of_nat H)) (hmac_sha256 seed [x03]) (zeros 32))
    (newPRF (hmac_sha256 seed [x02])) (newPRF (hmac_sha256 seed [x01])) None.

(** The root of the tree of that key. *)
Definition root_of (H : nat) (seed : bytes) : bytes :=
  tree_node (PRF:=PRF) (hashF_raw:=hashF_raw) (hashH_raw:=hashH_raw)
    (priv:=base_key H seed) (layer:=0) (tree:=0) H 0.

(** The public key of the pair. *)
Definition pub_of (H : nat) (seed : bytes) : PublicKey :=
  mkPublicKey (mkParams (Z.of_nat H)) (hmac_sha256 seed [x03]) (root_of H seed).

(** The private key of the pair, before its first signature. *)
Definition priv_of (H : nat) (seed : bytes) : PrivateKey :=
  key_with (priv:=base_key H seed) (root_of H seed)
    (merkle0 (PRF:=PRF) (hashF_raw:=hashF_raw) (hashH_raw:=hashH_raw)
       (priv:=base_key H seed) (layer:=0) (tree:=0) H).

Lemma NewXMSSKeyPair_ok (ncpu : Z) (H : nat) (seed : bytes) :
  (1 <= H <= 32)%nat ->
  NewXMSSKeyPair ncpu (Z.of_nat H) seed = Ok (priv_of H seed, pub_of H seed).
Proof.
  intros HH. unfold NewXMSSKeyPair, NewXMSSKeyPairWithParams. fold (base_key H seed).
  rewrite (initMerkle_ok (PRF:=PRF) (hashF_raw:=hashF_raw) (hashH_raw:=hashH_raw)
             (priv:=base_key H seed) (layer:=0) (tree:=0) ncpu H HH)
    by (cbn; apply length_zeros).
  cbn [rbind]. reflexivity.
Qed.

Lemma length_root_of (H : nat) (seed : bytes) : length (root_of H seed) = 32%nat.
Proof. apply length_tree_node. Qed.

(** A new key signs any list of messages; the signatures of the first [2^H]
    messages verify. *)
Lemma keygen_sign_all (H : nat) (seed : bytes) (msgs : list bytes) :
  (1 <= H <= 32)%nat ->
  exists sigs priv',
    sign_all (priv_of H seed) msgs = Ok (sigs, priv') /\
    length sigs = length msgs /\
    (exists mk', priv_m priv' = Some mk' /\ m_leaf mk' = u32 (Z.of_nat (length msgs))) /\
    forall j sg m, sigs !! j = Some sg -> msgs !! j = Some m ->
      Z.of_nat (length sg) = 4 + 32 * (68 + Z.of_nat H) /\
      take 4 sg = be32 (Z.of_nat j) /\
      (Z.of_nat j < 2 ^ Z.of_nat H -> Verify (pub_of H seed) sg m = Ok true).
Proof.
  intros HH. unfold priv_of.
  destruct (sign_all_ok (PRF:=PRF) (hashF_raw:=hashF_raw) (hashH_raw:=hashH_raw)
              (hashMsg_raw:=hashMsg_raw) (priv:=base_key H seed) (layer:=0) (tree:=0)
              H (root_of H seed) msgs HH (length_root_of H seed) 0 _
              (Inv_merkle0 (PRF:=PRF) (hashF_raw:=hashF_raw) (hashH_raw:=hashH_raw)
                 (priv:=base_key H seed) (layer:=0) (tree:=0) H HH))
    as (sigs & mk' & E & HI & Hlen & Hsig).
  exists sigs, (key_with (priv:=base_key H seed) (root_of H seed) mk').
  split; [exact E|]. split; [exact Hlen|]. split.
  { exists mk'. split; [reflexivity|]. destruct HI as (_ & Elf & _). exact Elf. }
  intros j sg m Es Em. destruct (Hsig j m Em) as (au & Es' & Hla & Hba & Hau).
  pose proof (eq_trans (eq_sym Es) Es') as Esg. inversion Esg; subst sg. clear Es' Esg.
  cbn [Z.add] in *.
  split; [|split].
  - rewrite length_sig_of by exact Hba. now rewrite Hla.
  - unfold sig_of. reflexivity.
  - intros Hj.
    apply (Verify_sig_of (PRF:=PRF) (hashF_raw:=hashF_raw) (hashH_raw:=hashH_raw)
             (hashMsg_raw:=hashMsg_raw) (priv:=base_key H seed) (layer:=0) (tree:=0) H
             (Z.of_nat j) au m); auto. lia.
Qed.

End KeyGen.

(** * The rounds of build *)

(** [n] rounds of the scheduler lead from [st] to [st'] and make [c]
    elementary steps: a round makes a step of the stack in focus, or does
    nothing when every stack is done. *)
Section Rounds.
Variable step_of : stack -> stack.

Inductive rounds : nat -> list stack -> list stack -> Z -> Prop :=
| rounds_end st : rounds 0 st st 0
| rounds_step n st f s st' c :
    st !! f = Some s -> is_focus st (low s) f ->
    rounds n (<[f := step_of s]> st) st' c ->
    rounds (S n) st st' (1 + c)
| rounds_idle n st st' c :
    (forall i s, st !! i = Some s -> done s = true) ->
    rounds n st st' c ->
    rounds (S n) st st' c.

Lemma rounds_count (n : nat) (st st' : list stack) (c : Z) :
  rounds n st st' c -> 0 <= c <= Z.of_nat n.
Proof. induction 1; lia. Qed.

End Rounds.

Section Build.
Context {PRF hashF_raw : bytes -> bytes -> bytes}
        {hashH_raw : bytes -> bytes -> bytes -> bytes}
        {hashMsg_raw hmac_sha256 : bytes -> bytes -> bytes}.

Local Abbreviation goUpdate := (goUpdate PRF hashF_raw hashH_raw).
Local Abbreviation build_round := (build_round PRF hashF_raw hashH_raw).
Local Abbreviation build_loop := (build_loop PRF hashF_raw hashH_raw).
Local Abbreviation build := (build PRF hashF_raw hashH_raw).
Local Abbreviation build_round_count := (build_round_count PRF hashF_raw hashH_raw).
Local Abbreviation build_loop_count := (build_loop_count PRF hashF_raw hashH_raw).

Context {priv : PrivateKey} {layer tree : Z}.

Local Abbreviation step := (@step PRF hashF_raw hashH_raw priv layer tree).
Local Abbreviation steps := (@steps PRF hashF_raw hashH_raw priv layer tree).
Local Abbreviation key_with := (@key_with priv).

(** Every stack works on the tree of the key. *)
Definition lt_ok (stacks : list stack) : Prop :=
  forall i s, stacks !! i = Some s -> st_layer s = layer /\ st_tree s = tree.

Lemma goUpdate_1 (s : stack) :
  st_layer s = layer -> st_tree s = tree ->
  goUpdate 1 priv s = Ok (if done s then s else step s).
Proof.
  intros El Et. rewrite (goUpdate_spec (layer:=layer) (tree:=tree) 1 s El Et).
  change (Z.to_nat 1) with 1%nat. now rewrite steps_1.
Qed.

Lemma lt_ok_insert (stacks : list stack) (f : nat) (s : stack) :
  lt_ok stacks -> st_layer s = layer -> st_tree s = tree -> lt_ok (<[f := s]> stacks).
Proof.
  intros Hlt El Et i s' Ei. destruct (Nat.eq_dec i f) as [->|Hne].
  - assert (Hf : (f < length stacks)%nat).
    { apply lookup_lt_Some in Ei. now rewrite length_insert in Ei. }
    rewrite list_lookup_insert_eq in Ei by exact Hf. inversion Ei; subst. auto.
  - rewrite list_lookup_insert_ne in Ei by auto. eauto.
Qed.

(** One round of [build], whatever the state: the stack served is the one
    in focus, or stack 0 when no stack asks for work. *)
Lemma build_round_gen (rt : bytes) (mk0 mk : merkle) :
  m_height mk = Z.of_nat (length (m_stacks mk)) -> (0 < length (m_stacks mk))%nat ->
  lt_ok (m_stacks mk) ->
  exists f s,
    m_stacks mk !! f = Some s /\
    build_round_count (key_with rt mk0) mk
    = Ok (set_stacks mk (<[f := if done s then s else step s]> (m_stacks mk)),
          updateSub_rounds 1 s) /\
    build_round (key_with rt mk0) mk
    = Ok (set_stacks mk (<[f := if done s then s else step s]> (m_stacks mk))) /\
    (is_focus (m_stacks mk) (low s) f \/
     (f = 0%nat /\ forall i s', m_stacks mk !! i = Some s' -> MaxUint32 <= low s')).
Proof.
  intros Eh Hpos Hlt. unfold build_round_count, build_round.
  destruct (find_focus_all (m_stacks mk)) as (mn & focus & E & Hcase).
  rewrite Eh, Nat2Z.id, E. cbn [rbind].
  destruct Hcase as [(-> & -> & Hall)|(f & -> & Hfoc)].
  - destruct (lookup_lt_is_Some_2 (m_stacks mk) 0%nat Hpos) as [s0 E0].
    change (Z.to_nat 0) with 0%nat. rewrite E0. cbn [of_option rbind].
    destruct (Hlt 0%nat s0 E0) as [El Et].
    rewrite goUpdate_key, (goUpdate_1 s0 El Et). cbn [rbind].
    exists 0%nat, s0. repeat split; auto.
  - pose proof Hfoc as (sf & Ef & Hlow & Hmn & Hall & Hbefore).
    rewrite Nat2Z.id, Ef. cbn [of_option rbind].
    destruct (Hlt f sf Ef) as [El Et].
    rewrite goUpdate_key, (goUpdate_1 sf El Et). cbn [rbind].
    exists f, sf. repeat split; auto. left. now rewrite Hlow.
Qed.

Lemma step_lt (s : stack) :
  st_layer s = layer -> st_tree s = tree ->
  st_layer (if done s then s else step s) = layer /\
  st_tree (if done s then s else step s) = tree.
Proof.
  intros El Et. destruct (done s); [auto|]. now rewrite step_layer, step_tree.
Qed.

(** [build] returns, whatever the state. *)
Lemma build_loop_total (rt : bytes) (mk0 : merkle) (fuel : nat) :
  forall mk,
    m_height mk = Z.of_nat (length (m_stacks mk)) -> (0 < length (m_stacks mk))%nat ->
    lt_ok (m_stacks mk) ->
    exists stacks',
      build_loop fuel (key_with rt mk0) mk = Ok (set_stacks mk stacks') /\
      length stacks' = length (m_stacks mk) /\ lt_ok stacks'.
Proof.
  induction fuel as [|fu IH]; intros mk Eh Hpos Hlt; cbn [build_loop].
  - exists (m_stacks mk). split; [now destruct mk|]. auto.
  - destruct (build_round_gen rt mk0 mk Eh Hpos Hlt) as (f & s & Es & _ & E & _).
    rewrite E. cbn [rbind].
    destruct (Hlt f s Es) as [El Et]. destruct (step_lt s El Et) as [El' Et'].
    destruct (IH (set_stacks mk (<[f := if done s then s else step s]> (m_stacks mk))))
      as (st' & E' & Hlen & Hlt').
    + cbn. now rewrite length_insert.
    + cbn. now rewrite length_insert.
    + cbn. now apply lt_ok_insert.
    + rewrite E'. cbn in *. exists st'. split; [reflexivity|].
      rewrite length_insert in Hlen. auto.
Qed.

Section Valid.
Variable H : nat.
Local Abbreviation valid_stacks := (@valid_stacks PRF hashF_raw hashH_raw priv layer tree H).

Lemma valid_lt_ok (stacks : list stack) : valid_stacks stacks -> lt_ok stacks.
Proof.
  intros [_ Hv] i s Ei. destruct (Hv i s Ei) as [start HT].
  destruct (TS_facts _ _ _ HT) as (_ & _ & _ & El & Et). auto.
Qed.

(** On the states of a key, the rounds of [build] are those of the
    scheduler, and the counter counts their steps. *)
Lemma build_loop_rounds (rt : bytes) (mk0 : merkle) (fuel : nat) :
  forall mk,
    (1 <= H)%nat -> m_height mk = Z.of_nat H -> valid_stacks (m_stacks mk) ->
    exists stacks' c,
      build_loop_count fuel (key_with rt mk0) mk = Ok (set_stacks mk stacks', c) /\
      build_loop fuel (key_with rt mk0) mk = Ok (set_stacks mk stacks') /\
      valid_stacks stacks' /\
      rounds step fuel (m_stacks mk) stacks' c.
Proof.
  induction fuel as [|fu IH]; intros mk HH Eh Hval; cbn [build_loop build_loop_count].
  - exists (m_stacks mk), 0. destruct mk; cbn. repeat split; auto; try apply Hval. constructor.
  - assert (Hlen : length (m_stacks mk) = H) by apply Hval.
    destruct (build_round_gen rt mk0 mk) as (f & s & Es & Ec & E & Hcase);
      [rewrite Hlen; exact Eh|lia|now apply valid_lt_ok|].
    rewrite Ec, E. cbn [rbind].
    destruct (proj2 Hval f s Es) as [start HT].
    destruct (TS_facts _ _ _ HT) as (Ek & Hsh & Hk & El & Et).
    destruct Hcase as [Hfoc|[-> Hall]].
    + assert (Hd : done s = false).
      { destruct (done s) eqn:Hd; [|reflexivity]. destruct Hfoc as (s' & Es' & Hl & Hm & _).
        rewrite (low_done s Hd) in Hm. lia. }
      unfold updateSub_rounds. rewrite Hd.
      destruct (IH (set_stacks mk (<[f := step s]> (m_stacks mk))) HH Eh)
        as (st' & c & Ec' & E' & Hval' & Hr).
      { cbn. now apply valid_step. }
      rewrite Ec', E'. cbn [rbind]. cbn in *. exists st', (1 + c).
      repeat split; auto; try apply Hval'. econstructor 2; eauto.
    + assert (Hdone : forall i s', m_stacks mk !! i = Some s' -> done s' = true).
      { intros i s' Ei. destruct (done s') eqn:Hd; [reflexivity|exfalso].
        destruct (proj2 Hval i s' Ei) as [start' HT'].
        destruct (TS_facts _ _ _ HT') as (Ek' & Hsh' & Hk' & _ & _).
        pose proof (low_le _ s' Hk' Ek' Hsh' Hd). specialize (Hall i s' Ei).
        unfold MaxUint32 in Hall. lia. }
      unfold updateSub_rounds. rewrite (Hdone 0%nat s Es).
      rewrite (list_insert_id _ _ _ Es).
      destruct (IH (set_stacks mk (m_stacks mk)) HH Eh Hval) as (st' & c & Ec' & E' & Hval' & Hr).
      rewrite Ec', E'. cbn [rbind]. cbn in *. exists st', c.
      repeat split; auto; try apply Hval'. now constructor 3.
Qed.

End Valid.

End Build.

(** * What every call of Sign returns *)

Lemma take4_copy_at (off : nat) (src dst : bytes) :
  (4 <= off)%nat -> (4 <= length dst)%nat -> take 4 (copy_at off src dst) = take 4 dst.
Proof.
  intros Ho Hd. unfold copy_at. rewrite take_app_le by (rewrite length_take; lia).
  rewrite take_take. f_equal. lia.
Qed.

Lemma take4_sig_bytes (x : xmssSig) (b : bytes) :
  sig_bytes x = Ok b -> take 4 b = be32 (sig_index x).
Proof.
  unfold sig_bytes.
  set (N := Z.to_nat (4 + n + wlen * n + Z.of_nat (length (body_auth (sig_body x))) * n)).
  assert (HN : (4 <= N)%nat) by (subst N; unfold n, wlen; lia).
  unfold copy_to. rewrite !length_copy_at, length_zeros.
  destruct ((0 <=? 4) && (4 <=? Z.of_nat N)); [|discriminate].
  cbn [rbind]. destruct (sigBody_bytes (sig_body x)) as [sb| |]; try discriminate.
  cbn [rbind]. rewrite !length_copy_at, length_zeros.
  destruct ((0 <=? 4 + n) && (4 + n <=? Z.of_nat N)); [|discriminate].
  intros E. inversion E; subst b. clear E.
  rewrite take4_copy_at by (rewrite ?length_copy_at, ?length_zeros; unfold n; lia).
  rewrite take4_copy_at by (rewrite ?length_copy_at, ?length_zeros; lia).
  unfold copy_at. rewrite take_0, app_nil_l, length_zeros, Nat.sub_0_r.
  rewrite (take_ge (be32 (sig_index x))) by (rewrite length_be32; lia).
  now rewrite take_app_length' by reflexivity.
Qed.

Lemma Uint32_take4 (b : bytes) (v : Z) : take 4 b = be32 v -> Uint32 b = Ok (u32 v).
Proof.
  intros E. rewrite <- (take_drop 4 b), E. apply Uint32_be32.
Qed.

Section SignGeneral.
Context {PRF hashF_raw : bytes -> bytes -> bytes}
        {hashH_raw : bytes -> bytes -> bytes -> bytes}
        {hashMsg_raw hmac_sha256 : bytes -> bytes -> bytes}.

Local Abbreviation update := (update PRF hashF_raw hashH_raw).
Local Abbreviation goUpdate := (goUpdate PRF hashF_raw hashH_raw).
Local Abbreviation workers := (workers PRF hashF_raw hashH_raw).
Local Abbreviation initMerkle_loop := (initMerkle_loop PRF hashF_raw hashH_raw).
Local Abbreviation initMerkle := (initMerkle PRF hashF_raw hashH_raw).
Local Abbreviation build_round := (build_round PRF hashF_raw hashH_raw).
Local Abbreviation build_loop := (build_loop PRF hashF_raw hashH_raw).
Local Abbreviation build := (build PRF hashF_raw hashH_raw).
Local Abbreviation traverse := (traverse PRF hashF_raw hashH_raw).
Local Abbreviation NewXMSSKeyPairWithParams := (NewXMSSKeyPairWithParams PRF hashF_raw hashH_raw).
Local Abbreviation NewXMSSKeyPair := (NewXMSSKeyPair PRF hashF_raw hashH_raw hmac_sha256).
Local Abbreviation createSignatureBody := (createSignatureBody PRF hashF_raw).
Local Abbreviation Sign := (Sign PRF hashF_raw hashH_raw hashMsg_raw).
Local Abbreviation sign_all := (sign_all PRF hashF_raw hashH_raw hashMsg_raw).

Lemma build_round_leaf (priv : PrivateKey) (mk mk' : merkle) :
  build_round priv mk = Ok mk' -> m_leaf mk' = m_leaf mk.
Proof.
  unfold build_round.
  destruct (find_focus _ _ _ _ _) as [[mn focus]| |]; try discriminate. cbn [rbind].
  destruct (m_stacks mk !! Z.to_nat focus) as [s|]; [|discriminate]. cbn [of_option rbind].
  destruct (goUpdate 1 priv s) as [s'| |]; try discriminate. cbn [rbind].
  intros E. inversion E. reflexivity.
Qed.

Lemma build_loop_leaf (priv : PrivateKey) (fuel : nat) :
  forall mk mk', build_loop fuel priv mk = Ok mk' -> m_leaf mk' = m_leaf mk.
Proof.
  induction fuel as [|f IH]; intros mk mk' E; cbn [build_loop] in E.
  - now inversion E.
  - destruct (build_round priv mk) as [mk1| |] eqn:E1; try discriminate.
    cbn [rbind] in E. rewrite (IH _ _ E). exact (build_round_leaf priv mk mk1 E1).
Qed.

Lemma traverse_leaf (priv priv' : PrivateKey) (mk : merkle) :
  priv_m priv = Some mk -> traverse priv = Ok priv' ->
  exists mk', priv_m priv' = Some mk' /\ m_leaf mk' = u32 (m_leaf mk + 1).
Proof.
  intros Em. unfold traverse. rewrite Em. cbn [of_option rbind].
  unfold refreshAuth.
  destruct (refreshAuth_loop (Z.to_nat (m_height mk)) 0 mk) as [mk1| |] eqn:E1; try discriminate.
  cbn [rbind].
  destruct (build priv mk1) as [mk2| |] eqn:E2; try discriminate. cbn [rbind].
  intros E. inversion E; subst priv'. clear E. eexists. split; [reflexivity|].
  cbn [m_leaf]. unfold build in E2. apply build_loop_leaf in E2. rewrite E2.
  change 0 with (Z.of_nat 0) in E1.
  destruct (refreshAuth_loop_spec _ _ _ _ E1) as [(F1 & _) _]. now rewrite F1.
Qed.

(** The first four bytes of a signature are the index of the leaf, and the
    key moves to the next leaf. *)
Lemma Sign_idx (priv priv' : PrivateKey) (mk : merkle) (msg sg : bytes) :
  priv_m priv = Some mk -> Sign priv msg = Ok (sg, priv') ->
  take 4 sg = be32 (m_leaf mk) /\
  exists mk', priv_m priv' = Some mk' /\ m_leaf mk' = u32 (m_leaf mk + 1).
Proof.
  intros Em. unfold Sign. rewrite Em. cbn [of_option rbind].
  match goal with |- context [sig_bytes ?x] => destruct (sig_bytes x) as [b| |] eqn:Eb end;
    try discriminate.
  cbn [rbind]. destruct (traverse priv) as [p1| |] eqn:Et; try discriminate.
  cbn [rbind]. intros E. inversion E; subst sg priv'. clear E. split.
  - apply take4_sig_bytes in Eb. exact Eb.
  - eapply traverse_leaf; eauto.
Qed.

(** Signature [j] of a run carries the index of the first leaf plus [j],
    as a [uint32]. *)
Lemma sign_all_idx (msgs : list bytes) :
  forall (priv priv' : PrivateKey) (mk : merkle) (sigs : list bytes),
    priv_m priv = Some mk -> sign_all priv msgs = Ok (sigs, priv') ->
    length sigs = length msgs /\
    forall j sg, sigs !! j = Some sg ->
                 take 4 sg = be32 (m_leaf mk + Z.of_nat j) /\
                 Uint32 sg = Ok (u32 (m_leaf mk + Z.of_nat j)).
Proof.
  induction msgs as [|m rest IH]; intros priv priv' mk sigs Em E; cbn [sign_all] in E.
  - inversion E; subst. split; [reflexivity|]. intros j sg Ej. discriminate.
  - destruct (Sign priv m) as [[sg0 p1]| |] eqn:E1; try discriminate. cbn [rbind] in E.
    destruct (sign_all p1 rest) as [[sgs p2]| |] eqn:E2; try discriminate. cbn [rbind] in E.
    inversion E; subst sigs priv'. clear E.
    destruct (Sign_idx priv p1 mk m sg0 Em E1) as (T0 & mk1 & Em1 & El1).
    destruct (IH p1 p2 mk1 sgs Em1 E2) as (Hlen & Hs).
    split; [cbn; now rewrite Hlen|].
    intros [|j] sg Ej.
    + pose proof (eq_trans (eq_sym Ej) (eq_refl : (sg0 :: sgs) !! 0%nat = Some sg0)) as X.
      inversion X; subst sg. change (Z.of_nat 0) with 0. rewrite Z.add_0_r.
      split; [exact T0|]. now apply Uint32_take4.
    + assert (Ej' : sgs !! j = Some sg) by exact Ej.
      destruct (Hs j sg Ej') as [T U]. rewrite El1 in T, U.
      rewrite u32_add_l in U.
      replace (m_leaf mk + Z.of_nat (S j)) with (m_leaf mk + 1 + Z.of_nat j) by lia.
      split; [|exact U].
      rewrite T. rewrite <- be32_u32, u32_add_l. apply be32_u32.
Qed.

(** A key pair, when key generation returns one, starts at leaf 0, and the
    height of its state is the one asked for. *)
Lemma NewXMSSKeyPair_fresh (ncpu h : Z) (seed : bytes) (priv : PrivateKey) (pub : PublicKey) :
  NewXMSSKeyPair ncpu h seed = Ok (priv, pub) ->
  exists mk, priv_m priv = Some mk /\ m_leaf mk = 0 /\ m_height mk = h.
Proof.
  unfold NewXMSSKeyPair, NewXMSSKeyPairWithParams, initMerkle.
  destruct (workers _ _ _ _ _ _ _) as [ntop| |]; try discriminate. cbn [rbind].
  destruct (initMerkle_loop _ _ _ _ _ _ _ _ _ _ _) as [[[s stacks] au]| |]; try discriminate.
  cbn [rbind]. destruct (update 1 _ s) as [s1| |]; try discriminate. cbn [rbind].
  destruct (top s1) as [t| |]; try discriminate. cbn [rbind].
  intros E. inversion E; subst. eexists. split; [reflexivity|]. split; reflexivity.
Qed.

(** The layout of the bytes returned by [Sign], for a state whose path
    nodes have 32 bytes. *)
Lemma Sign_layout (priv priv' : PrivateKey) (mk : merkle) (msg sg : bytes) :
  priv_m priv = Some mk -> Forall block32 (m_auth mk) ->
  Sign priv msg = Ok (sg, priv') ->
  exists (r : bytes) (ws : list bytes),
    sg = be32 (m_leaf mk) ++ r ++ concat ws ++ concat (m_auth mk) /\
    length r = 32%nat /\ length ws = 67%nat /\ Forall block32 ws /\
    Z.of_nat (length sg) = 4 + 32 * (68 + Z.of_nat (length (m_auth mk))).
Proof.
  intros Em Hau. unfold Sign. rewrite Em. cbn [of_option rbind].
  unfold createSignatureBody.
  match goal with |- context [sig_bytes (mkSig ?i ?r (mkSigBody ?ws ?au))] =>
    remember r as r0 eqn:Er; remember ws as ws0 eqn:Ews end.
  assert (Hr : length r0 = 32%nat).
  { subst r0. rewrite length_take, !length_copy_at, length_zeros. lia. }
  assert (Hw1 : length ws0 = 67%nat).
  { subst ws0. now rewrite length_wots_sign, length_newWotsPrivKey. }
  assert (Hw2 : Forall block32 ws0).
  { subst ws0. apply Forall_wots_sign, Forall_newWotsPrivKey. }
  clear Er Ews. rewrite (sig_bytes_layout _ r0 ws0 _ Hr Hw1 Hw2 Hau). cbn [rbind].
  destruct (traverse priv) as [p1| |]; try discriminate. cbn [rbind].
  intros E. injection E as <- <-. exists r0, ws0.
  split; [reflexivity|]. split; [exact Hr|]. split; [exact Hw1|]. split; [exact Hw2|].
  cbn [length]. rewrite !length_app, !length_concat_blocks, Hr, Hw1 by auto. lia.
Qed.

End SignGeneral.

(** * Heights beyond the index space: the calls still return *)

Lemma fuel64_pos (i : Z) : 1 <= u32 (i + 1) -> 1 <= u64 (shl64 1 (u32 (i + 1)) - 1).
Proof.
  intros Hx. set (x := u32 (i + 1)) in *. unfold shl64, u64. rewrite Z.shiftl_1_l.
  destruct (Z.lt_ge_cases x 64) as [Hlt|Hge].
  - assert (2 ^ 1 <= 2 ^ x) by (apply Z.pow_le_mono_r; lia).
    assert (2 ^ x < 2 ^ 64) by (apply Z.pow_lt_mono_r; lia).
    change (2 ^ 1) with 2 in *.
    rewrite (Z.mod_small (2 ^ x)) by lia. rewrite Z.mod_small by lia. lia.
  - replace x with ((x - 64) + 64) by lia. rewrite Z.pow_add_r by lia.
    rewrite Z.mod_mul by lia. change ((0 - 1) mod 2 ^ 64) with (2 ^ 64 - 1). lia.
Qed.

Section Total.
Context {PRF hashF_raw : bytes -> bytes -> bytes}
        {hashH_raw : bytes -> bytes -> bytes -> bytes}
        {hashMsg_raw hmac_sha256 : bytes -> bytes -> bytes}.

Local Abbreviation update := (update PRF hashF_raw hashH_raw).
Local Abbreviation workers := (workers PRF hashF_raw hashH_raw).
Local Abbreviation initMerkle_loop := (initMerkle_loop PRF hashF_raw hashH_raw).
Local Abbreviation initMerkle := (initMerkle PRF hashF_raw hashH_raw).
Local Abbreviation build := (build PRF hashF_raw hashH_raw).
Local Abbreviation traverse := (traverse PRF hashF_raw hashH_raw).
Local Abbreviation createSignatureBody := (createSignatureBody PRF hashF_raw).
Local Abbreviation Sign := (Sign PRF hashF_raw hashH_raw hashMsg_raw).

Context {priv : PrivateKey} {layer tree : Z}.

Local Abbreviation step := (@step PRF hashF_raw hashH_raw priv layer tree).
Local Abbreviation steps := (@steps PRF hashF_raw hashH_raw priv layer tree).
Local Abbreviation key_with := (@key_with priv).
Local Abbreviation lt_ok := (@lt_ok layer tree).

(** Stacks that hold at least one node and belong to the tree of the key. *)
Definition wf_stacks (stacks : list stack) : Prop :=
  forall i s, stacks !! i = Some s ->
              st_stack s <> [] /\ st_layer s = layer /\ st_tree s = tree.

Lemma step_nonempty (s : stack) : st_stack (step s) <> [].
Proof.
  unfold step. destruct (st_stack s) as [|rgt [|lft rest]] eqn:Es; try discriminate.
  destruct (nh_height lft =? nh_height rgt); discriminate.
Qed.

Lemma steps_keep (k : nat) :
  forall s, st_stack s <> [] -> st_stack (steps k s) <> [].
Proof.
  induction k as [|k IH]; intros s Hs; [exact Hs|].
  rewrite steps_S. apply IH, step_nonempty.
Qed.

Lemma steps_frame (k : nat) :
  forall s, st_layer (steps k s) = st_layer s /\ st_tree (steps k s) = st_tree s.
Proof.
  induction k as [|k IH]; intros s; [auto|].
  rewrite steps_S. destruct (IH (step s)) as [-> ->]. now rewrite step_layer, step_tree.
Qed.

Lemma update_total (nn : Z) (s : stack) :
  1 <= nn -> st_layer s = layer -> st_tree s = tree ->
  exists s', update nn priv s = Ok s' /\
             st_stack s' <> [] /\ st_layer s' = layer /\ st_tree s' = tree.
Proof.
  intros Hn El Et. rewrite (update_spec (layer:=layer) (tree:=tree) nn s El Et).
  eexists. split; [reflexivity|]. destruct (done s) eqn:Hd.
  - split; [|auto]. unfold done in Hd. destruct (st_stack s); [discriminate|discriminate].
  - destruct (steps_frame (Z.to_nat nn) s) as [-> ->]. split; [|auto].
    destruct (Z.to_nat nn) as [|k] eqn:Ek; [lia|].
    rewrite steps_S. apply steps_keep, step_nonempty.
Qed.

Lemma top_nonempty (s : stack) : st_stack s <> [] -> exists t, top s = Ok t.
Proof. unfold top. destruct (st_stack s); [contradiction|eauto]. Qed.

Lemma wf_stacks_snoc (stacks : list stack) (s : stack) :
  wf_stacks stacks -> st_stack s <> [] -> st_layer s = layer -> st_tree s = tree ->
  wf_stacks (stacks ++ [s]).
Proof.
  intros Hw H1 H2 H3 i s' Ei. apply lookup_app_Some in Ei.
  destruct Ei as [Ei|[_ Ei]]; [eauto|].
  destruct (i - length stacks)%nat; [|discriminate]. inversion Ei; subst. auto.
Qed.

(** The loop of [initMerkle] without workers. *)
Lemma initMerkle_loop_total (h : Z) (fuel : nat) :
  forall (i : Z) (s : stack) (stacks : list stack) (au : list bytes),
    0 <= i -> i + Z.of_nat fuel <= h -> h < 2 ^ 32 ->
    st_layer s = layer -> st_tree s = tree ->
    wf_stacks stacks -> Forall block32 au ->
    exists s' stacks' au',
      initMerkle_loop fuel i h 0 priv layer tree s [] stacks au = Ok (s', stacks', au') /\
      st_layer s' = layer /\ st_tree s' = tree /\
      wf_stacks stacks' /\ Forall block32 au' /\
      length stacks' = (length stacks + fuel)%nat /\ length au' = (length au + fuel)%nat.
Proof.
  induction fuel as [|f IH]; intros i s stacks au Hi Hf Hh El Et Hw Hau; cbn [initMerkle_loop].
  - exists s, stacks, au. rewrite !Nat.add_0_r.
    split; [reflexivity|]. repeat (split; [assumption|]). split; reflexivity.
  - destruct (update_total 1 s ltac:(lia) El Et) as (s1 & E1 & N1 & El1 & Et1).
    rewrite E1. cbn [rbind]. destruct (top_nonempty s1 N1) as [t1 T1]. rewrite T1. cbn [rbind].
    rewrite Z.sub_0_r, (u32_small h) by lia.
    replace (i <? h) with true by (symmetry; apply Z.ltb_lt; lia).
    destruct (update_total (u64 (shl64 1 (u32 (i + 1)) - 1)) s1) as (s2 & E2 & N2 & El2 & Et2);
      auto.
    { apply fuel64_pos. rewrite u32_small by lia. lia. }
    rewrite E2. cbn [rbind]. destruct (top_nonempty s2 N2) as [t2 T2]. rewrite T2. cbn [rbind].
    destruct (IH (i + 1) s2 (stacks ++ [push t1 (mkStack [] i (shl32 1 i) layer tree)])
                (au ++ [copy_at 0 (nh_node t2) (zeros 32)]))
      as (s' & st' & au' & E & R1 & R2 & R3 & R4 & R5 & R6); auto; try lia.
    { apply wf_stacks_snoc; auto; discriminate. }
    { apply Forall_app. split; [exact Hau|]. constructor; [|constructor].
      unfold block32. rewrite length_copy_at. apply length_zeros. }
    rewrite E. exists s', st', au'. rewrite !length_app in *. cbn [length] in *.
    split; [reflexivity|]. repeat (split; [assumption|]). split; lia.
Qed.

(** Key generation without workers returns a state of the height asked
    for. *)
Lemma initMerkle_total (ncpu h : Z) :
  nproc_of ncpu h = 0 -> 1 <= h < 2 ^ 32 ->
  exists rt mk,
    initMerkle ncpu h layer tree priv = Ok (key_with rt mk) /\
    m_leaf mk = 0 /\ m_height mk = h /\
    length (m_stacks mk) = Z.to_nat h /\ length (m_auth mk) = Z.to_nat h /\
    wf_stacks (m_stacks mk) /\ Forall block32 (m_auth mk).
Proof.
  intros Hp Hh. unfold initMerkle. rewrite Hp.
  change (Z.to_nat (shl32 1 0 - 1)) with 0%nat. cbn [workers rbind].
  destruct (initMerkle_loop_total h (Z.to_nat h) 0 (mkStack [] h 0 layer tree) [] [])
    as (s' & st' & au' & E & R1 & R2 & R3 & R4 & R5 & R6); auto; try lia.
  { intros i s Ei. discriminate. }
  rewrite E. cbn [rbind].
  destruct (update_total 1 s' ltac:(lia) R1 R2) as (s1 & E1 & N1 & _).
  rewrite E1. cbn [rbind]. destruct (top_nonempty s1 N1) as [t1 T1]. rewrite T1. cbn [rbind].
  eexists _, _. split; [reflexivity|]. cbn [m_leaf m_height m_stacks m_auth].
  cbn [length Nat.add] in R5, R6.
  split; [reflexivity|]. split; [reflexivity|]. repeat (split; [assumption|]). assumption.
Qed.

(** After a refresh the stacks still belong to the tree. *)
Lemma refreshAuth_total (mk : merkle) :
  length (m_stacks mk) = Z.to_nat (m_height mk) ->
  length (m_auth mk) = Z.to_nat (m_height mk) ->
  wf_stacks (m_stacks mk) ->
  exists mk', refreshAuth mk = Ok mk' /\ same_frame mk mk' /\ lt_ok (m_stacks mk').
Proof.
  intros Hls Hla Hw. unfold refreshAuth.
  destruct (refreshAuth_loop_ok (Z.to_nat (m_height mk)) 0 mk) as [mk' E].
  { intros i Hi _. destruct (lookup_lt_is_Some_2 (m_stacks mk) i ltac:(lia)) as [s Es].
    destruct (Hw i s Es) as (Hn & _). destruct (top_nonempty s Hn) as [t T].
    exists s, t. repeat split; auto. lia. }
  change (Z.of_nat 0) with 0 in E. exists mk'. split; [exact E|].
  change 0 with (Z.of_nat 0) in E.
  destruct (refreshAuth_loop_spec _ _ _ _ E) as [Hfr Hpt]. split; [exact Hfr|].
  intros i s' Ei. specialize (Hpt i).
  destruct (bool_decide _ && refresh_due _ _).
  - destruct Hpt as (s & t & Es & _ & _ & Es'). rewrite Es' in Ei. inversion Ei; subst s'.
    destruct (Hw i s Es) as (_ & El & Et). auto.
  - destruct Hpt as [_ K]. rewrite K in Ei. destruct (Hw i s' Ei) as (_ & El & Et). auto.
Qed.

(** [Sign] returns on such a state, with a signature of the usual length. *)
Lemma Sign_total (rt : bytes) (mk : merkle) (msg : bytes) :
  1 <= m_height mk < 2 ^ 31 ->
  length (m_stacks mk) = Z.to_nat (m_height mk) ->
  length (m_auth mk) = Z.to_nat (m_height mk) ->
  wf_stacks (m_stacks mk) -> Forall block32 (m_auth mk) ->
  exists sg priv',
    Sign (key_with rt mk) msg = Ok (sg, priv') /\
    Z.of_nat (length sg) = 4 + 32 * (68 + m_height mk).
Proof.
  intros Hh Hls Hla Hw Hau.
  assert (Htr : exists p1, traverse (key_with rt mk) = Ok p1).
  { unfold traverse. cbn [key_with priv_m of_option rbind].
    destruct (refreshAuth_total mk Hls Hla Hw) as (mk1 & E1 & (F1 & F2 & F3 & F4 & F5 & F6) & Hlt).
    rewrite E1. cbn [rbind]. unfold build.
    destruct (build_loop_total (PRF:=PRF) (hashF_raw:=hashF_raw) (hashH_raw:=hashH_raw)
                (priv:=priv) (layer:=layer) (tree:=tree) rt mk
                (Z.to_nat (u32 (u32 (2 * m_height mk1) - 1))) mk1)
      as (st' & E2 & _); auto.
    - rewrite F5, Hls, F2. lia.
    - rewrite F5, Hls. lia.
    - fold (key_with rt mk). rewrite E2. cbn [rbind]. eauto. }
  destruct Htr as [p1 Etr].
  assert (Es : exists sg, Sign (key_with rt mk) msg = Ok (sg, p1)).
  { unfold Sign. cbn [key_with priv_m of_option rbind]. fold (key_with rt mk).
    unfold createSignatureBody.
    rewrite sig_bytes_layout.
    - cbn [rbind]. rewrite Etr. cbn [rbind]. eauto.
    - unfold block32. rewrite length_take, !length_copy_at, length_zeros. lia.
    - now rewrite length_wots_sign, length_newWotsPrivKey.
    - apply Forall_wots_sign, Forall_newWotsPrivKey.
    - exact Hau. }
  destruct Es as [sg Es]. exists sg, p1. split; [exact Es|].
  destruct (Sign_layout (PRF:=PRF) (hashF_raw:=hashF_raw) (hashH_raw:=hashH_raw)
              (hashMsg_raw:=hashMsg_raw) (key_with rt mk) p1 mk msg sg eq_refl Hau Es)
    as (r & ws & _ & _ & _ & _ & L).
  rewrite L, Hla. lia.
Qed.

End Total.

(** * The refresh of the authentication path, as a specification *)

Lemma testbit_u32 (x k : Z) : 0 <= k -> Z.testbit (u32 x) k = (k <? 32) && Z.testbit x k.
Proof.
  intros Hk. unfold u32. rewrite Z.testbit_mod_pow2 by lia.
  destruct (Z.ltb_spec k 32); reflexivity.
Qed.

Lemma u32_lxor (a p : Z) : 0 <= p < 2 ^ 32 -> Z.lxor (u32 a) p = u32 (Z.lxor a p).
Proof.
  intros Hp. apply Z.bits_inj'. intros k Hk.
  rewrite Z.lxor_spec, !testbit_u32, Z.lxor_spec by lia.
  destruct (Z.ltb_spec k 32) as [Hlt|Hge]; cbn [andb]; [reflexivity|].
  rewrite <- (u32_small p Hp), testbit_u32 by lia.
  destruct (Z.ltb_spec k 32); [lia|reflexivity].
Qed.


(** For a leaf index and a height within 32 bits the wrap-around does not
    show. *)
Lemma startnode_small (lf h : Z) :
  0 <= h < 32 -> startnode lf h = u32 (Z.lxor (lf + 1 + 2 ^ h) (2 ^ h)).
Proof.
  intros Hh. unfold startnode. rewrite shl32_small by lia.
  rewrite u32_add_l. apply u32_lxor.
  split; [apply Z.pow_nonneg; lia|apply Z.pow_lt_mono_r; lia].
Qed.


(** * Import *)

Section ImportKey.
Context {PRF hashF_raw : bytes -> bytes -> bytes}
        {hashH_raw : bytes -> bytes -> bytes -> bytes}
        {hashMsg_raw hmac_sha256 : bytes -> bytes -> bytes}.

Local Abbreviation Import := (Import PRF hashF_raw hashH_raw).

(** [new(PrivateKey)] *)
Definition new_PrivateKey : PrivateKey :=
  mkPrivateKey (mkPublicKey (mkParams 0) [] []) (newPRF []) (newPRF []) None.

(** [Import] into a key without a traversal state writes through a nil
    pointer. *)
Lemma Import_nil (ncpu : Z) (priv : PrivateKey) (key : PrivateKeyExport) :
  priv_m priv = None -> Import ncpu priv key = Panic.
Proof. intros E. unfold Import. now rewrite E. Qed.

(** [Import] into a key that has a state builds the state of a new key: the
    index of the export is written and then lost. *)
Lemma Import_resets (ncpu : Z) (priv : PrivateKey) (key : PrivateKeyExport) (h : nat) :
  priv_m priv <> None -> Height (e_params (e_pub key)) = Z.of_nat h -> (1 <= h <= 32)%nat ->
  exists priv' mk',
    Import ncpu priv key = Ok priv' /\ priv_m priv' = Some mk' /\ m_leaf mk' = 0 /\
    msgPRF priv' = newPRF (SecretKeyPRF key) /\ wotsPRF priv' = newPRF (SecretKeySeed key).
Proof.
  intros Hm Eh Hh. unfold Import. destruct (priv_m priv) as [mk|]; [|contradiction].
  cbn [of_option rbind pub_params]. rewrite Eh.
  rewrite (initMerkle_any (PRF:=PRF) (hashF_raw:=hashF_raw) (hashH_raw:=hashH_raw) ncpu h Hh).
  eexists _, _. split; [reflexivity|]. cbn. auto.
Qed.

Lemma Export_index (priv : PrivateKey) (mk : merkle) :
  priv_m priv = Some mk ->
  exists ex, Export priv = Ok ex /\ Index ex = m_leaf mk /\
             e_params (e_pub ex) = pub_params (priv_pub priv).
Proof.
  intros E. unfold Export. rewrite E. cbn [of_option rbind].
  eexists. split; [reflexivity|]. cbn. auto.
Qed.

End ImportKey.

(** * The states a key goes through *)

Lemma nproc_of_1 (h : Z) : 1 <= h -> nproc_of 1 h = 0.
Proof.
  intros Hh. unfold nproc_of. change (u32 (Z.log2 1)) with 0.
  change (negb (1 =? Z.shiftl 1 0)) with false. cbv iota.
  destruct (Z.leb_spec h 0); [lia|reflexivity].
Qed.

Lemma sig_height_length (sg : bytes) (h : Z) :
  0 <= h -> Z.of_nat (length sg) = 4 + 32 * (68 + h) -> sig_height sg = h.
Proof.
  intros Hh E. unfold sig_height, n, wlen. rewrite E.
  replace (4 + 32 * (68 + h) - (4 + 32 + 67 * 32)) with (h * 2 ^ 5) by lia.
  rewrite Z.shiftr_div_pow2 by lia. apply Z.div_mul. lia.
Qed.

Section Reach.
Context {PRF hashF_raw : bytes -> bytes -> bytes}
        {hashH_raw : bytes -> bytes -> bytes -> bytes}
        {hashMsg_raw hmac_sha256 : bytes -> bytes -> bytes}.

Local Abbreviation Verify := (Verify PRF hashF_raw hashH_raw hashMsg_raw).
Local Abbreviation initMerkle := (initMerkle PRF hashF_raw hashH_raw).
Local Abbreviation build := (build PRF hashF_raw hashH_raw).
Local Abbreviation NewXMSSKeyPairWithParams := (NewXMSSKeyPairWithParams PRF hashF_raw hashH_raw).
Local Abbreviation NewXMSSKeyPair := (NewXMSSKeyPair PRF hashF_raw hashH_raw hmac_sha256).
Local Abbreviation Sign := (Sign PRF hashF_raw hashH_raw hashMsg_raw).
Local Abbreviation Import := (Import PRF hashF_raw hashH_raw).
Local Abbreviation sign_all := (sign_all PRF hashF_raw hashH_raw hashMsg_raw).
Local Abbreviation build_count := (build_count PRF hashF_raw hashH_raw).
Local Abbreviation priv_of := (@priv_of PRF hashF_raw hashH_raw hmac_sha256).
Local Abbreviation pub_of := (@pub_of PRF hashF_raw hashH_raw hmac_sha256).
Local Abbreviation root_of := (@root_of PRF hashF_raw hashH_raw hmac_sha256).
Local Abbreviation base_key := (@base_key hmac_sha256).

Section Key.
Variables (H : nat) (seed : bytes).
Hypothesis HH : (1 <= H <= 32)%nat.

Local Abbreviation key0 := (@key_with (base_key H seed) (root_of H seed)).
Local Abbreviation Inv0 := (@Inv PRF hashF_raw hashH_raw (base_key H seed) 0 0 H).
Local Abbreviation step0 := (@step PRF hashF_raw hashH_raw (base_key H seed) 0 0).

(** The key after the messages [msgs]. *)
Lemma keygen_run (msgs : list bytes) :
  exists sigs mk,
    sign_all (priv_of H seed) msgs = Ok (sigs, key0 mk) /\
    Inv0 (Z.of_nat (length msgs)) mk /\ length sigs = length msgs.
Proof.
  destruct (sign_all_ok (PRF:=PRF) (hashF_raw:=hashF_raw) (hashH_raw:=hashH_raw)
              (hashMsg_raw:=hashMsg_raw) (priv:=base_key H seed) (layer:=0) (tree:=0)
              H (root_of H seed) msgs HH (length_root_of H seed) 0 _
              (Inv_merkle0 (PRF:=PRF) (hashF_raw:=hashF_raw) (hashH_raw:=hashH_raw)
                 (priv:=base_key H seed) (layer:=0) (tree:=0) H HH))
    as (sigs & mk' & E & HI & Hlen & _).
  exists sigs, mk'. cbn [Z.add] in HI. auto.
Qed.

(** One more signature after [msgs]: [Sign] returns, whatever the number of
    signatures made before. *)
Lemma keygen_next (msgs : list bytes) (m : bytes) :
  exists sigs priv2 mk2 sg priv3 mk3,
    sign_all (priv_of H seed) msgs = Ok (sigs, priv2) /\
    priv_m priv2 = Some mk2 /\ m_leaf mk2 = u32 (Z.of_nat (length msgs)) /\
    Sign priv2 m = Ok (sg, priv3) /\
    Uint32 sg = Ok (u32 (Z.of_nat (length msgs))) /\
    Z.of_nat (length sg) = 4 + 32 * (68 + Z.of_nat H) /\
    priv_m priv3 = Some mk3 /\ m_leaf mk3 = u32 (Z.of_nat (length msgs) + 1).
Proof.
  destruct (keygen_run msgs) as (sigs & mk2 & E & HI & _).
  destruct (Sign_ok (PRF:=PRF) (hashF_raw:=hashF_raw) (hashH_raw:=hashH_raw)
              (hashMsg_raw:=hashMsg_raw) (priv:=base_key H seed) (layer:=0) (tree:=0)
              H _ (root_of H seed) mk2 m HH (length_root_of H seed) HI)
    as (mk3 & Es & HI3).
  exists sigs, (key0 mk2), mk2. eexists _, (key0 mk3), mk3.
  split; [exact E|]. split; [reflexivity|].
  pose proof HI as (_ & Elf & _ & _ & _ & Hla & Hba & _).
  split; [exact Elf|]. split; [exact Es|]. split.
  { apply Uint32_take4. reflexivity. }
  split; [rewrite length_sig_of by exact Hba; now rewrite Hla|].
  split; [reflexivity|]. destruct HI3 as (_ & Elf3 & _). exact Elf3.
Qed.

(** The first signature, also with bytes appended to it. *)
Lemma keygen_first_extra (m : bytes) :
  exists sg priv',
    Sign (priv_of H seed) m = Ok (sg, priv') /\
    Z.of_nat (length sg) = 4 + 32 * (68 + Z.of_nat H) /\
    forall extra, (length extra < 32)%nat ->
                  Verify (pub_of H seed) (sg ++ extra) m = Ok true.
Proof.
  pose proof (Inv_merkle0 (PRF:=PRF) (hashF_raw:=hashF_raw) (hashH_raw:=hashH_raw)
                (priv:=base_key H seed) (layer:=0) (tree:=0) H HH) as HI.
  destruct (Sign_ok (PRF:=PRF) (hashF_raw:=hashF_raw) (hashH_raw:=hashH_raw)
              (hashMsg_raw:=hashMsg_raw) (priv:=base_key H seed) (layer:=0) (tree:=0)
              H 0 (root_of H seed) _ m HH (length_root_of H seed) HI)
    as (mk1 & Es & _).
  destruct HI as (_ & _ & _ & _ & _ & Hla & Hba & _ & _ & Hau).
  eexists _, _. split; [exact Es|].
  split; [rewrite length_sig_of by exact Hba; now rewrite Hla|].
  intros extra Hex.
  apply (Verify_sig_of_extra (PRF:=PRF) (hashF_raw:=hashF_raw) (hashH_raw:=hashH_raw)
           (hashMsg_raw:=hashMsg_raw) (priv:=base_key H seed) (layer:=0) (tree:=0) H
           0 _ m extra); auto.
  pose proof (pow2_pos (Z.of_nat H) ltac:(lia)). lia.
Qed.

(** Export after one signature, then Import. *)
Lemma keygen_export_import (ncpu : Z) (m : bytes) :
  exists sg priv1 ex,
    Sign (priv_of H seed) m = Ok (sg, priv1) /\
    Export priv1 = Ok ex /\ Index ex = 1 /\
    (exists priv2 mk2, Import ncpu priv1 ex = Ok priv2 /\
                       priv_m priv2 = Some mk2 /\ m_leaf mk2 = 0) /\
    Import ncpu new_PrivateKey ex = Panic.
Proof.
  pose proof (Inv_merkle0 (PRF:=PRF) (hashF_raw:=hashF_raw) (hashH_raw:=hashH_raw)
                (priv:=base_key H seed) (layer:=0) (tree:=0) H HH) as HI.
  destruct (Sign_ok (PRF:=PRF) (hashF_raw:=hashF_raw) (hashH_raw:=hashH_raw)
              (hashMsg_raw:=hashMsg_raw) (priv:=base_key H seed) (layer:=0) (tree:=0)
              H 0 (root_of H seed) _ m HH (length_root_of H seed) HI)
    as (mk1 & Es & HI1).
  destruct (Export_index (key0 mk1) mk1 eq_refl) as (ex & Eex & Eidx & Epar).
  eexists _, (key0 mk1), ex. split; [exact Es|]. split; [exact Eex|].
  split; [rewrite Eidx; destruct HI1 as (_ & -> & _); reflexivity|].
  split; [|apply Import_nil; reflexivity].
  destruct (Import_resets (PRF:=PRF) (hashF_raw:=hashF_raw) (hashH_raw:=hashH_raw)
              ncpu (key0 mk1) ex H) as (priv2 & mk2 & E & Em & El & _);
    [discriminate|rewrite Epar; reflexivity|exact HH|eauto].
Qed.

(** The call of [build] made by the signature after [msgs]. *)
Lemma keygen_build (msgs : list bytes) :
  exists sigs privL mkL mk1 mk2 c,
    sign_all (priv_of H seed) msgs = Ok (sigs, privL) /\
    priv_m privL = Some mkL /\ refreshAuth mkL = Ok mk1 /\
    build_count privL mk1 = Ok (mk2, c) /\ build privL mk1 = Ok mk2 /\
    rounds step0 (2 * H - 1) (m_stacks mk1) (m_stacks mk2) c.
Proof.
  destruct (keygen_run msgs) as (sigs & mkL & E & HI & _).
  destruct (refreshAuth_inv (PRF:=PRF) (hashF_raw:=hashF_raw) (hashH_raw:=hashH_raw)
              (priv:=base_key H seed) (layer:=0) (tree:=0) H _ mkL HH HI)
    as (mk1 & E1 & (F1 & F2 & _) & Hval1 & _).
  assert (Eh : m_height mk1 = Z.of_nat H).
  { rewrite F2. destruct HI as (_ & _ & Eh & _). exact Eh. }
  destruct (build_loop_rounds (PRF:=PRF) (hashF_raw:=hashF_raw) (hashH_raw:=hashH_raw)
              (priv:=base_key H seed) (layer:=0) (tree:=0) H (root_of H seed) mkL
              (2 * H - 1) mk1 ltac:(lia) Eh
              (valid_at_stacks (PRF:=PRF) (hashF_raw:=hashF_raw) (hashH_raw:=hashH_raw)
                 (priv:=base_key H seed) (layer:=0) (tree:=0) H _ _ Hval1))
    as (st2 & c & Ec & Eb & _ & Hr).
  exists sigs, (key0 mkL), mkL, mk1, (set_stacks mk1 st2), c.
  split; [exact E|]. split; [reflexivity|]. split; [exact E1|].
  assert (Ef : Z.to_nat (u32 (u32 (2 * m_height mk1) - 1)) = (2 * H - 1)%nat).
  { rewrite Eh. rewrite (u32_small (2 * Z.of_nat H)) by lia. rewrite u32_small by lia. lia. }
  unfold build_count, build. rewrite Ef. auto.
Qed.

End Key.

(** Key generation on one processor and a first signature return for every
    height below [2^31]; from height 256 on, [Verify] rejects the signature,
    whose length it compares with the low byte of the height. *)
Lemma keygen_tall (h : Z) (seed m : bytes) :
  256 <= h < 2 ^ 31 ->
  exists priv pub sg priv',
    NewXMSSKeyPair 1 h seed = Ok (priv, pub) /\
    Sign priv m = Ok (sg, priv') /\
    Verify pub sg m = Ok false.
Proof.
  intros Hh. unfold NewXMSSKeyPair, NewXMSSKeyPairWithParams.
  match goal with |- context [initMerkle 1 h 0 0 ?p] => set (p0 := p) end.
  destruct (initMerkle_total (PRF:=PRF) (hashF_raw:=hashF_raw) (hashH_raw:=hashH_raw)
              (priv:=p0) (layer:=0) (tree:=0) 1 h (nproc_of_1 h ltac:(lia)) ltac:(lia))
    as (rt & mk & E & El & Eh & Hls & Hla & Hw & Hau).
  destruct (Sign_total (PRF:=PRF) (hashF_raw:=hashF_raw) (hashH_raw:=hashH_raw)
              (hashMsg_raw:=hashMsg_raw) (priv:=p0) (layer:=0) (tree:=0) rt mk m)
    as (sg & priv' & Es & Hlen); try (rewrite ?Eh; auto; lia).
  rewrite E. cbn [rbind]. eexists _, _, sg, priv'. split; [reflexivity|].
  split; [exact Es|].
  apply Verify_bad_length. cbn [pub_params set_root Height].
  rewrite (sig_height_length sg h) by (rewrite <- ?Eh; auto; lia).
  pose proof (Z.mod_pos_bound h 256 ltac:(lia)). subst p0. cbn [priv_pub pub_params Height]. lia.
Qed.

End Reach.

(** * The properties of the specification *)

Lemma low_min (s : stack) :
  low s = match st_stack s with
          | [] => st_height s
          | t :: _ =>
              if nh_height t =? st_height s then MaxUint32
              else fold_right Z.min MaxUint32 (map nh_height (st_stack s))
          end.
Proof.
  unfold low. destruct (st_stack s) as [|t rest]; [reflexivity|].
  destruct (nh_height t =? st_height s); [reflexivity|].
  induction (t :: rest) as [|nd l IH]; cbn [fold_right map]; [reflexivity|].
  rewrite IH. destruct (Z.ltb_spec (nh_height nd) (fold_right Z.min MaxUint32 (map nh_height l)));
    lia.
Qed.

Section Claims.
Context {PRF hashF_raw : bytes -> bytes -> bytes}
        {hashH_raw : bytes -> bytes -> bytes -> bytes}
        {hashMsg_raw hmac_sha256 : bytes -> bytes -> bytes}.

Local Abbreviation Verify := (Verify PRF hashF_raw hashH_raw hashMsg_raw).
Local Abbreviation workers := (workers PRF hashF_raw hashH_raw).
Local Abbreviation initMerkle := (initMerkle PRF hashF_raw hashH_raw).
Local Abbreviation build := (build PRF hashF_raw hashH_raw).
Local Abbreviation NewXMSSKeyPair := (NewXMSSKeyPair PRF hashF_raw hashH_raw hmac_sha256).
Local Abbreviation Sign := (Sign PRF hashF_raw hashH_raw hashMsg_raw).
Local Abbreviation Import := (Import PRF hashF_raw hashH_raw).
Local Abbreviation sign_all := (sign_all PRF hashF_raw hashH_raw hashMsg_raw).
Local Abbreviation build_count := (build_count PRF hashF_raw hashH_raw).

(** C1, amended.  For every height [H] from 1 to 32, every seed and every
    list of at most [2^H] messages: key generation returns a key pair, the
    private key signs the messages one after the other, and signature [i]
    verifies under the public key with message [i]. *)
Theorem sign_verify (ncpu : Z) (H : nat) (seed : bytes) (msgs : list bytes) :
  (1 <= H <= 32)%nat -> Z.of_nat (length msgs) <= 2 ^ Z.of_nat H ->
  exists priv pub sigs priv',
    NewXMSSKeyPair ncpu (Z.of_nat H) seed = Ok (priv, pub) /\
    sign_all priv msgs = Ok (sigs, priv') /\
    length sigs = length msgs /\
    forall i sg m, sigs !! i = Some sg -> msgs !! i = Some m ->
                   Verify pub sg m = Ok true.
Proof.
  intros HH Hn.
  destruct (keygen_sign_all (PRF:=PRF) (hashF_raw:=hashF_raw) (hashH_raw:=hashH_raw)
              (hashMsg_raw:=hashMsg_raw) (hmac_sha256:=hmac_sha256) H seed msgs HH)
    as (sigs & priv' & E & Hlen & _ & Hall).
  eexists _, _, sigs, priv'. split; [apply NewXMSSKeyPair_ok; exact HH|].
  split; [exact E|]. split; [exact Hlen|].
  intros i sg m Es Em. destruct (Hall i sg m Es Em) as (_ & _ & Hv). apply Hv.
  apply lookup_lt_Some in Em. lia.
Qed.

(** C2, amended.  [Sign] has no error result.  For a key of height [H]
    between 1 and 32 that has made [2^H] signatures, so that the index of its
    next leaf is [2^H] as a [uint32], the next call of [Sign] returns a
    signature of the usual length that carries this index, and the key moves
    on to the index after it. *)
Theorem sign_past_last_leaf (ncpu : Z) (H : nat) (seed : bytes) (msgs : list bytes)
    (m : bytes) :
  (1 <= H <= 32)%nat -> Z.of_nat (length msgs) = 2 ^ Z.of_nat H ->
  exists priv pub sigs priv2 mk2 sg priv3 mk3,
    NewXMSSKeyPair ncpu (Z.of_nat H) seed = Ok (priv, pub) /\
    sign_all priv msgs = Ok (sigs, priv2) /\
    priv_m priv2 = Some mk2 /\ m_leaf mk2 = u32 (2 ^ Z.of_nat H) /\
    Sign priv2 m = Ok (sg, priv3) /\
    Uint32 sg = Ok (u32 (2 ^ Z.of_nat H)) /\
    Z.of_nat (length sg) = 4 + 32 * (68 + Z.of_nat H) /\
    priv_m priv3 = Some mk3 /\ m_leaf mk3 = u32 (2 ^ Z.of_nat H + 1).
Proof.
  intros HH Hn.
  destruct (keygen_next (PRF:=PRF) (hashF_raw:=hashF_raw) (hashH_raw:=hashH_raw)
              (hashMsg_raw:=hashMsg_raw) (hmac_sha256:=hmac_sha256) H seed HH msgs m)
    as (sigs & priv2 & mk2 & sg & priv3 & mk3 & R).
  rewrite Hn in R.
  eexists _, _, sigs, priv2, mk2, sg, priv3, mk3.
  split; [apply NewXMSSKeyPair_ok; exact HH|]. exact R.
Qed.

(** C3, on the code.  After one signature the export of a key carries
    index 1; [Import] of this export into the key gives a key whose next
    leaf is 0, and [Import] into [new(PrivateKey)] panics. *)
Theorem import_restarts_at_leaf_0 (ncpu : Z) (H : nat) (seed m : bytes) :
  (1 <= H <= 32)%nat ->
  exists priv pub sg priv1 ex,
    NewXMSSKeyPair ncpu (Z.of_nat H) seed = Ok (priv, pub) /\
    Sign priv m = Ok (sg, priv1) /\
    Export priv1 = Ok ex /\ Index ex = 1 /\
    (exists priv2 mk2, Import ncpu priv1 ex = Ok priv2 /\
                       priv_m priv2 = Some mk2 /\ m_leaf mk2 = 0) /\
    Import ncpu new_PrivateKey ex = Panic.
Proof.
  intros HH.
  destruct (keygen_export_import (PRF:=PRF) (hashF_raw:=hashF_raw) (hashH_raw:=hashH_raw)
              (hashMsg_raw:=hashMsg_raw) (hmac_sha256:=hmac_sha256) H seed HH ncpu m)
    as (sg & priv1 & ex & R).
  eexists _, _, sg, priv1, ex.
  split; [apply NewXMSSKeyPair_ok; exact HH|]. exact R.
Qed.

(** C4, on the code.  A signature followed by 1 to 31 more bytes has not
    the length [4 + 32 * (68 + H)], and [Verify] accepts it. *)
Theorem verify_accepts_trailing_bytes (ncpu : Z) (H : nat) (seed m extra : bytes) :
  (1 <= H <= 32)%nat -> (0 < length extra < 32)%nat ->
  exists priv pub sg priv',
    NewXMSSKeyPair ncpu (Z.of_nat H) seed = Ok (priv, pub) /\
    Sign priv m = Ok (sg, priv') /\
    Z.of_nat (length (sg ++ extra)) <> 4 + 32 * (68 + Z.of_nat H) /\
    Verify pub (sg ++ extra) m = Ok true.
Proof.
  intros HH Hex.
  destruct (keygen_first_extra (PRF:=PRF) (hashF_raw:=hashF_raw) (hashH_raw:=hashH_raw)
              (hashMsg_raw:=hashMsg_raw) (hmac_sha256:=hmac_sha256) H seed HH m)
    as (sg & priv' & Es & Hlen & Hv).
  eexists _, _, sg, priv'.
  split; [apply NewXMSSKeyPair_ok; exact HH|]. split; [exact Es|].
  split; [rewrite length_app; lia|]. apply Hv. lia.
Qed.

(** C5.  The bytes returned by [Sign] for a key of height [H], whose state
    holds [H] path nodes of 32 bytes: the index on four bytes, big-endian,
    then [r] (32 bytes), then the 67 blocks of 32 bytes of the WOTS+
    signature, then the [H] path nodes; [4 + 32 * (68 + H)] bytes in all. *)
Theorem sign_bytes_layout (H : nat) (priv priv' : PrivateKey) (mk : merkle) (msg sg : bytes) :
  priv_m priv = Some mk -> length (m_auth mk) = H -> Forall block32 (m_auth mk) ->
  Sign priv msg = Ok (sg, priv') ->
  exists (r : bytes) (ws : list bytes),
    sg = be32 (m_leaf mk) ++ r ++ concat ws ++ concat (m_auth mk) /\
    length r = 32%nat /\ length ws = 67%nat /\ Forall block32 ws /\
    Z.of_nat (length sg) = 4 + 32 * (68 + Z.of_nat H).
Proof.
  intros Em Hla Hau Es.
  destruct (Sign_layout (PRF:=PRF) (hashF_raw:=hashF_raw) (hashH_raw:=hashH_raw)
              (hashMsg_raw:=hashMsg_raw) priv priv' mk msg sg Em Hau Es)
    as (r & ws & R1 & R2 & R3 & R4 & R5).
  exists r, ws. rewrite Hla in R5. auto.
Qed.

(** The steps made by the call of [build] in the first signature of a new
    key, together with the [2H - 1] of its height. *)
Definition first_build_steps (h : Z) (seed : bytes) : result (Z * Z) :=
  do '(priv, _) <- NewXMSSKeyPair 1 h seed;
  do mk <- of_option (priv_m priv);
  do mk1 <- refreshAuth mk;
  do '(_, c) <- build_count priv mk1;
  Ok (c, 2 * m_height mk1 - 1).

(** C7, amended.  The call of [build] made by a signature of a key of height
    [H] between 1 and 32 runs exactly [2H - 1] rounds.  A round makes one
    elementary step on the stack in focus: the first of the stacks whose
    [low] is minimal, provided this minimum is below [MaxUint32]; when every
    stack is done the round makes no step.  So a call makes at most [2H - 1]
    steps.  [low] is the target height of an empty stack, [MaxUint32] for a
    stack whose top node has the target height, and the least height among
    the nodes otherwise. *)
Theorem build_rounds (ncpu : Z) (H : nat) (seed : bytes) (msgs : list bytes) :
  (1 <= H <= 32)%nat ->
  (forall s, low s = match st_stack s with
                     | [] => st_height s
                     | t :: _ =>
                         if nh_height t =? st_height s then MaxUint32
                         else fold_right Z.min MaxUint32 (map nh_height (st_stack s))
                     end) /\
  exists priv pub sigs privL mkL mk1 mk2 c,
    NewXMSSKeyPair ncpu (Z.of_nat H) seed = Ok (priv, pub) /\
    sign_all priv msgs = Ok (sigs, privL) /\
    priv_m privL = Some mkL /\ refreshAuth mkL = Ok mk1 /\
    build_count privL mk1 = Ok (mk2, c) /\ build privL mk1 = Ok mk2 /\
    rounds (step (PRF:=PRF) (hashF_raw:=hashF_raw) (hashH_raw:=hashH_raw)
              (priv:=base_key (hmac_sha256:=hmac_sha256) H seed) (layer:=0) (tree:=0))
      (2 * H - 1) (m_stacks mk1) (m_stacks mk2) c /\
    0 <= c <= 2 * Z.of_nat H - 1.
Proof.
  intros HH. split; [exact low_min|].
  destruct (keygen_build (PRF:=PRF) (hashF_raw:=hashF_raw) (hashH_raw:=hashH_raw)
              (hashMsg_raw:=hashMsg_raw) (hmac_sha256:=hmac_sha256) H seed HH msgs)
    as (sigs & privL & mkL & mk1 & mk2 & c & E & Em & E1 & Ec & Eb & Hr).
  eexists _, _, sigs, privL, mkL, mk1, mk2, c.
  split; [apply NewXMSSKeyPair_ok; exact HH|].
  repeat (split; [assumption|]).
  pose proof (rounds_count _ _ _ _ _ Hr). lia.
Qed.

(** C8.  For a height [H] between 1 and 32, [initMerkle] returns the same
    key, hence the same root, path nodes and stacks, whatever the number of
    processors that fixes the number of workers. *)
Theorem initMerkle_any_workers (ncpu ncpu' : Z) (H : nat) (layer tree : Z) (priv : PrivateKey) :
  (1 <= H <= 32)%nat ->
  initMerkle ncpu (Z.of_nat H) layer tree priv = initMerkle ncpu' (Z.of_nat H) layer tree priv
  /\ exists priv', initMerkle ncpu (Z.of_nat H) layer tree priv = Ok priv'.
Proof.
  intros HH.
  rewrite !(initMerkle_any (PRF:=PRF) (hashF_raw:=hashF_raw) (hashH_raw:=hashH_raw)
              (priv:=priv) (layer:=layer) (tree:=tree) _ H HH).
  split; [reflexivity|eauto].
Qed.

(** C9, amended.  In a run of [Sign] calls on a new key, signature [i]
    (counted from 0) carries the index [i mod 2^32]; so the indices of the
    first [2^32] signatures are their positions and grow strictly. *)
Theorem signature_index (ncpu h : Z) (seed : bytes) (priv priv' : PrivateKey)
    (pub : PublicKey) (msgs sigs : list bytes) :
  NewXMSSKeyPair ncpu h seed = Ok (priv, pub) ->
  sign_all priv msgs = Ok (sigs, priv') ->
  length sigs = length msgs /\
  (forall i sg, sigs !! i = Some sg -> Uint32 sg = Ok (Z.of_nat i mod 2 ^ 32)) /\
  (forall i j sgi sgj,
      (i < j)%nat -> Z.of_nat j < 2 ^ 32 ->
      sigs !! i = Some sgi -> sigs !! j = Some sgj ->
      Uint32 sgi = Ok (Z.of_nat i) /\ Uint32 sgj = Ok (Z.of_nat j)).
Proof.
  intros Ek Es.
  destruct (NewXMSSKeyPair_fresh (PRF:=PRF) (hashF_raw:=hashF_raw) (hashH_raw:=hashH_raw)
              (hmac_sha256:=hmac_sha256) ncpu h seed priv pub Ek) as (mk & Em & El & _).
  destruct (sign_all_idx (PRF:=PRF) (hashF_raw:=hashF_raw) (hashH_raw:=hashH_raw)
              (hashMsg_raw:=hashMsg_raw) msgs priv priv' mk sigs Em Es) as [Hlen Hidx].
  rewrite El in Hidx. split; [exact Hlen|].
  assert (Hi : forall i sg, sigs !! i = Some sg -> Uint32 sg = Ok (Z.of_nat i mod 2 ^ 32)).
  { intros i sg Ei. destruct (Hidx i sg Ei) as [_ U]. exact U. }
  split; [exact Hi|].
  intros i j sgi sgj Hij Hj Ei Ej.
  rewrite (Hi i sgi Ei), (Hi j sgj Ej), !Z.mod_small by lia. auto.
Qed.

(** C10.  [Verify] returns a boolean for every byte string and every
    message: no slice or index of the parser is out of range.  When the
    parser reports an error, and so whenever the length test fails, the
    result is [false]. *)
Theorem Verify_never_panics (pub : PublicKey) (bsig msg : bytes) :
  (exists ok : bool, Verify pub bsig msg = Ok ok) /\
  (forall e, bytes2sig bsig (Height (pub_params pub) mod 256) = Error e ->
             Verify pub bsig msg = Ok false) /\
  (sig_height bsig <> Height (pub_params pub) mod 256 -> Verify pub bsig msg = Ok false).
Proof.
  split; [apply Verify_total|]. split.
  - intros e E. unfold Verify. now rewrite E.
  - apply Verify_bad_length.
Qed.

End Claims.


(** ** Examples *)

(** An instance of the hash primitives that returns the empty digest, to
    run the definitions on small examples. *)
Definition const2 (_ _ : bytes) : bytes := [].
Definition const3 (_ _ _ : bytes) : bytes := [].

Lemma sign_verify_example :
  ((1 <= 1 <= 32)%nat /\ Z.of_nat (length [[x61]; [x62]]) <= 2 ^ Z.of_nat 1) /\
  exists priv pub sigs priv',
    NewXMSSKeyPair const2 const2 const3 const2 1 (Z.of_nat 1) [] = Ok (priv, pub) /\
    sign_all const2 const2 const3 const2 priv [[x61]; [x62]] = Ok (sigs, priv') /\
    length sigs = length [[x61]; [x62]] /\
    forall i sg m, sigs !! i = Some sg -> [[x61]; [x62]] !! i = Some m ->
                   Verify const2 const2 const3 const2 pub sg m = Ok true.
Proof.
  split; [split; [lia|cbn; lia]|].
  apply (sign_verify (PRF:=const2) (hashF_raw:=const2) (hashH_raw:=const3)
           (hashMsg_raw:=const2) (hmac_sha256:=const2) 1 1 [] [[x61]; [x62]]);
    [lia|cbn; lia].
Defined.

(** C1 as stated fails at height 256: key generation and [Sign] return, and
    [Verify], which keeps the height in a byte, rejects the signature. *)
Lemma height_256_rejected :
  exists (seed m : bytes),
    forall (PRF hashF_raw : bytes -> bytes -> bytes)
           (hashH_raw : bytes -> bytes -> bytes -> bytes)
           (hashMsg_raw hmac_sha256 : bytes -> bytes -> bytes),
    exists priv pub sg priv',
      NewXMSSKeyPair PRF hashF_raw hashH_raw hmac_sha256 1 256 seed = Ok (priv, pub) /\
      Sign PRF hashF_raw hashH_raw hashMsg_raw priv m = Ok (sg, priv') /\
      Verify PRF hashF_raw hashH_raw hashMsg_raw pub sg m = Ok false.
Proof.
  exists [], []. intros PRF hashF_raw hashH_raw hashMsg_raw hmac_sha256.
  apply keygen_tall. lia.
Qed.

Lemma sign_past_last_leaf_example :
  ((1 <= 1 <= 32)%nat /\ Z.of_nat (length [[x61]; [x62]]) = 2 ^ Z.of_nat 1) /\
  exists priv pub sigs priv2 mk2 sg priv3 mk3,
    NewXMSSKeyPair const2 const2 const3 const2 1 (Z.of_nat 1) [] = Ok (priv, pub) /\
    sign_all const2 const2 const3 const2 priv [[x61]; [x62]] = Ok (sigs, priv2) /\
    priv_m priv2 = Some mk2 /\ m_leaf mk2 = u32 (2 ^ Z.of_nat 1) /\
    Sign const2 const2 const3 const2 priv2 [x63] = Ok (sg, priv3) /\
    Uint32 sg = Ok (u32 (2 ^ Z.of_nat 1)) /\
    Z.of_nat (length sg) = 4 + 32 * (68 + Z.of_nat 1) /\
    priv_m priv3 = Some mk3 /\ m_leaf mk3 = u32 (2 ^ Z.of_nat 1 + 1).
Proof.
  split; [split; [lia|reflexivity]|].
  apply (sign_past_last_leaf (PRF:=const2) (hashF_raw:=const2) (hashH_raw:=const3)
           (hashMsg_raw:=const2) (hmac_sha256:=const2) 1 1 [] [[x61]; [x62]] [x63]);
    [lia|reflexivity].
Defined.

(** C2 as stated fails: a key of height 1 that has made its two signatures
    signs a third message. *)
Lemma third_signature_of_height_1 :
  exists (H : nat) (seed : bytes) (msgs : list bytes) (m : bytes),
    Z.of_nat (length msgs) = 2 ^ Z.of_nat H /\
    forall (PRF hashF_raw : bytes -> bytes -> bytes)
           (hashH_raw : bytes -> bytes -> bytes -> bytes)
           (hashMsg_raw hmac_sha256 : bytes -> bytes -> bytes),
    exists priv pub sigs priv2 sg priv3,
      NewXMSSKeyPair PRF hashF_raw hashH_raw hmac_sha256 1 (Z.of_nat H) seed = Ok (priv, pub) /\
      sign_all PRF hashF_raw hashH_raw hashMsg_raw priv msgs = Ok (sigs, priv2) /\
      Sign PRF hashF_raw hashH_raw hashMsg_raw priv2 m = Ok (sg, priv3) /\
      Uint32 sg = Ok 2.
Proof.
  exists 1%nat, [], [[x61]; [x62]], [x63]. split; [reflexivity|].
  intros PRF hashF_raw hashH_raw hashMsg_raw hmac_sha256.
  destruct (keygen_next (PRF:=PRF) (hashF_raw:=hashF_raw) (hashH_raw:=hashH_raw)
              (hashMsg_raw:=hashMsg_raw) (hmac_sha256:=hmac_sha256) 1 [] ltac:(lia)
              [[x61]; [x62]] [x63])
    as (sigs & priv2 & mk2 & sg & priv3 & mk3 & E & _ & _ & Es & U & _).
  eexists _, _, sigs, priv2, sg, priv3.
  split; [apply (NewXMSSKeyPair_ok 1 1 []); lia|]. auto.
Qed.

Lemma import_restarts_at_leaf_0_example :
  (1 <= 1 <= 32)%nat /\
  exists priv pub sg priv1 ex,
    NewXMSSKeyPair const2 const2 const3 const2 1 (Z.of_nat 1) [] = Ok (priv, pub) /\
    Sign const2 const2 const3 const2 priv [x61] = Ok (sg, priv1) /\
    Export priv1 = Ok ex /\ Index ex = 1 /\
    (exists priv2 mk2, Import const2 const2 const3 1 priv1 ex = Ok priv2 /\
                       priv_m priv2 = Some mk2 /\ m_leaf mk2 = 0) /\
    Import const2 const2 const3 1 new_PrivateKey ex = Panic.
Proof.
  split; [lia|].
  apply (import_restarts_at_leaf_0 (PRF:=const2) (hashF_raw:=const2) (hashH_raw:=const3)
           (hashMsg_raw:=const2) (hmac_sha256:=const2) 1 1 [] [x61]); lia.
Defined.

Lemma verify_accepts_trailing_bytes_example :
  ((1 <= 1 <= 32)%nat /\ (0 < length [x00] < 32)%nat) /\
  exists priv pub sg priv',
    NewXMSSKeyPair const2 const2 const3 const2 1 (Z.of_nat 1) [] = Ok (priv, pub) /\
    Sign const2 const2 const3 const2 priv [x61] = Ok (sg, priv') /\
    Z.of_nat (length (sg ++ [x00])) <> 4 + 32 * (68 + Z.of_nat 1) /\
    Verify const2 const2 const3 const2 pub (sg ++ [x00]) [x61] = Ok true.
Proof.
  split; [split; [lia|cbn; lia]|].
  apply (verify_accepts_trailing_bytes (PRF:=const2) (hashF_raw:=const2) (hashH_raw:=const3)
           (hashMsg_raw:=const2) (hmac_sha256:=const2) 1 1 [] [x61] [x00]);
    [lia|cbn; lia].
Defined.

(** The key pair of height 1 made from the empty seed, and the state of its
    private key. *)
Definition key_example : PrivateKey :=
  priv_of (PRF:=const2) (hashF_raw:=const2) (hashH_raw:=const3) (hmac_sha256:=const2) 1 [].
Definition pub_example : PublicKey :=
  pub_of (PRF:=const2) (hashF_raw:=const2) (hashH_raw:=const3) (hmac_sha256:=const2) 1 [].
Definition state_example : merkle :=
  merkle0 (PRF:=const2) (hashF_raw:=const2) (hashH_raw:=const3)
    (priv:=base_key (hmac_sha256:=const2) 1 []) (layer:=0) (tree:=0) 1.

Lemma sign_bytes_layout_example :
  exists (sg : bytes) (priv' : PrivateKey),
    (priv_m key_example = Some state_example /\
     length (m_auth state_example) = 1%nat /\ Forall block32 (m_auth state_example) /\
     Sign const2 const2 const3 const2 key_example [x61] = Ok (sg, priv')) /\
    exists (r : bytes) (ws : list bytes),
      sg = be32 (m_leaf state_example) ++ r ++ concat ws ++ concat (m_auth state_example) /\
      length r = 32%nat /\ length ws = 67%nat /\ Forall block32 ws /\
      Z.of_nat (length sg) = 4 + 32 * (68 + Z.of_nat 1).
Proof.
  destruct (keygen_first_extra (PRF:=const2) (hashF_raw:=const2) (hashH_raw:=const3)
              (hashMsg_raw:=const2) (hmac_sha256:=const2) 1 [] ltac:(lia) [x61])
    as (sg & priv' & Es & _).
  pose proof (Inv_merkle0 (PRF:=const2) (hashF_raw:=const2) (hashH_raw:=const3)
                (priv:=base_key (hmac_sha256:=const2) 1 []) (layer:=0) (tree:=0) 1
                ltac:(lia)) as (_ & _ & _ & _ & _ & Hla & Hba & _).
  exists sg, priv'.
  assert (Hyp : priv_m key_example = Some state_example) by reflexivity.
  split; [split; [exact Hyp|split; [exact Hla|split; [exact Hba|exact Es]]]|].
  exact (sign_bytes_layout (PRF:=const2) (hashF_raw:=const2) (hashH_raw:=const3)
           (hashMsg_raw:=const2) 1 key_example priv' state_example [x61] sg Hyp Hla Hba Es).
Defined.



Lemma build_rounds_example :
  (1 <= 2 <= 32)%nat /\
  ((forall s, low s = match st_stack s with
                      | [] => st_height s
                      | t :: _ =>
                          if nh_height t =? st_height s then MaxUint32
                          else fold_right Z.min MaxUint32 (map nh_height (st_stack s))
                      end) /\
   exists priv pub sigs privL mkL mk1 mk2 c,
     NewXMSSKeyPair const2 const2 const3 const2 1 (Z.of_nat 2) [] = Ok (priv, pub) /\
     sign_all const2 const2 const3 const2 priv [[x61]] = Ok (sigs, privL) /\
     priv_m privL = Some mkL /\ refreshAuth mkL = Ok mk1 /\
     build_count const2 const2 const3 privL mk1 = Ok (mk2, c) /\
     build const2 const2 const3 privL mk1 = Ok mk2 /\
     rounds (step (PRF:=const2) (hashF_raw:=const2) (hashH_raw:=const3)
               (priv:=base_key (hmac_sha256:=const2) 2 []) (layer:=0) (tree:=0))
       (2 * 2 - 1) (m_stacks mk1) (m_stacks mk2) c /\
     0 <= c <= 2 * Z.of_nat 2 - 1).
Proof.
  split; [lia|].
  apply (build_rounds (PRF:=const2) (hashF_raw:=const2) (hashH_raw:=const3)
           (hashMsg_raw:=const2) (hmac_sha256:=const2) 1 2 [] [[x61]]). lia.
Defined.

(** C7 as stated fails: the first signature of a key of height 2 calls
    [build], which makes one elementary step, not three. *)
Lemma first_build_of_height_2 :
  first_build_steps (PRF:=const2) (hashF_raw:=const2) (hashH_raw:=const3)
    (hmac_sha256:=const2) 2 [] = Ok (1, 3).
Proof. vm_compute. reflexivity. Qed.

Lemma initMerkle_any_workers_example :
  (1 <= 3 <= 32)%nat /\
  (initMerkle const2 const2 const3 1 (Z.of_nat 3) 0 0 (base_key (hmac_sha256:=const2) 3 [])
   = initMerkle const2 const2 const3 4 (Z.of_nat 3) 0 0 (base_key (hmac_sha256:=const2) 3 [])
   /\ exists priv',
        initMerkle const2 const2 const3 1 (Z.of_nat 3) 0 0 (base_key (hmac_sha256:=const2) 3 [])
        = Ok priv').
Proof.
  split; [lia|].
  apply (initMerkle_any_workers (PRF:=const2) (hashF_raw:=const2) (hashH_raw:=const3)
           1 4 3 0 0 (base_key (hmac_sha256:=const2) 3 [])). lia.
Defined.

Lemma signature_index_example :
  exists (sigs : list bytes) (priv' : PrivateKey),
    (NewXMSSKeyPair const2 const2 const3 const2 1 (Z.of_nat 1) []
     = Ok (key_example, pub_example) /\
     sign_all const2 const2 const3 const2 key_example [[x61]; [x62]] = Ok (sigs, priv')) /\
    (length sigs = length [[x61]; [x62]] /\
     (forall i sg, sigs !! i = Some sg -> Uint32 sg = Ok (Z.of_nat i mod 2 ^ 32)) /\
     (forall i j sgi sgj,
         (i < j)%nat -> Z.of_nat j < 2 ^ 32 ->
         sigs !! i = Some sgi -> sigs !! j = Some sgj ->
         Uint32 sgi = Ok (Z.of_nat i) /\ Uint32 sgj = Ok (Z.of_nat j))).
Proof.
  destruct (keygen_sign_all (PRF:=const2) (hashF_raw:=const2) (hashH_raw:=const3)
              (hashMsg_raw:=const2) (hmac_sha256:=const2) 1 [] [[x61]; [x62]] ltac:(lia))
    as (sigs & priv' & E & _).
  pose proof (NewXMSSKeyPair_ok (PRF:=const2) (hashF_raw:=const2) (hashH_raw:=const3)
                (hmac_sha256:=const2) 1 1 [] ltac:(lia)) as Ek.
  exists sigs, priv'. split; [split; [exact Ek|exact E]|].
  exact (signature_index (PRF:=const2) (hashF_raw:=const2) (hashH_raw:=const3)
           (hashMsg_raw:=const2) (hmac_sha256:=const2) 1 (Z.of_nat 1) [] key_example priv'
           pub_example [[x61]; [x62]] sigs Ek E).
Defined.

(** C9 as stated fails: the signature at position [2^32] of a run carries
    the index 0. *)
Lemma index_wraps_after_2_32 :
  exists (seed : bytes) (msgs : list bytes),
    forall (PRF hashF_raw : bytes -> bytes -> bytes)
           (hashH_raw : bytes -> bytes -> bytes -> bytes)
           (hashMsg_raw hmac_sha256 : bytes -> bytes -> bytes),
    exists priv pub sigs priv' sg,
      NewXMSSKeyPair PRF hashF_raw hashH_raw hmac_sha256 1 (Z.of_nat 1) seed = Ok (priv, pub) /\
      sign_all PRF hashF_raw hashH_raw hashMsg_raw priv msgs = Ok (sigs, priv') /\
      sigs !! Z.to_nat (2 ^ 32) = Some sg /\ Uint32 sg = Ok 0.
Proof.
  exists [], (replicate (Z.to_nat (2 ^ 32 + 1)) []).
  intros PRF hashF_raw hashH_raw hashMsg_raw hmac_sha256.
  destruct (keygen_sign_all (PRF:=PRF) (hashF_raw:=hashF_raw) (hashH_raw:=hashH_raw)
              (hashMsg_raw:=hashMsg_raw) (hmac_sha256:=hmac_sha256) 1 []
              (replicate (Z.to_nat (2 ^ 32 + 1)) []) ltac:(lia))
    as (sigs & priv' & E & Hlen & _ & Hall).
  rewrite length_replicate in Hlen.
  destruct (lookup_lt_is_Some_2 sigs (Z.to_nat (2 ^ 32))) as [sg Esg]; [rewrite Hlen; lia|].
  destruct (Hall (Z.to_nat (2 ^ 32)) sg [] Esg) as (_ & T & _).
  { apply lookup_replicate_2. lia. }
  eexists _, _, sigs, priv', sg.
  split; [apply (NewXMSSKeyPair_ok 1 1 []); lia|].
  split; [exact E|]. split; [exact Esg|].
  rewrite (Uint32_take4 sg _ T), Z2Nat.id by lia. reflexivity.
Qed.

(** * What a signature leaves unchanged *)

(** The fields of a key that no signature touches, and the sizes of its
    state. *)
Definition same_key (priv priv' : PrivateKey) : Prop :=
  priv_pub priv' = priv_pub priv /\ msgPRF priv' = msgPRF priv /\
  wotsPRF priv' = wotsPRF priv.

Section Frame.
Context {PRF hashF_raw : bytes -> bytes -> bytes}
        {hashH_raw : bytes -> bytes -> bytes -> bytes}
        {hashMsg_raw hmac_sha256 : bytes -> bytes -> bytes}.

Local Abbreviation goUpdate := (goUpdate PRF hashF_raw hashH_raw).
Local Abbreviation build_round := (build_round PRF hashF_raw hashH_raw).
Local Abbreviation build_loop := (build_loop PRF hashF_raw hashH_raw).
Local Abbreviation build := (build PRF hashF_raw hashH_raw).
Local Abbreviation traverse := (traverse PRF hashF_raw hashH_raw).
Local Abbreviation Sign := (Sign PRF hashF_raw hashH_raw hashMsg_raw).
Local Abbreviation sign_all := (sign_all PRF hashF_raw hashH_raw hashMsg_raw).

Lemma same_frame_refl (mk : merkle) : same_frame mk mk.
Proof. repeat split. Qed.

Lemma same_frame_trans (a b c : merkle) : same_frame a b -> same_frame b c -> same_frame a c.
Proof.
  intros (A1 & A2 & A3 & A4 & A5 & A6) (B1 & B2 & B3 & B4 & B5 & B6).
  unfold same_frame. repeat split; congruence.
Qed.

(** A round of [build] writes one stack and nothing else. *)
Lemma build_round_frame (priv : PrivateKey) (mk mk' : merkle) :
  build_round priv mk = Ok mk' -> same_frame mk mk' /\ m_auth mk' = m_auth mk.
Proof.
  unfold build_round.
  destruct (find_focus _ _ _ _ _) as [[mn focus]| |]; try discriminate. cbn [rbind].
  destruct (m_stacks mk !! Z.to_nat focus) as [s|]; [|discriminate]. cbn [of_option rbind].
  destruct (goUpdate 1 priv s) as [s'| |]; try discriminate. cbn [rbind].
  intros E. inversion E. unfold same_frame, set_stacks. cbn.
  rewrite length_insert. auto 10.
Qed.

Lemma build_loop_frame (priv : PrivateKey) (fuel : nat) :
  forall mk mk', build_loop fuel priv mk = Ok mk' ->
                 same_frame mk mk' /\ m_auth mk' = m_auth mk.
Proof.
  induction fuel as [|f IH]; intros mk mk' E; cbn [build_loop] in E.
  - inversion E. split; [apply same_frame_refl|reflexivity].
  - destruct (build_round priv mk) as [mk1| |] eqn:E1; try discriminate.
    cbn [rbind] in E. destruct (IH _ _ E) as [F A].
    destruct (build_round_frame priv mk mk1 E1) as [F1 A1].
    split; [exact (same_frame_trans _ _ _ F1 F)|congruence].
Qed.

Lemma refreshAuth_frame (mk mk' : merkle) : refreshAuth mk = Ok mk' -> same_frame mk mk'.
Proof.
  unfold refreshAuth. change 0 with (Z.of_nat 0). intros E.
  exact (proj1 (refreshAuth_loop_spec _ _ _ _ E)).
Qed.

(** [traverse] keeps the keys and the sizes of the state, and moves to the
    next leaf. *)
Lemma traverse_frame (priv priv' : PrivateKey) (mk : merkle) :
  priv_m priv = Some mk -> traverse priv = Ok priv' ->
  same_key priv priv' /\
  exists mk', priv_m priv' = Some mk' /\ m_leaf mk' = u32 (m_leaf mk + 1) /\
              m_height mk' = m_height mk /\ m_layer mk' = m_layer mk /\
              m_tree mk' = m_tree mk /\
              length (m_stacks mk') = length (m_stacks mk) /\
              length (m_auth mk') = length (m_auth mk).
Proof.
  intros Em. unfold traverse. rewrite Em. cbn [of_option rbind].
  destruct (refreshAuth mk) as [mk1| |] eqn:E1; try discriminate. cbn [rbind].
  destruct (build priv mk1) as [mk2| |] eqn:E2; try discriminate. cbn [rbind].
  intros E. inversion E; subst priv'. clear E.
  split; [repeat split|]. eexists. split; [reflexivity|]. cbn.
  destruct (refreshAuth_frame _ _ E1) as (A1 & A2 & A3 & A4 & A5 & A6).
  destruct (build_loop_frame _ _ _ _ E2) as [(B1 & B2 & B3 & B4 & B5 & B6) _].
  rewrite B1, B2, B3, B4, B5, B6, A1, A2, A3, A4, A5, A6. auto 10.
Qed.

Lemma Sign_frame (priv priv' : PrivateKey) (mk : merkle) (msg sg : bytes) :
  priv_m priv = Some mk -> Sign priv msg = Ok (sg, priv') ->
  same_key priv priv' /\
  exists mk', priv_m priv' = Some mk' /\ m_leaf mk' = u32 (m_leaf mk + 1) /\
              m_height mk' = m_height mk /\ m_layer mk' = m_layer mk /\
              m_tree mk' = m_tree mk /\
              length (m_stacks mk') = length (m_stacks mk) /\
              length (m_auth mk') = length (m_auth mk).
Proof.
  intros Em. unfold Sign. rewrite Em. cbn [of_option rbind].
  match goal with |- context [sig_bytes ?x] => destruct (sig_bytes x) as [b| |] end;
    try discriminate.
  cbn [rbind]. destruct (traverse priv) as [p1| |] eqn:Et; try discriminate.
  cbn [rbind]. intros E. inversion E; subst sg priv'. clear E.
  exact (traverse_frame priv p1 mk Em Et).
Qed.

(** [Sign] returns only on a key that has a state. *)
Lemma Sign_state (priv priv' : PrivateKey) (msg sg : bytes) :
  Sign priv msg = Ok (sg, priv') -> exists mk, priv_m priv = Some mk.
Proof.
  unfold Sign. destruct (priv_m priv) as [mk|]; [eauto|discriminate].
Qed.

Lemma same_key_trans (a b c : PrivateKey) : same_key a b -> same_key b c -> same_key a c.
Proof.
  intros (A1 & A2 & A3) (B1 & B2 & B3). unfold same_key. repeat split; congruence.
Qed.

(** A run of signatures keeps the keys and the sizes of the state. *)
Lemma sign_all_frame (msgs : list bytes) :
  forall (priv priv' : PrivateKey) (mk : merkle) (sigs : list bytes),
    priv_m priv = Some mk -> sign_all priv msgs = Ok (sigs, priv') ->
    same_key priv priv' /\
    exists mk', priv_m priv' = Some mk' /\
                u32 (m_leaf mk') = u32 (m_leaf mk + Z.of_nat (length msgs)) /\
                m_height mk' = m_height mk /\ m_layer mk' = m_layer mk /\
                m_tree mk' = m_tree mk /\
                length (m_stacks mk') = length (m_stacks mk) /\
                length (m_auth mk') = length (m_auth mk).
Proof.
  induction msgs as [|m rest IH]; intros priv priv' mk sigs Em E; cbn [sign_all] in E.
  - inversion E; subst. split; [repeat split|]. exists mk.
    change (Z.of_nat (length [])) with 0. rewrite Z.add_0_r. auto 10.
  - destruct (Sign priv m) as [[sg0 p1]| |] eqn:E1; try discriminate. cbn [rbind] in E.
    destruct (sign_all p1 rest) as [[sgs p2]| |] eqn:E2; try discriminate. cbn [rbind] in E.
    inversion E; subst sigs priv'. clear E.
    destruct (Sign_frame priv p1 mk m sg0 Em E1)
      as (K1 & mk1 & Em1 & L1 & H1 & Y1 & T1 & S1 & A1).
    destruct (IH p1 p2 mk1 sgs Em1 E2) as (K2 & mk2 & Em2 & L2 & H2 & Y2 & T2 & S2 & A2).
    split; [exact (same_key_trans _ _ _ K1 K2)|]. exists mk2.
    split; [exact Em2|]. split.
    + rewrite L2, L1, u32_add_l. f_equal. cbn [length]. lia.
    + repeat split; congruence.
Qed.

(** A run that made a signature started from a key with a state. *)
Lemma sign_all_state (msgs : list bytes) (priv priv' : PrivateKey) (sigs : list bytes) :
  sign_all priv msgs = Ok (sigs, priv') -> sigs <> [] -> exists mk, priv_m priv = Some mk.
Proof.
  destruct msgs as [|m rest]; cbn [sign_all]; intros E Hne.
  - inversion E; subst. contradiction.
  - destruct (Sign priv m) as [[sg0 p1]| |] eqn:E1; try discriminate.
    exact (Sign_state _ _ _ _ E1).
Qed.

Lemma sign_all_same_key (msgs : list bytes) (priv priv' : PrivateKey) (sigs : list bytes) :
  sign_all priv msgs = Ok (sigs, priv') -> same_key priv priv'.
Proof.
  destruct msgs as [|m rest] eqn:Em; intros E.
  - cbn [sign_all] in E. inversion E; subst. repeat split.
  - assert (Hne : sigs <> []).
    { cbn [sign_all] in E.
      destruct (Sign priv m) as [[sg0 p1]| |]; try discriminate. cbn [rbind] in E.
      destruct (sign_all p1 rest) as [[sgs p2]| |]; try discriminate. cbn [rbind] in E.
      inversion E. discriminate. }
    destruct (sign_all_state _ _ _ _ E Hne) as [mk Ek].
    exact (proj1 (sign_all_frame _ _ _ _ _ Ek E)).
Qed.

End Frame.

(** * More on the states of a key *)

(** ** The size of a stack *)

Lemma lefts_length (k : Z) (l : list nh) :
  forall m, 0 <= m -> lefts k m l -> Z.of_nat (length l) <= Z.max 0 (k - m).
Proof.
  induction l as [|nd rest IH]; intros m Hm Hl; cbn [length].
  - lia.
  - cbn [lefts] in Hl. destruct Hl as (Hh & _ & Hr).
    specialize (IH (nh_height nd + 1) ltac:(lia) Hr). lia.
Qed.

(** A stack with target height [k] holds at most [k + 1] nodes. *)
Lemma shape_length (k : Z) (l : list nh) :
  0 <= k -> shape k l -> Z.of_nat (length l) <= k + 1.
Proof.
  intros Hk Hs. destruct Hs as [l Hl|a b rest Hb _ _ Hl|nd _].
  - pose proof (lefts_length k l 0 ltac:(lia) Hl). lia.
  - pose proof (lefts_length k (b :: rest) (nh_height b) Hb Hl) as B.
    cbn [length] in *. lia.
  - cbn [length]. lia.
Qed.

(** ** When refreshAuth panics *)

(** Entry [i] of the state can be refreshed: the stack is there and holds a
    node, and so is the entry of the path. *)
Definition has_top (mk : merkle) (i : nat) : Prop :=
  exists s t, m_stacks mk !! i = Some s /\ top s = Ok t /\ (i < length (m_auth mk))%nat.

Lemma refreshAuth_loop_panic (fuel : nat) :
  forall (h : nat) (mk : merkle) (i : nat),
    (h <= i < h + fuel)%nat -> refresh_due (m_leaf mk) (Z.of_nat i) = true ->
    ~ has_top mk i ->
    refreshAuth_loop fuel (Z.of_nat h) mk = Panic.
Proof.
  induction fuel as [|f IH]; intros h mk i Hi Hdue Hno; cbn [refreshAuth_loop]; [lia|].
  fold (refresh_due (m_leaf mk) (Z.of_nat h)).
  replace (Z.of_nat h + 1) with (Z.of_nat (S h)) by lia.
  destruct (refresh_due (m_leaf mk) (Z.of_nat h)) eqn:Hd.
  - rewrite Nat2Z.id.
    destruct (m_stacks mk !! h) as [s|] eqn:Es; cbn [of_option rbind]; [|reflexivity].
    destruct (top s) as [t|e|] eqn:Et; cbn [rbind]; [| |reflexivity].
    2:{ unfold top in Et. destruct (st_stack s); discriminate. }
    destruct (m_auth mk !! h) as [a0|] eqn:Ea; cbn [of_option rbind]; [|reflexivity].
    destruct (Nat.eq_dec i h) as [->|Hne].
    + exfalso. apply Hno. exists s, t. split; [exact Es|]. split; [exact Et|].
      apply lookup_lt_Some in Ea. exact Ea.
    + apply (IH (S h) _ i); [lia|exact Hdue|].
      intros (s' & t' & Es' & Et' & Ha'). apply Hno. cbn [m_stacks m_auth] in Es', Ha'.
      rewrite list_lookup_insert_ne in Es' by lia. rewrite length_insert in Ha'.
      exists s', t'. auto.
  - destruct (Nat.eq_dec i h) as [->|Hne]; [congruence|].
    apply (IH (S h) mk i); [lia|exact Hdue|exact Hno].
Qed.

Lemma top_not_error (s : stack) (e : string) : top s <> Error e.
Proof. unfold top. destruct (st_stack s); discriminate. Qed.

Lemma refreshAuth_loop_not_error (fuel : nat) :
  forall (h : Z) (mk : merkle) (e : string), refreshAuth_loop fuel h mk <> Error e.
Proof.
  induction fuel as [|f IH]; intros h mk e; cbn [refreshAuth_loop]; [discriminate|].
  destruct (Z.land _ _ =? 0); [|apply IH].
  destruct (m_stacks mk !! Z.to_nat h) as [s|]; cbn [of_option rbind]; [|discriminate].
  destruct (top s) as [t|e0|] eqn:Et; cbn [rbind]; [| |discriminate].
  2:{ exfalso. exact (top_not_error _ _ Et). }
  destruct (m_auth mk !! Z.to_nat h); cbn [of_option rbind]; [apply IH|discriminate].
Qed.

Lemma refreshAuth_loop_panic_inv (fuel : nat) :
  forall (h : nat) (mk : merkle),
    refreshAuth_loop fuel (Z.of_nat h) mk = Panic ->
    exists i, (h <= i < h + fuel)%nat /\ refresh_due (m_leaf mk) (Z.of_nat i) = true /\
              ~ has_top mk i.
Proof.
  induction fuel as [|f IH]; intros h mk; cbn [refreshAuth_loop]; [discriminate|].
  fold (refresh_due (m_leaf mk) (Z.of_nat h)).
  replace (Z.of_nat h + 1) with (Z.of_nat (S h)) by lia.
  destruct (refresh_due (m_leaf mk) (Z.of_nat h)) eqn:Hd.
  - rewrite Nat2Z.id.
    destruct (m_stacks mk !! h) as [s|] eqn:Es; cbn [of_option rbind].
    2:{ intros _. exists h. split; [lia|]. split; [exact Hd|].
        intros (s' & t' & Es' & _). congruence. }
    destruct (top s) as [t|e|] eqn:Et; cbn [rbind].
    2:{ discriminate. }
    2:{ intros _. exists h. split; [lia|]. split; [exact Hd|].
        intros (s' & t' & Es' & Et' & _). congruence. }
    destruct (m_auth mk !! h) as [a0|] eqn:Ea; cbn [of_option rbind].
    2:{ intros _. exists h. split; [lia|]. split; [exact Hd|].
        intros (s' & t' & _ & _ & Ha'). apply lookup_ge_None in Ea. lia. }
    intros E. destruct (IH (S h) _ E) as (i & Hi & Hdue & Hno). cbn [m_leaf] in Hdue.
    exists i. split; [lia|]. split; [exact Hdue|].
    intros (s' & t' & Es' & Et' & Ha'). apply Hno. exists s', t'.
    cbn [m_stacks m_auth]. rewrite list_lookup_insert_ne by lia. rewrite length_insert. auto.
  - intros E. destruct (IH (S h) _ E) as (i & Hi & Hdue & Hno).
    exists i. split; [lia|]. auto.
Qed.

(** ** Every byte string of the right length is the layout of a signature *)

Lemma byte_high_bits (b : byte) (k : Z) : 8 <= k -> Z.testbit (Z_of_byte b) k = false.
Proof.
  intros Hk. pose proof (Z_of_byte_range b) as B.
  rewrite <- (Z.mod_small (Z_of_byte b) (2 ^ 8)) by (change (2 ^ 8) with 256; lia).
  rewrite Z.testbit_mod_pow2 by lia.
  destruct (Z.ltb_spec k 8); [lia|reflexivity].
Qed.

(** The byte of a 32-bit word made of four bytes, at the shift [s]. *)
Lemma byte_of_word (b0 b1 b2 b3 : byte) (s : Z) (b : byte) :
  (s = 24 /\ b = b0) \/ (s = 16 /\ b = b1) \/ (s = 8 /\ b = b2) \/ (s = 0 /\ b = b3) ->
  byte_of_Z (Z.shiftr (Z.lor (Z.shiftl (Z_of_byte b0) 24)
                         (Z.lor (Z.shiftl (Z_of_byte b1) 16)
                            (Z.lor (Z.shiftl (Z_of_byte b2) 8) (Z_of_byte b3)))) s)
  = b.
Proof.
  intros Hs. rewrite <- (byte_of_Z_of_byte b). unfold byte_of_Z.
  match goal with |- match Byte.of_N (Z.to_N ?x) with _ => _ end
                     = match Byte.of_N (Z.to_N ?y) with _ => _ end =>
    replace x with y; [reflexivity|] end.
  pose proof (Z_of_byte_range b) as B. rewrite (Z.mod_small (Z_of_byte b)) by lia.
  change 256 with (2 ^ 8). apply Z.bits_inj'. intros k Hk.
  rewrite Z.testbit_mod_pow2 by lia.
  destruct (Z.ltb_spec k 8) as [Hk8|Hk8]; [|apply byte_high_bits; lia].
  rewrite Z.shiftr_spec by lia. rewrite !Z.lor_spec.
  assert (T : forall (x : byte) (t : Z), t = 24 \/ t = 16 \/ t = 8 ->
            Z.testbit (Z.shiftl (Z_of_byte x) t) (k + s)
            = if t =? s then Z.testbit (Z_of_byte x) k else false).
  { intros x t Ht. destruct (Z.eqb_spec t s) as [->|Hne].
    - rewrite Z.shiftl_spec by lia. f_equal. lia.
    - destruct (Z.lt_ge_cases (k + s) t).
      + apply Z.shiftl_spec_low. lia.
      + rewrite Z.shiftl_spec by lia.
        destruct (Z.lt_ge_cases (k + s - t) 0); [apply Z.testbit_neg_r; lia|].
        apply byte_high_bits.
        destruct Hs as [[-> _]|[[-> _]|[[-> _]|[-> _]]]]; lia. }
  rewrite !T by auto.
  replace (Z.testbit (Z_of_byte b3) (k + s))
    with (if 0 =? s then Z.testbit (Z_of_byte b3) k else false).
  2:{ destruct (Z.eqb_spec 0 s) as [<-|Hne]; [f_equal; lia|].
      symmetry. apply byte_high_bits.
      destruct Hs as [[-> _]|[[-> _]|[[-> _]|[-> _]]]]; lia. }
  destruct Hs as [[-> ->]|[[-> ->]|[[-> ->]|[-> ->]]]]; cbn [Z.eqb Pos.eqb];
    now rewrite ?orb_false_r, ?orb_false_l.
Qed.

(** Four bytes are the bytes of the value that [Uint32] reads from them. *)
Lemma be32_Uint32 (b0 b1 b2 b3 : byte) (rest : bytes) (v : Z) :
  Uint32 (b0 :: b1 :: b2 :: b3 :: rest) = Ok v -> be32 v = [b0; b1; b2; b3].
Proof.
  cbn [Uint32]. intros E. inversion E as [Ev]. clear E Ev. unfold be32.
  rewrite (byte_of_word b0 b1 b2 b3 24 b0) by auto.
  rewrite (byte_of_word b0 b1 b2 b3 16 b1) by auto.
  rewrite (byte_of_word b0 b1 b2 b3 8 b2) by auto.
  rewrite <- (Z.shiftr_0_r (Z.lor _ _)).
  rewrite (byte_of_word b0 b1 b2 b3 0 b3) by auto 6.
  reflexivity.
Qed.

(** A byte string of [32 * k] bytes is the concatenation of [k] blocks. *)
Lemma blocks_of_bytes (k : nat) :
  forall l : bytes, length l = (32 * k)%nat ->
    exists bl, length bl = k /\ Forall block32 bl /\ concat bl = l.
Proof.
  induction k as [|k IH]; intros l Hl.
  - exists []. destruct l; [auto|discriminate].
  - destruct (IH (drop 32 l)) as (bl & Hb & Hf & Hc); [rewrite length_drop; lia|].
    exists (take 32 l :: bl). split; [cbn; now rewrite Hb|]. split.
    + constructor; [|exact Hf]. unfold block32. rewrite length_take. lia.
    + cbn [concat]. rewrite Hc. apply take_drop.
Qed.

(** The parts of a byte string that has the length of a signature of
    height [h]. *)
Lemma layout_of_bytes (b : bytes) (h : nat) :
  Z.of_nat (length b) = 4 + 32 * (68 + Z.of_nat h) ->
  exists (idx : Z) (rr : bytes) (sg au : list bytes),
    b = be32 idx ++ rr ++ concat sg ++ concat au /\
    0 <= idx < 2 ^ 32 /\ block32 rr /\ length sg = 67%nat /\ Forall block32 sg /\
    length au = h /\ Forall block32 au.
Proof.
  intros Hl.
  destruct b as [|b0 [|b1 [|b2 [|b3 b']]]]; cbn [length] in Hl; try lia.
  destruct (Uint32 (b0 :: b1 :: b2 :: b3 :: b')) as [v|e|] eqn:Ev; try discriminate.
  pose proof (be32_Uint32 _ _ _ _ _ _ Ev) as Eb.
  assert (Hv : u32 v = v).
  { pose proof (Uint32_be32 v b') as U. rewrite Eb in U. cbn [app] in U.
    congruence. }
  destruct (blocks_of_bytes 67 (take (32 * 67) (drop 32 b'))) as (sg & Ls & Fs & Cs);
    [rewrite length_take, length_drop; lia|].
  destruct (blocks_of_bytes h (drop (32 * 67) (drop 32 b'))) as (au & La & Fa & Ca);
    [rewrite !length_drop; lia|].
  exists v, (take 32 b'), sg, au.
  split; [|split; [rewrite <- Hv; apply u32_range|split;
            [unfold block32; rewrite length_take; lia|auto]]].
  rewrite Eb, Cs, Ca. cbn [app]. do 4 f_equal.
  now rewrite take_drop, take_drop.
Qed.

(** The height that [bytes2sig] reads from the length, with up to 31 bytes
    after the last block. *)
Lemma sig_height_extra (b extra : bytes) (h : nat) :
  Z.of_nat (length b) = 4 + 32 * (68 + Z.of_nat h) -> (length extra < 32)%nat ->
  sig_height (b ++ extra) = Z.of_nat h.
Proof.
  intros Hl He. unfold sig_height, n, wlen. rewrite length_app, Nat2Z.inj_add, Hl.
  replace (4 + 32 * (68 + Z.of_nat h) + Z.of_nat (length extra) - (4 + 32 + 67 * 32))
    with (Z.of_nat (length extra) + Z.of_nat h * 2 ^ 5) by lia.
  rewrite Z.shiftr_div_pow2 by lia. rewrite Z.div_add by lia.
  rewrite Z.div_small by lia. lia.
Qed.

(** [bytes2sig] does not see the bytes after the last block. *)
Lemma bytes2sig_extra (b extra : bytes) (h : nat) (h' : Z) :
  Z.of_nat (length b) = 4 + 32 * (68 + Z.of_nat h) -> (length extra < 32)%nat ->
  bytes2sig (b ++ extra) h' = bytes2sig b h'.
Proof.
  intros Hl He.
  pose proof (sig_height_extra b extra h Hl He) as E1.
  pose proof (sig_height_extra b [] h Hl ltac:(cbn; lia)) as E2. rewrite app_nil_r in E2.
  destruct (Z.eq_dec h' (Z.of_nat h)) as [->|Hne].
  - destruct (layout_of_bytes b h Hl) as (idx & rr & sg & au & -> & _ & Hr & Ls & Fs & La & Fa).
    rewrite <- !app_assoc.
    rewrite (bytes2sig_layout idx (Z.of_nat h) rr sg au extra Hr Ls Fs Fa He) by lia.
    pose proof (bytes2sig_layout idx (Z.of_nat h) rr sg au [] Hr Ls Fs Fa ltac:(cbn; lia)
                  ltac:(lia)) as E.
    rewrite app_nil_r in E. now rewrite E.
  - unfold bytes2sig. fold (sig_height (b ++ extra)). fold (sig_height b).
    rewrite E1, E2. destruct (Z.eqb_spec (Z.of_nat h) h'); [lia|reflexivity].
Qed.

(** ** The serialisation reports no error *)

Lemma copy_blocks_not_error (blocks : list bytes) :
  forall (off : Z) (dst : bytes) (e : string), copy_blocks off blocks dst <> Error e.
Proof.
  induction blocks as [|b bl IH]; intros off dst e; cbn [copy_blocks]; [discriminate|].
  unfold copy_to. destruct ((0 <=? off) && (off <=? Z.of_nat (length dst)));
    cbn [rbind]; [apply IH|discriminate].
Qed.

Lemma sig_bytes_not_error (x : xmssSig) (e : string) : sig_bytes x <> Error e.
Proof.
  unfold sig_bytes, copy_to.
  match goal with |- context [(0 <=? 4) && ?c] => destruct ((0 <=? 4) && c) end;
    cbn [rbind]; [|discriminate].
  destruct (sigBody_bytes (sig_body x)) as [sb|e'|] eqn:Eb; cbn [rbind].
  - match goal with |- context [(0 <=? 4 + n) && ?c] => destruct ((0 <=? 4 + n) && c) end;
      discriminate.
  - exfalso. unfold sigBody_bytes in Eb.
    match type of Eb with (rbind ?r _ = _) => destruct r as [d|e0|] eqn:E0 end;
      cbn [rbind] in Eb.
    + exact (copy_blocks_not_error _ _ _ _ Eb).
    + exact (copy_blocks_not_error _ _ _ _ E0).
    + discriminate.
  - discriminate.
Qed.

Section State.
Context {PRF hashF_raw : bytes -> bytes -> bytes}
        {hashH_raw : bytes -> bytes -> bytes -> bytes}
        {hashMsg_raw hmac_sha256 : bytes -> bytes -> bytes}.

Local Abbreviation initMerkle := (initMerkle PRF hashF_raw hashH_raw).
Local Abbreviation build_round := (build_round PRF hashF_raw hashH_raw).
Local Abbreviation build_loop := (build_loop PRF hashF_raw hashH_raw).
Local Abbreviation build := (build PRF hashF_raw hashH_raw).
Local Abbreviation traverse := (traverse PRF hashF_raw hashH_raw).
Local Abbreviation Sign := (Sign PRF hashF_raw hashH_raw hashMsg_raw).
Local Abbreviation Import := (Import PRF hashF_raw hashH_raw).

(** ** The L-tree needs a whole WOTS+ key *)

Local Abbreviation ltree_row := (ltree_row PRF hashH_raw).
Local Abbreviation ltree_loop := (ltree_loop PRF hashH_raw).
Local Abbreviation ltree := (ltree PRF hashH_raw).

Lemma ltree_row_length (p : prf) (half : Z) (fuel : nat) :
  forall (i : Z) (pk pk' : list bytes) (a a' : addr),
    ltree_row fuel i half p pk a = Ok (pk', a') -> length pk' = length pk.
Proof.
  induction fuel as [|f IH]; intros i pk pk' a a'; cbn [ltree_row].
  - intros E. now inversion E.
  - destruct (i <? half); [|intros E; now inversion E].
    destruct (pk !! Z.to_nat (2 * i)) as [x0|]; cbn [of_option rbind]; [|discriminate].
    destruct (pk !! Z.to_nat (2 * i + 1)) as [x1|]; cbn [of_option rbind]; [|discriminate].
    destruct (pk !! Z.to_nat i) as [x2|]; cbn [of_option rbind]; [|discriminate].
    destruct (randHash _ _ _ _ _ _) as [out a1]. intros E.
    rewrite (IH _ _ _ _ _ E). apply length_insert.
Qed.

Lemma ltree_row_not_error (p : prf) (half : Z) (fuel : nat) :
  forall (i : Z) (pk : list bytes) (a : addr) (e : string),
    ltree_row fuel i half p pk a <> Error e.
Proof.
  induction fuel as [|f IH]; intros i pk a e; cbn [ltree_row]; [discriminate|].
  destruct (i <? half); [|discriminate].
  destruct (pk !! Z.to_nat (2 * i)) as [x0|]; cbn [of_option rbind]; [|discriminate].
  destruct (pk !! Z.to_nat (2 * i + 1)) as [x1|]; cbn [of_option rbind]; [|discriminate].
  destruct (pk !! Z.to_nat i) as [x2|]; cbn [of_option rbind]; [|discriminate].
  destruct (randHash _ _ _ _ _ _) as [out a1]. apply IH.
Qed.

(** With fewer than 67 blocks the first level of the L-tree reads a block
    that is not there. *)
Lemma ltree_short (pk : list bytes) (p : prf) (a : addr) :
  (length pk < 67)%nat -> ltree pk p a = Panic.
Proof.
  intros Hl. unfold ltree. change (Z.to_nat wlen) with (S 66). unfold wlen.
  generalize 66%nat. intros fuel.
  cbn [ltree_loop]. change (1 <? 67) with true. cbv iota.
  change (Z.shiftr 67 1) with 33. change (Z.to_nat 33) with 33%nat.
  destruct (ltree_row 33 0 33 p pk (set adrHeight 0 a)) as [[pk1 a1]|e|] eqn:E1;
    cbn [rbind]; [| |reflexivity].
  - apply ltree_row_length in E1.
    change (Z.land 67 1 =? 1) with true. cbv iota. change (Z.to_nat (67 - 1)) with 66%nat.
    rewrite (lookup_ge_None_2 pk1 66) by lia. reflexivity.
  - exfalso. exact (ltree_row_not_error _ _ _ _ _ _ _ E1).
Qed.

(** With 67 blocks or more it returns a node of 32 bytes. *)
Lemma ltree_long (pk : list bytes) (p : prf) (a : addr) :
  (67 <= length pk)%nat -> exists r0 a', ltree pk p a = Ok (r0, a').
Proof.
  intros L. unfold ltree.
  destruct (ltree_loop_ok (PRF:=PRF) (hashH_raw:=hashH_raw) p (Z.to_nat wlen) wlen 0 pk
              (set adrHeight 0 a)) as (pk' & a' & E & L'); [unfold wlen; lia|].
  rewrite E. cbn [rbind].
  destruct (lookup_lt_is_Some_2 pk' 0%nat) as [x0 E0]; [lia|].
  rewrite E0. cbn [of_option rbind]. eauto.
Qed.

(** ** The tree depends on the key through its seeds only *)

Section SameSeeds.
Variables (p1 p2 : PrivateKey) (layer tree : Z).
Hypothesis Ew : wotsPRF p1 = wotsPRF p2.
Hypothesis Es : publicSeed (priv_pub p1) = publicSeed (priv_pub p2).

Local Abbreviation tree_node1 := (@tree_node PRF hashF_raw hashH_raw p1 layer tree).
Local Abbreviation tree_node2 := (@tree_node PRF hashF_raw hashH_raw p2 layer tree).

Lemma tree_node_seeds (h : nat) : forall j, tree_node1 h j = tree_node2 h j.
Proof.
  induction h as [|h IH]; intros j; cbn [tree_node].
  - unfold leafOf. rewrite Ew, Es. reflexivity.
  - unfold node_hash. rewrite !IH, Es. reflexivity.
Qed.

Lemma merkle0_seeds (h : nat) :
  merkle0 (PRF:=PRF) (hashF_raw:=hashF_raw) (hashH_raw:=hashH_raw)
    (priv:=p1) (layer:=layer) (tree:=tree) h
  = merkle0 (PRF:=PRF) (hashF_raw:=hashF_raw) (hashH_raw:=hashH_raw)
      (priv:=p2) (layer:=layer) (tree:=tree) h.
Proof.
  unfold merkle0. f_equal.
  - apply map_ext. intros i. unfold stack0, node_at. now rewrite tree_node_seeds.
  - apply map_ext. intros i. apply tree_node_seeds.
Qed.

End SameSeeds.

Local Abbreviation priv_of := (@priv_of PRF hashF_raw hashH_raw hmac_sha256).
Local Abbreviation base_key := (@base_key hmac_sha256).

(** ** Import of a key's own export *)

(** [Import] rebuilds the state of a new key from the seeds: a key that
    imports its own export is again the key that key generation returned. *)
Lemma Import_own_export (ncpu : Z) (H : nat) (seed : bytes) (priv1 : PrivateKey)
    (mk1 : merkle) :
  (1 <= H <= 32)%nat -> same_key (priv_of H seed) priv1 -> priv_m priv1 = Some mk1 ->
  exists ex, Export priv1 = Ok ex /\ Index ex = m_leaf mk1 /\
             Import ncpu priv1 ex = Ok (priv_of H seed).
Proof.
  intros HH (K1 & K2 & K3) Em. unfold Export. rewrite Em. cbn [of_option rbind].
  eexists. split; [reflexivity|]. split; [reflexivity|].
  unfold Import. cbn [e_pub e_params PublicSeed Root Index SecretKeyPRF SecretKeySeed].
  rewrite Em. cbn [of_option rbind]. rewrite K1, K2, K3.
  cbn [priv_of key_with priv_pub msgPRF wotsPRF base_key set_root pub_params publicSeed root
       prf_seed Height].
  match goal with |- initMerkle _ _ _ _ ?p = _ => set (p2 := p) end.
  rewrite (initMerkle_any (PRF:=PRF) (hashF_raw:=hashF_raw) (hashH_raw:=hashH_raw)
             (priv:=p2) (layer:=0) (tree:=0) ncpu H HH).
  assert (Et : forall h j,
             tree_node (PRF:=PRF) (hashF_raw:=hashF_raw) (hashH_raw:=hashH_raw)
               (priv:=p2) (layer:=0) (tree:=0) h j
             = tree_node (PRF:=PRF) (hashF_raw:=hashF_raw) (hashH_raw:=hashH_raw)
                 (priv:=base_key H seed) (layer:=0) (tree:=0) h j).
  { intros h j. apply tree_node_seeds; reflexivity. }
  rewrite (merkle0_seeds p2 (base_key H seed) 0 0 eq_refl eq_refl H), Et.
  rewrite copy_at_0_full
    by (subst p2; cbn [priv_pub root];
        rewrite length_root_of; apply length_tree_node).
  reflexivity.
Qed.

(** ** A tree of height 0 *)

Lemma nproc_of_0 (ncpu : Z) : nproc_of ncpu 0 = 0.
Proof.
  unfold nproc_of.
  match goal with |- (if 0 <=? ?x then _ else _) = _ => destruct (Z.leb_spec 0 x) as [|G] end;
    [reflexivity|exfalso].
  destruct (negb _); pose proof (u32_range (Z.log2 ncpu));
    pose proof (u32_range (u32 (Z.log2 ncpu) + 1)); lia.
Qed.

(** Key generation for height 0: the root is the one leaf, and the state
    has neither stacks nor path nodes. *)
Lemma initMerkle_height_0 (ncpu : Z) (priv : PrivateKey) (layer tree : Z) :
  initMerkle ncpu 0 layer tree priv
  = Ok (mkPrivateKey
          (set_root (priv_pub priv)
             (copy_at 0 (leafOf (PRF:=PRF) (hashF_raw:=hashF_raw) (hashH_raw:=hashH_raw)
                           (priv:=priv) (layer:=layer) (tree:=tree) 0)
                (root (priv_pub priv))))
          (msgPRF priv) (wotsPRF priv) (Some (mkMerkle 0 0 [] [] layer tree))).
Proof.
  unfold initMerkle. rewrite nproc_of_0.
  change (Z.to_nat (shl32 1 0 - 1)) with 0%nat. cbn [workers rbind].
  change (Z.to_nat 0) with 0%nat. cbn [initMerkle_loop rbind].
  rewrite (update_spec (PRF:=PRF) (hashF_raw:=hashF_raw) (hashH_raw:=hashH_raw)
             (priv:=priv) (layer:=layer) (tree:=tree) 1 (mkStack [] 0 0 layer tree)
             eq_refl eq_refl).
  cbn [rbind]. reflexivity.
Qed.

(** [build] on a state of height 0 runs [2 * 0 - 1] rounds, as a [uint32],
    and the first one reads a stack that is not there. *)
Lemma traverse_height_0 (priv : PrivateKey) (mk : merkle) :
  priv_m priv = Some mk -> m_height mk = 0 -> m_stacks mk = [] -> traverse priv = Panic.
Proof.
  intros Em Eh Es. unfold traverse. rewrite Em. cbn [of_option rbind].
  unfold refreshAuth. rewrite Eh. change (Z.to_nat 0) with 0%nat.
  cbn [refreshAuth_loop rbind]. unfold build. rewrite Eh.
  change (u32 (u32 (2 * 0) - 1)) with 4294967295.
  destruct (Z.to_nat 4294967295) as [|fuel] eqn:Ef; [lia|].
  cbn [build_loop]. unfold build_round at 1. rewrite Eh, Es.
  change (Z.to_nat 0) with 0%nat. cbn [find_focus rbind]. reflexivity.
Qed.

Lemma Sign_height_0 (priv : PrivateKey) (mk : merkle) (msg : bytes) :
  priv_m priv = Some mk -> m_height mk = 0 -> m_stacks mk = [] -> Sign priv msg = Panic.
Proof.
  intros Em Eh Es. unfold Sign. rewrite Em. cbn [of_option rbind].
  rewrite (traverse_height_0 priv mk Em Eh Es).
  match goal with |- context [sig_bytes ?x] =>
    pose proof (sig_bytes_not_error x) as Hne; destruct (sig_bytes x) as [b|e|] end;
    cbn [rbind]; [reflexivity| |reflexivity].
  exfalso. exact (Hne e eq_refl).
Qed.

(** ** The stacks between two signatures *)

Section Complete.
Context {priv : PrivateKey} {layer tree : Z}.
Variable H : nat.

Local Abbreviation tree_node := (@tree_node PRF hashF_raw hashH_raw priv layer tree).
Local Abbreviation node_at := (@node_at PRF hashF_raw hashH_raw priv layer tree).
Local Abbreviation TS := (@TS PRF hashF_raw hashH_raw priv layer tree).
Local Abbreviation Inv := (@Inv PRF hashF_raw hashH_raw priv layer tree H).

(** A stack that is done holds the node it was started for and nothing
    else. *)
Lemma TS_done_stack (k start : Z) (s : stack) :
  TS k start s -> done s = true ->
  st_stack s = [node_at (Z.to_nat k) (start / 2 ^ k)].
Proof.
  intros HT Hd. destruct (TS_facts _ _ _ HT) as (Ek & Hsh & Hk & _ & _).
  apply (done_iff k s Ek Hsh) in Hd. destruct Hd as (nd & Es & Hnd).
  destruct HT as (_ & _ & _ & _ & _ & _ & _ & cur & _ & Hc & _).
  rewrite Es in Hc. cbn in Hc. destruct Hc as ((H0 & H1 & Hv) & _ & Hst).
  rewrite Es. f_equal. unfold node_at. rewrite <- Hst, Hnd.
  rewrite Z.div_mul by (apply Z.pow_nonzero; lia).
  destruct nd as [v hg ix]. cbn in *. subst hg. rewrite Hv, Z2Nat.id by lia. reflexivity.
Qed.

(** The stack whose node [refreshAuth] takes at the next signature is done:
    the rounds of [build] made so far were enough. *)
Lemma Inv_due (L : Z) (mk : merkle) (i : nat) :
  (1 <= H <= 32)%nat -> Inv L mk -> (i < H)%nat -> (L + 1) mod 2 ^ Z.of_nat i = 0 ->
  exists s, m_stacks mk !! i = Some s /\ done s = true /\
            (L + 1 < 2 ^ Z.of_nat H ->
             st_stack s = [node_at i (Z.lxor ((L + 1) / 2 ^ Z.of_nat i) 1)]).
Proof.
  intros HH (HL & _ & _ & _ & _ & _ & _ & Hval & Hpot & _) Hi Hdue.
  pose proof Hval as [Hlen Hv].
  destruct (lookup_lt_is_Some_2 (m_stacks mk) i ltac:(lia)) as [s Es].
  destruct (Hv i s Es) as (start & HT & Htg).
  assert (Hd : done s = true).
  { apply (due_done (PRF:=PRF) (hashF_raw:=hashF_raw) (hashH_raw:=hashH_raw)
             (priv:=priv) (layer:=layer) (tree:=tree) H L (m_stacks mk) i s);
      [lia|lia|apply (valid_at_stacks H _ _ Hval)|exact Hpot|exact Es|exact Hdue]. }
  exists s. split; [exact Es|]. split; [exact Hd|]. intros Hin.
  destruct (Lb_due (Z.of_nat i) L HL ltac:(lia) Hdue) as [Eb _].
  rewrite (TS_done_stack _ _ _ HT Hd), Nat2Z.id. f_equal. f_equal.
  assert (P : 0 < 2 ^ Z.of_nat i) by (apply Z.pow_pos_nonneg; lia).
  rewrite (Htg ltac:(lia)). rewrite Z.div_mul by lia.
  f_equal. unfold Lb in Eb. rewrite <- Eb. rewrite Z.div_mul by lia. reflexivity.
Qed.

(** No stack ever holds more nodes than its target height plus one. *)
Lemma Inv_stack_sizes (L : Z) (mk : merkle) :
  Inv L mk ->
  length (m_stacks mk) = H /\
  forall i s, m_stacks mk !! i = Some s -> (length (st_stack s) <= i + 1)%nat.
Proof.
  intros (_ & _ & _ & _ & _ & _ & _ & [Hlen Hv] & _). split; [exact Hlen|].
  intros i s Es. destruct (Hv i s Es) as (start & HT & _).
  destruct (TS_facts _ _ _ HT) as (_ & Hsh & Hk & _).
  pose proof (shape_length _ _ (proj1 Hk) Hsh). lia.
Qed.

End Complete.

End State.

(** * Public keys and the PKCS#8 and PKIX wrappers *)

(** ** Export and import of public keys *)

(** [priv.Public()] *)
Definition Public (priv : PrivateKey) : PublicKey := priv_pub priv.

(** [pub.Export()] *)
Definition PublicKey_Export (pub : PublicKey) : PublicKeyExport :=
  mkPublicKeyExport (pub_params pub) (publicSeed pub) (root pub).

(** [pub.Import(key)] *)
Definition PublicKey_Import (pub : PublicKey) (key : PublicKeyExport) : PublicKey :=
  mkPublicKey (mkParams (Height (e_params key))) (PublicSeed key) (Root key).

(** [new(PublicKey)] *)
Definition new_PublicKey : PublicKey := mkPublicKey (mkParams 0) [] [].

(** ** The ASN.1 structures *)

(** [asn1.ObjectIdentifier] and its method [Equal]. *)
Definition ObjectIdentifier : Type := list Z.

Definition OIDBCXMSS : ObjectIdentifier := [1; 3; 6; 1; 4; 1; 22554; 2; 2].

Definition oid_Equal (a b : ObjectIdentifier) : bool := bool_decide (a = b).

(** [asn1.RawValue], [pkix.AlgorithmIdentifier] and [asn1.BitString]. *)
Record RawValue : Type := mkRawValue {
  rv_Class : Z; rv_Tag : Z; rv_IsCompound : bool; rv_Bytes : bytes; rv_FullBytes : bytes }.

Record AlgorithmIdentifier : Type := mkAlgorithmIdentifier {
  Algorithm : ObjectIdentifier; Parameters : RawValue }.

Record BitString : Type := mkBitString { bs_Bytes : bytes; bs_BitLength : Z }.

(** [pkcs8] *)
Record pkcs8 : Type := mkPkcs8 {
  pkcs8_Version : Z; pkcs8_Algo : AlgorithmIdentifier; pkcs8_PrivateKey : bytes }.

(** [pkcs8XMSSPrivateKeyData] *)
Record pkcs8XMSSPrivateKeyData : Type := mkPkcs8XMSSPrivateKeyData {
  kd_Index : Z; kd_SecretKeySeed : bytes; kd_SecretKeyPRF : bytes;
  kd_PublicSeed : bytes; kd_Root : bytes }.

(** [pkcs8XMSSPrivateKey] *)
Record pkcs8XMSSPrivateKey : Type := mkPkcs8XMSSPrivateKey {
  pk_Version : Z; pk_Data : pkcs8XMSSPrivateKeyData; pk_BdsState : bytes }.

(** [publicKeyInfo] *)
Record publicKeyInfo : Type := mkPublicKeyInfo {
  pki_Raw : bytes; pki_Algorithm : AlgorithmIdentifier; pki_PublicKey : BitString }.

(** [xmssPublicKeyData] *)
Record xmssPublicKeyData : Type := mkXmssPublicKeyData {
  pd_Version : Z; pd_PublicSeed : bytes; pd_Root : bytes }.

(** The zero value of [pkix.AlgorithmIdentifier] but for its identifier. *)
Definition algorithm_of (oid : ObjectIdentifier) : AlgorithmIdentifier :=
  mkAlgorithmIdentifier oid (mkRawValue 0 0 false [] []).

(** The message of [asn1.SyntaxError{Msg: "trailing data"}]. *)
Definition trailing_data : string := "asn1: syntax error: trailing data".

(** ** The wrappers *)

Section KeyFiles.

Variable PRF : bytes -> bytes -> bytes.
Variable hashF_raw : bytes -> bytes -> bytes.
Variable hashH_raw : bytes -> bytes -> bytes -> bytes.

(** The ASN.1 codec is outside the repository.  [asn1.Unmarshal(der, &v)]
    gives the value left in [v], the bytes after the object, and the error
    if there is one; [asn1.Marshal(v)] gives the encoding and the error if
    there is one.  There is one decoder or encoder for each type that the
    wrappers pass. *)
Variable Unmarshal_pkcs8 : bytes -> pkcs8 * bytes * option string.
Variable Unmarshal_private : bytes -> pkcs8XMSSPrivateKey * bytes * option string.
Variable Unmarshal_info : bytes -> publicKeyInfo * bytes * option string.
Variable Unmarshal_public : bytes -> xmssPublicKeyData * bytes * option string.
Variable Marshal_pkcs8 : pkcs8 -> bytes * option string.
Variable Marshal_private : pkcs8XMSSPrivateKey -> bytes * option string.

(** The number of processors, which [Import] reads through [initMerkle]. *)
Variable ncpu : Z.

(** [parseXMSSPrivateKey(der)]; the test of the trailing bytes comes before
    the test of the error. *)
Definition parseXMSSPrivateKey (der : bytes) : result PrivateKey :=
  let '(privKey, rest, err) := Unmarshal_private der in
  if 0 <? Z.of_nat (length rest) then Error trailing_data else
  match err with
  | Some e => Error e
  | None =>
      let privKeyExport :=
        mkPrivateKeyExport
          (mkPublicKeyExport (mkParams 10) (kd_PublicSeed (pk_Data privKey))
             (kd_Root (pk_Data privKey)))
          (u32 (kd_Index (pk_Data privKey)))
          (kd_SecretKeyPRF (pk_Data privKey))
          (kd_SecretKeySeed (pk_Data privKey)) in
      let key := new_PrivateKey in
      do key <- Import PRF hashF_raw hashH_raw ncpu key privKeyExport;
      Ok key
  end.

(** [ParsePKCS8PrivateKey(der)] *)
Definition ParsePKCS8PrivateKey (der : bytes) : result PrivateKey :=
  let '(privKey, _, err) := Unmarshal_pkcs8 der in
  match err with
  | Some e =>
      Error (String.append "XMSS PKCS#8 parser: failed to unmarshal private key: " e)
  | None =>
      if oid_Equal (Algorithm (pkcs8_Algo privKey)) OIDBCXMSS then
        match parseXMSSPrivateKey (pkcs8_PrivateKey privKey) with
        | Ok key => Ok key
        | Error e =>
            Error (String.append "x509: PKCS#8 parsing of xmss private key failed: " e)
        | Panic => Panic
        end
      else Error "x509: PKCS#8 parsing of xmss private key failed"
  end.

(** [marshalXMSSPrivateKey(key)] *)
Definition marshalXMSSPrivateKey (key : PrivateKey) : result bytes :=
  do keyExport <- Export key;
  let pkcs8XMSSKey :=
    mkPkcs8XMSSPrivateKey 0
      (mkPkcs8XMSSPrivateKeyData (Index keyExport) (SecretKeySeed keyExport)
         (SecretKeyPRF keyExport) (PublicSeed (e_pub keyExport)) (Root (e_pub keyExport)))
      [] in
  match Marshal_private pkcs8XMSSKey with
  | (_, Some e) => Error e
  | (b, None) => Ok b
  end.

(** [MarshalPKCS8PrivateKey(key)]; [None] is the nil pointer. *)
Definition MarshalPKCS8PrivateKey (key : option PrivateKey) : result bytes :=
  match key with
  | None => Error "invalid xmss private key - it must be different from nil"
  | Some key =>
      match marshalXMSSPrivateKey key with
      | Error e =>
          Error (String.append "error marshalling XMSS private key to asn1 ["
                   (String.append e "]"))
      | Panic => Panic
      | Ok asn1Bytes =>
          let pkcs8Key := mkPkcs8 0 (algorithm_of OIDBCXMSS) asn1Bytes in
          match Marshal_pkcs8 pkcs8Key with
          | (_, Some e) =>
              Error (String.append "error marshalling XMSS private key to asn1 ["
                       (String.append e "]"))
          | (pkcs8Bytes, None) => Ok pkcs8Bytes
          end
      end
  end.

(** [parseXMSSPublicKey(der)] *)
Definition parseXMSSPublicKey (der : bytes) : result PublicKey :=
  let '(pubKey, rest, err) := Unmarshal_public der in
  match err with
  | Some e => Error e
  | None =>
      if negb (Z.of_nat (length rest) =? 0)
      then Error "x509: trailing data after XMSS public key"
      else
        let pubKeyExport :=
          mkPublicKeyExport (mkParams 10) (pd_PublicSeed pubKey) (pd_Root pubKey) in
        Ok (PublicKey_Import new_PublicKey pubKeyExport)
  end.

(** [ParsePKIXPublicKey(der)] *)
Definition ParsePKIXPublicKey (der : bytes) : result PublicKey :=
  let '(pki, rest, err) := Unmarshal_info der in
  match err with
  | Some e => Error e
  | None =>
      if negb (Z.of_nat (length rest) =? 0) then Error trailing_data else
      if oid_Equal (Algorithm (pki_Algorithm pki)) OIDBCXMSS then
        match parseXMSSPublicKey (bs_Bytes (pki_PublicKey pki)) with
        | Ok pub => Ok pub
        | Error e =>
            Error (String.append "x509: PKCS#8 parsing of xmss public key failed: " e)
        | Panic => Panic
        end
      else Error "x509: public key algorithm is not XMSS"
  end.

End KeyFiles.

(** ** What the wrappers return *)

Section KeyFilesFacts.
Context {PRF hashF_raw : bytes -> bytes -> bytes}
        {hashH_raw : bytes -> bytes -> bytes -> bytes}.
Variable Unmarshal_pkcs8 : bytes -> pkcs8 * bytes * option string.
Variable Unmarshal_private : bytes -> pkcs8XMSSPrivateKey * bytes * option string.
Variable Unmarshal_info : bytes -> publicKeyInfo * bytes * option string.
Variable Unmarshal_public : bytes -> xmssPublicKeyData * bytes * option string.
Variable ncpu : Z.

Local Abbreviation parseXMSSPrivateKey :=
  (parseXMSSPrivateKey PRF hashF_raw hashH_raw Unmarshal_private ncpu).
Local Abbreviation ParsePKCS8PrivateKey :=
  (ParsePKCS8PrivateKey PRF hashF_raw hashH_raw Unmarshal_pkcs8 Unmarshal_private ncpu).
Local Abbreviation parseXMSSPublicKey := (parseXMSSPublicKey Unmarshal_public).
Local Abbreviation ParsePKIXPublicKey := (ParsePKIXPublicKey Unmarshal_info Unmarshal_public).

(** [parseXMSSPrivateKey] ends in the call of [Import] on [new(PrivateKey)]. *)
Lemma parseXMSSPrivateKey_cases (der : bytes) :
  parseXMSSPrivateKey der
  = let '(_, rest, err) := Unmarshal_private der in
    if 0 <? Z.of_nat (length rest) then Error trailing_data else
    match err with Some e => Error e | None => Panic end.
Proof.
  unfold parseXMSSPrivateKey.
  destruct (Unmarshal_private der) as [[v rest] err].
  destruct (0 <? Z.of_nat (length rest)); [reflexivity|].
  destruct err as [e|]; [reflexivity|].
  now rewrite Import_nil.
Qed.

Lemma parseXMSSPrivateKey_not_Ok (der : bytes) (key : PrivateKey) :
  parseXMSSPrivateKey der <> Ok key.
Proof.
  rewrite parseXMSSPrivateKey_cases.
  destruct (Unmarshal_private der) as [[v rest] err].
  destruct (0 <? Z.of_nat (length rest)); [discriminate|].
  destruct err; discriminate.
Qed.

(** A public key that [parseXMSSPublicKey] returns has height 10 and the
    seed and root of the decoded data, which nothing follows. *)
Lemma parseXMSSPublicKey_Ok (der : bytes) (pub : PublicKey) :
  parseXMSSPublicKey der = Ok pub ->
  exists data,
    Unmarshal_public der = (data, [], None) /\
    pub = mkPublicKey (mkParams 10) (pd_PublicSeed data) (pd_Root data).
Proof.
  unfold parseXMSSPublicKey.
  destruct (Unmarshal_public der) as [[data rest] err].
  destruct err as [e|]; [discriminate|].
  destruct rest as [|b rest]; cbn [length negb]; [|discriminate].
  change (Z.of_nat 0 =? 0) with true. cbn [negb]. intros E. inversion E.
  exists data. split; reflexivity.
Qed.

Lemma ParsePKIXPublicKey_Ok (der : bytes) (pub : PublicKey) :
  ParsePKIXPublicKey der = Ok pub ->
  exists pki,
    Unmarshal_info der = (pki, [], None) /\
    Algorithm (pki_Algorithm pki) = OIDBCXMSS /\
    parseXMSSPublicKey (bs_Bytes (pki_PublicKey pki)) = Ok pub.
Proof.
  unfold ParsePKIXPublicKey.
  destruct (Unmarshal_info der) as [[pki rest] err].
  destruct err as [e|]; [discriminate|].
  destruct rest as [|b rest]; [|discriminate].
  change (negb (Z.of_nat (length []) =? 0)) with false. cbv iota.
  unfold oid_Equal. destruct (bool_decide_reflect (Algorithm (pki_Algorithm pki) = OIDBCXMSS))
    as [Eo|Eo]; [|discriminate].
  destruct (parseXMSSPublicKey (bs_Bytes (pki_PublicKey pki)))
    as [p|e|] eqn:Ep; try discriminate.
  intros E. inversion E; subst p. exists pki. auto.
Qed.

End KeyFilesFacts.

(** * Further properties of the code *)

(** X1.  Parsing the bytes of a signature gives the signature back.  For a
    signature whose index is a [uint32], whose [r] has 32 bytes, whose WOTS+
    part has 67 blocks of 32 bytes and whose path has [h] nodes of 32 bytes,
    [bytes()] returns [4 + 32 * (68 + h)] bytes, and [bytes2sig] of these
    bytes and of [h] returns the signature. *)
Theorem sig_bytes_roundtrip (x : xmssSig) (h : Z) :
  0 <= sig_index x < 2 ^ 32 -> block32 (sig_r x) ->
  length (body_sig (sig_body x)) = 67%nat -> Forall block32 (body_sig (sig_body x)) ->
  Forall block32 (body_auth (sig_body x)) ->
  h = Z.of_nat (length (body_auth (sig_body x))) ->
  exists b, sig_bytes x = Ok b /\ Z.of_nat (length b) = 4 + 32 * (68 + h) /\
            bytes2sig b h = Ok x.
Proof.
  destruct x as [idx rr [sg au]]. cbn [sig_index sig_r sig_body body_sig body_auth].
  intros Hi Hr Hl Hs Ha Eh.
  exists (be32 idx ++ rr ++ concat sg ++ concat au).
  split; [apply sig_bytes_layout; assumption|]. split.
  - rewrite !length_app, !length_concat_blocks, Hr, Hl, length_be32 by assumption. lia.
  - pose proof (bytes2sig_layout idx h rr sg au [] Hr Hl Hs Ha ltac:(cbn; lia) Eh) as E.
    rewrite app_nil_r in E. rewrite E, u32_small by lia. reflexivity.
Qed.

(** X2.  Two signatures of one run of [Sign] calls differ, also when the
    messages are the same, unless [2^32] or more calls lie between them:
    their first four bytes are the indices of two different leaves. *)
Theorem signatures_differ
    (PRF hashF_raw : bytes -> bytes -> bytes) (hashH_raw : bytes -> bytes -> bytes -> bytes)
    (hashMsg_raw : bytes -> bytes -> bytes)
    (priv priv' : PrivateKey) (msgs sigs : list bytes) (i j : nat) (sgi sgj : bytes) :
  sign_all PRF hashF_raw hashH_raw hashMsg_raw priv msgs = Ok (sigs, priv') ->
  (i < j)%nat -> Z.of_nat j - Z.of_nat i < 2 ^ 32 ->
  sigs !! i = Some sgi -> sigs !! j = Some sgj ->
  sgi <> sgj.
Proof.
  intros E Hij Hd Ei Ej Heq.
  assert (Hne : sigs <> []) by (intros ->; discriminate).
  destruct (sign_all_state (PRF:=PRF) (hashF_raw:=hashF_raw) (hashH_raw:=hashH_raw)
              (hashMsg_raw:=hashMsg_raw) msgs priv priv' sigs E Hne) as [mk Em].
  destruct (sign_all_idx (PRF:=PRF) (hashF_raw:=hashF_raw) (hashH_raw:=hashH_raw)
              (hashMsg_raw:=hashMsg_raw) msgs priv priv' mk sigs Em E) as [_ Hidx].
  destruct (Hidx i sgi Ei) as [_ Ui]. destruct (Hidx j sgj Ej) as [_ Uj].
  rewrite Heq, Uj in Ui. inversion Ui as [U]. unfold u32 in U.
  assert (D : (m_leaf mk + Z.of_nat j - (m_leaf mk + Z.of_nat i)) mod 2 ^ 32 = 0).
  { rewrite Zminus_mod, U, Z.sub_diag. reflexivity. }
  replace (m_leaf mk + Z.of_nat j - (m_leaf mk + Z.of_nat i))
    with (Z.of_nat j - Z.of_nat i) in D by lia.
  rewrite Z.mod_small in D by lia. lia.
Qed.

(** X3.  Serialising a parsed signature gives the bytes back.  For every
    byte string [b] of [4 + 32 * (68 + h)] bytes, [bytes2sig] of [b] and [h]
    returns a signature whose index is a [uint32], whose [r] has 32 bytes,
    whose WOTS+ part has 67 blocks of 32 bytes and whose path has [h] nodes of
    32 bytes, and [bytes()] of this signature returns [b]. *)
Theorem bytes2sig_then_bytes (b : bytes) (h : nat) :
  Z.of_nat (length b) = 4 + 32 * (68 + Z.of_nat h) ->
  exists x,
    bytes2sig b (Z.of_nat h) = Ok x /\
    0 <= sig_index x < 2 ^ 32 /\ block32 (sig_r x) /\
    length (body_sig (sig_body x)) = 67%nat /\ Forall block32 (body_sig (sig_body x)) /\
    length (body_auth (sig_body x)) = h /\ Forall block32 (body_auth (sig_body x)) /\
    sig_bytes x = Ok b.
Proof.
  intros Hl.
  destruct (layout_of_bytes b h Hl) as (idx & rr & sg & au & -> & Hi & Hr & Ls & Fs & La & Fa).
  exists (mkSig idx rr (mkSigBody sg au)). split.
  - pose proof (bytes2sig_layout idx (Z.of_nat h) rr sg au [] Hr Ls Fs Fa ltac:(cbn; lia)
                  ltac:(lia)) as E.
    rewrite app_nil_r in E. rewrite E, u32_small by lia. reflexivity.
  - cbn [sig_index sig_r sig_body body_sig body_auth].
    repeat (split; [assumption|]). apply sig_bytes_layout; assumption.
Qed.

Section Extras.
Context {PRF hashF_raw : bytes -> bytes -> bytes}
        {hashH_raw : bytes -> bytes -> bytes -> bytes}
        {hashMsg_raw hmac_sha256 : bytes -> bytes -> bytes}.

Local Abbreviation Verify := (Verify PRF hashF_raw hashH_raw hashMsg_raw).
Local Abbreviation update := (update PRF hashF_raw hashH_raw).
Local Abbreviation initMerkle := (initMerkle PRF hashF_raw hashH_raw).
Local Abbreviation NewXMSSKeyPairWithParams :=
  (NewXMSSKeyPairWithParams PRF hashF_raw hashH_raw).
Local Abbreviation NewXMSSKeyPair := (NewXMSSKeyPair PRF hashF_raw hashH_raw hmac_sha256).
Local Abbreviation Sign := (Sign PRF hashF_raw hashH_raw hashMsg_raw).
Local Abbreviation Import := (Import PRF hashF_raw hashH_raw).
Local Abbreviation sign_all := (sign_all PRF hashF_raw hashH_raw hashMsg_raw).
Local Abbreviation root_of := (@root_of PRF hashF_raw hashH_raw hmac_sha256).
Local Abbreviation base_key := (@base_key hmac_sha256).
Local Abbreviation tree_node priv layer tree :=
  (@tree_node PRF hashF_raw hashH_raw priv layer tree).
Local Abbreviation leafOf priv layer tree := (@leafOf PRF hashF_raw hashH_raw priv layer tree).

(** X4.  Treehash.  A call of [update] with the budget [2^(k+1) - 1], on an
    empty stack with target height [k] that starts at leaf [j * 2^k], leaves
    one node on the stack: node [j] of height [k] of the tree, whose value
    is the hash of its two children down to the leaves, each the L-tree root
    of a WOTS+ public key.  The leaf counter of the stack is then
    [(j + 1) * 2^k], and further calls of [update] change nothing. *)
Theorem update_builds_subtree (priv : PrivateKey) (layer tree : Z) (k : nat) (j : Z) :
  (k <= 32)%nat -> 0 <= j -> (j + 1) * 2 ^ Z.of_nat k <= 2 ^ 32 ->
  let s' := mkStack [mkNh (tree_node priv layer tree k j) (Z.of_nat k) j] (Z.of_nat k)
              (u32 ((j + 1) * 2 ^ Z.of_nat k)) layer tree in
  update (2 ^ (Z.of_nat k + 1) - 1) priv
    (mkStack [] (Z.of_nat k) (j * 2 ^ Z.of_nat k) layer tree)
  = Ok s' /\
  forall nn, update nn priv s' = Ok s'.
Proof.
  intros Hk Hj Hb s'.
  assert (P : 0 < 2 ^ Z.of_nat k) by (apply Z.pow_pos_nonneg; lia).
  destruct (update_treehash (PRF:=PRF) (hashF_raw:=hashF_raw) (hashH_raw:=hashH_raw)
              (priv:=priv) (layer:=layer) (tree:=tree) k (2 ^ (Z.of_nat k + 1) - 1)
              (mkStack [] (Z.of_nat k) (j * 2 ^ Z.of_nat k) layer tree) j eq_refl Hk Hj Hb)
    as (s1 & E1 & Est & Eh & El & Et & Elf);
    [cbn [st_leaf]; rewrite u32_small by nia; reflexivity|exact I|exact I|reflexivity
    |reflexivity|reflexivity|].
  assert (Es : s1 = s').
  { destruct s1 as [l hg lf ly tr]. cbn in Est, Eh, El, Et, Elf. subst. reflexivity. }
  rewrite <- Es at 1. split; [exact E1|]. intros nn.
  rewrite (update_spec (PRF:=PRF) (hashF_raw:=hashF_raw) (hashH_raw:=hashH_raw)
             (priv:=priv) (layer:=layer) (tree:=tree) nn s' eq_refl eq_refl).
  unfold done, s'. cbn [st_stack nh_height st_height]. now rewrite Z.eqb_refl.
Qed.

Lemma lookup_map_seq0_lt {A} (g : nat -> A) (k i : nat) :
  (i < k)%nat -> map g (seq 0 k) !! i = Some (g i).
Proof.
  intros Hi.
  destruct (lookup_lt_is_Some_2 (map g (seq 0 k)) i) as [x Ex];
    [rewrite length_map, length_seq; exact Hi|].
  destruct (lookup_map_seq0 g k i x Ex) as [_ ->]. exact Ex.
Qed.

(** X5.  The key pair that key generation returns for a height [H] from 1
    to 32, for any seeds, layer and tree.  The public key is the public part
    of the private key; its root is the root of the Merkle tree over the
    [2^H] leaves.  The state is at leaf 0; entry [i] of its path is node 1 of
    height [i], the sibling of the ancestor of leaf 0, and stack [i] holds
    node 0 of height [i] and is done.  [NewXMSSKeyPair] is the case of the
    seeds drawn from the user's seed, of layer 0 and of tree 0. *)
Theorem keygen_state (ncpu : Z) (H : nat) (secretKeySeed secretKeyPRF pubSeed : bytes)
    (layer tree : Z) :
  (1 <= H <= 32)%nat ->
  let base := mkPrivateKey (mkPublicKey (mkParams (Z.of_nat H)) pubSeed (zeros 32))
                (newPRF secretKeyPRF) (newPRF secretKeySeed) None in
  (exists priv pub mk,
    NewXMSSKeyPairWithParams ncpu (Z.of_nat H) secretKeySeed secretKeyPRF pubSeed layer tree
    = Ok (priv, pub) /\
    Public priv = pub /\ Height (pub_params pub) = Z.of_nat H /\ publicSeed pub = pubSeed /\
    root pub = tree_node base layer tree H 0 /\
    msgPRF priv = newPRF secretKeyPRF /\ wotsPRF priv = newPRF secretKeySeed /\
    priv_m priv = Some mk /\ m_leaf mk = 0 /\ m_height mk = Z.of_nat H /\
    m_layer mk = layer /\ m_tree mk = tree /\
    length (m_stacks mk) = H /\ length (m_auth mk) = H /\
    forall i, (i < H)%nat ->
      m_auth mk !! i = Some (tree_node base layer tree i 1) /\
      m_stacks mk !! i
      = Some (mkStack [mkNh (tree_node base layer tree i 0) (Z.of_nat i) 0]
                (Z.of_nat i) (2 ^ Z.of_nat i) layer tree)) /\
  forall seed,
    NewXMSSKeyPair ncpu (Z.of_nat H) seed
    = NewXMSSKeyPairWithParams ncpu (Z.of_nat H) (hmac_sha256 seed [x01])
        (hmac_sha256 seed [x02]) (hmac_sha256 seed [x03]) 0 0.
Proof.
  intros HH base. split; [|reflexivity].
  unfold NewXMSSKeyPairWithParams. fold base.
  rewrite (initMerkle_ok (PRF:=PRF) (hashF_raw:=hashF_raw) (hashH_raw:=hashH_raw)
             (priv:=base) (layer:=layer) (tree:=tree) ncpu H HH (length_zeros 32)).
  cbn [rbind priv_pub set_root root]. eexists _, _, _.
  split; [reflexivity|]. cbn [Public priv_pub pub_params publicSeed root Height msgPRF wotsPRF
                              priv_m base].
  repeat (split; [reflexivity|]).
  cbn [merkle0 m_stacks m_auth]. rewrite !length_map, !length_seq.
  split; [reflexivity|]. split; [reflexivity|].
  intros i Hi. rewrite !lookup_map_seq0_lt by exact Hi. split; reflexivity.
Qed.

(** X6.  What a signature holds.  In a run of [Sign] calls on a new key
    of a height [H] from 1 to 32, signature [j], [j < 2^H], is the index [j]
    on four bytes, then [r], the PRF of the index on 32 bytes under the
    secret PRF seed, whatever the message, then 67 blocks of 32 bytes, then
    the path of leaf [j]: the [H] siblings of its ancestors, from the leaves
    up. *)
Theorem signature_contents (ncpu : Z) (H : nat) (seed : bytes) (msgs : list bytes)
    (j : nat) (m : bytes) :
  (1 <= H <= 32)%nat -> msgs !! j = Some m -> Z.of_nat j < 2 ^ Z.of_nat H ->
  exists priv pub sigs priv' ws au,
    NewXMSSKeyPair ncpu (Z.of_nat H) seed = Ok (priv, pub) /\
    sign_all priv msgs = Ok (sigs, priv') /\
    sigs !! j
    = Some (be32 (Z.of_nat j)
            ++ sum PRF (newPRF (hmac_sha256 seed [x02])) (zeros 28 ++ be32 (Z.of_nat j))
            ++ concat ws ++ concat au) /\
    length ws = 67%nat /\ Forall block32 ws /\ length au = H /\
    forall i, (i < H)%nat ->
      au !! i = Some (tree_node (base_key H seed) 0 0 i
                        (Z.lxor (Z.of_nat j / 2 ^ Z.of_nat i) 1)).
Proof.
  intros HH Em Hj.
  destruct (sign_all_ok (PRF:=PRF) (hashF_raw:=hashF_raw) (hashH_raw:=hashH_raw)
              (hashMsg_raw:=hashMsg_raw) (priv:=base_key H seed) (layer:=0) (tree:=0)
              H (root_of H seed) msgs HH (length_root_of H seed) 0 _
              (Inv_merkle0 (PRF:=PRF) (hashF_raw:=hashF_raw) (hashH_raw:=hashH_raw)
                 (priv:=base_key H seed) (layer:=0) (tree:=0) H HH))
    as (sigs & mk' & E & _ & _ & Hsig).
  destruct (Hsig j m Em) as (au & Es & Hla & Hba & Hau).
  eexists _, _, sigs, _, _, au.
  split; [exact (NewXMSSKeyPair_ok ncpu H seed HH)|]. split; [exact E|].
  split; [refine (eq_trans Es _); unfold sig_of; cbn [Z.add]; reflexivity|].
  split; [now rewrite length_wots_sign, length_newWotsPrivKey|].
  split; [apply Forall_wots_sign, Forall_newWotsPrivKey|].
  split; [exact Hla|]. exact (Hau Hj).
Qed.

(** X7.  The stacks stay small.  Whatever the number of signatures made,
    between two signatures the state has [H] stacks, and stack [h] holds no
    more than [h + 1] nodes. *)
Theorem stacks_stay_small (ncpu : Z) (H : nat) (seed : bytes) (msgs : list bytes) :
  (1 <= H <= 32)%nat ->
  exists priv pub sigs priv' mk,
    NewXMSSKeyPair ncpu (Z.of_nat H) seed = Ok (priv, pub) /\
    sign_all priv msgs = Ok (sigs, priv') /\
    priv_m priv' = Some mk /\ length (m_stacks mk) = H /\
    forall h s, m_stacks mk !! h = Some s -> (length (st_stack s) <= h + 1)%nat.
Proof.
  intros HH.
  destruct (keygen_run (PRF:=PRF) (hashF_raw:=hashF_raw) (hashH_raw:=hashH_raw)
              (hashMsg_raw:=hashMsg_raw) (hmac_sha256:=hmac_sha256) H seed HH msgs)
    as (sigs & mk & E & HI & _).
  destruct (Inv_stack_sizes (PRF:=PRF) (hashF_raw:=hashF_raw) (hashH_raw:=hashH_raw)
              (priv:=base_key H seed) (layer:=0) (tree:=0) H _ mk HI) as [Hlen Hsz].
  eexists _, _, sigs, _, mk.
  split; [exact (NewXMSSKeyPair_ok ncpu H seed HH)|].
  split; [exact E|]. split; [reflexivity|]. split; [exact Hlen|exact Hsz].
Qed.

(** X8.  The rounds of [build] are enough.  After [L] signatures, every
    stack [h] that the next call of [refreshAuth] reads, [(L + 1) mod 2^h = 0],
    is done; and when leaf [L + 1] is in the tree it holds one node, the
    sibling of the ancestor of leaf [L + 1] at height [h]. *)
Theorem due_stacks_are_complete (ncpu : Z) (H : nat) (seed : bytes) (msgs : list bytes)
    (h : nat) :
  (1 <= H <= 32)%nat -> (h < H)%nat ->
  (Z.of_nat (length msgs) + 1) mod 2 ^ Z.of_nat h = 0 ->
  exists priv pub sigs priv' mk s,
    NewXMSSKeyPair ncpu (Z.of_nat H) seed = Ok (priv, pub) /\
    sign_all priv msgs = Ok (sigs, priv') /\
    priv_m priv' = Some mk /\ m_stacks mk !! h = Some s /\ done s = true /\
    (Z.of_nat (length msgs) + 1 < 2 ^ Z.of_nat H ->
     st_stack s
     = [mkNh (tree_node (base_key H seed) 0 0 h
                (Z.lxor ((Z.of_nat (length msgs) + 1) / 2 ^ Z.of_nat h) 1))
          (Z.of_nat h)
          (Z.lxor ((Z.of_nat (length msgs) + 1) / 2 ^ Z.of_nat h) 1)]).
Proof.
  intros HH Hh Hdue.
  destruct (keygen_run (PRF:=PRF) (hashF_raw:=hashF_raw) (hashH_raw:=hashH_raw)
              (hashMsg_raw:=hashMsg_raw) (hmac_sha256:=hmac_sha256) H seed HH msgs)
    as (sigs & mk & E & HI & _).
  destruct (Inv_due (PRF:=PRF) (hashF_raw:=hashF_raw) (hashH_raw:=hashH_raw)
              (priv:=base_key H seed) (layer:=0) (tree:=0) H _ mk h HH HI Hh Hdue)
    as (s & Es & Hd & Hst).
  eexists _, _, sigs, _, mk, s.
  split; [exact (NewXMSSKeyPair_ok ncpu H seed HH)|].
  split; [exact E|]. split; [reflexivity|]. split; [exact Es|]. split; [exact Hd|exact Hst].
Qed.

(** X9.  What a signature changes.  When [Sign] returns, the key had a
    state, and the key it leaves has the same public key and the same two
    PRFs; its state has the same height, layer and tree and as many stacks
    and path nodes, and is at the next leaf, as a [uint32]. *)
Theorem Sign_changes_the_state_only (priv priv' : PrivateKey) (msg sg : bytes) :
  Sign priv msg = Ok (sg, priv') ->
  Public priv' = Public priv /\ msgPRF priv' = msgPRF priv /\ wotsPRF priv' = wotsPRF priv /\
  exists mk mk',
    priv_m priv = Some mk /\ priv_m priv' = Some mk' /\
    m_leaf mk' = u32 (m_leaf mk + 1) /\ m_height mk' = m_height mk /\
    m_layer mk' = m_layer mk /\ m_tree mk' = m_tree mk /\
    length (m_stacks mk') = length (m_stacks mk) /\
    length (m_auth mk') = length (m_auth mk).
Proof.
  intros E.
  destruct (Sign_state (PRF:=PRF) (hashF_raw:=hashF_raw) (hashH_raw:=hashH_raw)
              (hashMsg_raw:=hashMsg_raw) priv priv' msg sg E) as [mk Em].
  destruct (Sign_frame (PRF:=PRF) (hashF_raw:=hashF_raw) (hashH_raw:=hashH_raw)
              (hashMsg_raw:=hashMsg_raw) priv priv' mk msg sg Em E)
    as ((K1 & K2 & K3) & mk' & R).
  unfold Public. repeat (split; [assumption|]). exists mk, mk'. split; [exact Em|exact R].
Qed.

(** X10.  Height 0.  Key generation returns a key pair for the height 0: the
    root is the one leaf and the state has no stack and no path node.  Every
    call of [Sign] on this key panics: [build] runs [2 * 0 - 1] rounds, as a
    [uint32], and the first one reads stack 0. *)
Theorem height_0_key_cannot_sign (ncpu : Z) (seed msg : bytes) :
  exists priv pub mk,
    NewXMSSKeyPair ncpu 0 seed = Ok (priv, pub) /\
    root pub = leafOf (base_key 0 seed) 0 0 0 /\
    priv_m priv = Some mk /\ m_height mk = 0 /\ m_stacks mk = [] /\ m_auth mk = [] /\
    Sign priv msg = Panic.
Proof.
  unfold NewXMSSKeyPair, NewXMSSKeyPairWithParams.
  rewrite initMerkle_height_0. cbn [rbind priv_pub root set_root].
  eexists _, _, _. split; [reflexivity|]. cbn [root]. split.
  - apply copy_at_0_full. rewrite length_zeros. unfold leafOf.
    destruct (ltree _ _ _ _ _) as [[nn a]| |]; rewrite ?length_copy_at; apply length_zeros.
  - split; [reflexivity|]. split; [reflexivity|]. split; [reflexivity|].
    split; [reflexivity|].
    eapply (Sign_height_0 (PRF:=PRF) (hashF_raw:=hashF_raw) (hashH_raw:=hashH_raw)
              (hashMsg_raw:=hashMsg_raw)); reflexivity.
Qed.

(** X11.  Import of a key's own export.  Whatever the number of signatures
    that a key of a height from 1 to 32 has made, its export carries that
    number as index, and [Import] of this export into the key gives the key
    as key generation returned it, at leaf 0: the next signatures of the key
    are those of a new key. *)
Theorem Import_of_own_Export (ncpu ncpu' : Z) (H : nat) (seed : bytes) (msgs : list bytes) :
  (1 <= H <= 32)%nat ->
  exists priv pub sigs priv1 ex,
    NewXMSSKeyPair ncpu (Z.of_nat H) seed = Ok (priv, pub) /\
    sign_all priv msgs = Ok (sigs, priv1) /\
    Export priv1 = Ok ex /\ Index ex = u32 (Z.of_nat (length msgs)) /\
    Import ncpu' priv1 ex = Ok priv.
Proof.
  intros HH.
  destruct (keygen_run (PRF:=PRF) (hashF_raw:=hashF_raw) (hashH_raw:=hashH_raw)
              (hashMsg_raw:=hashMsg_raw) (hmac_sha256:=hmac_sha256) H seed HH msgs)
    as (sigs & mk & E & HI & _).
  destruct HI as (_ & El & _).
  destruct (Import_own_export (PRF:=PRF) (hashF_raw:=hashF_raw) (hashH_raw:=hashH_raw)
              (hmac_sha256:=hmac_sha256) ncpu' H seed
              (key_with (priv:=base_key H seed) (root_of H seed) mk) mk HH
              ltac:(repeat split) eq_refl) as (ex & Eex & Eidx & Eimp).
  eexists _, _, sigs, _, ex.
  split; [exact (NewXMSSKeyPair_ok ncpu H seed HH)|].
  split; [exact E|]. split; [exact Eex|]. split; [congruence|exact Eimp].
Qed.

(** X12.  The public half of an export.  After any run of signatures, the
    public part of the export of the private key, imported into any public
    key, is the public key that the private key had before the run; so it
    accepts and rejects the same signatures. *)
Theorem public_half_of_Export (pub0 : PublicKey) (priv priv' : PrivateKey)
    (msgs sigs : list bytes) (ex : PrivateKeyExport) :
  sign_all priv msgs = Ok (sigs, priv') -> Export priv' = Ok ex ->
  PublicKey_Import pub0 (e_pub ex) = Public priv /\
  e_pub ex = PublicKey_Export (Public priv) /\
  forall bsig msg,
    Verify (PublicKey_Import pub0 (e_pub ex)) bsig msg = Verify (Public priv) bsig msg.
Proof.
  intros E Eex.
  destruct (sign_all_same_key (PRF:=PRF) (hashF_raw:=hashF_raw) (hashH_raw:=hashH_raw)
              (hashMsg_raw:=hashMsg_raw) msgs priv priv' sigs E) as (K & _ & _).
  unfold Export in Eex. destruct (priv_m priv') as [mk|]; [|discriminate].
  cbn [of_option rbind] in Eex. inversion Eex; subst ex. clear Eex.
  cbn [e_pub]. unfold PublicKey_Import, PublicKey_Export, Public.
  cbn [e_params PublicSeed Root]. rewrite K.
  assert (Ep : mkPublicKey (mkParams (Height (pub_params (priv_pub priv))))
                 (publicSeed (priv_pub priv)) (root (priv_pub priv)) = priv_pub priv).
  { destruct (priv_pub priv) as [[hg] sd rt]. reflexivity. }
  rewrite Ep. split; [reflexivity|]. split; [reflexivity|]. reflexivity.
Qed.

(** X13.  The goroutines of [initMerkle].  With [ncpu] processors and a
    tree of height [h], the level [nproc] at which the tree is split is
    below [h], and the [2^nproc - 1] workers started are no more than
    [2 * (ncpu - 1)], so none for one processor; when the tree is high
    enough, [ncpu <= 2^(h-1)], there are at least [ncpu - 1] of them. *)
Theorem initMerkle_worker_count (ncpu h : Z) :
  1 <= ncpu < 2 ^ 31 -> 1 <= h ->
  0 <= nproc_of ncpu h < h /\
  0 <= shl32 1 (nproc_of ncpu h) - 1 <= 2 * (ncpu - 1) /\
  (ncpu <= 2 ^ (h - 1) -> ncpu - 1 <= shl32 1 (nproc_of ncpu h) - 1).
Proof.
  intros Hc Hh. unfold nproc_of.
  pose proof (Z.log2_spec ncpu ltac:(lia)) as [Lo Hi].
  pose proof (Z.log2_nonneg ncpu) as L0.
  assert (L30 : Z.log2 ncpu <= 30).
  { destruct (Z.le_gt_cases (Z.log2 ncpu) 30) as [|G]; [assumption|exfalso].
    assert (2 ^ 31 <= 2 ^ Z.log2 ncpu) by (apply Z.pow_le_mono_r; lia). lia. }
  rewrite (u32_small (Z.log2 ncpu)) by lia.
  rewrite Z.shiftl_1_l.
  replace (Z.succ (Z.log2 ncpu)) with (Z.log2 ncpu + 1) in Hi by lia.
  rewrite Z.pow_add_r in Hi by lia. change (2 ^ 1) with 2 in Hi.
  set (l := Z.log2 ncpu) in *.
  assert (P0 : 0 < 2 ^ l) by (apply Z.pow_pos_nonneg; lia).
  destruct (Z.eqb_spec ncpu (2 ^ l)) as [E|E]; cbn [negb].
  - destruct (Z.leb_spec h l) as [Hl|Hl].
    + change (shl32 1 0) with 1. repeat split; try lia.
      intros Hb. exfalso.
      assert (2 ^ (h - 1) < 2 ^ l) by (apply Z.pow_lt_mono_r; lia). lia.
    + rewrite shl32_small by lia. repeat split; lia.
  - rewrite (u32_small (l + 1)) by lia.
    destruct (Z.leb_spec h (l + 1)) as [Hl|Hl].
    + change (shl32 1 0) with 1. repeat split; try lia.
      intros Hb. exfalso.
      assert (2 ^ (h - 1) <= 2 ^ l) by (apply Z.pow_le_mono_r; lia). lia.
    + rewrite shl32_small by lia. rewrite Z.pow_add_r by lia. change (2 ^ 1) with 2.
      repeat split; lia.
Qed.

(** X14.  When [refreshAuth] panics.  [refreshAuth] reports no error, and
    it panics exactly when, for some [h] below the height with
    [(leaf + 1) mod 2^h = 0] as the code tests it, stack [h] is missing or
    empty or entry [h] of the path is missing; [Sign] on a key with such a
    state panics too. *)
Theorem refreshAuth_panics_on_an_empty_due_stack (mk : merkle) :
  (refreshAuth mk = Panic <->
   exists h, (h < Z.to_nat (m_height mk))%nat /\
             refresh_due (m_leaf mk) (Z.of_nat h) = true /\ ~ has_top mk h) /\
  (forall e, refreshAuth mk <> Error e) /\
  (forall priv msg, priv_m priv = Some mk -> refreshAuth mk = Panic ->
                    Sign priv msg = Panic).
Proof.
  split; [split|split].
  - unfold refreshAuth. change 0 with (Z.of_nat 0). intros E.
    destruct (refreshAuth_loop_panic_inv _ _ _ E) as (i & Hi & Hdue & Hno).
    exists i. split; [lia|]. auto.
  - intros (i & Hi & Hdue & Hno). unfold refreshAuth. change 0 with (Z.of_nat 0).
    apply (refreshAuth_loop_panic _ _ _ i); [lia|exact Hdue|exact Hno].
  - intros e. apply refreshAuth_loop_not_error.
  - intros priv msg Em E. unfold Sign. rewrite Em. cbn [of_option rbind].
    assert (Et : traverse PRF hashF_raw hashH_raw priv = Panic).
    { unfold traverse. rewrite Em. cbn [of_option rbind]. now rewrite E. }
    rewrite Et.
    match goal with |- context [sig_bytes ?x] =>
      pose proof (sig_bytes_not_error x) as Hne; destruct (sig_bytes x) as [b|e|] end;
      cbn [rbind]; [reflexivity| |reflexivity].
    exfalso. exact (Hne e eq_refl).
Qed.

(** X15.  [Verify] does not see the bytes after the last block.  For every
    public key, every byte string [b] of [4 + 32 * (68 + h)] bytes, whatever
    [h], and every [extra] of fewer than 32 bytes, [bytes2sig] returns for
    [b ++ extra] what it returns for [b], and so does [Verify], for every
    message. *)
Theorem Verify_ignores_trailing_bytes (pub : PublicKey) (b extra msg : bytes) (h : nat) :
  Z.of_nat (length b) = 4 + 32 * (68 + Z.of_nat h) -> (length extra < 32)%nat ->
  (forall h', bytes2sig (b ++ extra) h' = bytes2sig b h') /\
  Verify pub (b ++ extra) msg = Verify pub b msg.
Proof.
  intros Hl He.
  assert (P : forall h', bytes2sig (b ++ extra) h' = bytes2sig b h')
    by (intros h'; exact (bytes2sig_extra b extra h h' Hl He)).
  split; [exact P|]. unfold Verify. rewrite P. reflexivity.
Qed.

(** X16.  The L-tree needs a whole WOTS+ key.  For a list of blocks of 32
    bytes, [ltree] returns a node of 32 bytes when the list has 67 blocks or
    more, and panics when it has fewer: the first level reads block 66. *)
Theorem ltree_needs_67_blocks (pk : list bytes) (p : prf) (a : addr) :
  Forall block32 pk ->
  ((67 <= length pk)%nat ->
   exists r0 a', ltree PRF hashH_raw pk p a = Ok (r0, a') /\ length r0 = 32%nat) /\
  ((length pk < 67)%nat -> ltree PRF hashH_raw pk p a = Panic).
Proof.
  intros Hb. split.
  - intros Hl.
    destruct (ltree_long (PRF:=PRF) (hashH_raw:=hashH_raw) pk p a Hl) as (r0 & a' & E).
    exists r0, a'. split; [exact E|].
    exact (proj1 (ltree_frame (PRF:=PRF) (hashH_raw:=hashH_raw) pk p a r0 a' E Hb)).
  - apply ltree_short.
Qed.

Section KeyFileProperties.
Variable Unmarshal_pkcs8 : bytes -> pkcs8 * bytes * option string.
Variable Unmarshal_private : bytes -> pkcs8XMSSPrivateKey * bytes * option string.
Variable Unmarshal_info : bytes -> publicKeyInfo * bytes * option string.
Variable Unmarshal_public : bytes -> xmssPublicKeyData * bytes * option string.
Variable Marshal_pkcs8 : pkcs8 -> bytes * option string.
Variable Marshal_private : pkcs8XMSSPrivateKey -> bytes * option string.
Variable ncpu0 : Z.

Local Abbreviation parseXMSSPrivateKey :=
  (parseXMSSPrivateKey PRF hashF_raw hashH_raw Unmarshal_private ncpu0).
Local Abbreviation ParsePKCS8PrivateKey :=
  (ParsePKCS8PrivateKey PRF hashF_raw hashH_raw Unmarshal_pkcs8 Unmarshal_private ncpu0).
Local Abbreviation parseXMSSPublicKey := (parseXMSSPublicKey Unmarshal_public).
Local Abbreviation ParsePKIXPublicKey := (ParsePKIXPublicKey Unmarshal_info Unmarshal_public).
Local Abbreviation marshalXMSSPrivateKey := (marshalXMSSPrivateKey Marshal_private).
Local Abbreviation MarshalPKCS8PrivateKey :=
  (MarshalPKCS8PrivateKey Marshal_pkcs8 Marshal_private).

(** X17.  The parsers of private keys return no key.  Whatever the decoder
    and the input, [parseXMSSPrivateKey] and [ParsePKCS8PrivateKey] return an
    error or panic: when the input decodes with nothing after it, the key is
    imported into [new(PrivateKey)], which has no state to write the index
    to. *)
Theorem private_key_parsers_return_no_key (der : bytes) :
  (forall key, parseXMSSPrivateKey der <> Ok key) /\
  (forall key, ParsePKCS8PrivateKey der <> Ok key) /\
  (forall v, Unmarshal_private der = (v, [], None) -> parseXMSSPrivateKey der = Panic) /\
  (forall v rest inner,
      Unmarshal_pkcs8 der = (v, rest, None) ->
      Algorithm (pkcs8_Algo v) = OIDBCXMSS ->
      Unmarshal_private (pkcs8_PrivateKey v) = (inner, [], None) ->
      ParsePKCS8PrivateKey der = Panic).
Proof.
  assert (P : forall d v, Unmarshal_private d = (v, [], None) ->
                          parseXMSSPrivateKey d = Panic).
  { intros d v E. rewrite parseXMSSPrivateKey_cases, E. reflexivity. }
  split; [intros key; apply parseXMSSPrivateKey_not_Ok|].
  split; [|split; [exact (P der)|]].
  - intros key. unfold ParsePKCS8PrivateKey.
    destruct (Unmarshal_pkcs8 der) as [[v rest] err].
    destruct err as [e|]; [discriminate|].
    destruct (oid_Equal _ _); [|discriminate].
    pose proof (parseXMSSPrivateKey_not_Ok (PRF:=PRF) (hashF_raw:=hashF_raw)
                  (hashH_raw:=hashH_raw) Unmarshal_private ncpu0 (pkcs8_PrivateKey v))
      as Hno.
    destruct (parseXMSSPrivateKey (pkcs8_PrivateKey v)) as [k|e|]; try discriminate.
    exfalso. exact (Hno k eq_refl).
  - intros v rest inner E Eo Ei. unfold ParsePKCS8PrivateKey. rewrite E.
    unfold oid_Equal. rewrite bool_decide_eq_true_2 by exact Eo.
    now rewrite (P _ _ Ei).
Qed.

(** X18.  A parsed public key has height 10.  A public key returned by
    [parseXMSSPublicKey] or [ParsePKIXPublicKey] has the height 10 whatever
    the key that was encoded, so [Verify] with it rejects every byte string
    whose length stands for another height; a signature of a key of another
    height, which the public key of that key accepts, is rejected. *)
Theorem parsed_public_key_has_height_10 (der : bytes) (pub' : PublicKey) :
  parseXMSSPublicKey der = Ok pub' \/ ParsePKIXPublicKey der = Ok pub' ->
  Height (pub_params pub') = 10 /\
  (forall bsig msg, sig_height bsig <> 10 -> Verify pub' bsig msg = Ok false) /\
  (forall ncpu (H : nat) seed m,
      (1 <= H <= 32)%nat -> H <> 10%nat ->
      exists priv pub sg priv',
        NewXMSSKeyPair ncpu (Z.of_nat H) seed = Ok (priv, pub) /\
        Sign priv m = Ok (sg, priv') /\
        Verify pub sg m = Ok true /\ Verify pub' sg m = Ok false).
Proof.
  intros Hp.
  assert (E10 : Height (pub_params pub') = 10).
  { destruct Hp as [E|E].
    - destruct (parseXMSSPublicKey_Ok _ _ _ E) as (data & _ & ->). reflexivity.
    - destruct (ParsePKIXPublicKey_Ok _ _ _ _ E) as (pki & _ & _ & E').
      destruct (parseXMSSPublicKey_Ok _ _ _ E') as (data & _ & ->). reflexivity. }
  assert (Hrej : forall bsig msg, sig_height bsig <> 10 -> Verify pub' bsig msg = Ok false).
  { intros bsig msg Hs. apply Verify_bad_length. rewrite E10. exact Hs. }
  split; [exact E10|]. split; [exact Hrej|].
  intros ncpu H seed m HH Hne.
  destruct (keygen_first_extra (PRF:=PRF) (hashF_raw:=hashF_raw) (hashH_raw:=hashH_raw)
              (hashMsg_raw:=hashMsg_raw) (hmac_sha256:=hmac_sha256) H seed HH m)
    as (sg & priv' & Es & Hlen & Hv).
  eexists _, _, sg, priv'.
  split; [exact (NewXMSSKeyPair_ok ncpu H seed HH)|]. split; [exact Es|]. split.
  - specialize (Hv [] ltac:(cbn; lia)). now rewrite app_nil_r in Hv.
  - apply Hrej. rewrite (sig_height_length sg (Z.of_nat H)) by (lia || exact Hlen). lia.
Qed.

(** X19.  What [MarshalPKCS8PrivateKey] encodes.  It returns an error for
    the nil key and panics for a key without state.  For a key with a state
    it hands to the encoder the index of the next leaf, the two secret seeds,
    the public seed and the root, and neither the height nor the stacks and
    the path: two keys that agree on those five values give the same
    result. *)
Theorem MarshalPKCS8PrivateKey_forgets_the_height :
  MarshalPKCS8PrivateKey None
  = Error "invalid xmss private key - it must be different from nil" /\
  (forall key, priv_m key = None -> MarshalPKCS8PrivateKey (Some key) = Panic) /\
  (forall key key' mk mk',
      priv_m key = Some mk -> priv_m key' = Some mk' -> m_leaf mk = m_leaf mk' ->
      msgPRF key = msgPRF key' -> wotsPRF key = wotsPRF key' ->
      publicSeed (priv_pub key) = publicSeed (priv_pub key') ->
      root (priv_pub key) = root (priv_pub key') ->
      MarshalPKCS8PrivateKey (Some key) = MarshalPKCS8PrivateKey (Some key')).
Proof.
  split; [reflexivity|]. split.
  - intros key Em. unfold MarshalPKCS8PrivateKey, marshalXMSSPrivateKey, Export.
    rewrite Em. reflexivity.
  - intros key key' mk mk' Em Em' El Ep Ew Es Er.
    unfold MarshalPKCS8PrivateKey, marshalXMSSPrivateKey, Export.
    rewrite Em, Em'. cbn [of_option rbind Index SecretKeySeed SecretKeyPRF e_pub PublicSeed Root].
    rewrite El, Ep, Ew, Es, Er. reflexivity.
Qed.

End KeyFileProperties.

End Extras.

(** ** Examples for the further properties *)

(** A signature with index 7, whose blocks are all zero, for height 1. *)
Definition sig_example : xmssSig :=
  mkSig 7 (zeros 32) (mkSigBody (replicate 67 (zeros 32)) [zeros 32]).

Lemma sig_bytes_roundtrip_example :
  (0 <= sig_index sig_example < 2 ^ 32 /\ block32 (sig_r sig_example) /\
   length (body_sig (sig_body sig_example)) = 67%nat /\
   Forall block32 (body_sig (sig_body sig_example)) /\
   Forall block32 (body_auth (sig_body sig_example)) /\
   1 = Z.of_nat (length (body_auth (sig_body sig_example)))) /\
  exists b, sig_bytes sig_example = Ok b /\ Z.of_nat (length b) = 4 + 32 * (68 + 1) /\
            bytes2sig b 1 = Ok sig_example.
Proof.
  assert (H1 : 0 <= sig_index sig_example < 2 ^ 32) by (cbn; lia).
  assert (H2 : block32 (sig_r sig_example)) by reflexivity.
  assert (H3 : length (body_sig (sig_body sig_example)) = 67%nat) by reflexivity.
  assert (H4 : Forall block32 (body_sig (sig_body sig_example)))
    by (apply Forall_replicate; reflexivity).
  assert (H5 : Forall block32 (body_auth (sig_body sig_example)))
    by (repeat constructor).
  assert (H6 : 1 = Z.of_nat (length (body_auth (sig_body sig_example)))) by reflexivity.
  split; [tauto|].
  exact (sig_bytes_roundtrip sig_example 1 H1 H2 H3 H4 H5 H6).
Defined.

(** A byte string with the length of a signature of height 1. *)
Definition bytes_example : bytes := zeros 2212.

Lemma bytes2sig_then_bytes_example :
  Z.of_nat (length bytes_example) = 4 + 32 * (68 + Z.of_nat 1) /\
  exists x,
    bytes2sig bytes_example (Z.of_nat 1) = Ok x /\
    0 <= sig_index x < 2 ^ 32 /\ block32 (sig_r x) /\
    length (body_sig (sig_body x)) = 67%nat /\ Forall block32 (body_sig (sig_body x)) /\
    length (body_auth (sig_body x)) = 1%nat /\ Forall block32 (body_auth (sig_body x)) /\
    sig_bytes x = Ok bytes_example.
Proof.
  assert (Hl : Z.of_nat (length bytes_example) = 4 + 32 * (68 + Z.of_nat 1))
    by (unfold bytes_example; rewrite length_zeros; reflexivity).
  split; [exact Hl|].
  exact (bytes2sig_then_bytes bytes_example 1 Hl).
Defined.

Lemma Verify_ignores_trailing_bytes_example :
  (Z.of_nat (length bytes_example) = 4 + 32 * (68 + Z.of_nat 1) /\
   (length [x00; x01] < 32)%nat) /\
  (forall h', bytes2sig (bytes_example ++ [x00; x01]) h' = bytes2sig bytes_example h') /\
  Verify const2 const2 const3 const2 pub_example (bytes_example ++ [x00; x01]) [x61]
  = Verify const2 const2 const3 const2 pub_example bytes_example [x61].
Proof.
  assert (Hl : Z.of_nat (length bytes_example) = 4 + 32 * (68 + Z.of_nat 1))
    by (unfold bytes_example; rewrite length_zeros; reflexivity).
  assert (He : (length [x00; x01] < 32)%nat) by (cbn; lia).
  split; [split; [exact Hl|exact He]|].
  exact (Verify_ignores_trailing_bytes (PRF:=const2) (hashF_raw:=const2) (hashH_raw:=const3)
           (hashMsg_raw:=const2) pub_example bytes_example [x00; x01] [x61] 1 Hl He).
Defined.

Lemma signatures_differ_example :
  exists (sigs : list bytes) (priv' : PrivateKey) (sgi sgj : bytes),
    (sign_all const2 const2 const3 const2 key_example [[x61]; [x61]] = Ok (sigs, priv') /\
     (0 < 1)%nat /\ Z.of_nat 1 - Z.of_nat 0 < 2 ^ 32 /\
     sigs !! 0%nat = Some sgi /\ sigs !! 1%nat = Some sgj) /\
    sgi <> sgj.
Proof.
  destruct (keygen_sign_all (PRF:=const2) (hashF_raw:=const2) (hashH_raw:=const3)
              (hashMsg_raw:=const2) (hmac_sha256:=const2) 1 [] [[x61]; [x61]] ltac:(lia))
    as (sigs & priv' & E & Hlen & _).
  destruct (lookup_lt_is_Some_2 sigs 0) as [sgi Ei]; [rewrite Hlen; cbn; lia|].
  destruct (lookup_lt_is_Some_2 sigs 1) as [sgj Ej]; [rewrite Hlen; cbn; lia|].
  exists sigs, priv', sgi, sgj.
  assert (Hij : (0 < 1)%nat) by lia.
  assert (Hd : Z.of_nat 1 - Z.of_nat 0 < 2 ^ 32) by (cbn; lia).
  split; [split; [exact E|split; [exact Hij|split; [exact Hd|split; [exact Ei|exact Ej]]]]|].
  exact (signatures_differ const2 const2 const3 const2 key_example priv' [[x61]; [x61]]
           sigs 0 1 sgi sgj E Hij Hd Ei Ej).
Defined.

Lemma update_builds_subtree_example :
  ((1 <= 32)%nat /\ 0 <= 0 /\ (0 + 1) * 2 ^ Z.of_nat 1 <= 2 ^ 32) /\
  let s' := mkStack [mkNh (tree_node (PRF:=const2) (hashF_raw:=const2) (hashH_raw:=const3)
                             (priv:=key_example) (layer:=0) (tree:=0) 1 0) (Z.of_nat 1) 0]
              (Z.of_nat 1) (u32 ((0 + 1) * 2 ^ Z.of_nat 1)) 0 0 in
  update const2 const2 const3 (2 ^ (Z.of_nat 1 + 1) - 1) key_example
    (mkStack [] (Z.of_nat 1) (0 * 2 ^ Z.of_nat 1) 0 0) = Ok s' /\
  forall nn, update const2 const2 const3 nn key_example s' = Ok s'.
Proof.
  assert (H1 : (1 <= 32)%nat) by lia.
  assert (H2 : 0 <= 0) by lia.
  assert (H3 : (0 + 1) * 2 ^ Z.of_nat 1 <= 2 ^ 32) by (cbn; lia).
  split; [tauto|].
  exact (update_builds_subtree (PRF:=const2) (hashF_raw:=const2) (hashH_raw:=const3)
           key_example 0 0 1 0 H1 H2 H3).
Defined.

Lemma keygen_state_example :
  (1 <= 1 <= 32)%nat /\
  let base := mkPrivateKey (mkPublicKey (mkParams (Z.of_nat 1)) [x03] (zeros 32))
                (newPRF [x02]) (newPRF [x01]) None in
  (exists priv pub mk,
    NewXMSSKeyPairWithParams const2 const2 const3 1 (Z.of_nat 1) [x01] [x02] [x03] 0 0
    = Ok (priv, pub) /\
    Public priv = pub /\ Height (pub_params pub) = Z.of_nat 1 /\ publicSeed pub = [x03] /\
    root pub = tree_node (PRF:=const2) (hashF_raw:=const2) (hashH_raw:=const3)
                 (priv:=base) (layer:=0) (tree:=0) 1 0 /\
    msgPRF priv = newPRF [x02] /\ wotsPRF priv = newPRF [x01] /\
    priv_m priv = Some mk /\ m_leaf mk = 0 /\ m_height mk = Z.of_nat 1 /\
    m_layer mk = 0 /\ m_tree mk = 0 /\
    length (m_stacks mk) = 1%nat /\ length (m_auth mk) = 1%nat /\
    forall i, (i < 1)%nat ->
      m_auth mk !! i
      = Some (tree_node (PRF:=const2) (hashF_raw:=const2) (hashH_raw:=const3)
                (priv:=base) (layer:=0) (tree:=0) i 1) /\
      m_stacks mk !! i
      = Some (mkStack
                [mkNh (tree_node (PRF:=const2) (hashF_raw:=const2) (hashH_raw:=const3)
                         (priv:=base) (layer:=0) (tree:=0) i 0)
                   (Z.of_nat i) 0]
                (Z.of_nat i) (2 ^ Z.of_nat i) 0 0)) /\
  forall seed,
    NewXMSSKeyPair const2 const2 const3 const2 1 (Z.of_nat 1) seed
    = NewXMSSKeyPairWithParams const2 const2 const3 1 (Z.of_nat 1) (const2 seed [x01])
        (const2 seed [x02]) (const2 seed [x03]) 0 0.
Proof.
  assert (HH : (1 <= 1 <= 32)%nat) by lia.
  split; [exact HH|].
  exact (keygen_state (PRF:=const2) (hashF_raw:=const2) (hashH_raw:=const3)
           (hmac_sha256:=const2) 1 1 [x01] [x02] [x03] 0 0 HH).
Defined.

Lemma ltree_needs_67_blocks_example :
  Forall block32 (replicate 67 (zeros 32)) /\
  ((67 <= length (replicate 67 (zeros 32)))%nat ->
   exists r0 a',
     ltree const2 const3 (replicate 67 (zeros 32)) (newPRF []) make_addr = Ok (r0, a') /\
     length r0 = 32%nat) /\
  ((length (replicate 67 (zeros 32)) < 67)%nat ->
   ltree const2 const3 (replicate 67 (zeros 32)) (newPRF []) make_addr = Panic).
Proof.
  assert (Hb : Forall block32 (replicate 67 (zeros 32)))
    by (apply Forall_replicate; reflexivity).
  split; [exact Hb|].
  exact (ltree_needs_67_blocks (PRF:=const2) (hashH_raw:=const3)
           (replicate 67 (zeros 32)) (newPRF []) make_addr Hb).
Defined.

Lemma signature_contents_example :
  ((1 <= 1 <= 32)%nat /\ [[x61]; [x62]] !! 1%nat = Some [x62] /\
   Z.of_nat 1 < 2 ^ Z.of_nat 1) /\
  exists priv pub sigs priv' ws au,
    NewXMSSKeyPair const2 const2 const3 const2 1 (Z.of_nat 1) [] = Ok (priv, pub) /\
    sign_all const2 const2 const3 const2 priv [[x61]; [x62]] = Ok (sigs, priv') /\
    sigs !! 1%nat
    = Some (be32 (Z.of_nat 1)
            ++ sum const2 (newPRF (const2 [] [x02])) (zeros 28 ++ be32 (Z.of_nat 1))
            ++ concat ws ++ concat au) /\
    length ws = 67%nat /\ Forall block32 ws /\ length au = 1%nat /\
    forall i, (i < 1)%nat ->
      au !! i = Some (tree_node (PRF:=const2) (hashF_raw:=const2) (hashH_raw:=const3)
                        (priv:=base_key (hmac_sha256:=const2) 1 []) (layer:=0) (tree:=0) i
                        (Z.lxor (Z.of_nat 1 / 2 ^ Z.of_nat i) 1)).
Proof.
  assert (HH : (1 <= 1 <= 32)%nat) by lia.
  assert (Em : [[x61]; [x62]] !! 1%nat = Some [x62]) by reflexivity.
  assert (Hj : Z.of_nat 1 < 2 ^ Z.of_nat 1) by (cbn; lia).
  split; [split; [exact HH|split; [exact Em|exact Hj]]|].
  exact (signature_contents (PRF:=const2) (hashF_raw:=const2) (hashH_raw:=const3)
           (hashMsg_raw:=const2) (hmac_sha256:=const2) 1 1 [] [[x61]; [x62]] 1 [x62]
           HH Em Hj).
Defined.

Lemma stacks_stay_small_example :
  (1 <= 2 <= 32)%nat /\
  exists priv pub sigs priv' mk,
    NewXMSSKeyPair const2 const2 const3 const2 1 (Z.of_nat 2) [] = Ok (priv, pub) /\
    sign_all const2 const2 const3 const2 priv [[x61]] = Ok (sigs, priv') /\
    priv_m priv' = Some mk /\ length (m_stacks mk) = 2%nat /\
    forall h s, m_stacks mk !! h = Some s -> (length (st_stack s) <= h + 1)%nat.
Proof.
  assert (HH : (1 <= 2 <= 32)%nat) by lia.
  split; [exact HH|].
  exact (stacks_stay_small (PRF:=const2) (hashF_raw:=const2) (hashH_raw:=const3)
           (hashMsg_raw:=const2) (hmac_sha256:=const2) 1 2 [] [[x61]] HH).
Defined.

Lemma due_stacks_are_complete_example :
  ((1 <= 2 <= 32)%nat /\ (1 < 2)%nat /\
   (Z.of_nat (length [[x61]]) + 1) mod 2 ^ Z.of_nat 1 = 0) /\
  exists priv pub sigs priv' mk s,
    NewXMSSKeyPair const2 const2 const3 const2 1 (Z.of_nat 2) [] = Ok (priv, pub) /\
    sign_all const2 const2 const3 const2 priv [[x61]] = Ok (sigs, priv') /\
    priv_m priv' = Some mk /\ m_stacks mk !! 1%nat = Some s /\ done s = true /\
    (Z.of_nat (length [[x61]]) + 1 < 2 ^ Z.of_nat 2 ->
     st_stack s
     = [mkNh (tree_node (PRF:=const2) (hashF_raw:=const2) (hashH_raw:=const3)
                (priv:=base_key (hmac_sha256:=const2) 2 []) (layer:=0) (tree:=0) 1
                (Z.lxor ((Z.of_nat (length [[x61]]) + 1) / 2 ^ Z.of_nat 1) 1))
          (Z.of_nat 1)
          (Z.lxor ((Z.of_nat (length [[x61]]) + 1) / 2 ^ Z.of_nat 1) 1)]).
Proof.
  assert (HH : (1 <= 2 <= 32)%nat) by lia.
  assert (Hh : (1 < 2)%nat) by lia.
  assert (Hd : (Z.of_nat (length [[x61]]) + 1) mod 2 ^ Z.of_nat 1 = 0) by reflexivity.
  split; [split; [exact HH|split; [exact Hh|exact Hd]]|].
  exact (due_stacks_are_complete (PRF:=const2) (hashF_raw:=const2) (hashH_raw:=const3)
           (hashMsg_raw:=const2) (hmac_sha256:=const2) 1 2 [] [[x61]] 1 HH Hh Hd).
Defined.

Lemma Sign_changes_the_state_only_example :
  exists (sg : bytes) (priv' : PrivateKey),
    Sign const2 const2 const3 const2 key_example [x61] = Ok (sg, priv') /\
    (Public priv' = Public key_example /\ msgPRF priv' = msgPRF key_example /\
     wotsPRF priv' = wotsPRF key_example /\
     exists mk mk',
       priv_m key_example = Some mk /\ priv_m priv' = Some mk' /\
       m_leaf mk' = u32 (m_leaf mk + 1) /\ m_height mk' = m_height mk /\
       m_layer mk' = m_layer mk /\ m_tree mk' = m_tree mk /\
       length (m_stacks mk') = length (m_stacks mk) /\
       length (m_auth mk') = length (m_auth mk)).
Proof.
  destruct (keygen_first_extra (PRF:=const2) (hashF_raw:=const2) (hashH_raw:=const3)
              (hashMsg_raw:=const2) (hmac_sha256:=const2) 1 [] ltac:(lia) [x61])
    as (sg & priv' & Es & _).
  exists sg, priv'. split; [exact Es|].
  exact (Sign_changes_the_state_only (PRF:=const2) (hashF_raw:=const2) (hashH_raw:=const3)
           (hashMsg_raw:=const2) key_example priv' [x61] sg Es).
Defined.

Lemma Import_of_own_Export_example :
  (1 <= 1 <= 32)%nat /\
  exists priv pub sigs priv1 ex,
    NewXMSSKeyPair const2 const2 const3 const2 1 (Z.of_nat 1) [] = Ok (priv, pub) /\
    sign_all const2 const2 const3 const2 priv [[x61]] = Ok (sigs, priv1) /\
    Export priv1 = Ok ex /\ Index ex = u32 (Z.of_nat (length [[x61]])) /\
    Import const2 const2 const3 4 priv1 ex = Ok priv.
Proof.
  assert (HH : (1 <= 1 <= 32)%nat) by lia.
  split; [exact HH|].
  exact (Import_of_own_Export (PRF:=const2) (hashF_raw:=const2) (hashH_raw:=const3)
           (hashMsg_raw:=const2) (hmac_sha256:=const2) 1 4 1 [] [[x61]] HH).
Defined.

Lemma public_half_of_Export_example :
  exists (sigs : list bytes) (priv' : PrivateKey) (ex : PrivateKeyExport),
    (sign_all const2 const2 const3 const2 key_example [[x61]] = Ok (sigs, priv') /\
     Export priv' = Ok ex) /\
    (PublicKey_Import new_PublicKey (e_pub ex) = Public key_example /\
     e_pub ex = PublicKey_Export (Public key_example) /\
     forall bsig msg,
       Verify const2 const2 const3 const2 (PublicKey_Import new_PublicKey (e_pub ex)) bsig msg
       = Verify const2 const2 const3 const2 (Public key_example) bsig msg).
Proof.
  destruct (keygen_sign_all (PRF:=const2) (hashF_raw:=const2) (hashH_raw:=const3)
              (hashMsg_raw:=const2) (hmac_sha256:=const2) 1 [] [[x61]] ltac:(lia))
    as (sigs & priv' & E & _ & (mk' & Em & _) & _).
  destruct (Export_index priv' mk' Em) as (ex & Eex & _).
  exists sigs, priv', ex. split; [split; [exact E|exact Eex]|].
  exact (public_half_of_Export (PRF:=const2) (hashF_raw:=const2) (hashH_raw:=const3)
           (hashMsg_raw:=const2) new_PublicKey key_example priv' [[x61]] sigs ex E Eex).
Defined.

Lemma initMerkle_worker_count_example :
  (1 <= 4 < 2 ^ 31 /\ 1 <= 10) /\
  (0 <= nproc_of 4 10 < 10 /\
   0 <= shl32 1 (nproc_of 4 10) - 1 <= 2 * (4 - 1) /\
   (4 <= 2 ^ (10 - 1) -> 4 - 1 <= shl32 1 (nproc_of 4 10) - 1)).
Proof.
  assert (Hc : 1 <= 4 < 2 ^ 31) by lia.
  assert (Hh : 1 <= 10) by lia.
  split; [split; [exact Hc|exact Hh]|].
  exact (initMerkle_worker_count 4 10 Hc Hh).
Defined.

(** Decoders that return the seed and the root of the example key,
    whatever the input. *)
Definition public_decoder_example (der : bytes) : xmssPublicKeyData * bytes * option string :=
  (mkXmssPublicKeyData 0 (publicSeed pub_example) (root pub_example), [], None).

Definition info_decoder_example (der : bytes) : publicKeyInfo * bytes * option string :=
  (mkPublicKeyInfo der (algorithm_of OIDBCXMSS) (mkBitString der 0), [], None).

Definition parsed_example : PublicKey :=
  mkPublicKey (mkParams 10) (publicSeed pub_example) (root pub_example).

Lemma parsed_public_key_has_height_10_example :
  (parseXMSSPublicKey public_decoder_example [] = Ok parsed_example \/
   ParsePKIXPublicKey info_decoder_example public_decoder_example [] = Ok parsed_example) /\
  (Height (pub_params parsed_example) = 10 /\
   (forall bsig msg, sig_height bsig <> 10 ->
                     Verify const2 const2 const3 const2 parsed_example bsig msg = Ok false) /\
   (forall ncpu (H : nat) seed m,
       (1 <= H <= 32)%nat -> H <> 10%nat ->
       exists priv pub sg priv',
         NewXMSSKeyPair const2 const2 const3 const2 ncpu (Z.of_nat H) seed = Ok (priv, pub) /\
         Sign const2 const2 const3 const2 priv m = Ok (sg, priv') /\
         Verify const2 const2 const3 const2 pub sg m = Ok true /\
         Verify const2 const2 const3 const2 parsed_example sg m = Ok false)).
Proof.
  assert (Hp : parseXMSSPublicKey public_decoder_example [] = Ok parsed_example \/
               ParsePKIXPublicKey info_decoder_example public_decoder_example []
               = Ok parsed_example) by (left; reflexivity).
  split; [exact Hp|].
  exact (parsed_public_key_has_height_10 (PRF:=const2) (hashF_raw:=const2)
           (hashH_raw:=const3) (hashMsg_raw:=const2) (hmac_sha256:=const2)
           info_decoder_example public_decoder_example [] parsed_example Hp).
Defined.
